(** * BusTub storage engine: LRU replacer, buffer pool instance,
      hash-table bucket page and extendible hash index.

    A shallow embedding of
      - src/buffer/lru_replacer.cpp
      - src/buffer/buffer_pool_manager_instance.cpp
      - src/storage/page/hash_table_bucket_page.cpp
      - src/container/hash/extendible_hash_table.cpp
    Latches are not modelled: the calls are run one at a time.  The replacer
    and the buffer pool hold their latch for the whole body of a call, and so
    does [GetValue] of the index.  [Insert] of the index gives up the table
    latch before it calls [SplitInsert], and [Remove] before it calls [Merge];
    the callee takes the latch again and reads the directory and the bucket
    anew.  [SplitInsert] and [Merge] are therefore functions of their own
    here, and what is shown of them holds from every state that satisfies the
    invariant of the table, not only from the state their caller leaves. *)

From Stdlib Require Import ZArith Lia Bool.
From stdpp Require Import gmap list sorting.

Local Open Scope Z_scope.

(** ** Outcomes of a call

    [Ret a]     the call returns [a];
    [Fault]     the call does not return: a failed [assert], or undefined
                behaviour (null dereference, index outside a fixed array);
    [OutOfFuel] only for the fuel-indexed models of recursion and loops, and
                shown unreachable for the fuel the models are run with. *)
Inductive outcome (A : Type) : Type :=
  | Ret (a : A)
  | Fault
  | OutOfFuel.
Arguments Ret {A} a.
Arguments Fault {A}.
Arguments OutOfFuel {A}.

Definition obind {A B} (m : outcome A) (k : A → outcome B) : outcome B :=
  match m with
  | Ret a => k a
  | Fault => Fault
  | OutOfFuel => OutOfFuel
  end.

#[export] Instance outcome_bind : MBind outcome := λ A B k m, obind m k.
#[export] Instance outcome_ret : MRet outcome := λ A a, Ret a.

(** C [assert(c)] of a build with assertions enabled. *)
Definition assert (c : bool) : outcome unit := if c then Ret tt else Fault.

(** The call returned. *)
Definition is_Ret {A} (o : outcome A) : bool :=
  match o with
  | Ret _ => true
  | _ => false
  end.

(** The call did not return. *)
Definition is_Fault {A} (o : outcome A) : bool :=
  match o with
  | Fault => true
  | _ => false
  end.

(** Machine integers: [int] / [page_id_t] / [frame_id_t] are 32-bit signed,
    [uint32_t] is 32-bit unsigned, [uint8_t] 8-bit unsigned. *)
Definition to_uint32 (z : Z) : Z := z mod 2 ^ 32.
Definition to_int32 (z : Z) : Z := (z + 2 ^ 31) mod 2 ^ 32 - 2 ^ 31.
Definition to_uint8 (z : Z) : Z := z mod 2 ^ 8.

(** * LRU replacer (src/buffer/lru_replacer.cpp) *)
Module LRUReplacer.

(** [frames_] is the [std::list<frame_id_t>], front = least recently
    unpinned.  [frames_table_] is the [unordered_map] from a frame id to the
    list node holding it; its key set is what [find] consults, and the node
    it designates is the node carrying that frame id. *)
Record t : Type := mk { frames_ : list Z; frames_table_ : gset Z }.

Definition empty : t := mk [] ∅.

(** [frames_.erase(it->second)]: unlink the node that carries [f]. *)
Fixpoint erase_node (f : Z) (l : list Z) : list Z :=
  match l with
  | [] => []
  | x :: l' => if decide (x = f) then l' else x :: erase_node f l'
  end.

(** [bool Victim(frame_id_t *frame_id)]: [None] is [false] (the out
    parameter is left untouched), [Some f] is [true] with [*frame_id = f]. *)
Definition Victim (r : t) : option Z * t :=
  match frames_ r with
  | [] => (None, r)
  | f :: rest => (Some f, mk rest (frames_table_ r ∖ {[f]}))
  end.

Definition Pin (f : Z) (r : t) : t :=
  if decide (f ∈ frames_table_ r)
  then mk (erase_node f (frames_ r)) (frames_table_ r ∖ {[f]})
  else r.

Definition Unpin (f : Z) (r : t) : t :=
  if decide (f ∈ frames_table_ r)
  then r
  else mk (frames_ r ++ [f]) ({[f]} ∪ frames_table_ r).

Definition Size (r : t) : nat := length (frames_ r).

(** Operation sequences. *)
Inductive op : Type := OVictim | OPin (f : Z) | OUnpin (f : Z).

Definition step (r : t) (o : op) : t :=
  match o with
  | OVictim => snd (Victim r)
  | OPin f => Pin f r
  | OUnpin f => Unpin f r
  end.

Definition run (ops : list op) : t := foldl step empty ops.

(** [Victim] called up to [n] times, until it fails: the frames it returned,
    in order, and the replacer left. *)
Fixpoint victims (n : nat) (r : t) : list Z * t :=
  match n with
  | O => ([], r)
  | S n =>
      match Victim r with
      | (Some f, r') => let '(fs, r'') := victims n r' in (f :: fs, r'')
      | (None, r') => ([], r')
      end
  end.

(** *** The replacer as section 4.1 words it

    Candidates carry the logical time at which the [Unpin] that added them
    happened; [Victim] picks the candidate with the least such time. *)
Record lru : Type := mk_lru { stamp : gmap Z nat; clock : nat }.

Definition lru_empty : lru := mk_lru ∅ 0%nat.

Definition older (x : Z * nat) (acc : option (Z * nat)) : option (Z * nat) :=
  match acc with
  | None => Some x
  | Some y => if (snd x <? snd y)%nat then Some x else Some y
  end.

Definition least_recent (m : gmap Z nat) : option Z :=
  fst <$> foldr older None (map_to_list m).

Definition lru_Victim (s : lru) : option Z * lru :=
  match least_recent (stamp s) with
  | None => (None, s)
  | Some f => (Some f, mk_lru (delete f (stamp s)) (clock s))
  end.

Definition lru_Pin (f : Z) (s : lru) : lru :=
  mk_lru (delete f (stamp s)) (clock s).

Definition lru_Unpin (f : Z) (s : lru) : lru :=
  match stamp s !! f with
  | Some _ => s
  | None => mk_lru (<[f := clock s]> (stamp s)) (S (clock s))
  end.

Definition lru_step (s : lru) (o : op) : lru :=
  match o with
  | OVictim => snd (lru_Victim s)
  | OPin f => lru_Pin f s
  | OUnpin f => lru_Unpin f s
  end.

Definition lru_run (ops : list op) : lru := foldl lru_step lru_empty ops.

(** [f] is the least recently unpinned candidate of [s]. *)
Definition is_least_recent (s : lru) (f : Z) : Prop :=
  ∃ t, stamp s !! f = Some t ∧ ∀ g u, stamp s !! g = Some u → (t ≤ u)%nat.

(** Time stamp of a frame, 0 when it is not a candidate. *)
Definition time_of (s : lru) (f : Z) : nat := default 0%nat (stamp s !! f).

(** The list of the source against the stamped candidate set. *)
Record sim (r : t) (s : lru) : Prop := {
  sim_nodup : NoDup (frames_ r);
  sim_table : ∀ f, f ∈ frames_table_ r ↔ f ∈ frames_ r;
  sim_dom : ∀ f, f ∈ frames_ r ↔ is_Some (stamp s !! f);
  sim_sorted : StronglySorted lt (time_of s <$> frames_ r);
  sim_clock : ∀ f u, stamp s !! f = Some u → (u < clock s)%nat
}.

End LRUReplacer.

(** * Buffer pool manager instance
      (src/buffer/buffer_pool_manager_instance.cpp) *)
Module BufferPoolManagerInstance.

(** Constants of common/config.h, which is not under src/: the values are
    those of section 3 of the specification. *)
Definition PAGE_SIZE : nat := 4096.
Definition INVALID_PAGE_ID : Z := -1.

(** A frame: the page bytes and the metadata the pool reads and writes.
    [pin_count_] is a C [int]. *)
Record Page : Type := mkPage {
  data_ : list Z;
  page_id_ : Z;
  pin_count_ : Z;
  is_dirty_ : bool
}.

Definition zero_data : list Z := replicate PAGE_SIZE 0.

(** [Page::ResetMemory]: zero the bytes, leave the metadata. *)
Definition ResetMemory (p : Page) : Page :=
  mkPage zero_data (page_id_ p) (pin_count_ p) (is_dirty_ p).

(** Modelled from the spec: the constructor of [Page] (storage/page/page.h is
    not under src/): zeroed bytes, no page, no pin, not dirty. *)
Definition fresh_page : Page := mkPage zero_data INVALID_PAGE_ID 0 false.

(** Pool state.  [disk_] is the state of the disk collaborator the pool holds
    a pointer to: what [WritePage] stored per page id. *)
Record t : Type := mk {
  pool_size_ : nat;
  num_instances_ : Z;
  instance_index_ : Z;
  next_page_id_ : Z;
  pages_ : list Page;
  replacer_ : LRUReplacer.t;
  free_list_ : list Z;
  page_table_ : gmap Z Z;
  disk_ : gmap Z (list Z)
}.

(** Modelled from the spec: the disk collaborator (section 6), not under src/.
    [WritePage] persists the bytes under the page id, [ReadPage] fills the
    buffer with what was persisted (zeroes for a page never written). *)
Definition WritePage (disk : gmap Z (list Z)) (pid : Z) (data : list Z) : gmap Z (list Z) :=
  <[pid := data]> disk.
Definition ReadPage (disk : gmap Z (list Z)) (pid : Z) : list Z :=
  default zero_data (disk !! pid).

(** [&pages_[frame_id]]: outside the array the access is undefined. *)
Definition page_at (pages : list Page) (frame_id : Z) : outcome Page :=
  if decide (0 ≤ frame_id)
  then match pages !! Z.to_nat frame_id with
       | Some p => Ret p
       | None => Fault
       end
  else Fault.

Definition set_page (pages : list Page) (frame_id : Z) (p : Page) : list Page :=
  <[Z.to_nat frame_id := p]> pages.

(** The five-argument constructor. *)
Definition new (pool_size : nat) (num_instances instance_index : Z) : outcome t :=
  _ ← assert (bool_decide (0 < num_instances));
  _ ← assert (bool_decide (instance_index < num_instances));
  Ret (mk pool_size num_instances instance_index instance_index
          (replicate pool_size fresh_page) LRUReplacer.empty
          (Z.of_nat <$> seq 0 pool_size) ∅ ∅).

(** [ValidatePageId]: the comparison is made in [uint32_t]. *)
Definition ValidatePageId (b : t) (page_id : Z) : outcome unit :=
  if decide (num_instances_ b = 0) then Fault
  else assert (bool_decide (to_uint32 page_id mod num_instances_ b = instance_index_ b)).

(** [AllocatePage]: the sum is formed in [uint32_t] and stored in an [int]. *)
Definition AllocatePage (b : t) : outcome (Z * t) :=
  let next_page_id := next_page_id_ b in
  let b' := mk (pool_size_ b) (num_instances_ b) (instance_index_ b)
               (to_int32 (next_page_id_ b + num_instances_ b))
               (pages_ b) (replacer_ b) (free_list_ b) (page_table_ b) (disk_ b) in
  _ ← ValidatePageId b' next_page_id;
  Ret (next_page_id, b').

(** Step 2 of [NewPgImp] and [FetchPgImp]: the free list first, the replacer
    otherwise; [frame_id] keeps its initial [-1] when [Victim] fails. *)
Definition pick_frame (b : t) : Z * list Z * LRUReplacer.t :=
  match free_list_ b with
  | f :: rest => (f, rest, replacer_ b)
  | [] =>
      match LRUReplacer.Victim (replacer_ b) with
      | (Some f, r) => (f, [], r)
      | (None, r) => (-1, [], r)
      end
  end.

(** [Page *NewPgImp(page_id_t *page_id)]: [None] is [nullptr]; [Some (pid, f)]
    is [*page_id = pid] and the pointer [&pages_[f]]. *)
Definition NewPgImp (b : t) : outcome (option (Z * Z) * t) :=
  if bool_decide (LRUReplacer.Size (replacer_ b) = 0%nat) && bool_decide (free_list_ b = [])
  then Ret (None, b)
  else
    let '(frame_id, free_list, replacer) := pick_frame b in
    page ← page_at (pages_ b) frame_id;
    let disk := if is_dirty_ page
                then WritePage (disk_ b) (page_id_ page) (data_ page)
                else disk_ b in
    let page_table := delete (page_id_ page) (page_table_ b) in
    '(page_id, b1) ← AllocatePage
        (mk (pool_size_ b) (num_instances_ b) (instance_index_ b) (next_page_id_ b)
            (pages_ b) replacer free_list page_table disk);
    let page' := mkPage zero_data page_id (to_int32 (0 + 1)) false in
    Ret (Some (page_id, frame_id),
         mk (pool_size_ b1) (num_instances_ b1) (instance_index_ b1) (next_page_id_ b1)
            (set_page (pages_ b1) frame_id page') (replacer_ b1) (free_list_ b1)
            (<[page_id := frame_id]> (page_table_ b1)) (disk_ b1)).

(** [Page *FetchPgImp(page_id_t page_id)]: the frame of the page, or [None]. *)
Definition FetchPgImp (b : t) (page_id : Z) : outcome (option Z * t) :=
  match page_table_ b !! page_id with
  | Some frame_id =>
      page ← page_at (pages_ b) frame_id;
      let page' := mkPage (data_ page) (page_id_ page)
                          (to_int32 (pin_count_ page + 1)) (is_dirty_ page) in
      Ret (Some frame_id,
           mk (pool_size_ b) (num_instances_ b) (instance_index_ b) (next_page_id_ b)
              (set_page (pages_ b) frame_id page')
              (LRUReplacer.Pin frame_id (replacer_ b))
              (free_list_ b) (page_table_ b) (disk_ b))
  | None =>
      if bool_decide (LRUReplacer.Size (replacer_ b) = 0%nat) && bool_decide (free_list_ b = [])
      then Ret (None, b)
      else
        let '(frame_id, free_list, replacer) := pick_frame b in
        page ← page_at (pages_ b) frame_id;
        let disk := if is_dirty_ page
                    then WritePage (disk_ b) (page_id_ page) (data_ page)
                    else disk_ b in
        let page_table := <[page_id := frame_id]> (delete (page_id_ page) (page_table_ b)) in
        let page' := mkPage (ReadPage disk page_id) page_id (to_int32 (0 + 1)) false in
        Ret (Some frame_id,
             mk (pool_size_ b) (num_instances_ b) (instance_index_ b) (next_page_id_ b)
                (set_page (pages_ b) frame_id page') replacer free_list page_table disk)
  end.

Definition FlushPgImp (b : t) (page_id : Z) : outcome (bool * t) :=
  match page_table_ b !! page_id with
  | None => Ret (false, b)
  | Some frame_id =>
      page ← page_at (pages_ b) frame_id;
      let disk := if is_dirty_ page
                  then WritePage (disk_ b) (page_id_ page) (data_ page)
                  else disk_ b in
      Ret (true,
           mk (pool_size_ b) (num_instances_ b) (instance_index_ b) (next_page_id_ b)
              (pages_ b) (replacer_ b) (free_list_ b) (page_table_ b) disk)
  end.

Definition DeletePgImp (b : t) (page_id : Z) : outcome (bool * t) :=
  match page_table_ b !! page_id with
  | None => Ret (true, b)
  | Some frame_id =>
      page ← page_at (pages_ b) frame_id;
      if bool_decide (pin_count_ page ≠ 0) then Ret (false, b)
      else
        let disk := if is_dirty_ page
                    then WritePage (disk_ b) (page_id_ page) (data_ page)
                    else disk_ b in
        let page' := mkPage zero_data INVALID_PAGE_ID (pin_count_ page) false in
        Ret (true,
             mk (pool_size_ b) (num_instances_ b) (instance_index_ b) (next_page_id_ b)
                (set_page (pages_ b) frame_id page')
                (LRUReplacer.Pin frame_id (replacer_ b))
                (free_list_ b ++ [frame_id])
                (delete page_id (page_table_ b)) disk)
  end.

Definition UnpinPgImp (b : t) (page_id : Z) (is_dirty : bool) : outcome (bool * t) :=
  match page_table_ b !! page_id with
  | None => Ret (false, b)
  | Some frame_id =>
      page ← page_at (pages_ b) frame_id;
      let page' := mkPage (data_ page) (page_id_ page)
                          (to_int32 (pin_count_ page - 1))
                          (is_dirty || is_dirty_ page) in
      let replacer := if bool_decide (pin_count_ page' = 0)
                      then LRUReplacer.Unpin frame_id (replacer_ b)
                      else replacer_ b in
      Ret (true,
           mk (pool_size_ b) (num_instances_ b) (instance_index_ b) (next_page_id_ b)
              (set_page (pages_ b) frame_id page') replacer
              (free_list_ b) (page_table_ b) (disk_ b))
  end.

(** The allocator is usable: the next id is a non-negative [int] of this
    instance's residue class, and the stride does not leave the [int] range. *)
Record alloc_ok (b : t) : Prop := {
  alloc_instances : 0 < num_instances_ b;
  alloc_next : 0 ≤ next_page_id_ b;
  alloc_room : next_page_id_ b + num_instances_ b < 2 ^ 31;
  alloc_residue : next_page_id_ b mod num_instances_ b = instance_index_ b
}.

(** Every frame id held by the free list or the replacer is a frame of the
    pool. *)
Definition frames_ok (b : t) : Prop :=
  ∀ f, f ∈ free_list_ b ∨ f ∈ LRUReplacer.frames_ (replacer_ b) →
       0 ≤ f < Z.of_nat (length (pages_ b)).

(** [FlushAllPgsImp]: the loop over [page_table_].  The language leaves the
    order in which an [unordered_map] is iterated open; [order] is that
    order, an enumeration of the entries of the map. *)
Fixpoint FlushAllPgsImp_loop (order : list (Z * Z)) (pages : list Page)
    (disk : gmap Z (list Z)) : outcome (gmap Z (list Z)) :=
  match order with
  | [] => Ret disk
  | page_it :: rest =>
      page ← page_at pages page_it.2;
      FlushAllPgsImp_loop rest pages
        (if is_dirty_ page
         then WritePage disk (page_id_ page) (data_ page)
         else disk)
  end.

Definition FlushAllPgsImp (order : list (Z * Z)) (b : t) : outcome t :=
  disk ← FlushAllPgsImp_loop order (pages_ b) (disk_ b);
  Ret (mk (pool_size_ b) (num_instances_ b) (instance_index_ b) (next_page_id_ b)
          (pages_ b) (replacer_ b) (free_list_ b) (page_table_ b) disk).

(** What the disk holds for [pid] once the dirty ones among the resident
    pages [keys] have been written. *)
Definition flushed (b : t) (keys : list Z) (disk : gmap Z (list Z)) (pid : Z) :
    option (list Z) :=
  match page_table_ b !! pid with
  | Some f =>
      match page_at (pages_ b) f with
      | Ret p => if bool_decide (pid ∈ keys) && is_dirty_ p then Some (data_ p) else disk !! pid
      | _ => disk !! pid
      end
  | None => disk !! pid
  end.

(** Calls of the pool's operations, one after the other. *)
Inductive op : Type :=
  | ONewPg
  | OFetchPg (page_id : Z)
  | OUnpinPg (page_id : Z) (is_dirty : bool)
  | ODeletePg (page_id : Z)
  | OFlushPg (page_id : Z)
  | OFlushAllPgs.

Definition step (b : t) (o : op) : outcome t :=
  match o with
  | ONewPg => r ← NewPgImp b; Ret r.2
  | OFetchPg page_id => r ← FetchPgImp b page_id; Ret r.2
  | OUnpinPg page_id is_dirty => r ← UnpinPgImp b page_id is_dirty; Ret r.2
  | ODeletePg page_id => r ← DeletePgImp b page_id; Ret r.2
  | OFlushPg page_id => r ← FlushPgImp b page_id; Ret r.2
  | OFlushAllPgs => FlushAllPgsImp (map_to_list (page_table_ b)) b
  end.

(** The pin count of the page [page_id], when it is resident. *)
Definition pin_count_of (b : t) (page_id : Z) : option Z :=
  match page_table_ b !! page_id with
  | Some frame_id =>
      match page_at (pages_ b) frame_id with
      | Ret page => Some (pin_count_ page)
      | _ => None
      end
  | None => None
  end.

(** What a call needs of its caller: the allocator and the pin count stay
    within [int], and a page is fetched only under an id other than
    [INVALID_PAGE_ID] that lies below the allocator's next id, so that no
    later [NewPgImp] hands out the id of a resident page. *)
Definition allowed (b : t) (o : op) : Prop :=
  match o with
  | ONewPg => next_page_id_ b + num_instances_ b < 2 ^ 31
  | OFetchPg page_id =>
      page_id ≠ INVALID_PAGE_ID ∧ page_id < next_page_id_ b ∧
      ∀ n, pin_count_of b page_id = Some n → n < 2 ^ 31 - 1
  | OUnpinPg page_id _ => ∀ n, pin_count_of b page_id = Some n → - 2 ^ 31 < n
  | _ => True
  end.

(** [run b ops] performs [ops] from [b]; [allowed_run] says that each call is
    allowed in the state it is made in. *)
Fixpoint run (b : t) (ops : list op) : outcome t :=
  match ops with
  | [] => Ret b
  | o :: ops => b' ← step b o; run b' ops
  end.

Fixpoint allowed_run (b : t) (ops : list op) : Prop :=
  match ops with
  | [] => True
  | o :: ops =>
      allowed b o ∧
      match step b o with
      | Ret b' => allowed_run b' ops
      | _ => True
      end
  end.

(** [allowed] and [allowed_run], decided. *)
Definition allowedb (b : t) (o : op) : bool :=
  match o with
  | ONewPg => bool_decide (next_page_id_ b + num_instances_ b < 2 ^ 31)
  | OFetchPg page_id =>
      bool_decide (page_id ≠ INVALID_PAGE_ID) && bool_decide (page_id < next_page_id_ b) &&
      match pin_count_of b page_id with
      | Some n => bool_decide (n < 2 ^ 31 - 1)
      | None => true
      end
  | OUnpinPg page_id _ =>
      match pin_count_of b page_id with
      | Some n => bool_decide (- 2 ^ 31 < n)
      | None => true
      end
  | _ => true
  end.

Fixpoint allowed_runb (b : t) (ops : list op) : bool :=
  match ops with
  | [] => true
  | o :: ops =>
      allowedb b o &&
      match step b o with
      | Ret b' => allowed_runb b' ops
      | _ => true
      end
  end.

(** The bookkeeping of the pool: the allocator's next id is a non-negative id
    of this instance; the replacer holds each candidate once; a free frame
    holds no page, is not pinned and not dirty; a resident page has an
    allocated id and sits in the frame the page table names; a candidate of
    the replacer holds a resident page that is not pinned; every frame is
    free or holds a resident page. *)
Record pool_ok (b : t) : Prop := {
  ok_instances : 0 < num_instances_ b;
  ok_next : 0 ≤ next_page_id_ b;
  ok_residue : next_page_id_ b mod num_instances_ b = instance_index_ b;
  ok_length : length (pages_ b) = pool_size_ b;
  ok_replacer_nodup : NoDup (LRUReplacer.frames_ (replacer_ b));
  ok_replacer_table :
    ∀ f, f ∈ LRUReplacer.frames_table_ (replacer_ b) ↔ f ∈ LRUReplacer.frames_ (replacer_ b);
  ok_free_nodup : NoDup (free_list_ b);
  ok_free :
    ∀ f, f ∈ free_list_ b →
      ∃ p, page_at (pages_ b) f = Ret p ∧ page_id_ p = INVALID_PAGE_ID ∧
           pin_count_ p = 0 ∧ is_dirty_ p = false;
  ok_mapped :
    ∀ pid f, page_table_ b !! pid = Some f →
      pid ≠ INVALID_PAGE_ID ∧ pid < next_page_id_ b ∧
      ∃ p, page_at (pages_ b) f = Ret p ∧ page_id_ p = pid;
  ok_candidate :
    ∀ f, f ∈ LRUReplacer.frames_ (replacer_ b) →
      ∃ p, page_at (pages_ b) f = Ret p ∧ page_table_ b !! page_id_ p = Some f ∧
           pin_count_ p ≤ 0;
  ok_accounted :
    ∀ f p, page_at (pages_ b) f = Ret p →
      f ∈ free_list_ b ∨ page_table_ b !! page_id_ p = Some f
}.

End BufferPoolManagerInstance.

(** * Template parameters of the hash index

    [HashTableBucketPage<KeyType, ValueType, KeyComparator>] and
    [ExtendibleHashTable<KeyType, ValueType, KeyComparator>] are templates;
    a [HashTableTypes] is one instantiation together with the hash function
    object handed to the table's constructor. *)
Class HashTableTypes : Type := {
  KeyType : Type;
  ValueType : Type;
  (** [operator==] on [ValueType] *)
  ValueType_eq_dec :: EqDecision ValueType;
  (** [KeyComparator::operator()]: negative, zero or positive *)
  comparator_ : KeyType → KeyType → Z;
  (** [HashFunction<KeyType>::GetHash], a 64-bit value *)
  hash_fn_ : KeyType → Z;
  (** the key and the value whose bytes are all zero *)
  zero_key : KeyType;
  zero_value : ValueType;
  (** [sizeof(std::pair<KeyType, ValueType>)] *)
  sizeof_MappingType : nat
}.

(** What the index needs of its collaborators: a key compares equal to itself,
    and keys that compare equal hash alike. *)
Class HashTableLaws (T : HashTableTypes) : Prop := {
  comparator_refl : ∀ k : KeyType, comparator_ k k = 0;
  comparator_hash : ∀ k1 k2 : KeyType,
    comparator_ k1 k2 = 0 → hash_fn_ k1 = hash_fn_ k2
}.

(** * Bucket page (src/storage/page/hash_table_bucket_page.cpp) *)
Module HashTableBucketPage.
Section WithTypes.
Context {T : HashTableTypes}.

(** Modelled from the spec: the macro [BUCKET_ARRAY_SIZE] of
    storage/page/hash_table_page_defs.h, which is not under src/; section 6
    gives [4 * PAGE_SIZE / (4 * sizeof(entry) + 1)]. *)
Definition BUCKET_ARRAY_SIZE : nat :=
  (4 * BufferPoolManagerInstance.PAGE_SIZE / (4 * sizeof_MappingType + 1))%nat.

(** Number of bytes of each bitmap: [(BUCKET_ARRAY_SIZE - 1) / 8 + 1]. *)
Definition BITMAP_BYTES : nat := ((BUCKET_ARRAY_SIZE - 1) / 8 + 1)%nat.

(** The page bytes as the class lays them out: the two [char] bitmaps, each
    byte kept as its value in [0, 256), and the slot array. *)
Record t : Type := mk {
  occupied_ : list Z;
  readable_ : list Z;
  array_ : list (KeyType * ValueType)
}.

#[export] Instance MappingType_inhabited : Inhabited (KeyType * ValueType) :=
  populate (zero_key, zero_value).

(** A zeroed page seen as a bucket page. *)
Definition zero : t :=
  mk (replicate BITMAP_BYTES 0) (replicate BITMAP_BYTES 0)
     (replicate BUCKET_ARRAY_SIZE (zero_key, zero_value)).

(** [0x1 << (7 - (bucket_idx % 8))] *)
Definition bit_of (bucket_idx : nat) : Z :=
  Z.shiftl 1 (7 - Z.of_nat (bucket_idx mod 8)).

(** Storing an [int] into a [char] keeps its low eight bits. *)
Definition to_char (z : Z) : Z := Z.land z 255.

Definition KeyAt (b : t) (bucket_idx : nat) : KeyType := fst (array_ b !!! bucket_idx).
Definition ValueAt (b : t) (bucket_idx : nat) : ValueType := snd (array_ b !!! bucket_idx).

Definition RemoveAt (b : t) (bucket_idx : nat) : t :=
  let change := readable_ b !!! (bucket_idx / 8)%nat in
  mk (occupied_ b)
     (<[(bucket_idx / 8)%nat := to_char (Z.land change (Z.lnot (bit_of bucket_idx)))]> (readable_ b))
     (array_ b).

Definition IsOccupied (b : t) (bucket_idx : nat) : bool :=
  let bits := occupied_ b !!! (bucket_idx / 8)%nat in
  negb (Z.land bits (bit_of bucket_idx) =? 0).

Definition SetOccupied (b : t) (bucket_idx : nat) : t :=
  let change := occupied_ b !!! (bucket_idx / 8)%nat in
  mk (<[(bucket_idx / 8)%nat := to_char (Z.lor change (bit_of bucket_idx))]> (occupied_ b))
     (readable_ b) (array_ b).

Definition IsReadable (b : t) (bucket_idx : nat) : bool :=
  let bits := readable_ b !!! (bucket_idx / 8)%nat in
  negb (Z.land bits (bit_of bucket_idx) =? 0).

Definition SetReadable (b : t) (bucket_idx : nat) : t :=
  let change := readable_ b !!! (bucket_idx / 8)%nat in
  mk (occupied_ b)
     (<[(bucket_idx / 8)%nat := to_char (Z.lor change (bit_of bucket_idx))]> (readable_ b))
     (array_ b).

(** [array_[i].first = key; array_[i].second = value] *)
Definition set_entry (b : t) (bucket_idx : nat) (key : KeyType) (value : ValueType) : t :=
  mk (occupied_ b) (readable_ b) (<[bucket_idx := (key, value)]> (array_ b)).

(** The slot holds a live entry that compares equal to [key]. *)
Definition key_match (b : t) (key : KeyType) (i : nat) : bool :=
  IsReadable b i && (comparator_ (KeyAt b i) key =? 0).

(** The slot holds a live entry equal to [(key, value)]. *)
Definition entry_match (b : t) (key : KeyType) (value : ValueType) (i : nat) : bool :=
  IsReadable b i && (comparator_ (KeyAt b i) key =? 0) && bool_decide (ValueAt b i = value).

(** The loop of [GetValue] over the slot indices still to visit. *)
Fixpoint GetValue_loop (b : t) (key : KeyType) (idxs : list nat)
    (flag : bool) (result : list ValueType) : bool * list ValueType :=
  match idxs with
  | [] => (flag, result)
  | curr_idx :: rest =>
      if key_match b key curr_idx
      then GetValue_loop b key rest true (result ++ [ValueAt b curr_idx])
      else GetValue_loop b key rest flag result
  end.

(** [bool GetValue(key, cmp, std::vector<ValueType> *result)]: the values are
    appended to [result]. *)
Definition GetValue (b : t) (key : KeyType) (result : list ValueType) : bool * list ValueType :=
  GetValue_loop b key (seq 0 BUCKET_ARRAY_SIZE) false result.

(** The loop of [Insert]: [None] is the [return false] inside the loop,
    [Some insert_index] the value of [insert_index] when the loop ends. *)
Fixpoint Insert_loop (b : t) (key : KeyType) (value : ValueType) (idxs : list nat)
    (insert_index : nat) : option nat :=
  match idxs with
  | [] => Some insert_index
  | curr_idx :: rest =>
      let insert_index :=
        if (insert_index =? BUCKET_ARRAY_SIZE)%nat
        then (if negb (IsReadable b curr_idx) then curr_idx else insert_index)
        else insert_index in
      if entry_match b key value curr_idx
      then None
      else Insert_loop b key value rest insert_index
  end.

Definition Insert (b : t) (key : KeyType) (value : ValueType) : bool * t :=
  match Insert_loop b key value (seq 0 BUCKET_ARRAY_SIZE) BUCKET_ARRAY_SIZE with
  | None => (false, b)
  | Some insert_index =>
      if (insert_index =? BUCKET_ARRAY_SIZE)%nat then (false, b)
      else (true,
            SetReadable (SetOccupied (set_entry b insert_index key value) insert_index)
                        insert_index)
  end.

(** What a successful [Insert] writes at slot [p]. *)
Definition put (b : t) (p : nat) (k : KeyType) (v : ValueType) : t :=
  SetReadable (SetOccupied (set_entry b p k v) p) p.

Fixpoint Remove_loop (b : t) (key : KeyType) (value : ValueType) (idxs : list nat)
    (flag : bool) : bool * t :=
  match idxs with
  | [] => (flag, b)
  | curr_idx :: rest =>
      if entry_match b key value curr_idx
      then Remove_loop (RemoveAt b curr_idx) key value rest true
      else Remove_loop b key value rest flag
  end.

Definition Remove (b : t) (key : KeyType) (value : ValueType) : bool * t :=
  Remove_loop b key value (seq 0 BUCKET_ARRAY_SIZE) false.

(** The loop of [IsFull] over the bitmap bytes. *)
Fixpoint IsFull_loop (b : t) (idxs : list nat) : bool :=
  match idxs with
  | [] => true
  | i :: rest =>
      if negb (Z.land (readable_ b !!! i) 255 =? 0) then false
      else IsFull_loop b rest
  end.

Definition IsFull (b : t) : bool :=
  IsFull_loop b (seq 0 ((BUCKET_ARRAY_SIZE - 1) / 8 + 1)).

Fixpoint NumReadable_loop (b : t) (idxs : list nat) (ans : Z) : Z :=
  match idxs with
  | [] => ans
  | curr_idx :: rest =>
      NumReadable_loop b rest (ans + (if IsReadable b curr_idx then 1 else 0))
  end.

Definition NumReadable (b : t) : Z :=
  to_uint32 (NumReadable_loop b (seq 0 BUCKET_ARRAY_SIZE) 0).

Fixpoint IsEmpty_loop (b : t) (idxs : list nat) : bool :=
  match idxs with
  | [] => true
  | i :: rest => if IsReadable b i then false else IsEmpty_loop b rest
  end.

Definition IsEmpty (b : t) : bool := IsEmpty_loop b (seq 0 BUCKET_ARRAY_SIZE).

(** The bytes are those of a bucket page: bitmaps and slot array have their
    declared lengths and every bitmap byte is a byte. *)
Record wf (b : t) : Prop := {
  wf_occupied : length (occupied_ b) = BITMAP_BYTES;
  wf_readable : length (readable_ b) = BITMAP_BYTES;
  wf_array : length (array_ b) = BUCKET_ARRAY_SIZE;
  wf_occupied_bytes : Forall (λ x, 0 ≤ x < 256) (occupied_ b);
  wf_readable_bytes : Forall (λ x, 0 ≤ x < 256) (readable_ b)
}.

(** The page after inserting the entries in order. *)
Definition fill (b : t) (entries : list (KeyType * ValueType)) : t :=
  foldl (λ b e, snd (Insert b e.1 e.2)) b entries.

(** BK-1: a readable slot is occupied. *)
Definition bk1 (b : t) : Prop :=
  ∀ i, (i < BUCKET_ARRAY_SIZE)%nat → IsReadable b i = true → IsOccupied b i = true.

(** Some live slot of [b] holds the pair [(k, v)]. *)
Definition holds (b : t) (k : KeyType) (v : ValueType) : Prop :=
  ∃ i, (i < BUCKET_ARRAY_SIZE)%nat ∧ IsReadable b i = true ∧ KeyAt b i = k ∧ ValueAt b i = v.

End WithTypes.
End HashTableBucketPage.

(** * Directory page

    storage/page/hash_table_directory_page.cpp is not under src/.  Each
    definition below is written from sections 3, 4.4, 6 and 7 of the
    specification. *)
Module HashTableDirectoryPage.

(** Modelled from the spec: [MAX_DEPTH] and [DIR_SIZE = 1 << MAX_DEPTH = 512]
    (section 6). *)
Definition MAX_DEPTH : Z := 9.
Definition DIRECTORY_ARRAY_SIZE : Z := 512.

(** Modelled from the spec: the persisted layout of section 6, the two arrays
    as maps from the slot index (an absent slot holds zero bytes). *)
Record t : Type := mk {
  page_id_ : Z;
  global_depth_ : Z;
  local_depths_ : gmap Z Z;
  bucket_page_ids_ : gmap Z Z
}.

(** A zeroed page seen as a directory page. *)
Definition zero : t := mk 0 0 ∅ ∅.

(** Modelled from the spec: the accessors the index calls on its directory
    page, which section 4.4 uses by name. *)
Definition GetPageId (d : t) : Z := page_id_ d.
Definition SetPageId (d : t) (page_id : Z) : t :=
  mk page_id (global_depth_ d) (local_depths_ d) (bucket_page_ids_ d).
Definition GetBucketPageId (d : t) (bucket_idx : Z) : Z :=
  default 0 (bucket_page_ids_ d !! bucket_idx).
Definition SetBucketPageId (d : t) (bucket_idx : Z) (bucket_page_id : Z) : t :=
  mk (page_id_ d) (global_depth_ d) (local_depths_ d)
     (<[bucket_idx := bucket_page_id]> (bucket_page_ids_ d)).
Definition GetLocalDepth (d : t) (bucket_idx : Z) : Z :=
  default 0 (local_depths_ d !! bucket_idx).
(** Modelled from the spec: a local depth is one byte (section 6). *)
Definition SetLocalDepth (d : t) (bucket_idx : Z) (local_depth : Z) : t :=
  mk (page_id_ d) (global_depth_ d)
     (<[bucket_idx := to_uint8 local_depth]> (local_depths_ d)) (bucket_page_ids_ d).
Definition IncrLocalDepth (d : t) (bucket_idx : Z) : t :=
  SetLocalDepth d bucket_idx (GetLocalDepth d bucket_idx + 1).
Definition DecrLocalDepth (d : t) (bucket_idx : Z) : t :=
  SetLocalDepth d bucket_idx (GetLocalDepth d bucket_idx - 1).
Definition GetGlobalDepth (d : t) : Z := global_depth_ d.

(** Modelled from the spec: D-5, the routing mask [(1 << global_depth) - 1]. *)
Definition GetGlobalDepthMask (d : t) : Z := Z.shiftl 1 (global_depth_ d) - 1.

(** Modelled from the spec: section 4.4, the mask [(1 << local_depth) - 1] of
    a slot. *)
Definition GetLocalDepthMask (d : t) (bucket_idx : Z) : Z :=
  Z.shiftl 1 (GetLocalDepth d bucket_idx) - 1.

(** Modelled from the spec: section 3, the first [2^global_depth] entries are
    live. *)
Definition Size (d : t) : Z := Z.shiftl 1 (global_depth_ d).

(** Modelled from the spec: section 7, a split that would need a global depth
    above [MAX_DEPTH] is fatal. *)
Definition IncrGlobalDepth (d : t) : outcome t :=
  _ ← assert (global_depth_ d <? MAX_DEPTH);
  Ret (mk (page_id_ d) (global_depth_ d + 1) (local_depths_ d) (bucket_page_ids_ d)).

Definition DecrGlobalDepth (d : t) : t :=
  mk (page_id_ d) (global_depth_ d - 1) (local_depths_ d) (bucket_page_ids_ d).

(** Modelled from the spec: section 4.4 (Merge, step 3),
    [slot ^ (1 << (local_depth[slot] - 1))]. *)
Definition GetSplitImageIndex (d : t) (bucket_idx : Z) : Z :=
  Z.lxor bucket_idx (Z.shiftl 1 (GetLocalDepth d bucket_idx - 1)).

(** Modelled from the spec: D-4, every live local depth is below the global
    depth. *)
Definition CanShrink (d : t) : bool :=
  forallb (λ i, GetLocalDepth d i <? global_depth_ d) (seqZ 0 (Size d)).

(** Modelled from the spec: section 4.4 only says the call is read-only
    introspection; the checks it makes are not specified and it is taken to
    return. *)
Definition VerifyIntegrity (d : t) : outcome unit := Ret tt.

End HashTableDirectoryPage.

(** * Extendible hash index (src/container/hash/extendible_hash_table.cpp) *)
Module ExtendibleHashTable.
Module B := HashTableBucketPage.
Module D := HashTableDirectoryPage.
Section WithTypes.
Context {T : HashTableTypes}.

(** A page's bytes, by the type through which they were last written; a page
    fresh from [NewPage] is zeroed and reads as a zeroed page of either
    type. *)
Inductive page : Type :=
  | RawZero
  | DirPage (d : D.t)
  | BucketPage (b : B.t).

(** [reinterpret_cast<HashTableDirectoryPage *>(...->GetData())] *)
Definition as_dir (p : page) : outcome D.t :=
  match p with
  | RawZero => Ret D.zero
  | DirPage d => Ret d
  | BucketPage _ => Fault
  end.

(** [reinterpret_cast<HASH_TABLE_BUCKET_TYPE *>(...->GetData())] *)
Definition as_bucket (p : page) : outcome B.t :=
  match p with
  | RawZero => Ret B.zero
  | BucketPage b => Ret b
  | DirPage _ => Fault
  end.

(** The calls the index makes on its buffer pool manager. *)
Inductive call : Type :=
  | CallNewPage (page_id : Z)
  | CallFetchPage (page_id : Z)
  | CallUnpinPage (page_id : Z) (is_dirty : bool)
  | CallDeletePage (page_id : Z).

(** The index object: [directory_page_id_], and the state behind
    [buffer_pool_manager_] as the index can observe it.

    The index is written against the abstract [BufferPoolManager], whose
    [NewPage], [FetchPage], [UnpinPage] and [DeletePage] forward to the
    [*PgImp] functions modelled above.  The pool is taken to have a frame
    available whenever the index asks for one, so pages are kept by page id:
    [pages] holds the bytes last stored through a pointer to the page, [pins]
    its pin count, [next_page_id] the allocator (one instance, stride 1), and
    [calls] records every call in order. *)
Record t : Type := mk {
  directory_page_id_ : Z;
  pages : gmap Z page;
  pins : gmap Z Z;
  next_page_id : Z;
  calls : list call
}.

Definition pin_of (ht : t) (page_id : Z) : Z := default 0 (pins ht !! page_id).

(** [NewPage(&page_id)]: a zeroed page under the allocator's next id, pinned
    once. *)
Definition NewPage (ht : t) : Z * t :=
  let page_id := next_page_id ht in
  (page_id,
   mk (directory_page_id_ ht) (<[page_id := RawZero]> (pages ht))
      (<[page_id := 1]> (pins ht)) (page_id + 1)
      (calls ht ++ [CallNewPage page_id])).

(** [FetchPage(page_id)]: one more pin.  A page id that was never allocated,
    or was deleted, has no defined bytes. *)
Definition FetchPage (ht : t) (page_id : Z) : outcome (page * t) :=
  match pages ht !! page_id with
  | None => Fault
  | Some pg =>
      Ret (pg,
           mk (directory_page_id_ ht) (pages ht)
              (<[page_id := pin_of ht page_id + 1]> (pins ht)) (next_page_id ht)
              (calls ht ++ [CallFetchPage page_id]))
  end.

(** [UnpinPage(page_id, is_dirty)]: as [UnpinPgImp], false for a page the pool
    does not hold, one pin less otherwise. *)
Definition UnpinPage (ht : t) (page_id : Z) (is_dirty : bool) : bool * t :=
  match pages ht !! page_id with
  | None =>
      (false,
       mk (directory_page_id_ ht) (pages ht) (pins ht) (next_page_id ht)
          (calls ht ++ [CallUnpinPage page_id is_dirty]))
  | Some _ =>
      (true,
       mk (directory_page_id_ ht) (pages ht)
          (<[page_id := pin_of ht page_id - 1]> (pins ht)) (next_page_id ht)
          (calls ht ++ [CallUnpinPage page_id is_dirty]))
  end.

(** [DeletePage(page_id)]: as [DeletePgImp], true for a page the pool does not
    hold, false for a pinned page, and otherwise the page is gone. *)
Definition DeletePage (ht : t) (page_id : Z) : bool * t :=
  match pages ht !! page_id with
  | None =>
      (true,
       mk (directory_page_id_ ht) (pages ht) (pins ht) (next_page_id ht)
          (calls ht ++ [CallDeletePage page_id]))
  | Some _ =>
      if bool_decide (pin_of ht page_id ≠ 0)
      then (false,
            mk (directory_page_id_ ht) (pages ht) (pins ht) (next_page_id ht)
               (calls ht ++ [CallDeletePage page_id]))
      else (true,
            mk (directory_page_id_ ht) (delete page_id (pages ht))
               (delete page_id (pins ht)) (next_page_id ht)
               (calls ht ++ [CallDeletePage page_id]))
  end.

(** A store through the pointer to a pinned page. *)
Definition write_page (ht : t) (page_id : Z) (pg : page) : t :=
  mk (directory_page_id_ ht) (<[page_id := pg]> (pages ht)) (pins ht)
     (next_page_id ht) (calls ht).

(** The constructor, on a pool whose allocator stands at [first_page_id] and
    which holds no page yet. *)
Definition new (first_page_id : Z) : outcome t :=
  let ht := mk 0 ∅ ∅ first_page_id [] in
  let '(directory_page_id, ht) := NewPage ht in
  let ht := mk directory_page_id (pages ht) (pins ht) (next_page_id ht) (calls ht) in
  dir_page ← as_dir RawZero;
  let dir_page := D.SetPageId dir_page directory_page_id in
  let '(first_bucket_index, ht) := NewPage ht in
  let dir_page := D.SetBucketPageId dir_page 0 first_bucket_index in
  let dir_page := D.SetLocalDepth dir_page 0 0 in
  let ht := write_page ht directory_page_id (DirPage dir_page) in
  let ht := snd (UnpinPage ht first_bucket_index true) in
  let ht := snd (UnpinPage ht directory_page_id true) in
  Ret ht.

(** [Hash]: the 64-bit hash cut down to 32 bits. *)
Definition Hash (key : KeyType) : Z := to_uint32 (hash_fn_ key).

Definition KeyToDirectoryIndex (key : KeyType) (dir_page : D.t) : Z :=
  Z.land (Hash key) (D.GetGlobalDepthMask dir_page).

Definition KeyToPageId (key : KeyType) (dir_page : D.t) : Z :=
  D.GetBucketPageId dir_page (KeyToDirectoryIndex key dir_page).

Definition FetchDirectoryPage (ht : t) : outcome (D.t * t) :=
  '(pg, ht) ← FetchPage ht (directory_page_id_ ht);
  d ← as_dir pg;
  Ret (d, ht).

Definition FetchBucketPage (ht : t) (bucket_page_id : Z) : outcome (B.t * t) :=
  '(pg, ht) ← FetchPage ht bucket_page_id;
  b ← as_bucket pg;
  Ret (b, ht).

(** [GetValue(transaction, key, result)] *)
Definition GetValue (ht : t) (key : KeyType) (result : list ValueType)
    : outcome (bool * list ValueType * t) :=
  '(dir_page, ht) ← FetchDirectoryPage ht;
  let bucket_page_id := KeyToPageId key dir_page in
  '(bucket_page, ht) ← FetchBucketPage ht bucket_page_id;
  let '(flag, result) := B.GetValue bucket_page key result in
  let ht := snd (UnpinPage ht (directory_page_id_ ht) false) in
  let ht := snd (UnpinPage ht bucket_page_id false) in
  Ret (flag, result, ht).

(** The first loop of [SplitInsert]: [(is_duplicate, free_pos)] when the loop
    is left, by [break] or at its end. *)
Fixpoint SplitInsert_scan (old_bucket_page : B.t) (key : KeyType) (value : ValueType)
    (idxs : list nat) (free_pos : nat) : bool * nat :=
  match idxs with
  | [] => (false, free_pos)
  | i :: rest =>
      let free_pos :=
        if (free_pos =? B.BUCKET_ARRAY_SIZE)%nat
        then (if negb (B.IsOccupied old_bucket_page i) || negb (B.IsReadable old_bucket_page i)
              then i else free_pos)
        else free_pos in
      if B.IsReadable old_bucket_page i
         && (comparator_ (B.KeyAt old_bucket_page i) key =? 0)
         && bool_decide (B.ValueAt old_bucket_page i = value)
      then (true, free_pos)
      else SplitInsert_scan old_bucket_page key value rest free_pos
  end.

(** The redistribution loop of either branch: every slot must be readable;
    an entry for which [moves] holds is inserted into the new bucket and
    removed from the old one.  Returns the two buckets and [is_free]. *)
Fixpoint redistribute (moves : KeyType → bool) (old_bucket_page new_bucket_page : B.t)
    (idxs : list nat) (is_free : bool) : outcome (B.t * B.t * bool) :=
  match idxs with
  | [] => Ret (old_bucket_page, new_bucket_page, is_free)
  | i :: rest =>
      _ ← assert (B.IsReadable old_bucket_page i);
      let cur_key := B.KeyAt old_bucket_page i in
      if moves cur_key
      then
        let new_bucket_page :=
          snd (B.Insert new_bucket_page cur_key (B.ValueAt old_bucket_page i)) in
        let old_bucket_page := B.RemoveAt old_bucket_page i in
        redistribute moves old_bucket_page new_bucket_page rest true
      else redistribute moves old_bucket_page new_bucket_page rest is_free
  end.

(** The directory doubling loop of the first branch. *)
Definition grow_step (dir_page : D.t) (index : Z) : D.t :=
  let mask := Z.shiftl 1 (D.GetGlobalDepth dir_page) in
  let dir_page :=
    D.SetBucketPageId dir_page (Z.lor index mask) (D.GetBucketPageId dir_page index) in
  D.SetLocalDepth dir_page (Z.lor index mask) (D.GetLocalDepth dir_page index).

Definition grow (dir_page : D.t) : D.t :=
  foldl grow_step dir_page (seqZ 0 (D.Size dir_page)).

(** The pointer fan-out loop of the second branch. *)
Fixpoint fan_out (dir_page : D.t) (idxs : list Z) (index new_index local_depth mask : Z)
    (old_bucket_page_id new_bucket_page_id : Z) : outcome D.t :=
  match idxs with
  | [] => Ret dir_page
  | i :: rest =>
      if D.GetBucketPageId dir_page i =? old_bucket_page_id
      then
        _ ← assert ((i =? index) || (i =? new_index)
                     || (D.GetLocalDepth dir_page i =? local_depth));
        let dir_page := D.SetLocalDepth dir_page i (local_depth + 1) in
        let dir_page :=
          D.SetBucketPageId dir_page i
            (if Z.land i mask =? Z.land index mask
             then old_bucket_page_id else new_bucket_page_id) in
        fan_out dir_page rest index new_index local_depth mask
                old_bucket_page_id new_bucket_page_id
      else fan_out dir_page rest index new_index local_depth mask
                   old_bucket_page_id new_bucket_page_id
  end.

(** How one activation of [SplitInsert] ends: with a [return], or with the
    recursive call [return SplitInsert(transaction, key, value)]. *)
Inductive activation : Type :=
  | Return (ret : bool)
  | Recurse.

(** The branch [GetLocalDepth(index) == GetGlobalDepth()]. *)
Definition SplitInsert_grow (ht : t) (dir_page : D.t) (index old_bucket_page_id : Z)
    (old_bucket_page : B.t) (key : KeyType) (value : ValueType)
    : outcome (activation * t) :=
  let new_index := Z.lor index (Z.shiftl 1 (D.GetGlobalDepth dir_page)) in
  let dir_page := grow dir_page in
  dir_page ← D.IncrGlobalDepth dir_page;
  _ ← assert (D.GetBucketPageId dir_page index =? D.GetBucketPageId dir_page new_index);
  let '(new_bucket_page_id, ht) := NewPage ht in
  new_bucket_page ← as_bucket RawZero;
  '(old_bucket_page, new_bucket_page, is_free) ←
    redistribute (λ cur_key, KeyToDirectoryIndex cur_key dir_page =? new_index)
                 old_bucket_page new_bucket_page (seq 0 B.BUCKET_ARRAY_SIZE) false;
  let dir_page := D.SetBucketPageId dir_page new_index new_bucket_page_id in
  let dir_page := D.SetLocalDepth dir_page new_index (D.GetGlobalDepth dir_page) in
  let dir_page := D.SetLocalDepth dir_page index (D.GetGlobalDepth dir_page) in
  let key_index := KeyToDirectoryIndex key dir_page in
  '(old_bucket_page, new_bucket_page, ret) ←
    (if (key_index =? index) && is_free
     then
       let '(test, old_bucket_page) := B.Insert old_bucket_page key value in
       _ ← assert test;
       Ret (old_bucket_page, new_bucket_page, true)
     else if key_index =? new_index
     then
       let '(test, new_bucket_page) := B.Insert new_bucket_page key value in
       _ ← assert test;
       Ret (old_bucket_page, new_bucket_page, true)
     else Ret (old_bucket_page, new_bucket_page, false)) : outcome (B.t * B.t * bool);
  let ht := write_page ht old_bucket_page_id (BucketPage old_bucket_page) in
  let ht := write_page ht new_bucket_page_id (BucketPage new_bucket_page) in
  let ht := write_page ht (directory_page_id_ ht) (DirPage dir_page) in
  let ht := snd (UnpinPage ht old_bucket_page_id is_free) in
  let ht := snd (UnpinPage ht new_bucket_page_id (is_free || (key_index =? new_index))) in
  let ht := snd (UnpinPage ht (directory_page_id_ ht) true) in
  Ret (if ret : bool then Return true else Recurse, ht).

(** The branch [GetLocalDepth(index) != GetGlobalDepth()]. *)
Definition SplitInsert_local (ht : t) (dir_page : D.t) (index old_bucket_page_id : Z)
    (old_bucket_page : B.t) (key : KeyType) (value : ValueType)
    : outcome (activation * t) :=
  let local_depth := D.GetLocalDepth dir_page index in
  let new_index := Z.lxor (Z.shiftl 1 (D.GetLocalDepth dir_page index)) index in
  _ ← assert (local_depth <? D.GetGlobalDepth dir_page);
  let '(new_bucket_page_id, ht) := NewPage ht in
  new_bucket_page ← as_bucket RawZero;
  _ ← assert (D.GetLocalDepth dir_page new_index =? local_depth);
  let dir_page := D.SetBucketPageId dir_page new_index new_bucket_page_id in
  let dir_page := D.IncrLocalDepth dir_page index in
  let dir_page := D.IncrLocalDepth dir_page new_index in
  let mask := D.GetLocalDepthMask dir_page index in
  '(old_bucket_page, new_bucket_page, is_free) ←
    redistribute (λ cur_key, Z.land mask (Hash cur_key) =? Z.land new_index mask)
                 old_bucket_page new_bucket_page (seq 0 B.BUCKET_ARRAY_SIZE) false;
  let size := D.Size dir_page in
  let mask := D.GetLocalDepthMask dir_page index in
  dir_page ← fan_out dir_page (seqZ 0 size) index new_index local_depth mask
                     old_bucket_page_id new_bucket_page_id;
  '(old_bucket_page, ret) ←
    (if is_free
     then
       let '(test, old_bucket_page) := B.Insert old_bucket_page key value in
       _ ← assert test;
       Ret (old_bucket_page, true)
     else Ret (old_bucket_page, false)) : outcome (B.t * bool);
  let ht := write_page ht old_bucket_page_id (BucketPage old_bucket_page) in
  let ht := write_page ht new_bucket_page_id (BucketPage new_bucket_page) in
  let ht := write_page ht (directory_page_id_ ht) (DirPage dir_page) in
  let ht := snd (UnpinPage ht old_bucket_page_id is_free) in
  let ht := snd (UnpinPage ht new_bucket_page_id is_free) in
  let ht := snd (UnpinPage ht (directory_page_id_ ht) true) in
  Ret (if ret : bool then Return true else Recurse, ht).

(** One activation of [SplitInsert], up to its [return]. *)
Definition SplitInsert_body (ht : t) (key : KeyType) (value : ValueType)
    : outcome (activation * t) :=
  '(dir_page, ht) ← FetchDirectoryPage ht;
  let index := KeyToDirectoryIndex key dir_page in
  let old_bucket_page_id := D.GetBucketPageId dir_page index in
  '(old_bucket_page, ht) ← FetchBucketPage ht old_bucket_page_id;
  let '(is_duplicate, free_pos) :=
    SplitInsert_scan old_bucket_page key value (seq 0 B.BUCKET_ARRAY_SIZE)
                     B.BUCKET_ARRAY_SIZE in
  if is_duplicate
  then
    let ht := snd (UnpinPage ht (directory_page_id_ ht) false) in
    let ht := snd (UnpinPage ht old_bucket_page_id false) in
    Ret (Return false, ht)
  else if negb (free_pos =? B.BUCKET_ARRAY_SIZE)%nat
  then
    let old_bucket_page := snd (B.Insert old_bucket_page key value) in
    let ht := write_page ht old_bucket_page_id (BucketPage old_bucket_page) in
    let ht := snd (UnpinPage ht (directory_page_id_ ht) false) in
    let ht := snd (UnpinPage ht old_bucket_page_id true) in
    Ret (Return true, ht)
  else if D.GetLocalDepth dir_page index =? D.GetGlobalDepth dir_page
  then SplitInsert_grow ht dir_page index old_bucket_page_id old_bucket_page key value
  else SplitInsert_local ht dir_page index old_bucket_page_id old_bucket_page key value.

(** [SplitInsert] with a bound on the depth of its recursion. *)
Fixpoint SplitInsert_rec (fuel : nat) (ht : t) (key : KeyType) (value : ValueType)
    : outcome (bool * t) :=
  match fuel with
  | O => OutOfFuel
  | S fuel =>
      '(a, ht) ← SplitInsert_body ht key value;
      match a with
      | Return ret => Ret (ret, ht)
      | Recurse => SplitInsert_rec fuel ht key value
      end
  end.

(** Every retry follows a split that raised the local depth of the key's
    slot, and a depth above [MAX_DEPTH] is fatal: [MAX_DEPTH + 2] activations
    are never used up (lemma [SplitInsert_fuel] below). *)
Definition SplitInsert_depth : nat := Z.to_nat (D.MAX_DEPTH + 2).

Definition SplitInsert (ht : t) (key : KeyType) (value : ValueType) : outcome (bool * t) :=
  SplitInsert_rec SplitInsert_depth ht key value.

(** [Insert(transaction, key, value)] *)
Definition Insert (ht : t) (key : KeyType) (value : ValueType) : outcome (bool * t) :=
  '(dir_page, ht) ← FetchDirectoryPage ht;
  '(bucket_page, ht) ← FetchBucketPage ht (KeyToPageId key dir_page);
  let '(flag, bucket_page) := B.Insert bucket_page key value in
  let ht := write_page ht (KeyToPageId key dir_page) (BucketPage bucket_page) in
  let ht := snd (UnpinPage ht (D.GetPageId dir_page) false) in
  let ht := snd (UnpinPage ht (KeyToPageId key dir_page) flag) in
  if negb flag then SplitInsert ht key value else Ret (flag, ht).

(** The directory rewrite of a merge: every slot on either page goes to the
    merge page, one level up. *)
Definition merge_step (bucket_page_id merge_page_id : Z) (dir_page : D.t) (i : Z) : D.t :=
  let curr_bucket_page_id := D.GetBucketPageId dir_page i in
  if (curr_bucket_page_id =? bucket_page_id) || (curr_bucket_page_id =? merge_page_id)
  then D.DecrLocalDepth (D.SetBucketPageId dir_page i merge_page_id) i
  else dir_page.

Definition merge_rewrite (dir_page : D.t) (bucket_page_id merge_page_id : Z) : D.t :=
  foldl (merge_step bucket_page_id merge_page_id) dir_page (seqZ 0 (D.Size dir_page)).

(** The [while (true)] loop of [Merge], with a bound on its iterations;
    returns the directory page, [is_dirty] and the pool. *)
Fixpoint Merge_loop (fuel : nat) (ht : t) (dir_page : D.t) (bucket_index : Z)
    (is_dirty : bool) : outcome (D.t * bool * t) :=
  match fuel with
  | O => OutOfFuel
  | S fuel =>
      let bucket_page_id := D.GetBucketPageId dir_page bucket_index in
      let bucket_local_depth := D.GetLocalDepth dir_page bucket_index in
      '(bucket_page, ht) ← FetchBucketPage ht bucket_page_id;
      let merge_index := D.GetSplitImageIndex dir_page bucket_index in
      let merge_page_id := D.GetBucketPageId dir_page merge_index in
      let merge_local_depth := D.GetLocalDepth dir_page merge_index in
      let is_shrink :=
        (0 <? bucket_local_depth) && B.IsEmpty bucket_page
        && (bucket_local_depth =? merge_local_depth) in
      let dir_page :=
        if is_shrink then merge_rewrite dir_page bucket_page_id merge_page_id else dir_page in
      let is_dirty := if is_shrink then true else is_dirty in
      let ht := snd (UnpinPage ht bucket_page_id false) in
      if is_shrink
      then
        let ht := snd (DeletePage ht bucket_page_id) in
        if D.CanShrink dir_page
        then
          let dir_page := D.DecrGlobalDepth dir_page in
          Merge_loop fuel ht dir_page (Z.land merge_index (D.GetGlobalDepthMask dir_page)) is_dirty
        else Merge_loop fuel ht dir_page merge_index is_dirty
      else Ret (dir_page, is_dirty, ht)
  end.

(** Every further iteration follows a merge that lowered the local depth of
    the slot looked at: [MAX_DEPTH + 2] iterations are never used up (lemma
    [Merge_fuel] below). *)
Definition Merge_bound : nat := Z.to_nat (D.MAX_DEPTH + 2).

(** [Merge(transaction, key, value)] *)
Definition Merge (ht : t) (key : KeyType) (value : ValueType) : outcome t :=
  '(dir_page, ht) ← FetchDirectoryPage ht;
  let bucket_index := KeyToDirectoryIndex key dir_page in
  '(dir_page, is_dirty, ht) ← Merge_loop Merge_bound ht dir_page bucket_index false;
  let ht := write_page ht (directory_page_id_ ht) (DirPage dir_page) in
  let ht := snd (UnpinPage ht (D.GetPageId dir_page) is_dirty) in
  Ret ht.

(** [Remove(transaction, key, value)] *)
Definition Remove (ht : t) (key : KeyType) (value : ValueType) : outcome (bool * t) :=
  '(dir_page, ht) ← FetchDirectoryPage ht;
  '(bucket_page, ht) ← FetchBucketPage ht (KeyToPageId key dir_page);
  let '(flag, bucket_page) := B.Remove bucket_page key value in
  let ht := write_page ht (KeyToPageId key dir_page) (BucketPage bucket_page) in
  let ht := snd (UnpinPage ht (D.GetPageId dir_page) false) in
  let ht := snd (UnpinPage ht (KeyToPageId key dir_page) flag) in
  if flag
  then ht ← Merge ht key value; Ret (flag, ht)
  else Ret (flag, ht).

(** [GetGlobalDepth()] *)
Definition GetGlobalDepth (ht : t) : outcome (Z * t) :=
  '(dir_page, ht) ← FetchDirectoryPage ht;
  let global_depth := D.GetGlobalDepth dir_page in
  let '(unpinned, ht) := UnpinPage ht (directory_page_id_ ht) false in
  _ ← assert unpinned;
  Ret (global_depth, ht).

(** [VerifyIntegrity()] *)
Definition VerifyIntegrity (ht : t) : outcome t :=
  '(dir_page, ht) ← FetchDirectoryPage ht;
  _ ← D.VerifyIntegrity dir_page;
  let '(unpinned, ht) := UnpinPage ht (directory_page_id_ ht) false in
  _ ← assert unpinned;
  Ret ht.

(** *** States of the pool after a call on a page it holds *)

Definition fetched (ht : t) (page_id : Z) : t :=
  mk (directory_page_id_ ht) (pages ht)
     (<[page_id := pin_of ht page_id + 1]> (pins ht)) (next_page_id ht)
     (calls ht ++ [CallFetchPage page_id]).

Definition unpinned (ht : t) (page_id : Z) (is_dirty : bool) : t :=
  mk (directory_page_id_ ht) (pages ht)
     (<[page_id := pin_of ht page_id - 1]> (pins ht)) (next_page_id ht)
     (calls ht ++ [CallUnpinPage page_id is_dirty]).

(** *** Counting calls per page *)

Definition is_acquire (page_id : Z) (c : call) : Prop :=
  match c with
  | CallNewPage p | CallFetchPage p => p = page_id
  | _ => False
  end.

Definition is_release (page_id : Z) (c : call) : Prop :=
  match c with
  | CallUnpinPage p _ => p = page_id
  | _ => False
  end.

#[export] Instance is_acquire_dec page_id c : Decision (is_acquire page_id c).
Proof. destruct c; simpl; apply _. Defined.

#[export] Instance is_release_dec page_id c : Decision (is_release page_id c).
Proof. destruct c; simpl; apply _. Defined.

(** Number of [FetchPage]/[NewPage] results for the page among [cs]. *)
Definition acquires (page_id : Z) (cs : list call) : nat :=
  length (filter (is_acquire page_id) cs).

(** Number of [UnpinPage] calls for the page among [cs]. *)
Definition releases (page_id : Z) (cs : list call) : nat :=
  length (filter (is_release page_id) cs).

(** The pin discipline between two states of the pool: the calls made since
    [ht] pair every fetch or new page with exactly one unpin of the same
    page, and every pin count is back at its value in [ht]. *)
Definition pins_balanced (ht ht' : t) : Prop :=
  ∃ cs, calls ht' = calls ht ++ cs ∧
        (∀ p, acquires p cs = releases p cs) ∧
        (∀ p, pin_of ht' p = pin_of ht p).

(** Every fetch or new page among [cs] has its unpin. *)
Definition balanced (cs : list call) : Prop :=
  ∀ p, acquires p cs = releases p cs.

(** From [ht0] the pool made the calls [cs] and reached [ht]; each pin count
    moved by the fetches and new pages less the unpins among [cs]. *)
Definition tracks (ht0 ht : t) (cs : list call) : Prop :=
  calls ht = calls ht0 ++ cs ∧
  ∀ p, pin_of ht p + Z.of_nat (releases p cs) = pin_of ht0 p + Z.of_nat (acquires p cs).

(** The pool counts pins only for pages it holds, and every page id it holds
    was handed out by the allocator. *)
Record pool_ok (ht : t) : Prop := {
  pool_pages_fresh : ∀ p, is_Some (pages ht !! p) → p < next_page_id ht;
  pool_pins_pages : ∀ p, is_Some (pins ht !! p) → is_Some (pages ht !! p)
}.

(** [tracks] together with the pool's own invariant. *)
Definition stepped (ht0 ht : t) (cs : list call) : Prop :=
  tracks ht0 ht cs ∧ pool_ok ht.

(** *** Directory invariants *)

(** [i] and [j] agree on their [L] low bits: [i ≡ j (mod 2^L)]. *)
Definition cong (L i j : Z) : Prop :=
  ∀ n, 0 ≤ n < L → Z.testbit i n = Z.testbit j n.

(** The slot is one of the first [2^global_depth]. *)
Definition live (d : D.t) (i : Z) : Prop := 0 ≤ i < D.Size d.

(** D-1 to D-3 as section 3 words them, over the live slots. *)
Definition D1 (d : D.t) : Prop :=
  D.GetGlobalDepth d ≤ D.MAX_DEPTH ∧
  ∀ i, live d i → 0 ≤ D.GetLocalDepth d i ≤ D.GetGlobalDepth d.

Definition D2 (d : D.t) : Prop :=
  ∀ i j, live d i → live d j →
         i mod 2 ^ D.GetLocalDepth d i = j mod 2 ^ D.GetLocalDepth d i →
         D.GetLocalDepth d i = D.GetLocalDepth d j →
         D.GetBucketPageId d i = D.GetBucketPageId d j.

Definition D3 (d : D.t) : Prop :=
  ∀ i j, live d i → live d j →
         D.GetBucketPageId d i = D.GetBucketPageId d j →
         D.GetLocalDepth d i = D.GetLocalDepth d j.

(** The invariant the operations maintain: the depths are in range, and two
    live slots share a bucket exactly when they agree on the low
    [local_depth] bits. *)
Record dir_inv (d : D.t) : Prop := {
  dir_global : 0 ≤ D.GetGlobalDepth d ≤ D.MAX_DEPTH;
  dir_local : ∀ i, live d i → 0 ≤ D.GetLocalDepth d i ≤ D.GetGlobalDepth d;
  dir_alias : ∀ i j, live d i → live d j →
    (D.GetBucketPageId d i = D.GetBucketPageId d j ↔ cong (D.GetLocalDepth d i) i j);
  dir_depth : ∀ i j, live d i → live d j →
    D.GetBucketPageId d i = D.GetBucketPageId d j →
    D.GetLocalDepth d i = D.GetLocalDepth d j
}.

(** The directory [d2] is [d] doubled, with the bucket of [index] split into
    the old page (slot [index]) and [new_pid] (slot [new_index]). *)
Definition grown (d d2 : D.t) (index new_index new_pid : Z) : Prop :=
  D.GetGlobalDepth d2 = D.GetGlobalDepth d + 1 ∧
  D.GetPageId d2 = D.GetPageId d ∧
  ∀ i j, 0 ≤ i < 2 ^ D.GetGlobalDepth d → 0 ≤ j < 2 ^ (D.GetGlobalDepth d + 1) →
         cong (D.GetGlobalDepth d) j i →
         D.GetBucketPageId d2 j =
           (if decide (j = new_index) then new_pid else D.GetBucketPageId d i) ∧
         D.GetLocalDepth d2 j =
           (if decide (i = index) then D.GetGlobalDepth d + 1 else D.GetLocalDepth d i).

(** The directory [d2] is [d] with the bucket [old_pid] of [index] split one
    level down: its slots keep the old page or take [new_pid] by the bit at
    the old local depth. *)
Definition split_in_place (d d2 : D.t) (index old_pid new_pid : Z) : Prop :=
  D.GetGlobalDepth d2 = D.GetGlobalDepth d ∧
  D.GetPageId d2 = D.GetPageId d ∧
  ∀ i, live d i →
    if decide (D.GetBucketPageId d i = old_pid)
    then D.GetLocalDepth d2 i = D.GetLocalDepth d index + 1 ∧
         D.GetBucketPageId d2 i =
           (if decide (Z.testbit i (D.GetLocalDepth d index)
                       = Z.testbit index (D.GetLocalDepth d index))
            then old_pid else new_pid)
    else D.GetLocalDepth d2 i = D.GetLocalDepth d i ∧
         D.GetBucketPageId d2 i = D.GetBucketPageId d i.

(** The directory [d2] is [d] with the pages [bucket_pid] and [merge_pid]
    merged into [merge_pid], one level up. *)
Definition merged (d d2 : D.t) (bucket_pid merge_pid : Z) : Prop :=
  D.GetGlobalDepth d2 = D.GetGlobalDepth d ∧
  D.GetPageId d2 = D.GetPageId d ∧
  ∀ i, live d i →
    if decide (D.GetBucketPageId d i = bucket_pid ∨ D.GetBucketPageId d i = merge_pid)
    then D.GetLocalDepth d2 i = D.GetLocalDepth d i - 1 ∧
         D.GetBucketPageId d2 i = merge_pid
    else D.GetLocalDepth d2 i = D.GetLocalDepth d i ∧
         D.GetBucketPageId d2 i = D.GetBucketPageId d i.

(** *** Invariant of the index *)

(** The bucket page stored under a page id, if it is one. *)
Definition bucket_of (pgs : gmap Z page) (page_id : Z) : option B.t :=
  match pgs !! page_id with
  | Some RawZero => Some B.zero
  | Some (BucketPage b) => Some b
  | _ => None
  end.

(** A well-formed bucket page whose live entries hash to slot [i] on the [L]
    low bits. *)
Definition placed (b : B.t) (L i : Z) : Prop :=
  B.wf b ∧ B.bk1 b ∧
  ∀ j, (j < B.BUCKET_ARRAY_SIZE)%nat → B.IsReadable b j = true →
       cong L (Hash (B.KeyAt b j)) i.

(** Every live slot leads to a bucket page placed at the slot's
    [local_depth]. *)
Definition buckets_ok (d : D.t) (pgs : gmap Z page) : Prop :=
  ∀ i, live d i →
    ∃ b, bucket_of pgs (D.GetBucketPageId d i) = Some b ∧
         placed b (D.GetLocalDepth d i) i.

(** Every live entry of [b'] is a live entry of [b] whose key satisfies [Q]. *)
Definition entries_among (b' b : B.t) (Q : KeyType → Prop) : Prop :=
  ∀ j, (j < B.BUCKET_ARRAY_SIZE)%nat → B.IsReadable b' j = true →
       ∃ i, (i < B.BUCKET_ARRAY_SIZE)%nat ∧ B.IsReadable b i = true ∧ Q (B.KeyAt b i) ∧
            B.KeyAt b' j = B.KeyAt b i ∧ B.ValueAt b' j = B.ValueAt b i.

(** All of the invariant but the bytes of the directory page itself: [d] is
    the directory as the running operation holds it. *)
Record table_ok (ht : t) (d : D.t) : Prop := {
  ok_dir_page : ∃ d0, pages ht !! directory_page_id_ ht = Some (DirPage d0);
  ok_page_id : D.GetPageId d = directory_page_id_ ht;
  ok_dir : dir_inv d;
  ok_buckets : buckets_ok d (pages ht);
  ok_pool : pool_ok ht
}.

(** The invariant between operations: [d] is what the directory page holds. *)
Definition Inv (ht : t) (d : D.t) : Prop :=
  pages ht !! directory_page_id_ ht = Some (DirPage d) ∧ table_ok ht d.

(** The pages, the allocator and the directory page id are the same. *)
Definition same_table (ht ht' : t) : Prop :=
  directory_page_id_ ht' = directory_page_id_ ht ∧
  pages ht' = pages ht ∧
  next_page_id ht' = next_page_id ht.

(** [b'] holds no live entry that [b] did not hold, except those in [extra]. *)
Definition entries_from (b' b : B.t) (extra : KeyType * ValueType → Prop) : Prop :=
  ∀ j, (j < B.BUCKET_ARRAY_SIZE)%nat → B.IsReadable b' j = true →
       (B.IsReadable b j = true ∧ B.KeyAt b' j = B.KeyAt b j ∧ B.ValueAt b' j = B.ValueAt b j)
       ∨ extra (B.KeyAt b' j, B.ValueAt b' j).


(** Exactly one live slot of [b] matches [(k, v)]. *)
Definition once (b : B.t) (k : KeyType) (v : ValueType) : Prop :=
  ∃ p, (p < B.BUCKET_ARRAY_SIZE)%nat ∧ B.entry_match b k v p = true ∧
       ∀ j, (j < B.BUCKET_ARRAY_SIZE)%nat → B.entry_match b k v j = true → j = p.

(** One live slot of [b] holds [(k, v)] itself, and no other live slot
    matches it. *)
Definition stored_once (b : B.t) (k : KeyType) (v : ValueType) : Prop :=
  ∃ p, (p < B.BUCKET_ARRAY_SIZE)%nat ∧ B.IsReadable b p = true ∧
       B.KeyAt b p = k ∧ B.ValueAt b p = v ∧
       ∀ j, (j < B.BUCKET_ARRAY_SIZE)%nat → j ≠ p → B.entry_match b k v j = false.

(** No live slot of [b] matches [(k, v)]. *)
Definition without (b : B.t) (k : KeyType) (v : ValueType) : Prop :=
  ∀ j, (j < B.BUCKET_ARRAY_SIZE)%nat → B.entry_match b k v j = false.

(** No bucket of the directory holds a match of [(k, v)]. *)
Definition absent (d : D.t) (pgs : gmap Z page) (k : KeyType) (v : ValueType) : Prop :=
  ∀ i b, live d i → bucket_of pgs (D.GetBucketPageId d i) = Some b → without b k v.

(** The bucket the directory [d] routes [k] to holds [(k, v)] once. *)
Definition stored (ht : t) (d : D.t) (k : KeyType) (v : ValueType) : Prop :=
  ∃ b, bucket_of (pages ht) (KeyToPageId k d) = Some b ∧ stored_once b k v.

(** From [ht] the pool reached [ht'] by calls that pair every fetch or new
    page with its unpin, for the same directory page. *)
Definition follows (ht ht' : t) : Prop :=
  directory_page_id_ ht' = directory_page_id_ ht ∧
  ∃ cs, stepped ht ht' cs ∧ balanced cs.

(** *** Sequences of operations on a newly constructed index *)

Inductive reachable : t → Prop :=
  | reach_new first_page_id ht :
      new first_page_id = Ret ht → reachable ht
  | reach_GetValue ht key result r ht' :
      reachable ht → GetValue ht key result = Ret (r, ht') → reachable ht'
  | reach_Insert ht key value r ht' :
      reachable ht → Insert ht key value = Ret (r, ht') → reachable ht'
  | reach_Remove ht key value r ht' :
      reachable ht → Remove ht key value = Ret (r, ht') → reachable ht'
  | reach_GetGlobalDepth ht g ht' :
      reachable ht → GetGlobalDepth ht = Ret (g, ht') → reachable ht'
  | reach_VerifyIntegrity ht ht' :
      reachable ht → VerifyIntegrity ht = Ret ht' → reachable ht'.

(** Operations in sequence, results dropped. *)
Inductive op : Type :=
  | OpGetValue (key : KeyType)
  | OpInsert (key : KeyType) (value : ValueType)
  | OpRemove (key : KeyType) (value : ValueType)
  | OpGetGlobalDepth
  | OpVerifyIntegrity.

Definition step (ht : t) (o : op) : outcome t :=
  match o with
  | OpGetValue key => '(_, ht) ← GetValue ht key []; Ret ht
  | OpInsert key value => '(_, ht) ← Insert ht key value; Ret ht
  | OpRemove key value => '(_, ht) ← Remove ht key value; Ret ht
  | OpGetGlobalDepth => '(_, ht) ← GetGlobalDepth ht; Ret ht
  | OpVerifyIntegrity => VerifyIntegrity ht
  end.

Fixpoint run (ht : t) (ops : list op) : outcome t :=
  match ops with
  | [] => Ret ht
  | o :: ops => ht ← step ht o; run ht ops
  end.

(** The directory page of the index. *)
Definition directory (ht : t) : D.t :=
  match pages ht !! directory_page_id_ ht with
  | Some (DirPage d) => d
  | _ => D.zero
  end.

(** The bucket page a key is routed to. *)
Definition bucket_for (ht : t) (key : KeyType) : B.t :=
  default B.zero (bucket_of (pages ht) (KeyToPageId key (directory ht))).

(** The bucket page the directory slot [i] leads to. *)
Definition bucket_at (ht : t) (i : Z) : B.t :=
  default B.zero (bucket_of (pages ht) (D.GetBucketPageId (directory ht) i)).

(** Some bucket page of the directory [d] holds the pair in a live slot. *)
Definition stored_in (d : D.t) (pgs : gmap Z page) (key : KeyType) (value : ValueType)
    : Prop :=
  ∃ i b, live d i ∧ bucket_of pgs (D.GetBucketPageId d i) = Some b ∧ B.holds b key value.

(** The index stores the pair. *)
Definition stores (ht : t) (key : KeyType) (value : ValueType) : Prop :=
  stored_in (directory ht) (pages ht) key value.

End WithTypes.
End ExtendibleHashTable.

(** * The instantiation [<GenericKey<64>, RID, GenericComparator<64>>]

    [sizeof(std::pair<GenericKey<64>, RID>)] is 72, which gives 56 slots per
    bucket.  A key is the image of one integer ([SetFromInteger]) and is
    identified with that integer, which is what the comparator then compares;
    an [RID] is a page id and a slot number.  The hash function object
    returns the key's integer. *)
Definition IntegerComparator (a b : Z) : Z :=
  if a <? b then -1 else if b <? a then 1 else 0.

Definition Key64RID : HashTableTypes := {|
  KeyType := Z;
  ValueType := Z * Z;
  comparator_ := IntegerComparator;
  hash_fn_ := λ k, k mod 2 ^ 64;
  zero_key := 0;
  zero_value := (0, 0);
  sizeof_MappingType := 72
|}.

(** ** A table whose only bucket is full of keys with odd hashes *)
Module Scenario.
Import ExtendibleHashTable.

Definition rid (k : Z) : Z * Z := (k, 0).

(** The keys 1, 3, 5, ... *)
Definition odd_keys (n : nat) : list Z := (λ i, 2 * Z.of_nat i + 1) <$> seq 0 n.

Definition inserts (keys : list Z) : list (op (T := Key64RID)) :=
  (λ k, OpInsert (T := Key64RID) k (rid k)) <$> keys.

Definition SIZE : nat := B.BUCKET_ARRAY_SIZE (T := Key64RID).

(** One bucket page holding [SIZE] odd keys. *)
Definition full_odd_bucket : B.t (T := Key64RID) :=
  B.fill B.zero ((λ k, (k, rid k)) <$> odd_keys SIZE).

(** The index after the same insertions. *)
Definition after (ops : list (op (T := Key64RID))) : outcome (t (T := Key64RID)) :=
  ht ← new 0; run ht ops.

(** Keys of both parities: one more than a bucket holds, so that the last
    insertion splits the bucket, and then two removals. *)
Definition split_ops : list (op (T := Key64RID)) :=
  inserts (seqZ 1 (Z.of_nat SIZE + 1))
  ++ [OpRemove (T := Key64RID) 2 (rid 2); OpRemove (T := Key64RID) 3 (rid 3)].

(** What the table is like after the insertions, and whether one more
    [Insert] of an odd key aborts: global depth 0, all slots of the key's
    bucket live. *)
Definition full_then_aborts (keys : list Z) (k : Z) : bool :=
  match after (inserts keys) with
  | Ret ht =>
      (D.GetGlobalDepth (directory ht) =? 0)
      && forallb (B.IsReadable (bucket_for ht k)) (seq 0 SIZE)
      && is_Fault (Insert ht k (rid k))
  | _ => false
  end.

End Scenario.

(** ** A pool of two frames, alone in its group *)
Module PoolScenario.
Import BufferPoolManagerInstance.

(** What [BufferPoolManagerInstance(2, disk_manager, log_manager)] builds. *)
Definition start : t :=
  mk 2 1 0 0 (replicate 2 fresh_page) LRUReplacer.empty [0; 1] ∅ ∅.

Definition after (ops : list op) : t :=
  match run start ops with
  | Ret b => b
  | _ => start
  end.

(** Pages 0 and 1 are created; page 0 is unpinned dirty, page 1 stays
    pinned. *)
Definition busy_ops : list op := [ONewPg; ONewPg; OUnpinPg 0 true].
Definition busy : t := after busy_ops.

(** Page 0 as it then sits in frame 0, and page 1 in frame 1. *)
Definition page0 : Page := mkPage zero_data 0 0 true.
Definition page1 : Page := mkPage zero_data 1 1 false.

(** One more page is created: it takes the frame of page 0. *)
Definition evicting : t := after (busy_ops ++ [ONewPg]).

(** ... then page 2 takes the frame of page 0, page 1 is unpinned and page 0
    is fetched back into its frame; flushes and a delete follow. *)
Definition ops : list op :=
  busy_ops ++ [ONewPg; OFetchPg 0; OUnpinPg 1 false; OFetchPg 0; OFlushPg 2;
               OFlushAllPgs; ODeletePg 1].

End PoolScenario.

(** * Part II: proofs *)

(** ** Outcomes *)
Lemma bind_Ret {A B} (m : outcome A) (k : A → outcome B) r :
  m ≫= k = Ret r ↔ ∃ x, m = Ret x ∧ k x = Ret r.
Proof.
  destruct m as [a| |]; simpl; split; try done.
  - intros H. by exists a.
  - by intros (x & [= ->] & H).
  - by intros (x & ? & _).
  - by intros (x & ? & _).
Qed.

Lemma assert_Ret c u : assert c = Ret u ↔ c = true.
Proof. destruct c, u; simpl; split; done. Qed.

Lemma is_Fault_true {A} (o : outcome A) : is_Fault o = true ↔ o = Fault.
Proof. by destruct o. Qed.

Lemma is_Ret_true {A} (o : outcome A) : is_Ret o = true → ∃ a, o = Ret a.
Proof. destruct o as [a| |]; [by exists a|done..]. Qed.

Lemma forallb_seq (f : nat → bool) n :
  forallb f (seq 0 n) = true ↔ ∀ j, (j < n)%nat → f j = true.
Proof.
  rewrite forallb_forall. split.
  - intros H j Hj. apply H, in_seq. lia.
  - intros H j Hj%in_seq. apply H. lia.
Qed.

Lemma bind_Ret_l {A B} (a : A) (k : A → outcome B) : Ret a ≫= k = k a.
Proof. done. Qed.

(** ** Machine integers *)
Lemma to_int32_small z : - 2 ^ 31 ≤ z < 2 ^ 31 → to_int32 z = z.
Proof. intros H. unfold to_int32. rewrite Z.mod_small; lia. Qed.

Lemma to_uint32_small z : 0 ≤ z < 2 ^ 32 → to_uint32 z = z.
Proof. intros H. unfold to_uint32. apply Z.mod_small; lia. Qed.

Lemma to_uint8_small z : 0 ≤ z < 2 ^ 8 → to_uint8 z = z.
Proof. intros H. unfold to_uint8. apply Z.mod_small; lia. Qed.


(** ** LRU replacer *)
Section LRUReplacerFacts.
Import LRUReplacer.

Lemma filter_all_id {A} (P : A → Prop) `{∀ x, Decision (P x)} (l : list A) :
  Forall P l → filter P l = l.
Proof.
  induction 1 as [|x l Hx Hl IH]; [done|].
  rewrite filter_cons_True by done. by rewrite IH.
Qed.

Lemma erase_node_filter f l :
  NoDup l → erase_node f l = filter (λ x, x ≠ f) l.
Proof.
  induction 1 as [|x l Hx Hl IH]; simpl; [done|].
  destruct (decide (x = f)) as [->|Hne].
  - rewrite filter_cons_False by (intros ?; done).
    symmetry. apply filter_all_id, Forall_forall. intros y Hy ->. done.
  - rewrite filter_cons_True by done. by rewrite IH.
Qed.

Lemma sorted_fmap_filter {A} (g : A → nat) (P : A → Prop) `{∀ x, Decision (P x)} l :
  StronglySorted lt (g <$> l) → StronglySorted lt (g <$> filter P l).
Proof.
  induction l as [|x l IH]; simpl; [done|].
  intros Hs. apply StronglySorted_inv in Hs as [Hs Hall].
  destruct (decide (P x)).
  - rewrite filter_cons_True by done. simpl. constructor; [by apply IH|].
    rewrite Forall_fmap in Hall |- *.
    rewrite Forall_forall in Hall |- *. intros y Hy.
    apply Hall. by apply list_elem_of_filter in Hy as [_ ?].
  - rewrite filter_cons_False by done. by apply IH.
Qed.

Lemma sorted_snoc (l : list nat) (c : nat) :
  StronglySorted lt l → Forall (λ u, (u < c)%nat) l → StronglySorted lt (l ++ [c]).
Proof.
  induction 1 as [|x l Hs IH Hall]; intros Hc; simpl.
  - repeat constructor.
  - apply Forall_cons in Hc as [Hx Hc]. constructor; [by apply IH|].
    apply Forall_app; split; [done|]. by constructor.
Qed.

Lemma foldr_older_spec (l : list (Z * nat)) :
  match foldr older None l with
  | None => l = []
  | Some x => x ∈ l ∧ ∀ y, y ∈ l → (snd x ≤ snd y)%nat
  end.
Proof.
  induction l as [|a l IH]; simpl; [done|].
  destruct (foldr older None l) as [b|] eqn:E; simpl.
  - destruct IH as [Hb Hmin].
    destruct (Nat.ltb_spec (snd a) (snd b)).
    + split; [by left|]. intros y [->|Hy]%elem_of_cons; [lia|].
      specialize (Hmin y Hy). lia.
    + split; [by right|]. intros y [->|Hy]%elem_of_cons; [lia|by apply Hmin].
  - subst l. split; [by left|]. intros y Hy%list_elem_of_singleton. by subst.
Qed.

Lemma sim_empty : sim empty lru_empty.
Proof.
  split; simpl.
  - constructor.
  - intros f. set_solver.
  - intros f. rewrite lookup_empty. split; [by intros ?%elem_of_nil|by intros [? ?]].
  - constructor.
  - intros f u. by rewrite lookup_empty.
Qed.

Lemma sim_time_lt r s f g l :
  sim r s → frames_ r = f :: l → g ∈ l → (time_of s f < time_of s g)%nat.
Proof.
  intros Hsim Hfr Hg. pose proof (sim_sorted _ _ Hsim) as Hs.
  rewrite Hfr in Hs. simpl in Hs. apply StronglySorted_inv in Hs as [_ Hall].
  rewrite Forall_fmap, Forall_forall in Hall. by apply Hall.
Qed.

Lemma least_recent_head r s : sim r s → least_recent (stamp s) = head (frames_ r).
Proof.
  intros Hsim. unfold least_recent.
  pose proof (foldr_older_spec (map_to_list (stamp s))) as Hspec.
  destruct (frames_ r) as [|f0 rest] eqn:Hfr; simpl.
  - assert (stamp s = ∅) as ->.
    { apply map_empty. intros f. apply eq_None_not_Some. rewrite <- (sim_dom _ _ Hsim), Hfr.
      apply not_elem_of_nil. }
    by rewrite map_to_list_empty.
  - assert (is_Some (stamp s !! f0)) as [t0 Ht0].
    { apply (sim_dom _ _ Hsim). rewrite Hfr. by left. }
    destruct (foldr older None (map_to_list (stamp s))) as [[f t]|].
    + simpl. f_equal. destruct Hspec as [Hin Hmin].
      apply elem_of_map_to_list in Hin.
      specialize (Hmin (f0, t0)). simpl in Hmin.
      assert (t ≤ t0)%nat as Hle by (apply Hmin; by apply elem_of_map_to_list).
      assert (f ∈ frames_ r) as Hf by (apply (sim_dom _ _ Hsim); eauto).
      rewrite Hfr in Hf. apply elem_of_cons in Hf as [->|Hf]; [done|].
      pose proof (sim_time_lt _ _ _ _ _ Hsim Hfr Hf) as Hlt.
      unfold time_of in Hlt. rewrite Ht0, Hin in Hlt. simpl in Hlt. lia.
    + apply (f_equal length) in Hspec. rewrite length_map_to_list in Hspec.
      apply map_size_empty_inv in Hspec. rewrite Hspec, lookup_empty in Ht0. done.
Qed.

Lemma time_of_delete s f g :
  f ≠ g → time_of (mk_lru (delete f (stamp s)) (clock s)) g = time_of s g.
Proof. intros Hne. unfold time_of. simpl. by rewrite lookup_delete_ne. Qed.

Lemma sim_remove r s f :
  sim r s →
  sim (mk (filter (λ x, x ≠ f) (frames_ r)) (frames_table_ r ∖ {[f]}))
      (mk_lru (delete f (stamp s)) (clock s)).
Proof.
  intros Hsim. split; simpl.
  - apply NoDup_filter, Hsim.
  - intros g. rewrite elem_of_difference, list_elem_of_filter, (sim_table _ _ Hsim).
    set_solver.
  - intros g. rewrite list_elem_of_filter, (sim_dom _ _ Hsim).
    destruct (decide (f = g)) as [->|Hne].
    + rewrite lookup_delete_eq. split; [by intros [? _]|by intros [? ?]].
    + rewrite lookup_delete_ne by done. naive_solver.
  - erewrite list_fmap_ext; [apply (sorted_fmap_filter (time_of s)), Hsim|].
    intros i g Hg. apply list_elem_of_lookup_2, list_elem_of_filter in Hg as [Hne _].
    apply time_of_delete. congruence.
  - intros g u. destruct (decide (f = g)) as [->|Hne].
    + by rewrite lookup_delete_eq.
    + rewrite lookup_delete_ne by done. apply Hsim.
Qed.

Lemma Victim_cons r f rest :
  NoDup (frames_ r) → frames_ r = f :: rest →
  Victim r = (Some f, mk (filter (λ x, x ≠ f) (frames_ r)) (frames_table_ r ∖ {[f]})).
Proof.
  intros Hnd Hfr. unfold Victim. rewrite Hfr. do 2 f_equal.
  rewrite Hfr in Hnd. apply NoDup_cons in Hnd as [Hf _].
  rewrite filter_cons_False by (intros ?; done).
  symmetry. apply filter_all_id, Forall_forall. intros y Hy ->. done.
Qed.

Lemma sim_step r s o : sim r s → sim (step r o) (lru_step s o).
Proof.
  intros Hsim. destruct o as [|f|f]; simpl.
  - unfold lru_Victim. rewrite (least_recent_head _ _ Hsim).
    destruct (frames_ r) as [|f rest] eqn:Hfr; simpl.
    + unfold Victim. by rewrite Hfr.
    + rewrite (Victim_cons r f rest); [|apply Hsim|done]. simpl. by apply sim_remove.
  - unfold Pin, lru_Pin. destruct (decide (f ∈ frames_table_ r)) as [Hin|Hnin].
    + rewrite erase_node_filter by apply Hsim. by apply sim_remove.
    + rewrite delete_id; [by destruct s|].
      apply eq_None_not_Some. rewrite <- (sim_dom _ _ Hsim), <- (sim_table _ _ Hsim). done.
  - unfold Unpin, lru_Unpin. destruct (decide (f ∈ frames_table_ r)) as [Hin|Hnin].
    + apply (sim_table _ _ Hsim), (sim_dom _ _ Hsim) in Hin as [u ->]. done.
    + assert (stamp s !! f = None) as Hnone.
      { apply eq_None_not_Some. rewrite <- (sim_dom _ _ Hsim), <- (sim_table _ _ Hsim). done. }
      rewrite Hnone.
      assert (f ∉ frames_ r) as Hnf by (by rewrite <- (sim_table _ _ Hsim)).
      assert (∀ g, g ∈ frames_ r →
                time_of (mk_lru (<[f:=clock s]> (stamp s)) (S (clock s))) g = time_of s g) as Ht.
      { intros g Hg. unfold time_of. simpl. rewrite lookup_insert_ne; [done|]. by intros ->. }
      split; simpl.
      * apply NoDup_app. split; [apply Hsim|]. split; [|apply NoDup_singleton].
        intros g Hg ->%list_elem_of_singleton. done.
      * intros g. rewrite elem_of_union, elem_of_app, (sim_table _ _ Hsim),
          elem_of_singleton, list_elem_of_singleton. tauto.
      * intros g. rewrite elem_of_app, list_elem_of_singleton, (sim_dom _ _ Hsim).
        destruct (decide (f = g)) as [->|Hne].
        -- rewrite lookup_insert_eq. split; [eauto|by right].
        -- rewrite lookup_insert_ne by done. split; [by intros [?|?]|by left].
      * rewrite fmap_app. simpl. unfold time_of at 2. simpl. rewrite lookup_insert_eq. simpl.
        erewrite list_fmap_ext; [apply sorted_snoc; [apply Hsim|]|].
        -- rewrite Forall_fmap, Forall_forall. intros g Hg. simpl.
           apply (sim_dom _ _ Hsim) in Hg as [u Hu]. unfold time_of. rewrite Hu. simpl.
           by apply (sim_clock _ _ Hsim g).
        -- intros i g Hg. apply Ht. by eapply list_elem_of_lookup_2.
      * intros g u. destruct (decide (f = g)) as [->|Hne].
        -- rewrite lookup_insert_eq. intros [= <-]. lia.
        -- rewrite lookup_insert_ne by done. intros Hu.
           pose proof (sim_clock _ _ Hsim g u Hu). lia.
Qed.

Lemma sim_run ops : sim (run ops) (lru_run ops).
Proof.
  unfold run, lru_run.
  induction ops as [|o ops IH] using rev_ind; simpl; [apply sim_empty|].
  rewrite !foldl_app. simpl. by apply sim_step.
Qed.

(** C9.  After any sequence of replacer operations: [Victim] fails exactly
    when no frame is tracked, and otherwise removes and returns the front of
    the list, which is the tracked frame whose adding [Unpin] is the oldest
    (it agrees with the stamped model of section 4.1); [Unpin] of a tracked
    frame changes nothing, [Unpin] of an untracked frame appends it at the
    most-recently-unpinned end; [Pin] of an untracked frame changes nothing,
    [Pin] of a tracked frame removes it and keeps the order of the others. *)
Theorem lru_replacer_order (ops : list op) :
  let r := run ops in
  let s := lru_run ops in
  (∀ f, f ∈ frames_table_ r ↔ f ∈ frames_ r) ∧
  (∀ f, f ∈ frames_ r ↔ is_Some (stamp s !! f)) ∧
  fst (Victim r) = fst (lru_Victim s) ∧
  (fst (Victim r) = None ↔ frames_ r = []) ∧
  (fst (Victim r) = None → snd (Victim r) = r) ∧
  (∀ f, fst (Victim r) = Some f →
     is_least_recent s f ∧
     frames_ r = (f :: frames_ (snd (Victim r))) ∧
     f ∉ frames_ (snd (Victim r)) ∧
     f ∉ frames_table_ (snd (Victim r))) ∧
  (∀ f, f ∈ frames_ r → Unpin f r = r) ∧
  (∀ f, f ∉ frames_ r →
     frames_ (Unpin f r) = (frames_ r ++ [f]) ∧ f ∈ frames_table_ (Unpin f r)) ∧
  (∀ f, f ∉ frames_ r → Pin f r = r) ∧
  (∀ f, f ∈ frames_ r →
     frames_ (Pin f r) = filter (λ x, x ≠ f) (frames_ r) ∧
     f ∉ frames_ (Pin f r) ∧ f ∉ frames_table_ (Pin f r)).
Proof.
  intros r s. pose proof (sim_run ops) as Hsim. fold r s in Hsim.
  pose proof (least_recent_head _ _ Hsim) as Hhead.
  split_and!.
  - apply Hsim.
  - apply Hsim.
  - unfold lru_Victim, Victim. rewrite Hhead. by destruct (frames_ r).
  - unfold Victim. destruct (frames_ r); simpl; split; done.
  - unfold Victim. by destruct (frames_ r).
  - intros f. unfold Victim. destruct (frames_ r) as [|f0 rest] eqn:Hfr; simpl; [done|].
    intros [= ->]. pose proof (sim_nodup _ _ Hsim) as Hnd. rewrite Hfr in Hnd.
    apply NoDup_cons in Hnd as [Hnf _].
    split; [|split; [done|split; [done|set_solver]]].
    assert (is_Some (stamp s !! f)) as [t Ht].
    { apply (sim_dom _ _ Hsim). rewrite Hfr. by left. }
    exists t. split; [done|]. intros g u Hg.
    assert (g ∈ frames_ r) as Hin by (apply (sim_dom _ _ Hsim); eauto).
    rewrite Hfr in Hin. apply elem_of_cons in Hin as [->|Hin].
    + rewrite Ht in Hg. injection Hg as ->. done.
    + pose proof (sim_time_lt _ _ _ _ _ Hsim Hfr Hin) as Hlt.
      unfold time_of in Hlt. rewrite Ht, Hg in Hlt. simpl in Hlt. lia.
  - intros f Hf. unfold Unpin. rewrite decide_True; [done|]. by apply Hsim.
  - intros f Hf. unfold Unpin. rewrite decide_False; [simpl; split; [done|set_solver]|].
    by rewrite (sim_table _ _ Hsim).
  - intros f Hf. unfold Pin. rewrite decide_False; [done|].
    by rewrite (sim_table _ _ Hsim).
  - intros f Hf. unfold Pin. rewrite decide_True by (by apply Hsim). simpl.
    rewrite erase_node_filter by apply Hsim.
    split; [done|]. split; [|set_solver].
    rewrite list_elem_of_filter. by intros [? _].
Qed.

End LRUReplacerFacts.

(** ** Buffer pool manager instance *)
Section BufferPoolFacts.
Import BufferPoolManagerInstance.

Lemma page_at_Ret pages f p :
  page_at pages f = Ret p ↔ 0 ≤ f ∧ pages !! Z.to_nat f = Some p.
Proof.
  unfold page_at. destruct (decide (0 ≤ f)); [|split; [done|lia]].
  destruct (pages !! Z.to_nat f); split; intros; naive_solver.
Qed.

Lemma page_at_in_range pages f :
  0 ≤ f < Z.of_nat (length pages) → ∃ p, page_at pages f = Ret p.
Proof.
  intros Hf. destruct (lookup_lt_is_Some_2 pages (Z.to_nat f)) as [p Hp]; [lia|].
  exists p. apply page_at_Ret. split; [lia|done].
Qed.

Lemma page_at_set_page pages f p p' :
  page_at pages f = Ret p → page_at (set_page pages f p') f = Ret p'.
Proof.
  intros [Hf Hp]%page_at_Ret. apply page_at_Ret. split; [done|].
  unfold set_page. apply list_lookup_insert_eq. by eapply lookup_lt_Some.
Qed.

Lemma page_at_set_page_ne pages f g p' :
  0 ≤ f → 0 ≤ g → f ≠ g → page_at (set_page pages f p') g = page_at pages g.
Proof.
  intros Hf Hg Hne. unfold page_at, set_page.
  rewrite list_lookup_insert_ne; [done|lia].
Qed.

Lemma NewPgImp_null_iff b :
  bool_decide (LRUReplacer.Size (replacer_ b) = 0%nat) && bool_decide (free_list_ b = []) = true
  ↔ free_list_ b = [] ∧ LRUReplacer.frames_ (replacer_ b) = [].
Proof.
  rewrite andb_true_iff, !bool_decide_eq_true. unfold LRUReplacer.Size.
  rewrite length_zero_iff_nil. tauto.
Qed.

Lemma pick_frame_free b f rest :
  free_list_ b = f :: rest → pick_frame b = (f, rest, replacer_ b).
Proof. unfold pick_frame. by intros ->. Qed.

Lemma pick_frame_victim b f rest :
  free_list_ b = [] → LRUReplacer.frames_ (replacer_ b) = f :: rest →
  pick_frame b = (f, [], snd (LRUReplacer.Victim (replacer_ b))) ∧
  LRUReplacer.Victim (replacer_ b) = (Some f, snd (LRUReplacer.Victim (replacer_ b))).
Proof. unfold pick_frame, LRUReplacer.Victim. by intros -> ->. Qed.

Lemma AllocatePage_Ret b pid b' :
  AllocatePage b = Ret (pid, b') ↔
  num_instances_ b ≠ 0 ∧
  to_uint32 (next_page_id_ b) mod num_instances_ b = instance_index_ b ∧
  pid = next_page_id_ b ∧
  b' = mk (pool_size_ b) (num_instances_ b) (instance_index_ b)
          (to_int32 (next_page_id_ b + num_instances_ b))
          (pages_ b) (replacer_ b) (free_list_ b) (page_table_ b) (disk_ b).
Proof.
  unfold AllocatePage, ValidatePageId. simpl.
  destruct (decide (num_instances_ b = 0)) as [Hz|Hnz]; simpl.
  { split; [done|]. by intros [? _]. }
  unfold assert. case_bool_decide as Hm; simpl.
  - split; [intros [= <- <-]; done|]. by intros (_ & _ & -> & ->).
  - split; [done|]. by intros (_ & ? & _).
Qed.

(** C6.  [NewPgImp] returns null exactly when the free list and the replacer
    are both empty, and then leaves the pool as it was.  A call that returns a
    page took its frame from the free list when that was non-empty and from
    the replacer only otherwise, wrote the frame's old page to disk if it was
    dirty, erased the old page's mapping, took the allocator's next id (which
    is in this instance's residue class) and advanced the allocator by
    [num_instances_], zeroed the frame, set [pin_count_ = 1] and
    [is_dirty_ = false], and installed the new mapping.  With a usable
    allocator and valid frame ids the call returns a page whenever a frame is
    available. *)
Theorem NewPgImp_contract (b : t) :
  ((∃ b', NewPgImp b = Ret (None, b')) ↔
     free_list_ b = [] ∧ LRUReplacer.frames_ (replacer_ b) = []) ∧
  (∀ b', NewPgImp b = Ret (None, b') → b' = b) ∧
  (∀ pid f b', NewPgImp b = Ret (Some (pid, f), b') →
     ∃ victim,
       match free_list_ b with
       | f0 :: rest => f = f0 ∧ free_list_ b' = rest ∧ replacer_ b' = replacer_ b
       | [] => LRUReplacer.Victim (replacer_ b) = (Some f, replacer_ b') ∧ free_list_ b' = []
       end ∧
       page_at (pages_ b) f = Ret victim ∧
       disk_ b' = (if is_dirty_ victim
                   then WritePage (disk_ b) (page_id_ victim) (data_ victim)
                   else disk_ b) ∧
       pid = next_page_id_ b ∧
       to_uint32 pid mod num_instances_ b = instance_index_ b ∧
       next_page_id_ b' = to_int32 (next_page_id_ b + num_instances_ b) ∧
       page_table_ b' = <[pid := f]> (delete (page_id_ victim) (page_table_ b)) ∧
       pages_ b' = set_page (pages_ b) f (mkPage zero_data pid 1 false) ∧
       page_at (pages_ b') f = Ret (mkPage zero_data pid 1 false) ∧
       pool_size_ b' = pool_size_ b ∧
       num_instances_ b' = num_instances_ b ∧
       instance_index_ b' = instance_index_ b) ∧
  (alloc_ok b → frames_ok b →
   ¬ (free_list_ b = [] ∧ LRUReplacer.frames_ (replacer_ b) = []) →
   ∃ f b', NewPgImp b = Ret (Some (next_page_id_ b, f), b') ∧
           next_page_id_ b mod num_instances_ b = instance_index_ b ∧
           next_page_id_ b' = next_page_id_ b + num_instances_ b).
Proof.
  assert (∀ o b', NewPgImp b = Ret (o, b') →
            (o = None ∧ b' = b ∧ free_list_ b = [] ∧ LRUReplacer.frames_ (replacer_ b) = []) ∨
            (∃ pid f victim fl rp,
               o = Some (pid, f) ∧
               ¬ (free_list_ b = [] ∧ LRUReplacer.frames_ (replacer_ b) = []) ∧
               pick_frame b = (f, fl, rp) ∧
               page_at (pages_ b) f = Ret victim ∧
               AllocatePage
                 (mk (pool_size_ b) (num_instances_ b) (instance_index_ b) (next_page_id_ b)
                     (pages_ b) rp fl (delete (page_id_ victim) (page_table_ b))
                     (if is_dirty_ victim
                      then WritePage (disk_ b) (page_id_ victim) (data_ victim)
                      else disk_ b)) =
               Ret (pid,
                    mk (pool_size_ b) (num_instances_ b) (instance_index_ b)
                       (to_int32 (next_page_id_ b + num_instances_ b))
                       (pages_ b) rp fl (delete (page_id_ victim) (page_table_ b))
                       (if is_dirty_ victim
                        then WritePage (disk_ b) (page_id_ victim) (data_ victim)
                        else disk_ b)) ∧
               b' = mk (pool_size_ b) (num_instances_ b) (instance_index_ b)
                       (to_int32 (next_page_id_ b + num_instances_ b))
                       (set_page (pages_ b) f (mkPage zero_data pid 1 false)) rp fl
                       (<[pid := f]> (delete (page_id_ victim) (page_table_ b)))
                       (if is_dirty_ victim
                        then WritePage (disk_ b) (page_id_ victim) (data_ victim)
                        else disk_ b))) as Hcases.
  { intros o b'. unfold NewPgImp.
    destruct (bool_decide (LRUReplacer.Size (replacer_ b) = 0%nat) &&
              bool_decide (free_list_ b = [])) eqn:Hb.
    - intros [= <- <-]. left. apply NewPgImp_null_iff in Hb. tauto.
    - destruct (pick_frame b) as [[f fl] rp] eqn:Hpick.
      destruct (page_at (pages_ b) f) as [victim| |] eqn:Hpage; simpl; [|done..].
      match goal with |- context [AllocatePage ?x] =>
        destruct (AllocatePage x) as [[pid b1]| |] eqn:Halloc end; simpl; [|done..].
      intros [= <- <-]. right.
      pose proof Halloc as Ha. apply AllocatePage_Ret in Ha as (_ & _ & Hpid & Hb1).
      simpl in Hpid, Hb1. subst b1.
      exists pid, f, victim, fl, rp. split_and!; try done.
      rewrite <- (NewPgImp_null_iff b), Hb. done. }
  split_and!.
  - split.
    + intros [b' Hb']. destruct (Hcases _ _ Hb') as [(_ & _ & ? & ?)|(? & ? & ? & ? & ? & ? & _)]; done.
    + intros Hempty. exists b. unfold NewPgImp. apply NewPgImp_null_iff in Hempty. by rewrite Hempty.
  - intros b' Hb'. destruct (Hcases _ _ Hb') as [(_ & ? & _)|(? & ? & ? & ? & ? & ? & _)]; done.
  - intros pid f b' Hb'.
    destruct (Hcases _ _ Hb') as [(? & _)|(pid' & f' & victim & fl & rp & Ho & Hne & Hpick & Hpage & Halloc & ->)];
      [done|]. injection Ho as <- <-.
    apply AllocatePage_Ret in Halloc as (_ & Hres & Hpid & _). simpl in Hres, Hpid.
    exists victim. simpl. split_and!; try done.
    + unfold pick_frame in Hpick. destruct (free_list_ b) as [|f0 rest].
      * destruct (LRUReplacer.Victim (replacer_ b)) as [[g|] r] eqn:Hv.
        -- by injection Hpick as -> <- <-.
        -- exfalso. apply Hne. split; [done|].
           unfold LRUReplacer.Victim in Hv. by destruct (LRUReplacer.frames_ (replacer_ b)).
      * by injection Hpick as <- <- <-.
    + by rewrite Hpid.
    + by eapply page_at_set_page.
  - clear Hcases. intros Halloc Hframes Hne.
    assert (∃ f fl rp, pick_frame b = (f, fl, rp) ∧
                       (f ∈ free_list_ b ∨ f ∈ LRUReplacer.frames_ (replacer_ b)))
      as (f & fl & rp & Hpick & Hf).
    { destruct (free_list_ b) as [|f0 rest] eqn:Hfl.
      - destruct (LRUReplacer.frames_ (replacer_ b)) as [|f0 rest] eqn:Hfr; [tauto|].
        destruct (pick_frame_victim b f0 rest Hfl Hfr) as [-> _].
        eexists _, _, _. split; [done|]. right. by left.
      - rewrite (pick_frame_free b f0 rest Hfl). eexists _, _, _. split; [done|]. left. by left. }
    destruct (page_at_in_range (pages_ b) f (Hframes f Hf)) as [victim Hpage].
    destruct Halloc as [Hpos Hnext Hroom Hres].
    exists f. unfold NewPgImp.
    destruct (bool_decide (LRUReplacer.Size (replacer_ b) = 0%nat) &&
              bool_decide (free_list_ b = [])) eqn:Hb.
    { apply NewPgImp_null_iff in Hb. tauto. }
    rewrite Hpick, Hpage. simpl.
    match goal with |- context [AllocatePage ?x] =>
      erewrite (proj2 (AllocatePage_Ret x _ _)) end.
    2: { simpl. split_and!; [lia| rewrite to_uint32_small by lia; exact Hres |reflexivity..]. }
    simpl. eexists. split; [reflexivity|]. split; [done|].
    simpl. apply to_int32_small. lia.
Qed.

(** C7 as amended.  [DeletePgImp] returns true and changes nothing for an
    unmapped page; returns false and changes nothing for a mapped page whose
    pin count is not zero, be it positive or negative; and for a mapped page
    whose pin count is zero it writes the page to disk if dirty, zeroes the
    frame and resets its metadata to the invalid page id and not dirty,
    appends the frame to the free list, removes it from the replacer, erases
    the mapping and returns true. *)
Theorem DeletePgImp_contract (b : t) (page_id : Z) :
  (page_table_ b !! page_id = None → DeletePgImp b page_id = Ret (true, b)) ∧
  (∀ f p, page_table_ b !! page_id = Some f → page_at (pages_ b) f = Ret p →
     pin_count_ p ≠ 0 → DeletePgImp b page_id = Ret (false, b)) ∧
  (∀ f p, page_table_ b !! page_id = Some f → page_at (pages_ b) f = Ret p →
     pin_count_ p = 0 →
     DeletePgImp b page_id =
       Ret (true,
            mk (pool_size_ b) (num_instances_ b) (instance_index_ b) (next_page_id_ b)
               (set_page (pages_ b) f (mkPage zero_data INVALID_PAGE_ID 0 false))
               (LRUReplacer.Pin f (replacer_ b))
               (free_list_ b ++ [f])
               (delete page_id (page_table_ b))
               (if is_dirty_ p
                then WritePage (disk_ b) (page_id_ p) (data_ p)
                else disk_ b))).
Proof.
  unfold DeletePgImp. split_and!.
  - by intros ->.
  - intros f p -> -> Hpin. simpl. by rewrite bool_decide_eq_true_2.
  - intros f p -> -> Hz. simpl.
    rewrite bool_decide_eq_false_2 by (intros Hne; by apply Hne). by rewrite Hz.
Qed.

(** C7 as claimed is not what the code does for a pin count below zero: on a
    pool with one frame, a page is created and unpinned twice, which leaves
    its pin count at -1; [DeletePgImp] of the page then returns false, and
    the page stays mapped, its frame stays off the free list and keeps its
    page id. *)
Lemma DeletePgImp_refuses_negative_pin_count :
  (b0 ← new 1 1 0;
   '(_, b1) ← NewPgImp b0;
   '(_, b2) ← UnpinPgImp b1 0 false;
   '(_, b3) ← UnpinPgImp b2 0 false;
   '(r4, b4) ← DeletePgImp b3 0;
   Ret (pin_count_ <$> pages_ b3, r4, page_table_ b4 !! 0, free_list_ b4,
        page_id_ <$> pages_ b4, pin_count_ <$> pages_ b4))
  = Ret ([-1], false, Some 0, [], [0], [-1]).
Proof. vm_compute. reflexivity. Qed.

(** C8 as amended.  [UnpinPgImp] returns false and changes nothing for an
    unmapped page.  For a mapped page it returns true, ors the flag into
    [is_dirty_], and decrements [pin_count_] without any check: from a
    positive count the result is one less, and the frame is handed to the
    replacer exactly when the count reaches zero; from a count of zero the
    call still returns true, the count becomes -1 and the replacer is left
    alone. *)
Theorem UnpinPgImp_contract (b : t) (page_id : Z) (is_dirty : bool) :
  (page_table_ b !! page_id = None → UnpinPgImp b page_id is_dirty = Ret (false, b)) ∧
  (∀ f p, page_table_ b !! page_id = Some f → page_at (pages_ b) f = Ret p →
     - 2 ^ 31 < pin_count_ p < 2 ^ 31 →
     UnpinPgImp b page_id is_dirty =
       Ret (true,
            mk (pool_size_ b) (num_instances_ b) (instance_index_ b) (next_page_id_ b)
               (set_page (pages_ b) f
                  (mkPage (data_ p) (page_id_ p) (pin_count_ p - 1) (is_dirty || is_dirty_ p)))
               (if bool_decide (pin_count_ p = 1)
                then LRUReplacer.Unpin f (replacer_ b)
                else replacer_ b)
               (free_list_ b) (page_table_ b) (disk_ b))).
Proof.
  unfold UnpinPgImp. split.
  - by intros ->.
  - intros f p -> -> Hpin. simpl. rewrite to_int32_small by lia.
    do 4 f_equal. repeat case_bool_decide; (done || lia).
Qed.

(** C8 as claimed is not what the code does: on a pool with one frame, a page
    is created, unpinned once (pin count 0) and unpinned again; the second
    call returns true and leaves the pin count at -1. *)
Lemma UnpinPgImp_underflow_returns_true :
  (b0 ← new 1 1 0;
   '(_, b1) ← NewPgImp b0;
   '(r2, b2) ← UnpinPgImp b1 0 false;
   '(r3, b3) ← UnpinPgImp b2 0 false;
   Ret (r2, pin_count_ <$> pages_ b2, r3, pin_count_ <$> pages_ b3))
  = Ret (true, [0], true, [-1]).
Proof. vm_compute. reflexivity. Qed.

End BufferPoolFacts.

(** ** Bucket page: the bitmaps *)
Section BucketBits.
Context {T : HashTableTypes}.
Import HashTableBucketPage.

Lemma land_bit_eqb x k :
  0 ≤ k → (Z.land x (Z.shiftl 1 k) =? 0) = negb (Z.testbit x k).
Proof.
  intros Hk. rewrite Z.shiftl_1_l.
  destruct (Z.testbit x k) eqn:Hb; simpl.
  - apply Z.eqb_neq. intros H0.
    assert (Z.testbit (Z.land x (2 ^ k)) k = true) as Hl.
    { rewrite Z.land_spec, Hb, Z.pow2_bits_true; done. }
    rewrite H0, Z.bits_0 in Hl. done.
  - apply Z.eqb_eq. apply Z.bits_inj'. intros n Hn.
    rewrite Z.land_spec, Z.bits_0, Z.pow2_bits_eqb by done.
    destruct (Z.eqb_spec k n) as [->|]; [by rewrite Hb|by rewrite andb_false_r].
Qed.

Lemma bit_pos_range i : 0 ≤ 7 - Z.of_nat (i mod 8) < 8.
Proof. pose proof (Nat.mod_upper_bound i 8). lia. Qed.

Lemma test_bit_of x i :
  negb (Z.land x (bit_of i) =? 0) = Z.testbit x (7 - Z.of_nat (i mod 8)).
Proof.
  unfold bit_of. rewrite land_bit_eqb by apply bit_pos_range. apply negb_involutive.
Qed.

Lemma to_char_range z : 0 ≤ to_char z < 256.
Proof.
  unfold to_char. change 255 with (Z.ones 8). rewrite Z.land_ones by lia.
  apply Z.mod_pos_bound. lia.
Qed.

Lemma to_char_testbit z k :
  0 ≤ k < 8 → Z.testbit (to_char z) k = Z.testbit z k.
Proof.
  intros Hk. unfold to_char. change 255 with (Z.ones 8). rewrite Z.land_ones by lia.
  apply Z.mod_pow2_bits_low. lia.
Qed.

Lemma set_bit_testbit x i k :
  0 ≤ k < 8 →
  Z.testbit (to_char (Z.lor x (bit_of i))) k =
  Z.testbit x k || bool_decide (k = 7 - Z.of_nat (i mod 8)).
Proof.
  intros Hk. rewrite to_char_testbit by done. unfold bit_of.
  rewrite Z.lor_spec, Z.shiftl_1_l, Z.pow2_bits_eqb by apply bit_pos_range.
  f_equal. case_bool_decide; [by apply Z.eqb_eq|]. apply Z.eqb_neq. congruence.
Qed.

Lemma clear_bit_testbit x i k :
  0 ≤ k < 8 →
  Z.testbit (to_char (Z.land x (Z.lnot (bit_of i)))) k =
  Z.testbit x k && negb (bool_decide (k = 7 - Z.of_nat (i mod 8))).
Proof.
  intros Hk. rewrite to_char_testbit by done. unfold bit_of.
  rewrite Z.land_spec, Z.lnot_spec, Z.shiftl_1_l, Z.pow2_bits_eqb
    by (try apply bit_pos_range; lia).
  do 2 f_equal. case_bool_decide; [by apply Z.eqb_eq|]. apply Z.eqb_neq. congruence.
Qed.

Lemma byte_index_lt i :
  (i < BUCKET_ARRAY_SIZE)%nat → (i / 8 < BITMAP_BYTES)%nat.
Proof.
  intros Hi. unfold BITMAP_BYTES.
  assert (i / 8 ≤ (BUCKET_ARRAY_SIZE - 1) / 8)%nat by (apply Nat.Div0.div_le_mono; lia). lia.
Qed.

Lemma same_slot i j : (i / 8 = j / 8)%nat → (i mod 8 = j mod 8)%nat → i = j.
Proof.
  intros Hd Hm. rewrite (Nat.div_mod_eq i 8), (Nat.div_mod_eq j 8). by rewrite Hd, Hm.
Qed.

(** Reading bit [j] of a bitmap after byte [i / 8] was rewritten. *)
Lemma bitmap_update (bm : list Z) (i j : nat) (byte : Z) (v : bool) :
  (i / 8 < length bm)%nat →
  (∀ k, 0 ≤ k < 8 →
        Z.testbit byte k =
        if bool_decide (k = 7 - Z.of_nat (i mod 8)) then v else Z.testbit (bm !!! (i / 8)%nat) k) →
  negb (Z.land (<[(i / 8)%nat := byte]> bm !!! (j / 8)%nat) (bit_of j) =? 0) =
  if decide (i = j) then v else negb (Z.land (bm !!! (j / 8)%nat) (bit_of j) =? 0).
Proof.
  intros Hlen Hbyte. rewrite !test_bit_of.
  destruct (decide (i = j)) as [->|Hne].
  - rewrite list_lookup_total_insert_eq by done.
    rewrite Hbyte by apply bit_pos_range. by rewrite bool_decide_eq_true_2.
  - destruct (decide (i / 8 = j / 8)%nat) as [Hd|Hd].
    + rewrite <- Hd. rewrite list_lookup_total_insert_eq by done.
      rewrite Hbyte by apply bit_pos_range. rewrite bool_decide_eq_false_2; [done|].
      intros Hk. apply Hne, same_slot; [done|lia].
    + by rewrite list_lookup_total_insert_ne.
Qed.

Lemma IsReadable_SetReadable b i j :
  (i / 8 < length (readable_ b))%nat →
  IsReadable (SetReadable b i) j = if decide (i = j) then true else IsReadable b j.
Proof.
  intros Hlen. unfold IsReadable, SetReadable. simpl.
  apply bitmap_update; [done|]. intros k Hk. rewrite set_bit_testbit by done.
  case_bool_decide; [apply orb_true_r|apply orb_false_r].
Qed.

Lemma IsReadable_RemoveAt b i j :
  (i / 8 < length (readable_ b))%nat →
  IsReadable (RemoveAt b i) j = if decide (i = j) then false else IsReadable b j.
Proof.
  intros Hlen. unfold IsReadable, RemoveAt. simpl.
  apply bitmap_update; [done|]. intros k Hk. rewrite clear_bit_testbit by done.
  case_bool_decide; simpl; [apply andb_false_r|apply andb_true_r].
Qed.

Lemma IsOccupied_SetOccupied b i j :
  (i / 8 < length (occupied_ b))%nat →
  IsOccupied (SetOccupied b i) j = if decide (i = j) then true else IsOccupied b j.
Proof.
  intros Hlen. unfold IsOccupied, SetOccupied. simpl.
  apply bitmap_update; [done|]. intros k Hk. rewrite set_bit_testbit by done.
  case_bool_decide; [apply orb_true_r|apply orb_false_r].
Qed.

Lemma wf_zero : wf zero.
Proof.
  split; simpl; rewrite ?length_replicate; try done.
  all: apply Forall_replicate; lia.
Qed.

Lemma wf_SetReadable b i : wf b → wf (SetReadable b i).
Proof.
  intros [? ? ? ? ?]. split; simpl; rewrite ?length_insert; try done.
  apply Forall_insert; [done|apply to_char_range].
Qed.

Lemma wf_SetOccupied b i : wf b → wf (SetOccupied b i).
Proof.
  intros [? ? ? ? ?]. split; simpl; rewrite ?length_insert; try done.
  apply Forall_insert; [done|apply to_char_range].
Qed.

Lemma wf_RemoveAt b i : wf b → wf (RemoveAt b i).
Proof.
  intros [? ? ? ? ?]. split; simpl; rewrite ?length_insert; try done.
  apply Forall_insert; [done|apply to_char_range].
Qed.

Lemma wf_set_entry b i k v : wf b → wf (set_entry b i k v).
Proof. intros [? ? ? ? ?]. split; simpl; rewrite ?length_insert; done. Qed.

Lemma IsReadable_zero i : (i < BUCKET_ARRAY_SIZE)%nat → IsReadable zero i = false.
Proof.
  intros Hi%byte_index_lt. unfold IsReadable, zero. simpl. rewrite test_bit_of.
  rewrite lookup_total_replicate_2 by done. apply Z.bits_0.
Qed.

End BucketBits.

(** ** Bucket page: the operations *)
Section BucketOps.
Context {T : HashTableTypes}.
Import HashTableBucketPage.

Lemma wf_put b p k v : wf b → wf (put b p k v).
Proof. intros. by apply wf_SetReadable, wf_SetOccupied, wf_set_entry. Qed.

Lemma IsReadable_put b p k v j :
  wf b → (p < BUCKET_ARRAY_SIZE)%nat →
  IsReadable (put b p k v) j = if decide (p = j) then true else IsReadable b j.
Proof.
  intros Hwf Hp. unfold put. rewrite IsReadable_SetReadable; [done|].
  simpl. rewrite (wf_readable _ Hwf). by apply byte_index_lt.
Qed.

Lemma IsOccupied_put b p k v j :
  wf b → (p < BUCKET_ARRAY_SIZE)%nat →
  IsOccupied (put b p k v) j = if decide (p = j) then true else IsOccupied b j.
Proof.
  intros Hwf Hp. unfold put.
  change (IsOccupied (SetReadable ?x p) j) with (IsOccupied x j).
  rewrite IsOccupied_SetOccupied; [done|].
  simpl. rewrite (wf_occupied _ Hwf). by apply byte_index_lt.
Qed.

Lemma entry_put b p k v j :
  wf b → (p < BUCKET_ARRAY_SIZE)%nat →
  (KeyAt (put b p k v) j, ValueAt (put b p k v) j) =
  if decide (p = j) then (k, v) else (KeyAt b j, ValueAt b j).
Proof.
  intros Hwf Hp. unfold KeyAt, ValueAt, put. simpl.
  destruct (decide (p = j)) as [->|Hne].
  - rewrite list_lookup_total_insert_eq; [done|]. by rewrite (wf_array _ Hwf).
  - by rewrite list_lookup_total_insert_ne.
Qed.

Lemma KeyAt_put b p k v j :
  wf b → (p < BUCKET_ARRAY_SIZE)%nat →
  KeyAt (put b p k v) j = if decide (p = j) then k else KeyAt b j.
Proof.
  intros Hwf Hp. pose proof (entry_put b p k v j Hwf Hp) as H.
  destruct (decide (p = j)); by injection H.
Qed.

Lemma ValueAt_put b p k v j :
  wf b → (p < BUCKET_ARRAY_SIZE)%nat →
  ValueAt (put b p k v) j = if decide (p = j) then v else ValueAt b j.
Proof.
  intros Hwf Hp. pose proof (entry_put b p k v j Hwf Hp) as H.
  destruct (decide (p = j)); by injection H.
Qed.

Lemma IsReadable_RemoveAt_wf b i j :
  wf b → (i < BUCKET_ARRAY_SIZE)%nat →
  IsReadable (RemoveAt b i) j = if decide (i = j) then false else IsReadable b j.
Proof.
  intros Hwf Hi. apply IsReadable_RemoveAt. rewrite (wf_readable _ Hwf). by apply byte_index_lt.
Qed.

(** *** [Insert] *)

Lemma Insert_loop_None b k v l idx :
  Insert_loop b k v l idx = None ↔ ∃ j, j ∈ l ∧ entry_match b k v j = true.
Proof.
  revert idx. induction l as [|i l IH]; intros idx; simpl.
  - split; [done|]. intros (j & Hj & _). by apply elem_of_nil in Hj.
  - destruct (entry_match b k v i) eqn:Hm.
    + split; [|done]. intros _. exists i. split; [by left|done].
    + rewrite IH. split.
      * intros (j & Hj & Hjm). exists j. split; [by right|done].
      * intros (j & [->|Hj]%elem_of_cons & Hjm); [congruence|eauto].
Qed.

Lemma Insert_loop_Some b k v l idx r :
  Insert_loop b k v l idx = Some r →
  if decide (idx = BUCKET_ARRAY_SIZE)
  then (r = BUCKET_ARRAY_SIZE ∧ ∀ j, j ∈ l → IsReadable b j = true) ∨
       (r ∈ l ∧ IsReadable b r = false)
  else r = idx.
Proof.
  revert idx. induction l as [|i l IH]; intros idx; simpl.
  - intros [= <-]. case_decide; [|done]. left. split; [done|]. by intros j ?%elem_of_nil.
  - destruct (entry_match b k v i); [done|]. intros Hr. apply IH in Hr.
    destruct (Nat.eqb_spec idx BUCKET_ARRAY_SIZE) as [Heq|Hne].
    + rewrite decide_True by done.
      destruct (IsReadable b i) eqn:Hri; simpl in Hr.
      * rewrite decide_True in Hr by done. destruct Hr as [[-> Hall]|[Hr Hrr]].
        -- left. split; [done|]. intros j [->|Hj]%elem_of_cons; [done|by apply Hall].
        -- right. split; [by right|done].
      * destruct (decide (i = BUCKET_ARRAY_SIZE)) as [->|Hi].
        -- right. destruct Hr as [[-> _]|[Hr Hrr]]; [split; [by left|done]|].
           split; [by right|done].
        -- subst r. right. split; [by left|done].
    + by rewrite decide_False in Hr |- * by done.
Qed.

Lemma Insert_true b k v b' :
  Insert b k v = (true, b') →
  ∃ p, (p < BUCKET_ARRAY_SIZE)%nat ∧ IsReadable b p = false ∧
       (∀ j, (j < BUCKET_ARRAY_SIZE)%nat → entry_match b k v j = false) ∧
       b' = put b p k v.
Proof.
  unfold Insert.
  destruct (Insert_loop b k v (seq 0 BUCKET_ARRAY_SIZE) BUCKET_ARRAY_SIZE) as [r|] eqn:Hl; [|done].
  destruct (Nat.eqb_spec r BUCKET_ARRAY_SIZE) as [->|Hr]; [done|].
  intros [= <-]. exists r.
  assert (∀ j, (j < BUCKET_ARRAY_SIZE)%nat → entry_match b k v j = false) as Hnodup.
  { intros j Hj. destruct (entry_match b k v j) eqn:Hm; [|done].
    assert (Insert_loop b k v (seq 0 BUCKET_ARRAY_SIZE) BUCKET_ARRAY_SIZE = None) as Hn.
    { apply Insert_loop_None. exists j. split; [|done]. apply elem_of_seq. lia. }
    congruence. }
  apply Insert_loop_Some in Hl. rewrite decide_True in Hl by done.
  destruct Hl as [[-> _]|[Hin Hrr]]; [done|].
  apply elem_of_seq in Hin. split_and!; [lia|done..].
Qed.

Lemma Insert_false b k v b' :
  Insert b k v = (false, b') →
  b' = b ∧
  ((∃ j, (j < BUCKET_ARRAY_SIZE)%nat ∧ entry_match b k v j = true) ∨
   (∀ j, (j < BUCKET_ARRAY_SIZE)%nat → IsReadable b j = true)).
Proof.
  unfold Insert.
  destruct (Insert_loop b k v (seq 0 BUCKET_ARRAY_SIZE) BUCKET_ARRAY_SIZE) as [r|] eqn:Hl.
  - destruct (Nat.eqb_spec r BUCKET_ARRAY_SIZE) as [->|Hr]; [|done].
    intros [= <-]. split; [done|]. right.
    apply Insert_loop_Some in Hl. rewrite decide_True in Hl by done.
    destruct Hl as [[_ Hall]|[Hin _]].
    + intros j Hj. apply Hall, elem_of_seq. lia.
    + apply elem_of_seq in Hin. lia.
  - intros [= <-]. split; [done|]. left.
    apply Insert_loop_None in Hl as (j & Hj%elem_of_seq & Hm). exists j. split; [lia|done].
Qed.

Lemma Insert_succeeds b k v p :
  (p < BUCKET_ARRAY_SIZE)%nat → IsReadable b p = false →
  (∀ j, (j < BUCKET_ARRAY_SIZE)%nat → entry_match b k v j = false) →
  fst (Insert b k v) = true.
Proof.
  intros Hp Hfree Hnodup. destruct (Insert b k v) as [[] b'] eqn:Hins; [done|].
  apply Insert_false in Hins as [_ [(j & Hj & Hm)|Hall]].
  - rewrite Hnodup in Hm; done.
  - rewrite Hall in Hfree; done.
Qed.

(** *** [GetValue] *)

Lemma GetValue_loop_spec b k l flag result :
  GetValue_loop b k l flag result =
  (flag || existsb (key_match b k) l,
   result ++ (ValueAt b <$> filter (λ i, key_match b k i = true) l)).
Proof.
  revert flag result. induction l as [|i l IH]; intros flag result; simpl.
  - by rewrite orb_false_r, app_nil_r.
  - destruct (key_match b k i) eqn:Hm.
    + rewrite IH, filter_cons_True by done. simpl.
      rewrite orb_true_r, <- app_assoc. done.
    + rewrite IH, filter_cons_False by congruence. done.
Qed.

(** *** [Remove] *)

Lemma Remove_loop_spec b k v l flag :
  wf b → NoDup l → (∀ i, i ∈ l → (i < BUCKET_ARRAY_SIZE)%nat) →
  let r := Remove_loop b k v l flag in
  fst r = flag || existsb (entry_match b k v) l ∧
  wf (snd r) ∧
  occupied_ (snd r) = occupied_ b ∧
  array_ (snd r) = array_ b ∧
  ∀ j, IsReadable (snd r) j =
       IsReadable b j && negb (bool_decide (j ∈ l) && entry_match b k v j).
Proof.
  revert b flag. induction l as [|i l IH]; intros b flag Hwf Hnd Hlt; simpl.
  - split_and!; try done. { by rewrite orb_false_r. }
    intros j. by rewrite andb_true_r.
  - apply NoDup_cons in Hnd as [Hi Hnd].
    assert (i < BUCKET_ARRAY_SIZE)%nat as Hilt by (apply Hlt; by left).
    assert (∀ x, x ∈ l → (x < BUCKET_ARRAY_SIZE)%nat) as Hlt' by (intros; apply Hlt; by right).
    assert (∀ b0 j, j ≠ i → IsReadable b0 j = IsReadable b j →
              array_ b0 = array_ b → entry_match b0 k v j = entry_match b k v j) as Hem.
    { intros b0 j Hj Hr Ha. unfold entry_match, KeyAt, ValueAt. by rewrite Hr, Ha. }
    destruct (entry_match b k v i) eqn:Hm.
    + destruct (IH (RemoveAt b i) true (wf_RemoveAt _ _ Hwf) Hnd Hlt') as (Hf & Hw & Ho & Ha & Hr).
      split_and!; [by rewrite Hf, orb_true_r|done..|].
      intros j. rewrite Hr, IsReadable_RemoveAt_wf by done.
      destruct (decide (i = j)) as [<-|Hne].
      * rewrite (bool_decide_eq_true_2 (i ∈ i :: l)) by (by left).
        rewrite Hm. simpl. by rewrite andb_false_r.
      * rewrite (Hem (RemoveAt b i) j); [|congruence| |done].
        -- do 3 f_equal. apply bool_decide_ext. rewrite elem_of_cons. naive_solver.
        -- rewrite IsReadable_RemoveAt_wf by done. by rewrite decide_False.
    + destruct (IH b flag Hwf Hnd Hlt') as (Hf & Hw & Ho & Ha & Hr).
      split_and!; [done..|].
      intros j. rewrite Hr. destruct (decide (i = j)) as [<-|Hne].
      * rewrite Hm, !andb_false_r. done.
      * do 3 f_equal. apply bool_decide_ext. rewrite elem_of_cons. naive_solver.
Qed.

Lemma Remove_loop_true b k v l : fst (Remove_loop b k v l true) = true.
Proof.
  revert b. induction l as [|i l IH]; intros b; simpl; [done|].
  destruct (entry_match b k v i); apply IH.
Qed.

Lemma Remove_loop_false b k v l flag :
  fst (Remove_loop b k v l flag) = false → snd (Remove_loop b k v l flag) = b.
Proof.
  revert b flag. induction l as [|i l IH]; intros b flag; simpl; [done|].
  destruct (entry_match b k v i); [|apply IH].
  by rewrite Remove_loop_true.
Qed.

Lemma Remove_spec b k v :
  wf b →
  let r := Remove b k v in
  wf (snd r) ∧
  occupied_ (snd r) = occupied_ b ∧
  array_ (snd r) = array_ b ∧
  (∀ j, (j < BUCKET_ARRAY_SIZE)%nat →
        IsReadable (snd r) j = IsReadable b j && negb (entry_match b k v j)) ∧
  (fst r = false → snd r = b).
Proof.
  intros Hwf r.
  destruct (Remove_loop_spec b k v (seq 0 BUCKET_ARRAY_SIZE) false Hwf) as (Hf & Hw & Ho & Ha & Hr).
  { apply NoDup_seq. } { intros i Hi%elem_of_seq. lia. }
  fold (Remove b k v) in Hf, Hw, Ho, Ha, Hr. fold r in Hf, Hw, Ho, Ha, Hr.
  split_and!; try done.
  - intros j Hj. rewrite Hr, bool_decide_eq_true_2; [done|]. apply elem_of_seq. lia.
  - apply Remove_loop_false.
Qed.

(** *** [IsEmpty] *)

Lemma IsEmpty_loop_true b l :
  IsEmpty_loop b l = true ↔ ∀ j, j ∈ l → IsReadable b j = false.
Proof.
  induction l as [|i l IH]; simpl.
  - split; [|done]. by intros _ j ?%elem_of_nil.
  - destruct (IsReadable b i) eqn:Hr.
    + split; [done|]. intros H. rewrite H in Hr; [done|by left].
    + rewrite IH. split.
      * intros H j [->|Hj]%elem_of_cons; [done|by apply H].
      * intros H j Hj. apply H. by right.
Qed.

Lemma IsEmpty_true b :
  IsEmpty b = true ↔ ∀ j, (j < BUCKET_ARRAY_SIZE)%nat → IsReadable b j = false.
Proof.
  unfold IsEmpty. rewrite IsEmpty_loop_true. split.
  - intros H j Hj. apply H, elem_of_seq. lia.
  - intros H j Hj%elem_of_seq. apply H. lia.
Qed.

(** *** [IsFull] *)

Lemma IsFull_loop_true b l :
  IsFull_loop b l = true ↔ ∀ i, i ∈ l → Z.land (readable_ b !!! i) 255 = 0.
Proof.
  induction l as [|i l IH]; simpl.
  - split; [|done]. by intros _ j ?%elem_of_nil.
  - destruct (Z.eqb_spec (Z.land (readable_ b !!! i) 255) 0) as [Hz|Hnz]; simpl.
    + rewrite IH. split.
      * intros H j [->|Hj]%elem_of_cons; [done|by apply H].
      * intros H j Hj. apply H. by right.
    + split; [done|]. intros H. exfalso. apply Hnz, H. by left.
Qed.

(** What [IsFull] computes: it answers true exactly when every byte of the
    readable bitmap is zero, and then no slot is readable. *)
Lemma IsFull_true_no_readable b :
  IsFull b = true → ∀ j, (j < BUCKET_ARRAY_SIZE)%nat → IsReadable b j = false.
Proof.
  unfold IsFull. rewrite IsFull_loop_true. intros Hall j Hj.
  unfold IsReadable. rewrite test_bit_of.
  specialize (Hall (j / 8)%nat). fold BITMAP_BYTES in Hall.
  rewrite <- (to_char_testbit _ _ (bit_pos_range j)). unfold to_char.
  rewrite Hall; [apply Z.bits_0|]. apply elem_of_seq. pose proof (byte_index_lt j Hj). lia.
Qed.

End BucketOps.

(** ** Slot indices as bit strings *)
Section Bits.
Context {T : HashTableTypes}.
Import ExtendibleHashTable.

Lemma shiftl_1_pow g : 0 ≤ g → Z.shiftl 1 g = 2 ^ g.
Proof. intros. by rewrite Z.shiftl_1_l. Qed.

Lemma mask_ones g : 0 ≤ g → Z.shiftl 1 g - 1 = Z.ones g.
Proof. intros. rewrite Z.ones_equiv, shiftl_1_pow by done. lia. Qed.

Lemma pow2_succ g : 0 ≤ g → 2 ^ (g + 1) = 2 * 2 ^ g.
Proof. intros. by rewrite Z.add_1_r, Z.pow_succ_r. Qed.

Lemma bits_above i g n : 0 ≤ g → 0 ≤ i < 2 ^ g → g ≤ n → Z.testbit i n = false.
Proof.
  intros Hg Hi Hn. rewrite <- (Z.mod_small i (2 ^ g)) by done.
  apply Z.mod_pow2_bits_high. lia.
Qed.

Lemma lt_pow2_of_bits i g :
  0 ≤ g → 0 ≤ i → (∀ n, g ≤ n → Z.testbit i n = false) → i < 2 ^ g.
Proof.
  intros Hg Hi Hbits.
  assert (i = i mod 2 ^ g) as ->.
  { apply Z.bits_inj'. intros n Hn. destruct (decide (n < g)).
    - by rewrite Z.mod_pow2_bits_low.
    - rewrite Z.mod_pow2_bits_high by lia. apply Hbits. lia. }
  apply Z.mod_pos_bound. lia.
Qed.

Lemma cong_refl L i : cong L i i.
Proof. by intros n Hn. Qed.

Lemma cong_sym L i j : cong L i j → cong L j i.
Proof. intros H n Hn. symmetry. by apply H. Qed.

Lemma cong_trans L i j k : cong L i j → cong L j k → cong L i k.
Proof. intros H1 H2 n Hn. rewrite H1 by done. by apply H2. Qed.

Lemma cong_mono L L' i j : L' ≤ L → cong L i j → cong L' i j.
Proof. intros HL H n Hn. apply H. lia. Qed.

Lemma cong_succ L i j :
  0 ≤ L → cong (L + 1) i j ↔ cong L i j ∧ Z.testbit i L = Z.testbit j L.
Proof.
  intros HL. split.
  - intros H. split; [by eapply cong_mono; [|done]; lia|]. apply H. lia.
  - intros [H Hb] n Hn. destruct (decide (n = L)) as [->|]; [done|]. apply H. lia.
Qed.

Lemma cong_eq g i j :
  0 ≤ g → 0 ≤ i < 2 ^ g → 0 ≤ j < 2 ^ g → cong g i j → i = j.
Proof.
  intros Hg Hi Hj H. apply Z.bits_inj'. intros n Hn.
  destruct (decide (n < g)); [apply H; lia|].
  rewrite (bits_above i g), (bits_above j g); done || lia.
Qed.

Lemma land_ones_range x L : 0 ≤ L → 0 ≤ Z.land x (Z.ones L) < 2 ^ L.
Proof. intros. rewrite Z.land_ones by done. apply Z.mod_pos_bound. lia. Qed.

Lemma cong_land_ones x L : 0 ≤ L → cong L (Z.land x (Z.ones L)) x.
Proof.
  intros HL n Hn. rewrite Z.land_ones by done. apply Z.mod_pow2_bits_low. lia.
Qed.

Lemma cong_iff_land L i j :
  0 ≤ L → cong L i j ↔ Z.land i (Z.ones L) = Z.land j (Z.ones L).
Proof.
  intros HL. split.
  - intros H. apply (cong_eq L); [done|by apply land_ones_range..|].
    eapply cong_trans; [by apply cong_land_ones|].
    eapply cong_trans; [done|]. apply cong_sym. by apply cong_land_ones.
  - intros H. eapply cong_trans; [apply cong_sym; by apply cong_land_ones|].
    rewrite H. by apply cong_land_ones.
Qed.

Lemma cong_iff_mod L i j :
  0 ≤ L → cong L i j ↔ i mod 2 ^ L = j mod 2 ^ L.
Proof. intros HL. rewrite cong_iff_land by done. by rewrite !Z.land_ones. Qed.

Lemma testbit_flip i L n :
  0 ≤ L → 0 ≤ n →
  Z.testbit (Z.lxor i (Z.shiftl 1 L)) n = xorb (Z.testbit i n) (bool_decide (n = L)).
Proof.
  intros HL Hn. rewrite Z.lxor_spec, shiftl_1_pow, Z.pow2_bits_eqb by done.
  f_equal. case_bool_decide; [by apply Z.eqb_eq|]. apply Z.eqb_neq. congruence.
Qed.

Lemma testbit_set i g n :
  0 ≤ g → 0 ≤ n →
  Z.testbit (Z.lor i (Z.shiftl 1 g)) n = Z.testbit i n || bool_decide (n = g).
Proof.
  intros Hg Hn. rewrite Z.lor_spec, shiftl_1_pow, Z.pow2_bits_eqb by done.
  f_equal. case_bool_decide; [by apply Z.eqb_eq|]. apply Z.eqb_neq. congruence.
Qed.

Lemma flip_range i L g :
  0 ≤ L < g → 0 ≤ i < 2 ^ g → 0 ≤ Z.lxor i (Z.shiftl 1 L) < 2 ^ g.
Proof.
  intros HL Hi. assert (0 ≤ Z.lxor i (Z.shiftl 1 L)) as Hnn.
  { apply Z.lxor_nonneg. rewrite shiftl_1_pow by lia. split; intros; lia. }
  split; [done|]. apply lt_pow2_of_bits; [lia|done|].
  intros n Hn. rewrite testbit_flip by lia.
  rewrite (bits_above i g) by (done || lia).
  rewrite bool_decide_eq_false_2 by lia. done.
Qed.

Lemma set_range i g :
  0 ≤ g → 0 ≤ i < 2 ^ g → 0 ≤ Z.lor i (Z.shiftl 1 g) < 2 ^ (g + 1).
Proof.
  intros Hg Hi. assert (0 ≤ Z.lor i (Z.shiftl 1 g)) as Hnn.
  { apply Z.lor_nonneg. rewrite shiftl_1_pow by lia. lia. }
  split; [done|]. apply lt_pow2_of_bits; [lia|done|].
  intros n Hn. rewrite testbit_set by lia.
  rewrite (bits_above i g) by (done || lia).
  rewrite bool_decide_eq_false_2 by lia. done.
Qed.

Lemma cong_flip i L : 0 ≤ L → cong L (Z.lxor i (Z.shiftl 1 L)) i.
Proof.
  intros HL n Hn. rewrite testbit_flip by lia.
  rewrite bool_decide_eq_false_2 by lia. apply xorb_false_r.
Qed.

Lemma cong_set i g : 0 ≤ g → cong g (Z.lor i (Z.shiftl 1 g)) i.
Proof.
  intros Hg n Hn. rewrite testbit_set by lia.
  rewrite bool_decide_eq_false_2 by lia. apply orb_false_r.
Qed.

Lemma flip_bit i L : 0 ≤ L → Z.testbit (Z.lxor i (Z.shiftl 1 L)) L = negb (Z.testbit i L).
Proof.
  intros HL. rewrite testbit_flip by lia. rewrite bool_decide_eq_true_2 by done.
  by destruct (Z.testbit i L).
Qed.

Lemma set_bit i g : 0 ≤ g → Z.testbit (Z.lor i (Z.shiftl 1 g)) g = true.
Proof.
  intros Hg. rewrite testbit_set by lia. rewrite bool_decide_eq_true_2 by done.
  apply orb_true_r.
Qed.

Lemma live_iff d i : 0 ≤ D.GetGlobalDepth d → live d i ↔ 0 ≤ i < 2 ^ D.GetGlobalDepth d.
Proof. intros Hg. unfold live, D.Size, D.GetGlobalDepth in *. by rewrite shiftl_1_pow. Qed.

(** Routing: the slot of a key is live and agrees with the hash on the
    [global_depth] low bits. *)
Lemma KeyToDirectoryIndex_live d k :
  0 ≤ D.GetGlobalDepth d → live d (KeyToDirectoryIndex k d).
Proof.
  intros Hg. apply live_iff; [done|]. unfold KeyToDirectoryIndex, D.GetGlobalDepthMask.
  fold (D.GetGlobalDepth d). rewrite mask_ones by done. by apply land_ones_range.
Qed.

Lemma KeyToDirectoryIndex_cong d k :
  0 ≤ D.GetGlobalDepth d → cong (D.GetGlobalDepth d) (KeyToDirectoryIndex k d) (Hash k).
Proof.
  intros Hg. unfold KeyToDirectoryIndex, D.GetGlobalDepthMask.
  fold (D.GetGlobalDepth d). rewrite mask_ones by done. by apply cong_land_ones.
Qed.

End Bits.

(** ** Directory page accessors *)
Section DirectoryFacts.
Import HashTableDirectoryPage.

Lemma Get_SetBucketPageId d i p j :
  GetBucketPageId (SetBucketPageId d i p) j = if decide (i = j) then p else GetBucketPageId d j.
Proof.
  unfold GetBucketPageId, SetBucketPageId. simpl.
  destruct (decide (i = j)) as [->|Hne]; [by rewrite lookup_insert_eq|by rewrite lookup_insert_ne].
Qed.

Lemma GetLocalDepth_SetBucketPageId d i p j :
  GetLocalDepth (SetBucketPageId d i p) j = GetLocalDepth d j.
Proof. done. Qed.

Lemma GetBucketPageId_SetLocalDepth d i v j :
  GetBucketPageId (SetLocalDepth d i v) j = GetBucketPageId d j.
Proof. done. Qed.

Lemma Get_SetLocalDepth d i v j :
  GetLocalDepth (SetLocalDepth d i v) j = if decide (i = j) then to_uint8 v else GetLocalDepth d j.
Proof.
  unfold GetLocalDepth, SetLocalDepth. simpl.
  destruct (decide (i = j)) as [->|Hne]; [by rewrite lookup_insert_eq|by rewrite lookup_insert_ne].
Qed.

Lemma GetGlobalDepth_SetBucketPageId d i p :
  GetGlobalDepth (SetBucketPageId d i p) = GetGlobalDepth d.
Proof. done. Qed.

Lemma GetGlobalDepth_SetLocalDepth d i v :
  GetGlobalDepth (SetLocalDepth d i v) = GetGlobalDepth d.
Proof. done. Qed.

Lemma GetPageId_SetBucketPageId d i p : GetPageId (SetBucketPageId d i p) = GetPageId d.
Proof. done. Qed.

Lemma GetPageId_SetLocalDepth d i v : GetPageId (SetLocalDepth d i v) = GetPageId d.
Proof. done. Qed.

Lemma IncrGlobalDepth_Ret d d' :
  IncrGlobalDepth d = Ret d' ↔
  GetGlobalDepth d < MAX_DEPTH ∧
  d' = mk (page_id_ d) (global_depth_ d + 1) (local_depths_ d) (bucket_page_ids_ d).
Proof.
  unfold IncrGlobalDepth, assert, GetGlobalDepth.
  destruct (Z.ltb_spec (global_depth_ d) MAX_DEPTH); simpl.
  - split; [intros [= <-]; done|]. by intros [_ ->].
  - split; [done|]. intros [? _]. lia.
Qed.

Lemma CanShrink_true d :
  CanShrink d = true ↔ ∀ i, 0 ≤ i < Size d → GetLocalDepth d i < GetGlobalDepth d.
Proof.
  unfold CanShrink, GetGlobalDepth. rewrite forallb_forall. split.
  - intros H i Hi. apply Z.ltb_lt, H. apply list_elem_of_In, elem_of_seqZ. lia.
  - intros H i Hi%list_elem_of_In%elem_of_seqZ. apply Z.ltb_lt, H. lia.
Qed.

End DirectoryFacts.

#[global] Hint Rewrite Get_SetBucketPageId GetLocalDepth_SetBucketPageId
  GetBucketPageId_SetLocalDepth Get_SetLocalDepth GetGlobalDepth_SetBucketPageId
  GetGlobalDepth_SetLocalDepth GetPageId_SetBucketPageId GetPageId_SetLocalDepth : dir.

(** ** The directory after a split with doubling *)
Section SplitGrowDirectory.
Context {T : HashTableTypes}.
Import ExtendibleHashTable.

Lemma set_inj g a i :
  0 ≤ g → 0 ≤ a < 2 ^ g → 0 ≤ i < 2 ^ g →
  Z.lor a (Z.shiftl 1 g) = Z.lor i (Z.shiftl 1 g) → a = i.
Proof.
  intros Hg Ha Hi Heq. apply (cong_eq g); [done..|].
  eapply cong_trans; [apply cong_sym, cong_set; done|]. rewrite Heq. by apply cong_set.
Qed.

Lemma set_ne_low g a i :
  0 ≤ g → 0 ≤ i < 2 ^ g → i ≠ Z.lor a (Z.shiftl 1 g).
Proof.
  intros Hg Hi Heq. pose proof (set_bit a g Hg) as Hb. rewrite <- Heq in Hb.
  rewrite (bits_above i g g) in Hb; done || lia.
Qed.

(** A slot of the doubled directory is a slot of the old one, or its image. *)
Lemma high_slot g j :
  0 ≤ g → 0 ≤ j < 2 ^ (g + 1) →
  let i := Z.land j (Z.ones g) in
  0 ≤ i < 2 ^ g ∧ cong g j i ∧ (j = i ∨ j = Z.lor i (Z.shiftl 1 g)).
Proof.
  intros Hg Hj i. pose proof (land_ones_range j g Hg) as Hi. fold i in Hi.
  assert (cong g j i) as Hc by (apply cong_sym, cong_land_ones; done).
  split_and!; [lia..|done|].
  destruct (Z.testbit j g) eqn:Hb.
  - right. apply Z.bits_inj'. intros n Hn. rewrite testbit_set by done.
    destruct (decide (n < g)).
    + rewrite bool_decide_eq_false_2 by lia. rewrite orb_false_r. apply Hc. lia.
    + destruct (decide (n = g)) as [->|].
      * rewrite bool_decide_eq_true_2 by done. by rewrite orb_true_r.
      * rewrite bool_decide_eq_false_2 by done. rewrite orb_false_r.
        rewrite (bits_above j (g + 1)), (bits_above i g); done || lia.
  - left. apply (cong_eq (g + 1)); [lia|done| |].
    + split; [lia|]. rewrite Z.pow_add_r by lia. lia.
    + apply cong_succ; [done|]. split; [done|].
      rewrite Hb. symmetry. apply (bits_above i g); done || lia.
Qed.

Lemma cong_low_cases g j i :
  0 ≤ g → 0 ≤ i < 2 ^ g → 0 ≤ j < 2 ^ (g + 1) → cong g j i →
  j = i ∨ j = Z.lor i (Z.shiftl 1 g).
Proof.
  intros Hg Hi Hj Hc. destruct (high_slot g j Hg Hj) as (Hi' & Hc' & Hcases).
  assert (Z.land j (Z.ones g) = i) as <-; [|done].
  apply (cong_eq g); [done..|]. eapply cong_trans; [apply cong_sym|]; done.
Qed.

Lemma foldl_grow_step d l :
  0 ≤ D.GetGlobalDepth d → NoDup l →
  (∀ i, i ∈ l → 0 ≤ i < 2 ^ D.GetGlobalDepth d) →
  let m := Z.shiftl 1 (D.GetGlobalDepth d) in
  let d' := foldl grow_step d l in
  D.GetGlobalDepth d' = D.GetGlobalDepth d ∧
  D.GetPageId d' = D.GetPageId d ∧
  (∀ i, i ∈ l →
     D.GetBucketPageId d' (Z.lor i m) = D.GetBucketPageId d i ∧
     D.GetLocalDepth d' (Z.lor i m) = to_uint8 (D.GetLocalDepth d i)) ∧
  (∀ j, (∀ i, i ∈ l → j ≠ Z.lor i m) →
     D.GetBucketPageId d' j = D.GetBucketPageId d j ∧
     D.GetLocalDepth d' j = D.GetLocalDepth d j).
Proof.
  revert d. induction l as [|a l IH]; intros d Hg Hnd Hrange; simpl.
  - split_and!; try done. by intros i ?%elem_of_nil.
  - apply NoDup_cons in Hnd as [Ha Hnd].
    assert (0 ≤ a < 2 ^ D.GetGlobalDepth d) as Har by (apply Hrange; by left).
    assert (D.GetGlobalDepth (grow_step d a) = D.GetGlobalDepth d) as Hg1 by done.
    destruct (IH (grow_step d a)) as (IHg & IHp & IHa & IHb).
    { by rewrite Hg1. } { done. } { intros i Hi. rewrite Hg1. apply Hrange. by right. }
    rewrite Hg1 in IHa, IHb.
    assert (∀ j, j ≠ Z.lor a (Z.shiftl 1 (D.GetGlobalDepth d)) →
              D.GetBucketPageId (grow_step d a) j = D.GetBucketPageId d j ∧
              D.GetLocalDepth (grow_step d a) j = D.GetLocalDepth d j) as Hother.
    { intros j Hj. unfold grow_step. autorewrite with dir. by rewrite !decide_False. }
    assert (D.GetBucketPageId (grow_step d a) (Z.lor a (Z.shiftl 1 (D.GetGlobalDepth d)))
              = D.GetBucketPageId d a ∧
            D.GetLocalDepth (grow_step d a) (Z.lor a (Z.shiftl 1 (D.GetGlobalDepth d)))
              = to_uint8 (D.GetLocalDepth d a)) as Hat.
    { unfold grow_step. autorewrite with dir. by rewrite !decide_True. }
    split_and!.
    + by rewrite IHg.
    + by rewrite IHp.
    + intros i [->|Hi]%elem_of_cons.
      * destruct (IHb (Z.lor a (Z.shiftl 1 (D.GetGlobalDepth d)))) as [-> ->]; [|done].
        intros i Hi Heq. apply set_inj in Heq; [congruence|done..|]. apply Hrange. by right.
      * destruct (IHa i Hi) as [-> ->].
        destruct (Hother i) as [-> ->]; [|done].
        apply set_ne_low; [done|]. apply Hrange. by right.
    + intros j Hj. destruct (IHb j) as [-> ->].
      { intros i Hi. apply Hj. by right. }
      apply Hother, Hj. by left.
Qed.

(** What the doubling loop leaves: every slot of the doubled directory carries
    what the slot of the old directory with the same low bits carried. *)
Lemma grow_spec d i j :
  0 ≤ D.GetGlobalDepth d →
  0 ≤ i < 2 ^ D.GetGlobalDepth d → 0 ≤ j < 2 ^ (D.GetGlobalDepth d + 1) →
  cong (D.GetGlobalDepth d) j i →
  D.GetGlobalDepth (grow d) = D.GetGlobalDepth d ∧
  D.GetPageId (grow d) = D.GetPageId d ∧
  D.GetBucketPageId (grow d) j = D.GetBucketPageId d i ∧
  (0 ≤ D.GetLocalDepth d i < 2 ^ 8 → D.GetLocalDepth (grow d) j = D.GetLocalDepth d i).
Proof.
  intros Hg Hi Hj Hc. unfold grow.
  destruct (foldl_grow_step d (seqZ 0 (D.Size d)) Hg) as (Hgd & Hpid & Ha & Hb).
  { apply NoDup_seqZ. }
  { intros x Hx%elem_of_seqZ. unfold D.Size in Hx. fold (D.GetGlobalDepth d) in Hx.
    rewrite shiftl_1_pow in Hx by done. lia. }
  split_and!; [done..| |].
  - destruct (cong_low_cases _ j i Hg Hi Hj Hc) as [->| ->].
    + apply Hb. intros x Hx%elem_of_seqZ. apply set_ne_low; done.
    + apply Ha, elem_of_seqZ. unfold D.Size. fold (D.GetGlobalDepth d).
      rewrite shiftl_1_pow by done. lia.
  - intros Hld. destruct (cong_low_cases _ j i Hg Hi Hj Hc) as [->| ->].
    + apply Hb. intros x Hx%elem_of_seqZ. apply set_ne_low; done.
    + destruct (Ha i) as [_ ->]; [|by apply to_uint8_small].
      apply elem_of_seqZ. unfold D.Size. fold (D.GetGlobalDepth d).
      rewrite shiftl_1_pow by done. lia.
Qed.

Lemma grown_dir_inv d d2 index new_pid :
  dir_inv d → live d index →
  D.GetLocalDepth d index = D.GetGlobalDepth d →
  D.GetGlobalDepth d < D.MAX_DEPTH →
  (∀ i, live d i → D.GetBucketPageId d i ≠ new_pid) →
  grown d d2 index (Z.lor index (Z.shiftl 1 (D.GetGlobalDepth d))) new_pid →
  dir_inv d2.
Proof.
  intros Hinv Hindex Hld Hmax Hfresh (Hg2 & _ & Hgrown).
  set (g := D.GetGlobalDepth d) in *.
  set (new_index := Z.lor index (Z.shiftl 1 g)) in *.
  assert (0 ≤ g) as Hg by apply Hinv.
  assert (∀ i, live d i ↔ 0 ≤ i < 2 ^ g) as Hlive by (intros; by apply live_iff).
  assert (∀ j, live d2 j ↔ 0 ≤ j < 2 ^ (g + 1)) as Hlive2.
  { intros j. rewrite live_iff by lia. by rewrite Hg2. }
  apply Hlive in Hindex.
  assert (cong g new_index index) as Hcn by (by apply cong_set).
  assert (0 ≤ new_index < 2 ^ (g + 1)) as Hnr by (by apply set_range).
  assert (new_index ≠ index) as Hni.
  { intros Heq. symmetry in Heq. revert Heq. by apply set_ne_low. }
  (* every live slot of [d2] with the slot of [d] it copies *)
  assert (∀ j, live d2 j →
            ∃ i, live d i ∧ cong g j i ∧
                 (j = i ∨ j = Z.lor i (Z.shiftl 1 g)) ∧
                 D.GetBucketPageId d2 j =
                   (if decide (j = new_index) then new_pid else D.GetBucketPageId d i) ∧
                 D.GetLocalDepth d2 j =
                   (if decide (i = index) then g + 1 else D.GetLocalDepth d i)) as Hslot.
  { intros j Hj%Hlive2. destruct (high_slot g j Hg Hj) as (Hi & Hc & Hcases).
    exists (Z.land j (Z.ones g)). rewrite Hlive. split_and!; [lia..|done|done| |].
    all: by apply (Hgrown _ j Hi Hj Hc). }
  assert (∀ i j, live d i → cong g j i → i = index → live d2 j →
                 j = index ∨ j = new_index) as Hpair.
  { intros i j Hi Hc -> Hj%Hlive2. by apply cong_low_cases. }
  assert (∀ i, live d i → D.GetBucketPageId d i = D.GetBucketPageId d index → i = index)
    as Hold.
  { intros i Hi Hp. apply (cong_eq g); [done|(done || by apply Hlive)..|].
    apply cong_sym. rewrite <- Hld. apply (dir_alias _ Hinv); [by apply Hlive|done|done]. }
  split.
  - rewrite Hg2. split; [lia|]. unfold g in *. lia.
  - intros j Hj. destruct (Hslot j Hj) as (i & Hi & _ & _ & _ & ->). rewrite Hg2.
    case_decide; [lia|]. pose proof (dir_local _ Hinv i Hi). fold g in H0. lia.
  - intros j1 j2 Hj1 Hj2.
    destruct (Hslot j1 Hj1) as (i1 & Hi1 & Hc1 & _ & -> & ->).
    destruct (Hslot j2 Hj2) as (i2 & Hi2 & Hc2 & _ & -> & _).
    pose proof (proj1 (Hlive2 j1) Hj1) as Hr1. pose proof (proj1 (Hlive2 j2) Hj2) as Hr2.
    destruct (decide (j1 = new_index)) as [->|Hn1].
    + assert (i1 = index) as ->.
      { apply (cong_eq g); [done|(done || by apply Hlive)..|].
        eapply cong_trans; [apply cong_sym, Hc1|done]. }
      rewrite (decide_True (P := index = index)) by done. split.
      * case_decide as Hn2; [intros _; subst; apply cong_refl|].
        intros Heq. exfalso. exact (Hfresh i2 Hi2 (eq_sym Heq)).
      * intros Hc. rewrite decide_True; [done|]. symmetry. apply (cong_eq (g + 1)); [lia|done..].
    + destruct (decide (j2 = new_index)) as [->|Hn2].
      * split; [intros Heq; exfalso; exact (Hfresh i1 Hi1 Heq)|].
        assert (i2 = index) as ->.
        { apply (cong_eq g); [done|(done || by apply Hlive)..|].
          eapply cong_trans; [apply cong_sym, Hc2|done]. }
        intros Hc. exfalso. destruct (decide (i1 = index)) as [->|Hi1n].
        -- apply Hn1. apply (cong_eq (g + 1)); [lia|done..].
        -- apply Hi1n, Hold; [done|].
           pose proof (dir_local _ Hinv i1 Hi1) as Hl1. fold g in Hl1.
           apply (dir_alias _ Hinv); [done|by apply Hlive|].
           eapply cong_trans; [eapply cong_mono; [|apply cong_sym, Hc1]; lia|].
           eapply cong_trans; [done|]. eapply cong_mono; [|done]. lia.
      * destruct (decide (i1 = index)) as [->|Hi1n].
        -- assert (j1 = index) as -> by (destruct (Hpair index j1); done).
           split.
           ++ intros Hp. symmetry in Hp. apply Hold in Hp; [|done]. subst i2.
              assert (j2 = index) as -> by (destruct (Hpair index j2); done).
              apply cong_refl.
           ++ intros Hc. assert (index = j2) as <- by (apply (cong_eq (g + 1)); [lia|done..]).
              f_equal. apply (cong_eq g); [done|(done || by apply Hlive)..|]. done.
        -- pose proof (dir_local _ Hinv i1 Hi1) as Hl1. fold g in Hl1.
           rewrite (dir_alias _ Hinv i1 i2 Hi1 Hi2). split; intros Hc.
           ++ eapply cong_trans; [eapply cong_mono; [|exact Hc1]; lia|].
              eapply cong_trans; [done|]. eapply cong_mono; [|apply cong_sym, Hc2]. lia.
           ++ eapply cong_trans; [eapply cong_mono; [|apply cong_sym, Hc1]; lia|].
              eapply cong_trans; [done|]. eapply cong_mono; [|exact Hc2]. lia.
  - intros j1 j2 Hj1 Hj2.
    destruct (Hslot j1 Hj1) as (i1 & Hi1 & Hc1 & _ & -> & ->).
    destruct (Hslot j2 Hj2) as (i2 & Hi2 & Hc2 & _ & -> & ->).
    assert (∀ j i, cong g j i → live d i → j = new_index → i = index) as Hnew.
    { intros j i Hc Hi ->. apply (cong_eq g); [done|(done || by apply Hlive)..|].
      eapply cong_trans; [apply cong_sym, Hc|done]. }
    destruct (decide (j1 = new_index)) as [Hn1|Hn1];
      destruct (decide (j2 = new_index)) as [Hn2|Hn2].
    + intros _. rewrite (Hnew j1 i1), (Hnew j2 i2) by done. done.
    + intros Heq. exfalso. exact (Hfresh i2 Hi2 (eq_sym Heq)).
    + intros Heq. exfalso. exact (Hfresh i1 Hi1 Heq).
    + intros Hp. destruct (decide (i1 = index)) as [->|Hi1n].
      * symmetry in Hp. apply Hold in Hp; [|done]. by rewrite decide_True.
      * rewrite decide_False; [by apply (dir_depth _ Hinv)|].
        intros ->. by apply Hi1n, Hold.
Qed.

(** The directory writes of the branch with doubling produce [grown]. *)
Lemma grown_spec d index new_pid d1 :
  dir_inv d → live d index →
  D.IncrGlobalDepth (grow d) = Ret d1 →
  let new_index := Z.lor index (Z.shiftl 1 (D.GetGlobalDepth d)) in
  D.GetGlobalDepth d < D.MAX_DEPTH ∧
  D.GetGlobalDepth d1 = D.GetGlobalDepth d + 1 ∧
  D.GetBucketPageId d1 index = D.GetBucketPageId d1 new_index ∧
  (∀ k, KeyToDirectoryIndex k d1 = Z.land (Hash k) (Z.ones (D.GetGlobalDepth d + 1))) ∧
  grown d
    (D.SetLocalDepth
       (D.SetLocalDepth (D.SetBucketPageId d1 new_index new_pid) new_index
          (D.GetGlobalDepth d1))
       index (D.GetGlobalDepth d1))
    index new_index new_pid.
Proof.
  intros Hinv Hindex Hincr new_index.
  set (g := D.GetGlobalDepth d) in *.
  assert (0 ≤ g) as Hg by apply Hinv.
  apply live_iff in Hindex; [|done]. fold g in Hindex.
  apply IncrGlobalDepth_Ret in Hincr as [Hmax ->].
  pose proof (grow_spec d index index Hg Hindex) as Hgi. fold g in Hgi.
  destruct Hgi as (Hgg & Hgp & _ & _); [rewrite pow2_succ by lia; lia|apply cong_refl|].
  fold g in Hgg. rewrite Hgg in Hmax.
  assert (∀ i j, 0 ≤ i < 2 ^ g → 0 ≤ j < 2 ^ (g + 1) → cong g j i →
            D.GetBucketPageId (grow d) j = D.GetBucketPageId d i ∧
            D.GetLocalDepth (grow d) j = D.GetLocalDepth d i) as Hcopy.
  { intros i j Hi Hj Hc. destruct (grow_spec d i j Hg Hi Hj Hc) as (_ & _ & Hp & Hl).
    split; [done|]. apply Hl.
    assert (live d i) as Hli by (apply live_iff; done).
    pose proof (dir_local _ Hinv i Hli) as Hr. pose proof (dir_global _ Hinv) as Hgm.
    unfold D.MAX_DEPTH in Hgm. lia. }
  assert (0 ≤ new_index < 2 ^ (g + 1)) as Hnr by (by apply set_range).
  assert (cong g new_index index) as Hcn by (by apply cong_set).
  assert (new_index ≠ index) as Hni.
  { intros Heq. symmetry in Heq. revert Heq. by apply set_ne_low. }
  split_and!.
  - done.
  - unfold D.GetGlobalDepth. simpl. fold (D.GetGlobalDepth (grow d)). by rewrite Hgg.
  - change (D.GetBucketPageId (grow d) index = D.GetBucketPageId (grow d) new_index).
    destruct (Hcopy index index) as [-> _]; [done| |apply cong_refl|].
    { rewrite pow2_succ by lia. lia. }
    by destruct (Hcopy index new_index) as [-> _].
  - intros k. unfold KeyToDirectoryIndex, D.GetGlobalDepthMask. simpl.
    fold (D.GetGlobalDepth (grow d)). rewrite Hgg. by rewrite mask_ones by lia.
  - split_and!.
    + autorewrite with dir. unfold D.GetGlobalDepth. simpl.
      fold (D.GetGlobalDepth (grow d)). by rewrite Hgg.
    + done.
    + intros i j Hi Hj Hc. autorewrite with dir.
      change (D.GetGlobalDepth {| D.page_id_ := _; D.global_depth_ := ?x;
                                  D.local_depths_ := _; D.bucket_page_ids_ := _ |}) with x.
      fold (D.GetGlobalDepth (grow d)). rewrite Hgg.
      change (D.GetBucketPageId {| D.page_id_ := _; D.global_depth_ := _;
                                   D.local_depths_ := ?l; D.bucket_page_ids_ := ?b |} j)
        with (D.GetBucketPageId (grow d) j).
      change (D.GetLocalDepth {| D.page_id_ := _; D.global_depth_ := _;
                                 D.local_depths_ := ?l; D.bucket_page_ids_ := ?b |} j)
        with (D.GetLocalDepth (grow d) j).
      destruct (Hcopy i j Hi Hj Hc) as [-> ->].
      rewrite to_uint8_small by (unfold D.MAX_DEPTH in Hmax; lia).
      assert (i = index ↔ j = index ∨ j = new_index) as Hiff.
      { split.
        - intros ->. by apply cong_low_cases.
        - intros [Hj'|Hj']; subst j; apply (cong_eq g); try done.
          + by apply cong_sym.
          + eapply cong_trans; [apply cong_sym, Hc|done]. }
      split.
      * destruct (decide (new_index = j)) as [<-|]; [by rewrite decide_True|].
        by rewrite decide_False.
      * destruct (decide (index = j)) as [<-|Hj1].
        { rewrite decide_True; [done|]. apply Hiff. by left. }
        destruct (decide (new_index = j)) as [<-|Hj2].
        { rewrite decide_True; [done|]. apply Hiff. by right. }
        rewrite decide_False; [done|]. intros Hi'. apply Hiff in Hi' as [?|?]; congruence.
Qed.

End SplitGrowDirectory.

(** ** The directory after a split in place *)
Section SplitLocalDirectory.
Context {T : HashTableTypes}.
Import ExtendibleHashTable.

Lemma fan_out_spec d l index new_index local_depth mask old_pid new_pid :
  NoDup l →
  (∀ i, i ∈ l → D.GetBucketPageId d i = old_pid →
        i = index ∨ i = new_index ∨ D.GetLocalDepth d i = local_depth) →
  ∃ d', fan_out d l index new_index local_depth mask old_pid new_pid = Ret d' ∧
        D.GetGlobalDepth d' = D.GetGlobalDepth d ∧
        D.GetPageId d' = D.GetPageId d ∧
        ∀ j, if decide (j ∈ l ∧ D.GetBucketPageId d j = old_pid)
             then D.GetLocalDepth d' j = to_uint8 (local_depth + 1) ∧
                  D.GetBucketPageId d' j =
                    (if Z.land j mask =? Z.land index mask then old_pid else new_pid)
             else D.GetLocalDepth d' j = D.GetLocalDepth d j ∧
                  D.GetBucketPageId d' j = D.GetBucketPageId d j.
Proof.
  revert d. induction l as [|a l IH]; intros d Hnd Hassert; simpl.
  - exists d. split_and!; try done.
    all: intros j; rewrite decide_False; [done|]; intros [?%elem_of_nil _]; done.
  - apply NoDup_cons in Hnd as [Ha Hnd].
    destruct (Z.eqb_spec (D.GetBucketPageId d a) old_pid) as [Hold|Hold].
    + assert ((a =? index) || (a =? new_index) || (D.GetLocalDepth d a =? local_depth) = true)
        as ->.
      { destruct (Hassert a) as [->|[->|Hl]]; [by left|done|..].
        - by rewrite Z.eqb_refl.
        - rewrite Z.eqb_refl. by rewrite orb_true_r.
        - rewrite (proj2 (Z.eqb_eq _ _) Hl). by rewrite !orb_true_r. }
      simpl.
      match goal with |- context [fan_out ?d1 l] => set (d1' := d1) end.
      destruct (IH d1') as (d' & Hrun & Hg & Hp & Hslots); [done| |].
      { intros i Hi. subst d1'. autorewrite with dir.
        assert (a ≠ i) as Hne by (intros ->; done).
        rewrite !decide_False by done. intros Hpi. apply Hassert; [by right|done]. }
      exists d'. split_and!; [done..|].
      intros j. specialize (Hslots j). subst d1'. autorewrite with dir in Hslots.
      destruct (decide (a = j)) as [->|Hne].
      * rewrite decide_True by (split; [by left|done]).
        rewrite decide_False in Hslots by (intros [? _]; done). done.
      * destruct (decide (j ∈ l ∧ D.GetBucketPageId d j = old_pid)) as [[Hj Hpj]|Hn].
        -- rewrite decide_True by (split; [by right|done]). done.
        -- rewrite decide_False; [done|]. intros [[?|?]%elem_of_cons ?]; [done|]. by apply Hn.
    + destruct (IH d) as (d' & Hrun & Hg & Hp & Hslots); [done| |].
      { intros i Hi. apply Hassert. by right. }
      exists d'. split_and!; [done..|].
      intros j. specialize (Hslots j).
      destruct (decide (j ∈ l ∧ D.GetBucketPageId d j = old_pid)) as [[Hj Hpj]|Hn].
      * rewrite decide_True by (split; [by right|done]). done.
      * rewrite decide_False; [done|].
        intros [[->|?]%elem_of_cons ?]; [done|]. by apply Hn.
Qed.

Lemma split_in_place_dir_inv d d2 index new_pid :
  dir_inv d → live d index →
  D.GetLocalDepth d index < D.GetGlobalDepth d →
  (∀ i, live d i → D.GetBucketPageId d i ≠ new_pid) →
  split_in_place d d2 index (D.GetBucketPageId d index) new_pid →
  dir_inv d2.
Proof.
  intros Hinv Hindex Hlt Hfresh (Hg2 & _ & Hsplit).
  set (L := D.GetLocalDepth d index) in *.
  set (old_pid := D.GetBucketPageId d index) in *.
  assert (0 ≤ L) as HL by (apply (dir_local _ Hinv index Hindex)).
  assert (∀ i, live d2 i ↔ live d i) as Hlive2.
  { intros i. unfold live, D.Size. fold (D.GetGlobalDepth d2) (D.GetGlobalDepth d).
    by rewrite Hg2. }
  assert (∀ i, live d i → D.GetBucketPageId d i = old_pid ↔ cong L i index) as Hclass.
  { intros i Hi. split.
    - intros Hp. apply cong_sym, (dir_alias _ Hinv); done.
    - intros Hc. symmetry. apply (dir_alias _ Hinv); [done..|]. by apply cong_sym. }
  assert (old_pid ≠ new_pid) as Hon by (by apply Hfresh).
  split.
  - rewrite Hg2. apply Hinv.
  - intros i Hi%Hlive2. rewrite Hg2. specialize (Hsplit i Hi).
    case_decide; destruct Hsplit as [-> _]; [lia|by apply Hinv].
  - intros i j Hi%Hlive2 Hj%Hlive2.
    pose proof (Hsplit i Hi) as Hsi. pose proof (Hsplit j Hj) as Hsj.
    destruct (decide (D.GetBucketPageId d i = old_pid)) as [Hpi|Hpi];
      destruct (decide (D.GetBucketPageId d j = old_pid)) as [Hpj|Hpj];
      destruct Hsi as [-> ->]; destruct Hsj as [_ ->].
    + pose proof (proj1 (Hclass i Hi) Hpi) as Hci.
      pose proof (proj1 (Hclass j Hj) Hpj) as Hcj.
      rewrite cong_succ by done.
      assert (cong L i j) as Hcij by (eapply cong_trans; [done|by apply cong_sym]).
      destruct (Z.testbit i L), (Z.testbit j L), (Z.testbit index L);
        repeat case_decide; try done; split; try done; try by intros [_ ?].
      all: intros; by split.
    + split.
      * intros Heq. exfalso. case_decide; [by rewrite Heq in Hpj|].
        apply (Hfresh j Hj). by rewrite <- Heq.
      * intros Hc. exfalso. apply Hpj, Hclass; [done|].
        eapply cong_trans; [apply cong_sym; eapply cong_mono; [|exact Hc]; lia|].
        by apply Hclass.
    + split.
      * intros Heq. exfalso. case_decide; [done|]. by apply (Hfresh i Hi).
      * intros Hc. exfalso. apply Hpi. rewrite <- Hpj. by apply (dir_alias _ Hinv).
    + by apply (dir_alias _ Hinv).
  - intros i j Hi%Hlive2 Hj%Hlive2.
    pose proof (Hsplit i Hi) as Hsi. pose proof (Hsplit j Hj) as Hsj.
    destruct (decide (D.GetBucketPageId d i = old_pid)) as [Hpi|Hpi];
      destruct (decide (D.GetBucketPageId d j = old_pid)) as [Hpj|Hpj];
      destruct Hsi as [-> ->]; destruct Hsj as [-> ->].
    + done.
    + intros Heq. exfalso. case_decide; [by rewrite Heq in Hpj|].
      apply (Hfresh j Hj). by rewrite <- Heq.
    + intros Heq. exfalso. case_decide; [done|]. by apply (Hfresh i Hi).
    + by apply (dir_depth _ Hinv).
Qed.

(** The directory writes of the branch without doubling produce
    [split_in_place]. *)
Lemma split_in_place_spec d index new_pid :
  dir_inv d → live d index →
  D.GetLocalDepth d index < D.GetGlobalDepth d →
  (∀ i, live d i → D.GetBucketPageId d i ≠ new_pid) →
  let local_depth := D.GetLocalDepth d index in
  let new_index := Z.lxor (Z.shiftl 1 local_depth) index in
  let d3 := D.IncrLocalDepth
              (D.IncrLocalDepth (D.SetBucketPageId d new_index new_pid) index) new_index in
  live d new_index ∧
  D.GetLocalDepth d new_index = local_depth ∧
  D.GetLocalDepthMask d3 index = Z.ones (local_depth + 1) ∧
  ∃ d4, fan_out d3 (seqZ 0 (D.Size d3)) index new_index local_depth
                (D.GetLocalDepthMask d3 index) (D.GetBucketPageId d index) new_pid = Ret d4 ∧
        split_in_place d d4 index (D.GetBucketPageId d index) new_pid.
Proof.
  intros Hinv Hindex Hlt Hfresh L new_index d3.
  set (old_pid := D.GetBucketPageId d index) in *.
  assert (0 ≤ L) as HL by (apply (dir_local _ Hinv index Hindex)).
  assert (0 ≤ D.GetGlobalDepth d) as Hg by apply Hinv.
  pose proof (dir_global _ Hinv) as Hgm. unfold D.MAX_DEPTH in Hgm.
  assert (new_index = Z.lxor index (Z.shiftl 1 L)) as Hnew by apply Z.lxor_comm.
  assert (live d new_index) as Hnl.
  { apply live_iff; [done|]. rewrite Hnew. apply flip_range; [lia|]. by apply live_iff. }
  assert (cong L new_index index) as Hcn by (rewrite Hnew; by apply cong_flip).
  assert (Z.testbit new_index L ≠ Z.testbit index L) as Hbit.
  { rewrite Hnew, flip_bit by done. by destruct (Z.testbit index L). }
  assert (new_index ≠ index) as Hni by (intros Heq; by rewrite Heq in Hbit).
  assert (D.GetBucketPageId d new_index = old_pid) as Hpn.
  { symmetry. apply (dir_alias _ Hinv); [done..|]. by apply cong_sym. }
  assert (D.GetLocalDepth d new_index = L) as Hln by (by apply (dir_depth _ Hinv)).
  assert (old_pid ≠ new_pid) as Hon by (by apply Hfresh).
  assert (∀ i, D.GetLocalDepth d3 i =
               if decide (i = index ∨ i = new_index) then L + 1 else D.GetLocalDepth d i)
    as Hld3.
  { intros i. subst d3. unfold D.IncrLocalDepth. autorewrite with dir.
    rewrite (decide_False (P := index = new_index)) by done.
    rewrite Hln. fold L. rewrite to_uint8_small by lia.
    destruct (decide (new_index = i)) as [<-|Hn].
    - rewrite decide_True; [done|by right].
    - destruct (decide (index = i)) as [<-|Hi]; [rewrite decide_True; [done|by left]|].
      rewrite decide_False; [done|]. intros [?|?]; congruence. }
  assert (∀ i, D.GetBucketPageId d3 i =
               if decide (i = new_index) then new_pid else D.GetBucketPageId d i) as Hpid3.
  { intros i. subst d3. unfold D.IncrLocalDepth. autorewrite with dir.
    destruct (decide (new_index = i)) as [<-|Hn]; [by rewrite decide_True|].
    by rewrite decide_False. }
  assert (D.GetLocalDepthMask d3 index = Z.ones (L + 1)) as Hmask.
  { unfold D.GetLocalDepthMask. rewrite Hld3, decide_True by (by left).
    apply mask_ones. lia. }
  split_and!; [done..|].
  destruct (fan_out_spec d3 (seqZ 0 (D.Size d3)) index new_index L
              (D.GetLocalDepthMask d3 index) old_pid new_pid) as (d4 & Hrun & Hg4 & Hp4 & Hslots).
  { apply NoDup_seqZ. }
  { intros i Hi. rewrite Hpid3, Hld3. intros Hp.
    destruct (decide (i = new_index)); [by right; left|].
    destruct (decide (i = index)); [by left|].
    right; right. rewrite decide_False by (intros [?|?]; done).
    apply elem_of_seqZ in Hi. apply (dir_depth _ Hinv); [|done..]. unfold live. subst d3.
    unfold D.Size in *. simpl in Hi. lia. }
  exists d4. split; [done|]. split_and!; [done..|].
  intros i Hi. specialize (Hslots i). rewrite Hpid3, Hld3, Hmask in Hslots.
  rewrite to_uint8_small in Hslots by lia.
  assert (i ∈ seqZ 0 (D.Size d3)) as Hin.
  { apply elem_of_seqZ. unfold live in Hi. subst d3. unfold D.Size in *. simpl. lia. }
  destruct (decide (D.GetBucketPageId d i = old_pid)) as [Hpi|Hpi].
  - assert (cong L i index) as Hci by (apply cong_sym, (dir_alias _ Hinv); done).
    destruct (decide (i = new_index)) as [->|Hin'].
    + rewrite decide_False in Hslots by (intros [_ ?]; done).
      rewrite decide_True in Hslots by (by right). rewrite decide_False by done. done.
    + rewrite decide_True in Hslots by done. destruct Hslots as [-> ->]. split; [done|].
      destruct (Z.eqb_spec (Z.land i (Z.ones (L + 1))) (Z.land index (Z.ones (L + 1))))
        as [Heq|Hne].
      * apply cong_iff_land in Heq; [|lia]. apply cong_succ in Heq as [_ Hb]; [|done].
        by rewrite decide_True.
      * rewrite decide_False; [done|]. intros Hb. apply Hne, cong_iff_land; [lia|].
        by apply cong_succ.
  - assert (i ≠ new_index) as Hn1 by (intros ->; done).
    assert (i ≠ index) as Hn2 by (intros ->; done).
    rewrite !(decide_False (P := i = new_index)) in Hslots by done.
    rewrite decide_False in Hslots by (intros [_ ?]; done).
    rewrite decide_False in Hslots by (intros [?|?]; done). done.
Qed.

End SplitLocalDirectory.

(** ** The directory after a merge, and after a shrink *)
Section MergeDirectory.
Context {T : HashTableTypes}.
Import ExtendibleHashTable.

Lemma foldl_merge_step d l bucket_pid merge_pid :
  NoDup l →
  let d' := foldl (merge_step bucket_pid merge_pid) d l in
  D.GetGlobalDepth d' = D.GetGlobalDepth d ∧
  D.GetPageId d' = D.GetPageId d ∧
  ∀ j, if decide (j ∈ l ∧ (D.GetBucketPageId d j = bucket_pid
                           ∨ D.GetBucketPageId d j = merge_pid))
       then D.GetLocalDepth d' j = to_uint8 (D.GetLocalDepth d j - 1) ∧
            D.GetBucketPageId d' j = merge_pid
       else D.GetLocalDepth d' j = D.GetLocalDepth d j ∧
            D.GetBucketPageId d' j = D.GetBucketPageId d j.
Proof.
  revert d. induction l as [|a l IH]; intros d Hnd; simpl.
  - split_and!; try done.
    all: intros j; rewrite decide_False; [done|]; intros [?%elem_of_nil _]; done.
  - apply NoDup_cons in Hnd as [Ha Hnd].
    destruct (IH (merge_step bucket_pid merge_pid d a) Hnd) as (Hg & Hp & Hslots).
    assert (D.GetGlobalDepth (merge_step bucket_pid merge_pid d a) = D.GetGlobalDepth d ∧
            D.GetPageId (merge_step bucket_pid merge_pid d a) = D.GetPageId d) as [Hg1 Hp1].
    { unfold merge_step. by destruct (_ || _). }
    assert (∀ j, j ≠ a →
              D.GetLocalDepth (merge_step bucket_pid merge_pid d a) j = D.GetLocalDepth d j ∧
              D.GetBucketPageId (merge_step bucket_pid merge_pid d a) j = D.GetBucketPageId d j)
      as Hother.
    { intros j Hj. unfold merge_step. destruct (_ || _); [|done].
      unfold D.DecrLocalDepth. autorewrite with dir. by rewrite !decide_False. }
    split_and!; [congruence..|].
    intros j. specialize (Hslots j). destruct (decide (j = a)) as [->|Hne].
    + rewrite decide_False in Hslots by (intros [? _]; done). destruct Hslots as [-> ->].
      unfold merge_step.
      destruct (Z.eqb_spec (D.GetBucketPageId d a) bucket_pid) as [Hb|Hb]; simpl.
      { rewrite decide_True by (split; [by left|by left]).
        unfold D.DecrLocalDepth. autorewrite with dir. by rewrite !decide_True. }
      destruct (Z.eqb_spec (D.GetBucketPageId d a) merge_pid) as [Hm|Hm]; simpl.
      { rewrite decide_True by (split; [by left|by right]).
        unfold D.DecrLocalDepth. autorewrite with dir. by rewrite !decide_True. }
      rewrite decide_False; [done|]. intros [_ [?|?]]; done.
    + destruct (Hother j Hne) as [Hl Hq]. rewrite Hl, Hq in Hslots.
      destruct (decide (j ∈ l ∧ _)) as [[Hj Hpj]|Hn].
      * rewrite decide_True by (split; [by right|done]). done.
      * rewrite decide_False; [done|].
        intros [[?|?]%elem_of_cons ?]; [done|]. by apply Hn.
Qed.

(** The directory rewrite of [Merge] produces [merged]. *)
Lemma merged_spec d bucket_index :
  dir_inv d → live d bucket_index →
  0 < D.GetLocalDepth d bucket_index →
  let merge_index := D.GetSplitImageIndex d bucket_index in
  D.GetLocalDepth d bucket_index = D.GetLocalDepth d merge_index →
  live d merge_index ∧
  merged d (merge_rewrite d (D.GetBucketPageId d bucket_index)
                          (D.GetBucketPageId d merge_index))
         (D.GetBucketPageId d bucket_index) (D.GetBucketPageId d merge_index).
Proof.
  intros Hinv Hbi HL merge_index Hlm.
  set (L := D.GetLocalDepth d bucket_index) in *.
  assert (0 ≤ D.GetGlobalDepth d) as Hg by apply Hinv.
  pose proof (dir_local _ Hinv _ Hbi) as Hlr. fold L in Hlr.
  pose proof (dir_global _ Hinv) as Hgm. unfold D.MAX_DEPTH in Hgm.
  assert (live d merge_index) as Hmi.
  { apply live_iff; [done|]. apply flip_range; [lia|]. by apply live_iff. }
  split; [done|]. unfold merge_rewrite.
  destruct (foldl_merge_step d (seqZ 0 (D.Size d)) (D.GetBucketPageId d bucket_index)
              (D.GetBucketPageId d merge_index)) as (Hg2 & Hp2 & Hslots).
  { apply NoDup_seqZ. }
  split_and!; [done..|]. intros i Hi. specialize (Hslots i).
  assert (i ∈ seqZ 0 (D.Size d)) as Hin by (apply elem_of_seqZ; unfold live in Hi; lia).
  destruct (decide (D.GetBucketPageId d i = D.GetBucketPageId d bucket_index
                    ∨ D.GetBucketPageId d i = D.GetBucketPageId d merge_index)) as [Hp|Hp].
  - rewrite decide_True in Hslots by done. destruct Hslots as [-> ->]. split; [|done].
    apply to_uint8_small.
    assert (D.GetLocalDepth d i = L) as ->; [|lia].
    destruct Hp as [Hp|Hp]; [by apply (dir_depth _ Hinv)|].
    rewrite Hlm. by apply (dir_depth _ Hinv).
  - rewrite decide_False in Hslots by (intros [_ ?]; done). done.
Qed.

Lemma merged_dir_inv d d2 bucket_index :
  dir_inv d → live d bucket_index →
  0 < D.GetLocalDepth d bucket_index →
  let merge_index := D.GetSplitImageIndex d bucket_index in
  D.GetLocalDepth d bucket_index = D.GetLocalDepth d merge_index →
  merged d d2 (D.GetBucketPageId d bucket_index) (D.GetBucketPageId d merge_index) →
  dir_inv d2 ∧
  (∀ i, live d i →
     (D.GetBucketPageId d i = D.GetBucketPageId d bucket_index
      ∨ D.GetBucketPageId d i = D.GetBucketPageId d merge_index)
     ↔ cong (D.GetLocalDepth d bucket_index - 1) i bucket_index).
Proof.
  intros Hinv Hbi HL merge_index Hlm (Hg2 & _ & Hm).
  set (L := D.GetLocalDepth d bucket_index) in *.
  set (B := D.GetBucketPageId d bucket_index) in *.
  set (M := D.GetBucketPageId d merge_index) in *.
  assert (0 ≤ D.GetGlobalDepth d) as Hg by apply Hinv.
  pose proof (dir_local _ Hinv _ Hbi) as Hlr. fold L in Hlr.
  assert (live d merge_index) as Hmi.
  { apply live_iff; [done|]. apply flip_range; [lia|]. by apply live_iff. }
  assert (cong (L - 1) merge_index bucket_index) as Hcm by (apply cong_flip; lia).
  assert (Z.testbit merge_index (L - 1) = negb (Z.testbit bucket_index (L - 1))) as Hbit.
  { apply flip_bit. lia. }
  assert (∀ i j, cong L i j ↔ cong (L - 1) i j ∧ Z.testbit i (L - 1) = Z.testbit j (L - 1))
    as Hsucc.
  { intros i j. replace L with (L - 1 + 1) at 1 by lia. apply cong_succ. lia. }
  assert (∀ i, live d i → D.GetBucketPageId d i = B ↔ cong L i bucket_index) as HclassB.
  { intros i Hi. split.
    - intros Hp. apply cong_sym, (dir_alias _ Hinv); done.
    - intros Hc. symmetry. apply (dir_alias _ Hinv); [done..|]. by apply cong_sym. }
  assert (∀ i, live d i → D.GetBucketPageId d i = M ↔ cong L i merge_index) as HclassM.
  { intros i Hi. split.
    - intros Hp. apply cong_sym. rewrite Hlm. apply (dir_alias _ Hinv); done.
    - intros Hc. symmetry. apply (dir_alias _ Hinv); [done..|]. rewrite <- Hlm. by apply cong_sym. }
  assert (∀ i, live d i →
            (D.GetBucketPageId d i = B ∨ D.GetBucketPageId d i = M)
            ↔ cong (L - 1) i bucket_index) as Hclass.
  { intros i Hi. rewrite HclassB, HclassM, !Hsucc by done. split.
    - intros [[? _]|[? _]]; [done|]. by eapply cong_trans.
    - intros Hc. destruct (decide (Z.testbit i (L - 1) = Z.testbit bucket_index (L - 1))).
      + by left.
      + right. split; [eapply cong_trans; [done|by apply cong_sym]|].
        rewrite Hbit. destruct (Z.testbit i (L - 1)), (Z.testbit bucket_index (L - 1)); done. }
  assert (∀ i, live d i → D.GetBucketPageId d i = B ∨ D.GetBucketPageId d i = M →
               D.GetLocalDepth d i = L) as Hdepth.
  { intros i Hi [Hp|Hp]; [by apply (dir_depth _ Hinv)|].
    rewrite Hlm. by apply (dir_depth _ Hinv). }
  assert (∀ i, live d2 i ↔ live d i) as Hlive2.
  { intros i. unfold live, D.Size. fold (D.GetGlobalDepth d2) (D.GetGlobalDepth d).
    by rewrite Hg2. }
  split; [|done]. split.
  - rewrite Hg2. apply Hinv.
  - intros i Hi%Hlive2. rewrite Hg2. specialize (Hm i Hi).
    destruct (decide (_ ∨ _)) as [Hp|Hp]; destruct Hm as [-> _]; [|by apply Hinv].
    rewrite (Hdepth i Hi Hp). lia.
  - intros i j Hi%Hlive2 Hj%Hlive2.
    pose proof (Hm i Hi) as Hsi. pose proof (Hm j Hj) as Hsj.
    destruct (decide (D.GetBucketPageId d i = B ∨ D.GetBucketPageId d i = M)) as [Hpi|Hpi];
      destruct (decide (D.GetBucketPageId d j = B ∨ D.GetBucketPageId d j = M)) as [Hpj|Hpj];
      destruct Hsi as [-> ->]; destruct Hsj as [_ ->].
    + rewrite (Hdepth i Hi Hpi). split; [|done]. intros _.
      eapply cong_trans; [by apply Hclass|]. apply cong_sym. by apply Hclass.
    + rewrite (Hdepth i Hi Hpi). split.
      * intros Heq. exfalso. apply Hpj. by right.
      * intros Hc. exfalso. apply Hpj, Hclass; [done|].
        eapply cong_trans; [by apply cong_sym|]. by apply Hclass.
    + split.
      * intros Heq. exfalso. apply Hpi. by right.
      * intros Hc. exfalso. apply Hpi.
        assert (D.GetBucketPageId d i = D.GetBucketPageId d j) as ->; [|done].
        by apply (dir_alias _ Hinv).
    + by apply (dir_alias _ Hinv).
  - intros i j Hi%Hlive2 Hj%Hlive2.
    pose proof (Hm i Hi) as Hsi. pose proof (Hm j Hj) as Hsj.
    destruct (decide (D.GetBucketPageId d i = B ∨ D.GetBucketPageId d i = M)) as [Hpi|Hpi];
      destruct (decide (D.GetBucketPageId d j = B ∨ D.GetBucketPageId d j = M)) as [Hpj|Hpj];
      destruct Hsi as [-> ->]; destruct Hsj as [-> ->].
    + intros _. by rewrite (Hdepth i Hi Hpi), (Hdepth j Hj Hpj).
    + intros Heq. exfalso. apply Hpj. by right.
    + intros Heq. exfalso. apply Hpi. by right.
    + by apply (dir_depth _ Hinv).
Qed.

Lemma shrink_dir_inv d :
  dir_inv d → D.CanShrink d = true → dir_inv (D.DecrGlobalDepth d).
Proof.
  intros Hinv Hcan. rewrite CanShrink_true in Hcan.
  assert (0 ≤ D.GetGlobalDepth d) as Hg by apply Hinv.
  assert (D.GetGlobalDepth (D.DecrGlobalDepth d) = D.GetGlobalDepth d - 1) as Hg2 by done.
  assert (live d 0) as H0.
  { apply live_iff; [done|]. pose proof (Z.pow_pos_nonneg 2 (D.GetGlobalDepth d)). lia. }
  pose proof (Hcan 0 H0) as Hc0. pose proof (dir_local _ Hinv 0 H0) as Hl0.
  assert (∀ i, live (D.DecrGlobalDepth d) i → live d i) as Hlive.
  { intros i. rewrite !live_iff by (rewrite ?Hg2; lia). rewrite Hg2.
    intros Hi. split; [lia|].
    assert (2 ^ (D.GetGlobalDepth d - 1) ≤ 2 ^ D.GetGlobalDepth d); [|lia].
    apply Z.pow_le_mono_r; lia. }
  split.
  - rewrite Hg2. pose proof (dir_global _ Hinv). lia.
  - intros i Hi%Hlive. rewrite Hg2. pose proof (Hcan i Hi). pose proof (dir_local _ Hinv i Hi).
    change (D.GetLocalDepth (D.DecrGlobalDepth d) i) with (D.GetLocalDepth d i). lia.
  - intros i j Hi%Hlive Hj%Hlive. by apply (dir_alias _ Hinv).
  - intros i j Hi%Hlive Hj%Hlive. by apply (dir_depth _ Hinv).
Qed.

(** D-1 to D-3 of section 3 follow from the invariant. *)
Lemma dir_inv_D123 d : dir_inv d → D1 d ∧ D2 d ∧ D3 d.
Proof.
  intros Hinv. split_and!.
  - split; [apply Hinv|]. by apply (dir_local _ Hinv).
  - intros i j Hi Hj Hmod _. apply (dir_alias _ Hinv); [done..|].
    apply cong_iff_mod; [|done]. by apply (dir_local _ Hinv).
  - exact (dir_depth _ Hinv).
Qed.

End MergeDirectory.

(** ** The pool behind the index *)
Section PoolFacts.
Context {T : HashTableTypes}.
Import ExtendibleHashTable.

Lemma FetchPage_Some ht p pg :
  pages ht !! p = Some pg → FetchPage ht p = Ret (pg, fetched ht p).
Proof. unfold FetchPage. by intros ->. Qed.

Lemma UnpinPage_Some ht p is_dirty :
  is_Some (pages ht !! p) → UnpinPage ht p is_dirty = (true, unpinned ht p is_dirty).
Proof. unfold UnpinPage. by intros [pg ->]. Qed.

Lemma acquires_app p cs1 cs2 : acquires p (cs1 ++ cs2) = (acquires p cs1 + acquires p cs2)%nat.
Proof. unfold acquires. by rewrite filter_app, length_app. Qed.

Lemma releases_app p cs1 cs2 : releases p (cs1 ++ cs2) = (releases p cs1 + releases p cs2)%nat.
Proof. unfold releases. by rewrite filter_app, length_app. Qed.

Lemma balanced_nil : balanced [].
Proof. by intros p. Qed.

Lemma balanced_app cs1 cs2 : balanced cs1 → balanced cs2 → balanced (cs1 ++ cs2).
Proof. intros H1 H2 p. by rewrite acquires_app, releases_app, H1, H2. Qed.

Lemma tracks_refl ht : tracks ht ht [].
Proof. split; [by rewrite app_nil_r|]. intros p. unfold acquires, releases. simpl. lia. Qed.

Lemma tracks_trans ht0 ht1 ht2 cs1 cs2 :
  tracks ht0 ht1 cs1 → tracks ht1 ht2 cs2 → tracks ht0 ht2 (cs1 ++ cs2).
Proof.
  intros [Hc1 Hp1] [Hc2 Hp2]. split; [by rewrite Hc2, Hc1, app_assoc|].
  intros p. specialize (Hp1 p). specialize (Hp2 p).
  rewrite acquires_app, releases_app. lia.
Qed.

Lemma tracks_balanced ht0 ht cs : tracks ht0 ht cs → balanced cs → pins_balanced ht0 ht.
Proof.
  intros [Hc Hp] Hb. exists cs. split_and!; [done..|].
  intros p. specialize (Hp p). rewrite (Hb p) in Hp. lia.
Qed.

Lemma pin_of_insert ht p x q :
  default 0 (<[p := x]> (pins ht) !! q) = if decide (p = q) then x else pin_of ht q.
Proof.
  destruct (decide (p = q)) as [->|Hne]; [by rewrite lookup_insert_eq|].
  by rewrite lookup_insert_ne.
Qed.

Lemma tracks_fetched ht p : tracks ht (fetched ht p) [CallFetchPage p].
Proof.
  split; [done|]. intros q. unfold pin_of at 1. simpl. rewrite pin_of_insert.
  unfold acquires, releases. simpl. rewrite filter_cons, filter_nil. simpl.
  destruct (decide (p = q)) as [->|]; simpl; lia.
Qed.

Lemma tracks_unpinned ht p is_dirty : tracks ht (unpinned ht p is_dirty) [CallUnpinPage p is_dirty].
Proof.
  split; [done|]. intros q. unfold pin_of at 1. simpl. rewrite pin_of_insert.
  unfold acquires, releases. simpl. rewrite filter_cons, filter_nil. simpl.
  destruct (decide (p = q)) as [->|]; simpl; lia.
Qed.

Lemma tracks_write_page ht p pg : tracks ht (write_page ht p pg) [].
Proof.
  split; [simpl; by rewrite app_nil_r|]. intros q. unfold pin_of, acquires, releases. simpl. lia.
Qed.

Lemma tracks_NewPage ht :
  pool_ok ht → tracks ht (snd (NewPage ht)) [CallNewPage (next_page_id ht)].
Proof.
  intros Hok. split; [done|]. intros q. unfold pin_of at 1. simpl. rewrite pin_of_insert.
  unfold acquires, releases. simpl. rewrite filter_cons, filter_nil. simpl.
  destruct (decide (next_page_id ht = q)) as [<-|]; simpl; [|lia].
  assert (pins ht !! next_page_id ht = None) as Hnone.
  { apply eq_None_not_Some. intros Hs%(pool_pins_pages _ Hok)%(pool_pages_fresh _ Hok). lia. }
  unfold pin_of. rewrite Hnone. simpl. lia.
Qed.

Lemma tracks_DeletePage ht p : tracks ht (snd (DeletePage ht p)) [CallDeletePage p].
Proof.
  unfold DeletePage.
  destruct (pages ht !! p);
    [|split; [done|intros q; unfold pin_of, acquires, releases; simpl; lia]].
  case_bool_decide as Hpin; simpl;
    [split; [done|intros q; unfold pin_of, acquires, releases; simpl; lia]|].
  split; [done|]. intros q. unfold pin_of at 1. simpl.
  destruct (decide (p = q)) as [<-|Hne].
  - rewrite lookup_delete_eq. simpl. assert (pin_of ht p = 0) by (by destruct (decide (pin_of ht p = 0))).
    unfold acquires, releases; simpl. lia.
  - rewrite lookup_delete_ne by done. unfold acquires, releases; simpl. fold (pin_of ht q). lia.
Qed.

Lemma pool_ok_fetched ht p : pool_ok ht → is_Some (pages ht !! p) → pool_ok (fetched ht p).
Proof.
  intros [Hf Hp] Hs. split; simpl; [done|]. intros q.
  destruct (decide (p = q)) as [<-|Hne]; [done|]. rewrite lookup_insert_ne by done. apply Hp.
Qed.

Lemma pool_ok_unpinned ht p is_dirty :
  pool_ok ht → is_Some (pages ht !! p) → pool_ok (unpinned ht p is_dirty).
Proof.
  intros [Hf Hp] Hs. split; simpl; [done|]. intros q.
  destruct (decide (p = q)) as [<-|Hne]; [done|]. rewrite lookup_insert_ne by done. apply Hp.
Qed.

Lemma pool_ok_write_page ht p pg :
  pool_ok ht → is_Some (pages ht !! p) → pool_ok (write_page ht p pg).
Proof.
  intros [Hf Hp] Hs. split; simpl.
  - intros q. destruct (decide (p = q)) as [<-|Hne]; [intros _; by apply Hf|].
    rewrite lookup_insert_ne by done. apply Hf.
  - intros q Hq. destruct (decide (p = q)) as [<-|Hne]; [by rewrite lookup_insert_eq|].
    rewrite lookup_insert_ne by done. by apply Hp.
Qed.

Lemma pool_ok_NewPage ht : pool_ok ht → pool_ok (snd (NewPage ht)).
Proof.
  intros [Hf Hp]. split; simpl.
  - intros q. destruct (decide (next_page_id ht = q)) as [<-|Hne]; [lia|].
    rewrite lookup_insert_ne by done. intros Hq%Hf. lia.
  - intros q. destruct (decide (next_page_id ht = q)) as [<-|Hne].
    + by rewrite !lookup_insert_eq.
    + rewrite !lookup_insert_ne by done. apply Hp.
Qed.

Lemma pool_ok_DeletePage ht p : pool_ok ht → pool_ok (snd (DeletePage ht p)).
Proof.
  intros [Hf Hp]. unfold DeletePage. destruct (pages ht !! p) eqn:Hpg; [|by split].
  case_bool_decide; [by split|]. split; simpl.
  - intros q. destruct (decide (p = q)) as [<-|Hne].
    + rewrite lookup_delete_eq. by intros [? ?].
    + rewrite lookup_delete_ne by done. apply Hf.
  - intros q. destruct (decide (p = q)) as [<-|Hne].
    + rewrite lookup_delete_eq. by intros [? ?].
    + rewrite !lookup_delete_ne by done. apply Hp.
Qed.

(** What [DeletePage] leaves of the pages. *)
Lemma pages_DeletePage ht p q :
  q ≠ p → pages (snd (DeletePage ht p)) !! q = pages ht !! q.
Proof.
  intros Hne. unfold DeletePage. destruct (pages ht !! p); [|done].
  case_bool_decide; [done|]. simpl. by rewrite lookup_delete_ne.
Qed.

Lemma fields_DeletePage ht p :
  directory_page_id_ (snd (DeletePage ht p)) = directory_page_id_ ht ∧
  next_page_id (snd (DeletePage ht p)) = next_page_id ht.
Proof.
  unfold DeletePage. destruct (pages ht !! p); [|done]. by case_bool_decide.
Qed.

End PoolFacts.

(** ** The bucket pages of a split *)
Section SplitBuckets.
Context {T : HashTableTypes}.
Import ExtendibleHashTable.

Lemma bk1_zero : B.bk1 B.zero.
Proof. intros i Hi Hr. by rewrite IsReadable_zero in Hr. Qed.

Lemma bk1_put b p k v : B.wf b → (p < B.BUCKET_ARRAY_SIZE)%nat → B.bk1 b → B.bk1 (B.put b p k v).
Proof.
  intros Hwf Hp Hbk i Hi. rewrite IsReadable_put, IsOccupied_put by done.
  destruct (decide (p = i)); [done|]. by apply Hbk.
Qed.

Lemma bk1_RemoveAt b i : B.wf b → (i < B.BUCKET_ARRAY_SIZE)%nat → B.bk1 b → B.bk1 (B.RemoveAt b i).
Proof.
  intros Hwf Hi Hbk j Hj. rewrite IsReadable_RemoveAt_wf by done.
  destruct (decide (i = j)); [done|]. intros Hr.
  change (B.IsOccupied (B.RemoveAt b i) j) with (B.IsOccupied b j). by apply Hbk.
Qed.

(** The bucket after [Insert], whether it succeeded or not. *)
Lemma Insert_snd b k v :
  B.wf b →
  let b' := snd (B.Insert b k v) in
  B.wf b' ∧ (B.bk1 b → B.bk1 b') ∧ entries_from b' b (λ e, e = (k, v)).
Proof.
  intros Hwf b'. subst b'. destruct (B.Insert b k v) as [[] b'] eqn:Hins; simpl.
  - apply Insert_true in Hins as (p & Hp & Hfree & _ & ->).
    split_and!; [by apply wf_put|by apply bk1_put|].
    intros j Hj. rewrite IsReadable_put, KeyAt_put, ValueAt_put by done.
    destruct (decide (p = j)); [by right|]. intros Hr. by left.
  - apply Insert_false in Hins as [-> _]. split_and!; [done..|].
    intros j Hj Hr. by left.
Qed.

(** *** The first loop of [SplitInsert] *)

Lemma SplitInsert_scan_true old k v l fp0 fp :
  SplitInsert_scan old k v l fp0 = (true, fp) →
  ∃ j, j ∈ l ∧ B.entry_match old k v j = true.
Proof.
  revert fp0. induction l as [|i l IH]; intros fp0; simpl; [done|].
  fold (B.entry_match old k v i).
  destruct (B.entry_match old k v i) eqn:Hm.
  - intros _. exists i. split; [by left|done].
  - intros (j & Hj & Hjm)%IH. exists j. split; [by right|done].
Qed.

Lemma SplitInsert_scan_false old k v l fp0 fp :
  (∀ j, j ∈ l → j ≠ B.BUCKET_ARRAY_SIZE) →
  SplitInsert_scan old k v l fp0 = (false, fp) →
  (∀ j, j ∈ l → B.entry_match old k v j = false) ∧
  (fp0 = B.BUCKET_ARRAY_SIZE → fp = B.BUCKET_ARRAY_SIZE →
   ∀ j, j ∈ l → B.IsOccupied old j = true ∧ B.IsReadable old j = true) ∧
  (fp0 = B.BUCKET_ARRAY_SIZE → fp ≠ B.BUCKET_ARRAY_SIZE →
   fp ∈ l ∧ (B.IsOccupied old fp = false ∨ B.IsReadable old fp = false)) ∧
  (fp0 ≠ B.BUCKET_ARRAY_SIZE → fp = fp0).
Proof.
  revert fp0. induction l as [|i l IH]; intros fp0 Hin; simpl.
  - intros [= <-]. split_and!;
      [by intros j ?%elem_of_nil|by intros _ _ j ?%elem_of_nil|by intros ? ?|done].
  - fold (B.entry_match old k v i).
    destruct (B.entry_match old k v i) eqn:Hm; [done|].
    assert (i ≠ B.BUCKET_ARRAY_SIZE) as Hi by (apply Hin; by left).
    assert (∀ j, j ∈ l → j ≠ B.BUCKET_ARRAY_SIZE) as Hin' by (intros; apply Hin; by right).
    destruct (Nat.eqb_spec fp0 B.BUCKET_ARRAY_SIZE) as [Hfp0|Hfp0].
    + destruct (negb (B.IsOccupied old i) || negb (B.IsReadable old i)) eqn:Hc.
      * intros (Hno & _ & _ & Hkeep)%IH; [|done]. specialize (Hkeep Hi). subst fp.
        split_and!; try done.
        -- intros j [->|Hj]%elem_of_cons; [done|by apply Hno].
        -- intros _ _. split; [by left|].
           apply orb_true_iff in Hc as [Ho%negb_true_iff|Hr%negb_true_iff]; [by left|by right].
      * intros (Hno & Hfull & Hfree & _)%IH; [|done].
        apply orb_false_elim in Hc as [Ho%negb_false_iff Hr%negb_false_iff].
        split_and!; try done.
        -- intros j [->|Hj]%elem_of_cons; [done|by apply Hno].
        -- intros _ Hfp j [->|Hj]%elem_of_cons; [done|by apply Hfull].
        -- intros _ Hfp. destruct (Hfree Hfp0 Hfp) as [Hl Hor]. split; [by right|done].
    + intros (Hno & _ & _ & Hkeep)%IH; [|done]. split_and!; try done.
      intros j [->|Hj]%elem_of_cons; [done|by apply Hno].
Qed.

(** The outcome of the scan, over all the slots. *)
Lemma SplitInsert_scan_spec old k v :
  let r := SplitInsert_scan old k v (seq 0 B.BUCKET_ARRAY_SIZE) B.BUCKET_ARRAY_SIZE in
  (fst r = true → ∃ j, (j < B.BUCKET_ARRAY_SIZE)%nat ∧ B.entry_match old k v j = true) ∧
  (fst r = false →
     (∀ j, (j < B.BUCKET_ARRAY_SIZE)%nat → B.entry_match old k v j = false) ∧
     (snd r = B.BUCKET_ARRAY_SIZE →
        ∀ j, (j < B.BUCKET_ARRAY_SIZE)%nat →
             B.IsOccupied old j = true ∧ B.IsReadable old j = true) ∧
     (snd r ≠ B.BUCKET_ARRAY_SIZE →
        (snd r < B.BUCKET_ARRAY_SIZE)%nat ∧
        (B.IsOccupied old (snd r) = false ∨ B.IsReadable old (snd r) = false))).
Proof.
  intros r. subst r.
  destruct (SplitInsert_scan old k v (seq 0 B.BUCKET_ARRAY_SIZE) B.BUCKET_ARRAY_SIZE)
    as [[] fp] eqn:Hscan; simpl.
  - split; [|done]. intros _.
    apply SplitInsert_scan_true in Hscan as (j & Hj%elem_of_seq & Hm). exists j. split; [lia|done].
  - split; [done|]. intros _.
    apply SplitInsert_scan_false in Hscan as (Hno & Hfull & Hfree & _);
      [|intros j Hj%elem_of_seq; lia]. split_and!.
    + intros j Hj. apply Hno, elem_of_seq. lia.
    + intros -> j Hj. apply Hfull; [done..|]. apply elem_of_seq. lia.
    + intros Hfp. destruct (Hfree eq_refl Hfp) as [Hin%elem_of_seq Hor]. split; [lia|done].
Qed.

(** *** The redistribution loops *)

Lemma redistribute_spec moves old new l is_free :
  B.wf old → B.wf new → NoDup l →
  (∀ i, i ∈ l → (i < B.BUCKET_ARRAY_SIZE)%nat) →
  (∀ i, i ∈ l → B.IsReadable old i = true) →
  ∃ old' new',
    redistribute moves old new l is_free =
      Ret (old', new', is_free || existsb (λ i, moves (B.KeyAt old i)) l) ∧
    B.wf old' ∧ B.wf new' ∧
    B.occupied_ old' = B.occupied_ old ∧
    B.array_ old' = B.array_ old ∧
    (∀ j, B.IsReadable old' j =
          B.IsReadable old j && negb (bool_decide (j ∈ l) && moves (B.KeyAt old j))) ∧
    (B.bk1 new → B.bk1 new') ∧
    entries_from new' new
      (λ e, ∃ i, i ∈ l ∧ moves (B.KeyAt old i) = true ∧ e = (B.KeyAt old i, B.ValueAt old i)).
Proof.
  revert old new is_free.
  induction l as [|a l IH]; intros old new is_free Hwo Hwn Hnd Hlt Hread; simpl.
  - exists old, new. rewrite orb_false_r. split_and!; try done.
    + intros j. by rewrite andb_true_r.
    + intros j Hj Hr. by left.
  - apply NoDup_cons in Hnd as [Ha Hnd].
    assert (a < B.BUCKET_ARRAY_SIZE)%nat as Halt by (apply Hlt; by left).
    rewrite (Hread a) by (by left). simpl.
    assert (∀ i, i ∈ l → (i < B.BUCKET_ARRAY_SIZE)%nat) as Hlt' by (intros; apply Hlt; by right).
    destruct (moves (B.KeyAt old a)) eqn:Hmv.
    + pose proof (Insert_snd new (B.KeyAt old a) (B.ValueAt old a) Hwn) as (Hwn1 & Hbk1 & Hent1).
      set (new1 := snd (B.Insert new (B.KeyAt old a) (B.ValueAt old a))) in *.
      destruct (IH (B.RemoveAt old a) new1 true) as (old' & new' & Hrun & Hwo' & Hwn' & Hocc & Harr & Hr & Hbk & Hent);
        [by apply wf_RemoveAt|done..| |].
      { intros i Hi. rewrite IsReadable_RemoveAt_wf by done.
        rewrite decide_False by (intros ->; done). apply Hread. by right. }
      exists old', new'. split_and!; try done.
      * rewrite Hrun. by rewrite orb_true_r.
      * intros j. rewrite Hr, IsReadable_RemoveAt_wf by done.
        change (B.KeyAt (B.RemoveAt old a) j) with (B.KeyAt old j).
        destruct (decide (a = j)) as [<-|Hne].
        -- rewrite (bool_decide_eq_true_2 (a ∈ a :: l)) by (by left).
           rewrite Hmv. simpl. by rewrite andb_false_r.
        -- do 3 f_equal. apply bool_decide_ext. rewrite elem_of_cons. naive_solver.
      * intros Hb. by apply Hbk, Hbk1.
      * intros j Hj Hrj. destruct (Hent j Hj Hrj) as [(Hr1 & Hk1 & Hv1)|(i & Hi & Hmi & He)].
        -- destruct (Hent1 j Hj Hr1) as [(Hr0 & Hk0 & Hv0)|He0].
           ++ left. split_and!; [done|congruence..].
           ++ right. exists a. split_and!; [by left|done|]. rewrite Hk1, Hv1. done.
        -- right. exists i. split_and!; [by right|done..].
    + destruct (IH old new is_free) as (old' & new' & Hrun & Hwo' & Hwn' & Hocc & Harr & Hr & Hbk & Hent);
        [done..| |].
      { intros i Hi. apply Hread. by right. }
      exists old', new'. split_and!; try done.
      * intros j. rewrite Hr. destruct (decide (a = j)) as [<-|Hne].
        -- rewrite Hmv, !andb_false_r. done.
        -- do 3 f_equal. apply bool_decide_ext. rewrite elem_of_cons. naive_solver.
      * intros j Hj Hrj. destruct (Hent j Hj Hrj) as [?|(i & Hi & Hmi & He)]; [by left|].
        right. exists i. split_and!; [by right|done..].
Qed.

(** C10: when the scan of [SplitInsert] over the old bucket ends without a
    duplicate and without a free slot, every one of the [BUCKET_ARRAY_SIZE]
    slots is readable, and the redistribution loop of either branch (whatever
    the test [moves] that selects the entries to move) runs to its end: none
    of its per-slot assertions fails. *)
Theorem redistribution_never_asserts
    (old new : B.t) (k : KeyType) (v : ValueType) (moves : KeyType → bool) :
  B.wf old → B.wf new →
  SplitInsert_scan old k v (seq 0 B.BUCKET_ARRAY_SIZE) B.BUCKET_ARRAY_SIZE
    = (false, B.BUCKET_ARRAY_SIZE) →
  (∀ j, (j < B.BUCKET_ARRAY_SIZE)%nat → B.IsReadable old j = true) ∧
  ∃ old' new' is_free,
    redistribute moves old new (seq 0 B.BUCKET_ARRAY_SIZE) false = Ret (old', new', is_free).
Proof.
  intros Hold Hnew Hscan.
  destruct (SplitInsert_scan_spec old k v) as [_ Hfalse]. rewrite Hscan in Hfalse.
  destruct (Hfalse eq_refl) as (_ & Hfull & _). simpl in Hfull.
  assert (∀ j, (j < B.BUCKET_ARRAY_SIZE)%nat → B.IsReadable old j = true) as Hall.
  { intros j Hj. by apply Hfull. }
  split; [done|].
  destruct (redistribute_spec moves old new (seq 0 B.BUCKET_ARRAY_SIZE) false)
    as (old' & new' & Heq & _); try done.
  - apply NoDup_seq.
  - intros i Hi%elem_of_seq. lia.
  - intros i Hi%elem_of_seq. apply Hall. lia.
  - eauto.
Qed.

Lemma wf_fill (b : B.t) es : B.wf b → B.wf (B.fill b es).
Proof.
  revert b. induction es as [|e es IH]; intros b Hb; simpl; [done|].
  apply IH. by apply Insert_snd.
Qed.

End SplitBuckets.

(** ** A bucket page with every slot live *)
Section FullBucket.
Import ExtendibleHashTable.

Lemma full_odd_bucket_scan :
  SplitInsert_scan Scenario.full_odd_bucket 113 (Scenario.rid 113)
    (seq 0 Scenario.SIZE) Scenario.SIZE = (false, Scenario.SIZE).
Proof. vm_compute. reflexivity. Qed.

Lemma redistribution_never_asserts_witness :
  (∀ j, (j < Scenario.SIZE)%nat → B.IsReadable Scenario.full_odd_bucket j = true) ∧
  ∃ old' new' is_free,
    redistribute (T := Key64RID) Z.odd Scenario.full_odd_bucket B.zero
      (seq 0 Scenario.SIZE) false = Ret (old', new', is_free).
Proof.
  apply (redistribution_never_asserts (T := Key64RID)
           Scenario.full_odd_bucket B.zero 113 (Scenario.rid 113)).
  - apply wf_fill, wf_zero.
  - apply wf_zero.
  - exact full_odd_bucket_scan.
Defined.

(** ** [IsFull] *)
Lemma full_odd_bucket_IsFull :
  B.IsFull Scenario.full_odd_bucket
  || negb (forallb (B.IsReadable Scenario.full_odd_bucket) (seq 0 Scenario.SIZE)) = false.
Proof. vm_compute. reflexivity. Qed.

(** C2: [IsFull] answers whether every byte of the readable bitmap is zero.
    It is true of the page with no live entry and false of a page whose
    [BUCKET_ARRAY_SIZE] slots are all readable; whenever it is true, no slot
    is readable. *)
Theorem IsFull_holds_of_the_empty_page :
  (∀ b : B.t (T := Key64RID), B.IsFull b = true →
     ∀ j, (j < Scenario.SIZE)%nat → B.IsReadable b j = false) ∧
  B.IsFull (T := Key64RID) B.zero = true ∧
  B.IsFull Scenario.full_odd_bucket = false ∧
  ∀ j, (j < Scenario.SIZE)%nat → B.IsReadable Scenario.full_odd_bucket j = true.
Proof.
  pose proof full_odd_bucket_IsFull as [Hfull Hall]%orb_false_elim.
  apply negb_false_iff in Hall. rewrite forallb_seq in Hall.
  split_and!; [|by vm_compute|done|done].
  intros b Hb j Hj. by apply IsFull_true_no_readable.
Qed.

End FullBucket.

(** ** Operations of the index: fetching, and [GetValue] *)
Section IndexBasics.
Context {T : HashTableTypes}.
Import ExtendibleHashTable.

Lemma bucket_of_lookup pgs p b :
  bucket_of pgs p = Some b → ∃ pg, pgs !! p = Some pg ∧ as_bucket pg = Ret b.
Proof.
  unfold bucket_of. destruct (pgs !! p) as [[| |b']|]; try done.
  - intros [= <-]. by exists RawZero.
  - intros [= <-]. by exists (BucketPage b').
Qed.

Lemma bucket_of_is_Some pgs p b : bucket_of pgs p = Some b → is_Some (pgs !! p).
Proof. intros (pg & -> & _)%bucket_of_lookup. done. Qed.

Lemma bucket_not_dir pgs p q b d :
  pgs !! q = Some (DirPage d) → bucket_of pgs p = Some b → p ≠ q.
Proof. intros Hq Hb ->. unfold bucket_of in Hb. by rewrite Hq in Hb. Qed.

Lemma bucket_of_insert pgs p b : bucket_of (<[p := BucketPage b]> pgs) p = Some b.
Proof. unfold bucket_of. by rewrite lookup_insert_eq. Qed.

Lemma bucket_of_insert_ne pgs p q pg :
  p ≠ q → bucket_of (<[p := pg]> pgs) q = bucket_of pgs q.
Proof. intros. unfold bucket_of. by rewrite lookup_insert_ne. Qed.

Lemma FetchDirectoryPage_ok ht d :
  pages ht !! directory_page_id_ ht = Some (DirPage d) →
  FetchDirectoryPage ht = Ret (d, fetched ht (directory_page_id_ ht)).
Proof. intros Hd. unfold FetchDirectoryPage. by rewrite (FetchPage_Some _ _ _ Hd). Qed.

Lemma FetchBucketPage_ok ht p b :
  bucket_of (pages ht) p = Some b → FetchBucketPage ht p = Ret (b, fetched ht p).
Proof.
  intros (pg & Hpg & Hb)%bucket_of_lookup. unfold FetchBucketPage.
  rewrite (FetchPage_Some _ _ _ Hpg). simpl. by rewrite Hb.
Qed.

Lemma pages_UnpinPage ht p is_dirty : pages (UnpinPage ht p is_dirty).2 = pages ht.
Proof. unfold UnpinPage. by destruct (pages ht !! p). Qed.

Lemma directory_page_id_UnpinPage ht p is_dirty :
  directory_page_id_ (UnpinPage ht p is_dirty).2 = directory_page_id_ ht.
Proof. unfold UnpinPage. by destruct (pages ht !! p). Qed.

Lemma next_page_id_UnpinPage ht p is_dirty :
  next_page_id (UnpinPage ht p is_dirty).2 = next_page_id ht.
Proof. unfold UnpinPage. by destruct (pages ht !! p). Qed.

End IndexBasics.

(** The pool holds the page: by a lookup at hand, through writes to other
    pages. *)
Ltac held :=
  rewrite ?pages_UnpinPage, ?directory_page_id_UnpinPage; simpl;
  repeat (rewrite lookup_insert_ne by done);
  first [ by rewrite lookup_insert_eq
        | by eapply bucket_of_is_Some
        | match goal with H : _ !! _ = Some _ |- _ => by rewrite H end
        | by eauto ].

(** A list of calls written out pairs its fetches with its unpins. *)
Ltac count_calls :=
  let q := fresh "q" in
  intros q; unfold ExtendibleHashTable.acquires, ExtendibleHashTable.releases; simpl;
  rewrite ?filter_cons, ?filter_nil; simpl;
  repeat (destruct (decide (_ = q)); simpl); try done; try lia; congruence.

(** ** Operations of the index: the calls they make *)
Section IndexCalls.
Context {T : HashTableTypes}.
Import ExtendibleHashTable.

Lemma stepped_refl ht : pool_ok ht → stepped ht ht [].
Proof. intros. split; [apply tracks_refl|done]. Qed.

Lemma stepped_fetched ht0 ht cs p :
  stepped ht0 ht cs → is_Some (pages ht !! p) →
  stepped ht0 (fetched ht p) (cs ++ [CallFetchPage p]).
Proof.
  intros [Ht Hok] Hp. split; [|by apply pool_ok_fetched].
  eapply tracks_trans; [done|apply tracks_fetched].
Qed.

Lemma stepped_unpinned ht0 ht cs p is_dirty :
  stepped ht0 ht cs → is_Some (pages ht !! p) →
  stepped ht0 (unpinned ht p is_dirty) (cs ++ [CallUnpinPage p is_dirty]).
Proof.
  intros [Ht Hok] Hp. split; [|by apply pool_ok_unpinned].
  eapply tracks_trans; [done|apply tracks_unpinned].
Qed.

Lemma stepped_write_page ht0 ht cs p pg :
  stepped ht0 ht cs → is_Some (pages ht !! p) → stepped ht0 (write_page ht p pg) cs.
Proof.
  intros [Ht Hok] Hp. split; [|by apply pool_ok_write_page].
  rewrite <- (app_nil_r cs). eapply tracks_trans; [done|apply tracks_write_page].
Qed.

Lemma stepped_NewPage ht0 ht cs :
  stepped ht0 ht cs → stepped ht0 (snd (NewPage ht)) (cs ++ [CallNewPage (next_page_id ht)]).
Proof.
  intros [Ht Hok]. split; [|by apply pool_ok_NewPage].
  eapply tracks_trans; [done|by apply tracks_NewPage].
Qed.

Lemma stepped_DeletePage ht0 ht cs p :
  stepped ht0 ht cs → stepped ht0 (snd (DeletePage ht p)) (cs ++ [CallDeletePage p]).
Proof.
  intros [Ht Hok]. split; [|by apply pool_ok_DeletePage].
  eapply tracks_trans; [done|apply tracks_DeletePage].
Qed.

Lemma stepped_UnpinPage ht0 ht cs p is_dirty :
  stepped ht0 ht cs → is_Some (pages ht !! p) →
  stepped ht0 (UnpinPage ht p is_dirty).2 (cs ++ [CallUnpinPage p is_dirty]).
Proof. intros Hs Hp. rewrite UnpinPage_Some by done. by apply stepped_unpinned. Qed.

Lemma same_table_UnpinPage ht0 ht p is_dirty :
  same_table ht0 ht → same_table ht0 (UnpinPage ht p is_dirty).2.
Proof.
  intros (H1 & H2 & H3).
  unfold same_table.
  by rewrite pages_UnpinPage, directory_page_id_UnpinPage, next_page_id_UnpinPage.
Qed.

Lemma stepped_trans ht0 ht1 ht2 cs1 cs2 :
  stepped ht0 ht1 cs1 → stepped ht1 ht2 cs2 → stepped ht0 ht2 (cs1 ++ cs2).
Proof. intros [Ht1 _] [Ht2 Hok]. split; [by eapply tracks_trans|done]. Qed.

Lemma stepped_balanced ht0 ht cs : stepped ht0 ht cs → balanced cs → pins_balanced ht0 ht.
Proof. intros [Ht _]. by apply tracks_balanced. Qed.

(** One fetch, its unpin, and balanced calls in between. *)
Lemma balanced_bracket p is_dirty cs :
  balanced cs → balanced ([CallFetchPage p] ++ cs ++ [CallUnpinPage p is_dirty]).
Proof.
  intros Hb q. rewrite !acquires_app, !releases_app, (Hb q).
  unfold acquires, releases. rewrite !filter_cons, !filter_nil. simpl.
  destruct (decide (p = q)); simpl; lia.
Qed.

Lemma balanced_new_bracket p is_dirty cs :
  balanced cs → balanced ([CallNewPage p] ++ cs ++ [CallUnpinPage p is_dirty]).
Proof.
  intros Hb q. rewrite !acquires_app, !releases_app, (Hb q).
  unfold acquires, releases. rewrite !filter_cons, !filter_nil. simpl.
  destruct (decide (p = q)); simpl; lia.
Qed.

Lemma balanced_delete p : balanced [CallDeletePage p].
Proof. intros q. unfold acquires, releases. by rewrite !filter_cons, !filter_nil. Qed.

Lemma Inv_same_table ht ht' d :
  Inv ht d → same_table ht ht' → pool_ok ht' → Inv ht' d.
Proof.
  intros [Hd [Hdp Hpid Hdir Hb Hok]] (Hdpid & Hpages & Hnext) Hok'.
  split; [by rewrite Hdpid, Hpages|]. split; try done.
  - by rewrite Hdpid, Hpages.
  - by rewrite Hdpid.
  - by rewrite Hpages.
Qed.

(** The bucket a key is routed to. *)
Lemma Inv_bucket ht d k :
  Inv ht d →
  ∃ b, bucket_of (pages ht) (KeyToPageId k d) = Some b ∧
       placed b (D.GetLocalDepth d (KeyToDirectoryIndex k d)) (KeyToDirectoryIndex k d) ∧
       KeyToPageId k d ≠ directory_page_id_ ht.
Proof.
  intros [Hd Hok]. pose proof (dir_global _ (ok_dir _ _ Hok)) as [Hg _].
  destruct (ok_buckets _ _ Hok (KeyToDirectoryIndex k d)) as (b & Hb & Hpl).
  { by apply KeyToDirectoryIndex_live. }
  exists b. split_and!; try done. by eapply bucket_not_dir.
Qed.

(** [GetValue] returns what the bucket of the key returns, changes no page,
    and pairs its two fetches with two unpins. *)
Lemma GetValue_spec ht d k result :
  Inv ht d →
  ∃ b ht', bucket_of (pages ht) (KeyToPageId k d) = Some b ∧
           GetValue ht k result =
             Ret (fst (B.GetValue b k result), snd (B.GetValue b k result), ht') ∧
           same_table ht ht' ∧
           ∃ cs, stepped ht ht' cs ∧ balanced cs.
Proof.
  intros Hinv. destruct (Inv_bucket ht d k Hinv) as (b & Hb & _ & Hne).
  destruct Hinv as [Hd Hok]. exists b.
  unfold GetValue. rewrite (FetchDirectoryPage_ok _ _ Hd). simpl.
  rewrite (FetchBucketPage_ok _ _ b) by done. simpl.
  destruct (B.GetValue b k result) as [flag result'].
  rewrite !UnpinPage_Some by held. simpl.
  eexists. split_and!; [done|done|done|].
  eexists. split.
  - apply stepped_unpinned; [|held].
    apply stepped_unpinned; [|held].
    apply stepped_fetched; [|held].
    apply stepped_fetched; [|held].
    apply stepped_refl, Hok.
  - count_calls.
Qed.

End IndexCalls.

(** ** Sequences of operations *)
Section Sequences.
Context {T : HashTableTypes}.
Import ExtendibleHashTable.

Lemma step_reachable ht o ht' : reachable ht → step ht o = Ret ht' → reachable ht'.
Proof.
  intros Hr. destruct o; simpl.
  - intros ([[r res] ht1] & Hop & [= <-])%bind_Ret. by eapply reach_GetValue.
  - intros ([r ht1] & Hop & [= <-])%bind_Ret. by eapply reach_Insert.
  - intros ([r ht1] & Hop & [= <-])%bind_Ret. by eapply reach_Remove.
  - intros ([r ht1] & Hop & [= <-])%bind_Ret. by eapply reach_GetGlobalDepth.
  - intros Hop. by eapply reach_VerifyIntegrity.
Qed.

Lemma run_reachable ops ht ht' : reachable ht → run ht ops = Ret ht' → reachable ht'.
Proof.
  revert ht. induction ops as [|o ops IH]; intros ht Hr; simpl.
  - by intros [= <-].
  - intros (ht1 & Hstep & Hrun)%bind_Ret. apply (IH ht1); [|done].
    by eapply step_reachable.
Qed.

End Sequences.

(** ** The branch of [SplitInsert] that doubles the directory, when every
       entry of the full bucket moves *)
Section FullTable.
Import ExtendibleHashTable.

Lemma after_reachable ops ht : Scenario.after ops = Ret ht → reachable ht.
Proof.
  unfold Scenario.after. intros (ht0 & Hnew & Hrun)%bind_Ret.
  eapply run_reachable; [|done]. by eapply reach_new.
Qed.

Lemma full_then_aborts_true keys k :
  Scenario.full_then_aborts keys k = true →
  ∃ ht : t (T := Key64RID),
    Scenario.after (Scenario.inserts keys) = Ret ht ∧
    reachable ht ∧
    D.GetGlobalDepth (directory ht) = 0 ∧
    (∀ j, (j < Scenario.SIZE)%nat → B.IsReadable (bucket_for ht k) j = true) ∧
    Insert ht k (Scenario.rid k) = Fault.
Proof.
  unfold Scenario.full_then_aborts. intros H.
  destruct (Scenario.after (Scenario.inserts keys)) as [ht| |] eqn:Hafter;
    [|discriminate H..].
  apply andb_true_iff in H as [H Hf]. apply andb_true_iff in H as [Hg Hall].
  exists ht. split; [reflexivity|]. split; [by eapply after_reachable|].
  split; [by apply Z.eqb_eq|]. split; [by apply forallb_seq|].
  by apply is_Fault_true.
Qed.

Lemma full_odd_table_aborts :
  Scenario.full_then_aborts (Scenario.odd_keys Scenario.SIZE) 113 = true.
Proof. vm_compute. reflexivity. Qed.

(** C1: on the table whose single bucket (global depth 0) is full of keys
    with odd hashes, [Insert] of one more key with an odd hash does not
    return.  [SplitInsert] doubles the directory, every entry moves to the
    new bucket, the key routes to the new bucket as well, the insertion into
    that full bucket fails and [assert(test)] ends the call: there is no
    retry on this path. *)
Theorem SplitInsert_aborts_when_every_entry_moves :
  ∃ ht : t (T := Key64RID),
    Scenario.after (Scenario.inserts (Scenario.odd_keys Scenario.SIZE)) = Ret ht ∧
    reachable ht ∧
    D.GetGlobalDepth (directory ht) = 0 ∧
    (∀ j, (j < Scenario.SIZE)%nat → B.IsReadable (bucket_for ht 113) j = true) ∧
    Insert ht 113 (Scenario.rid 113) = Fault.
Proof.
  exact (full_then_aborts_true (Scenario.odd_keys Scenario.SIZE) 113 full_odd_table_aborts).
Qed.

End FullTable.

(** ** Buckets under a rewritten directory *)
Section PlacedBuckets.
Context {T : HashTableTypes}.
Import ExtendibleHashTable.

Lemma placed_zero L i : placed B.zero L i.
Proof.
  split_and!; [apply wf_zero|apply bk1_zero|].
  intros j Hj Hr. by rewrite IsReadable_zero in Hr.
Qed.

Lemma placed_weaken b L i L' i' :
  placed b L i → L' ≤ L → cong L' i i' → placed b L' i'.
Proof.
  intros (Hwf & Hbk & Hpl) HL Hc. split_and!; [done..|].
  intros j Hj Hr. eapply cong_trans; [|done]. eapply cong_mono; [done|]. by apply Hpl.
Qed.

Lemma placed_Insert b L i k v :
  placed b L i → cong L (Hash k) i → placed (B.Insert b k v).2 L i.
Proof.
  intros (Hwf & Hbk & Hpl) Hc.
  destruct (Insert_snd b k v Hwf) as (Hwf' & Hbk' & Hfrom).
  split_and!; [done|by apply Hbk'|].
  intros j Hj Hr. destruct (Hfrom j Hj Hr) as [(Hr0 & -> & _)|[= -> _]]; [by apply Hpl|done].
Qed.

Lemma bucket_of_write pgs p q pg b :
  bucket_of pgs q = Some b → p ≠ q → bucket_of (<[p := pg]> pgs) q = Some b.
Proof. intros Hb Hne. by rewrite bucket_of_insert_ne. Qed.

(** Writing the directory page leaves the buckets of the directory alone. *)
Lemma buckets_ok_write_dir d pgs q d0 d1 :
  pgs !! q = Some (DirPage d0) → buckets_ok d pgs → buckets_ok d (<[q := DirPage d1]> pgs).
Proof.
  intros Hq Hok i Hi. destruct (Hok i Hi) as (b & Hb & Hpl). exists b. split; [|done].
  apply bucket_of_write; [done|]. intros ->. by eapply bucket_not_dir.
Qed.

(** Replacing the page of one bucket by a bucket placed alike. *)
Lemma buckets_ok_write_bucket d pgs index b' :
  dir_inv d → live d index → buckets_ok d pgs →
  placed b' (D.GetLocalDepth d index) index →
  buckets_ok d (<[D.GetBucketPageId d index := BucketPage b']> pgs).
Proof.
  intros Hinv Hindex Hok Hpl i Hi.
  destruct (decide (D.GetBucketPageId d i = D.GetBucketPageId d index)) as [Heq|Hne].
  - exists b'. rewrite Heq. split; [apply bucket_of_insert|].
    pose proof (dir_depth _ Hinv i index Hi Hindex Heq) as Hd.
    eapply placed_weaken; [done|lia|].
    apply cong_sym. by apply (dir_alias _ Hinv).
  - destruct (Hok i Hi) as (b & Hb & Hplb). exists b. split; [|done].
    by apply bucket_of_write.
Qed.

Lemma buckets_ok_grown d d2 index new_pid pgs pgs' old' new' :
  dir_inv d → live d index →
  D.GetLocalDepth d index = D.GetGlobalDepth d →
  (∀ i, live d i → D.GetBucketPageId d i ≠ new_pid) →
  let new_index := Z.lor index (Z.shiftl 1 (D.GetGlobalDepth d)) in
  grown d d2 index new_index new_pid →
  buckets_ok d pgs →
  (∀ i b, live d i → D.GetBucketPageId d i ≠ D.GetBucketPageId d index →
          bucket_of pgs (D.GetBucketPageId d i) = Some b →
          bucket_of pgs' (D.GetBucketPageId d i) = Some b) →
  bucket_of pgs' (D.GetBucketPageId d index) = Some old' →
  placed old' (D.GetGlobalDepth d + 1) index →
  bucket_of pgs' new_pid = Some new' →
  placed new' (D.GetGlobalDepth d + 1) new_index →
  buckets_ok d2 pgs'.
Proof.
  intros Hinv Hindex Hld Hfresh new_index (Hg2 & _ & Hgrown) Hok Hkeep Hold Hpo Hnew Hpn.
  set (g := D.GetGlobalDepth d) in *.
  assert (0 ≤ g) as Hg by apply Hinv.
  assert (∀ i, live d i ↔ 0 ≤ i < 2 ^ g) as Hlive by (intros; by apply live_iff).
  assert (∀ j, live d2 j ↔ 0 ≤ j < 2 ^ (g + 1)) as Hlive2.
  { intros j. rewrite live_iff by lia. by rewrite Hg2. }
  pose proof (proj1 (Hlive index) Hindex) as Hir.
  intros j Hj%Hlive2.
  destruct (high_slot g j Hg Hj) as (Hi & Hc & Hcases).
  set (i := Z.land j (Z.ones g)) in *.
  destruct (Hgrown i j Hi Hj Hc) as [-> ->].
  destruct (decide (j = new_index)) as [->|Hjn].
  - assert (i = index) as ->.
    { apply (cong_eq g); [done..|]. eapply cong_trans; [apply cong_sym, Hc|].
      by apply cong_set. }
    rewrite decide_True by done. by exists new'.
  - destruct (decide (i = index)) as [Hii|Hii].
    + assert (j = index) as ->.
      { destruct Hcases as [?|?]; [congruence|]. exfalso. apply Hjn. unfold new_index. congruence. }
      rewrite Hii. by exists old'.
    + assert (live d i) as Hli by (by apply Hlive).
      destruct (Hok i Hli) as (b & Hb & Hplb).
      exists b. split.
      * apply Hkeep; [done| |done]. intros Hp. apply Hii.
        apply (cong_eq g); [done..|]. apply cong_sym. rewrite <- Hld.
        by apply (dir_alias _ Hinv).
      * eapply placed_weaken; [done|lia|].
        eapply cong_mono; [|apply cong_sym, Hc]. apply (dir_local _ Hinv i Hli).
Qed.

Lemma buckets_ok_split d d2 index new_pid pgs pgs' old' new' :
  dir_inv d → live d index →
  D.GetLocalDepth d index < D.GetGlobalDepth d →
  (∀ i, live d i → D.GetBucketPageId d i ≠ new_pid) →
  let L := D.GetLocalDepth d index in
  let new_index := Z.lxor (Z.shiftl 1 L) index in
  split_in_place d d2 index (D.GetBucketPageId d index) new_pid →
  buckets_ok d pgs →
  (∀ i b, live d i → D.GetBucketPageId d i ≠ D.GetBucketPageId d index →
          bucket_of pgs (D.GetBucketPageId d i) = Some b →
          bucket_of pgs' (D.GetBucketPageId d i) = Some b) →
  bucket_of pgs' (D.GetBucketPageId d index) = Some old' →
  placed old' (L + 1) index →
  bucket_of pgs' new_pid = Some new' →
  placed new' (L + 1) new_index →
  buckets_ok d2 pgs'.
Proof.
  intros Hinv Hindex Hlt Hfresh L new_index (Hg2 & _ & Hsplit) Hok Hkeep Hold Hpo Hnew Hpn.
  assert (0 ≤ L) as HL by (apply (dir_local _ Hinv index Hindex)).
  assert (∀ i, live d2 i ↔ live d i) as Hlive2.
  { intros i. unfold live, D.Size. fold (D.GetGlobalDepth d2) (D.GetGlobalDepth d).
    by rewrite Hg2. }
  assert (cong L new_index index) as Hcn.
  { unfold new_index. rewrite Z.lxor_comm. by apply cong_flip. }
  assert (Z.testbit new_index L = negb (Z.testbit index L)) as Hbit.
  { unfold new_index. rewrite Z.lxor_comm. by apply flip_bit. }
  intros i Hi%Hlive2. specialize (Hsplit i Hi).
  destruct (decide (D.GetBucketPageId d i = D.GetBucketPageId d index)) as [Hp|Hp].
  - destruct Hsplit as [-> ->].
    assert (cong L i index) as Hci.
    { apply cong_sym. by apply (dir_alias _ Hinv). }
    fold L. case_decide as Hb.
    + exists old'. split; [done|]. eapply placed_weaken; [done|lia|].
      apply cong_succ; [done|]. split; [by apply cong_sym|done].
    + exists new'. split; [done|]. eapply placed_weaken; [done|lia|].
      apply cong_succ; [done|]. split.
      * eapply cong_trans; [done|by apply cong_sym].
      * rewrite Hbit. destruct (Z.testbit i L), (Z.testbit index L); done.
  - destruct Hsplit as [-> ->]. destruct (Hok i Hi) as (b & Hb & Hplb).
    exists b. split; [by apply Hkeep|done].
Qed.

Lemma buckets_ok_merged d d2 bucket_index pgs pgs' :
  dir_inv d → live d bucket_index →
  0 < D.GetLocalDepth d bucket_index →
  let merge_index := D.GetSplitImageIndex d bucket_index in
  D.GetLocalDepth d bucket_index = D.GetLocalDepth d merge_index →
  merged d d2 (D.GetBucketPageId d bucket_index) (D.GetBucketPageId d merge_index) →
  buckets_ok d pgs →
  (∀ i b, live d i → D.GetBucketPageId d i ≠ D.GetBucketPageId d bucket_index →
          bucket_of pgs (D.GetBucketPageId d i) = Some b →
          bucket_of pgs' (D.GetBucketPageId d i) = Some b) →
  buckets_ok d2 pgs'.
Proof.
  intros Hinv Hbi HL merge_index Hlm Hmerged Hok Hkeep.
  destruct (merged_dir_inv d d2 bucket_index Hinv Hbi HL Hlm Hmerged) as [_ Hclass].
  destruct (merged_spec d bucket_index Hinv Hbi HL Hlm) as [Hmi _].
  fold merge_index in Hmi, Hclass.
  destruct Hmerged as (Hg2 & _ & Hm).
  set (L := D.GetLocalDepth d bucket_index) in *.
  assert (∀ i, live d2 i ↔ live d i) as Hlive2.
  { intros i. unfold live, D.Size. fold (D.GetGlobalDepth d2) (D.GetGlobalDepth d).
    by rewrite Hg2. }
  assert (cong (L - 1) merge_index bucket_index) as Hcm by (apply cong_flip; lia).
  assert (Z.testbit merge_index (L - 1) = negb (Z.testbit bucket_index (L - 1))) as Hbit.
  { apply flip_bit. lia. }
  assert (D.GetBucketPageId d merge_index ≠ D.GetBucketPageId d bucket_index) as Hmb.
  { intros Hp. apply (dir_alias _ Hinv) in Hp; [|done..].
    specialize (Hp (L - 1)). rewrite Hbit in Hp.
    destruct (Z.testbit bucket_index (L - 1)); simpl in Hp; [discriminate Hp|discriminate Hp].
    all: fold merge_index in Hlm; lia. }
  intros i Hi%Hlive2. specialize (Hm i Hi).
  destruct (decide (_ ∨ _)) as [Hp|Hp]; destruct Hm as [-> ->].
  - destruct (Hok merge_index Hmi) as (b & Hb & Hplb).
    exists b. split; [by apply Hkeep|].
    assert (D.GetLocalDepth d i = L) as ->.
    { destruct Hp as [Hp|Hp]; [by apply (dir_depth _ Hinv)|].
      rewrite Hlm. by apply (dir_depth _ Hinv). }
    eapply placed_weaken; [done|lia|].
    eapply cong_trans; [done|]. apply cong_sym. by apply Hclass.
  - destruct (Hok i Hi) as (b & Hb & Hplb). exists b. split; [|done].
    apply Hkeep; [done| |done]. intros Heq. apply Hp. by left.
Qed.

Lemma buckets_ok_shrink d pgs :
  dir_inv d → D.CanShrink d = true → buckets_ok d pgs →
  buckets_ok (D.DecrGlobalDepth d) pgs.
Proof.
  intros Hinv Hcan Hok i Hi.
  assert (live d i) as Hli.
  { assert (0 ≤ D.GetGlobalDepth d) as Hg by apply Hinv.
    rewrite CanShrink_true in Hcan.
    assert (live d 0) as H0.
    { apply live_iff; [done|]. pose proof (Z.pow_pos_nonneg 2 (D.GetGlobalDepth d)). lia. }
    pose proof (Hcan 0 H0) as Hc0. pose proof (dir_local _ Hinv 0 H0) as Hl0.
    assert (D.GetGlobalDepth (D.DecrGlobalDepth d) = D.GetGlobalDepth d - 1) as Hg2 by done.
    revert Hi. rewrite !live_iff by (rewrite ?Hg2; lia). rewrite Hg2.
    intros Hi. split; [lia|].
    assert (2 ^ (D.GetGlobalDepth d - 1) ≤ 2 ^ D.GetGlobalDepth d); [|lia].
    apply Z.pow_le_mono_r; lia. }
  exact (Hok i Hli).
Qed.

Lemma redistribute_placed moves old L i L' io inw old' new' is_free :
  placed old L i →
  (∀ j, (j < B.BUCKET_ARRAY_SIZE)%nat → B.IsReadable old j = true) →
  (∀ key, cong L (Hash key) i → moves key = true → cong L' (Hash key) inw) →
  (∀ key, cong L (Hash key) i → moves key = false → cong L' (Hash key) io) →
  redistribute moves old B.zero (seq 0 B.BUCKET_ARRAY_SIZE) false = Ret (old', new', is_free) →
  placed old' L' io ∧ placed new' L' inw.
Proof.
  intros (Hwf & Hbk & Hpl) Hall Hmv Hst Hred.
  destruct (redistribute_spec moves old B.zero (seq 0 B.BUCKET_ARRAY_SIZE) false)
    as (old'' & new'' & Heq & Hwfo & Hwfn & Hocc & Harr & Hrd & Hbkn & Hfrom);
    [done|apply wf_zero|apply NoDup_seq| | |].
  { intros j Hj%elem_of_seq. lia. }
  { intros j Hj%elem_of_seq. apply Hall. lia. }
  rewrite Heq in Hred. injection Hred as <- <- _.
  split.
  - split_and!; [done| |].
    + intros j Hj Hr. rewrite Hrd in Hr. apply andb_true_iff in Hr as [Hr _].
      unfold B.IsOccupied. rewrite Hocc. by apply Hbk.
    + intros j Hj Hr. rewrite Hrd in Hr. apply andb_true_iff in Hr as [Hr Hm].
      apply negb_true_iff in Hm.
      rewrite bool_decide_eq_true_2 in Hm by (apply elem_of_seq; lia). simpl in Hm.
      unfold B.KeyAt. rewrite Harr. apply Hst; [by apply Hpl|done].
  - split_and!; [done|by apply Hbkn, bk1_zero|].
    intros j Hj Hr. destruct (Hfrom j Hj Hr) as [(Hz & _)|(p & Hp & Hm & [= -> _])].
    + by rewrite IsReadable_zero in Hz.
    + apply elem_of_seq in Hp. apply Hmv; [|done]. apply Hpl; [lia|]. apply Hall. lia.
Qed.

Lemma Insert_stored_once b k v b' :
  B.wf b → B.Insert b k v = (true, b') → B.wf b' ∧ stored_once b' k v.
Proof.
  intros Hwf (p & Hp & Hrp & Hno & ->)%Insert_true. split; [by apply wf_put|].
  exists p. split_and!; [done|..].
  - rewrite IsReadable_put by done. by rewrite decide_True.
  - rewrite KeyAt_put by done. by rewrite decide_True.
  - rewrite ValueAt_put by done. by rewrite decide_True.
  - intros j Hj Hne. specialize (Hno j Hj). unfold B.entry_match in *.
    rewrite IsReadable_put, KeyAt_put, ValueAt_put by done.
    by rewrite !decide_False by done.
Qed.

End PlacedBuckets.

(** ** [SplitInsert] *)
Section SplitInsertFacts.
Context {T : HashTableTypes}.
Import ExtendibleHashTable.

Lemma KeyToDirectoryIndex_depth k d d' :
  D.GetGlobalDepth d' = D.GetGlobalDepth d →
  KeyToDirectoryIndex k d' = KeyToDirectoryIndex k d.
Proof.
  intros Hg. unfold KeyToDirectoryIndex, D.GetGlobalDepthMask.
  fold (D.GetGlobalDepth d) (D.GetGlobalDepth d'). by rewrite Hg.
Qed.

Lemma KeyToDirectoryIndex_ones k d :
  0 ≤ D.GetGlobalDepth d →
  KeyToDirectoryIndex k d = Z.land (Hash k) (Z.ones (D.GetGlobalDepth d)).
Proof.
  intros Hg. unfold KeyToDirectoryIndex, D.GetGlobalDepthMask.
  fold (D.GetGlobalDepth d). by rewrite mask_ones.
Qed.

(** Where the entries of a bucket at full depth go when the directory
    doubles. *)
Lemma grow_moves g index key :
  0 ≤ g → 0 ≤ index < 2 ^ g → cong g (Hash key) index →
  let new_index := Z.lor index (Z.shiftl 1 g) in
  let x := Z.land (Hash key) (Z.ones (g + 1)) in
  (x = index ∨ x = new_index) ∧
  (x = new_index → cong (g + 1) (Hash key) new_index) ∧
  (x ≠ new_index → cong (g + 1) (Hash key) index).
Proof.
  intros Hg Hi Hc new_index x.
  assert (cong (g + 1) x (Hash key)) as Hx by (apply cong_land_ones; lia).
  assert (0 ≤ x < 2 ^ (g + 1)) as Hxr by (apply land_ones_range; lia).
  assert (x = index ∨ x = new_index) as Hcases.
  { apply cong_low_cases; [done..|].
    eapply cong_trans; [|done]. eapply cong_mono; [|done]. lia. }
  split_and!; [done| |].
  - intros <-. by apply cong_sym.
  - intros Hne. destruct Hcases as [<-|?]; [by apply cong_sym|done].
Qed.

(** Where the entries of a bucket go when it splits in place. *)
Lemma local_moves L index key :
  0 ≤ L → cong L (Hash key) index →
  let new_index := Z.lxor (Z.shiftl 1 L) index in
  let mask := Z.ones (L + 1) in
  (Z.land mask (Hash key) = Z.land new_index mask → cong (L + 1) (Hash key) new_index) ∧
  (Z.land mask (Hash key) ≠ Z.land new_index mask → cong (L + 1) (Hash key) index).
Proof.
  intros HL Hc new_index mask.
  assert (cong L new_index index) as Hcn.
  { unfold new_index. rewrite Z.lxor_comm. by apply cong_flip. }
  assert (Z.testbit new_index L = negb (Z.testbit index L)) as Hbit.
  { unfold new_index. rewrite Z.lxor_comm. by apply flip_bit. }
  split.
  - intros Heq. apply cong_iff_land; [lia|]. by rewrite (Z.land_comm (Hash key)).
  - intros Hne. apply cong_succ; [done|]. split; [done|].
    destruct (decide (Z.testbit (Hash key) L = Z.testbit index L)) as [|Hb]; [done|].
    exfalso. apply Hne. rewrite (Z.land_comm mask). apply cong_iff_land; [lia|].
    apply cong_succ; [done|]. split.
    + eapply cong_trans; [done|by apply cong_sym].
    + rewrite Hbit. destruct (Z.testbit (Hash key) L), (Z.testbit index L); done.
Qed.

(** The end of either branch: the three pages are written, then unpinned. *)
Lemma split_finish ht d old_pid old old2 new2 d3 f1 f2 :
  Inv ht d → bucket_of (pages ht) old_pid = Some old →
  let np := next_page_id ht in
  let dpid := directory_page_id_ ht in
  let htw :=
    write_page (write_page (write_page (NewPage ht).2 old_pid (BucketPage old2))
                           np (BucketPage new2)) dpid (DirPage d3) in
  let ht1 := (UnpinPage htw old_pid f1).2 in
  let ht2 := (UnpinPage ht1 np f2).2 in
  let ht3 := (UnpinPage ht2 (directory_page_id_ ht2) true).2 in
  directory_page_id_ ht3 = dpid ∧
  pages ht3 !! dpid = Some (DirPage d3) ∧
  bucket_of (pages ht3) old_pid = Some old2 ∧
  bucket_of (pages ht3) np = Some new2 ∧
  (∀ p b, p ≠ old_pid → bucket_of (pages ht) p = Some b →
          bucket_of (pages ht3) p = Some b) ∧
  stepped ht ht3 [CallNewPage np; CallUnpinPage old_pid f1; CallUnpinPage np f2;
                  CallUnpinPage dpid true].
Proof.
  intros [Hd Hok] Hold np dpid htw ht1 ht2 ht3.
  pose proof (ok_pool _ _ Hok) as Hpool.
  assert (old_pid ≠ dpid) as Hod by (by eapply bucket_not_dir).
  assert (∀ p, is_Some (pages ht !! p) → p ≠ np) as Hfresh.
  { intros p Hp%(pool_pages_fresh _ Hpool). unfold np. lia. }
  assert (dpid ≠ np) as Hdn by (apply Hfresh; unfold dpid; by rewrite Hd).
  assert (old_pid ≠ np) as Hon by (by eapply Hfresh, bucket_of_is_Some).
  assert (directory_page_id_ ht2 = dpid) as Hdp2.
  { unfold ht2, ht1. by rewrite !directory_page_id_UnpinPage. }
  assert (pages ht3 = pages htw) as Hpages.
  { unfold ht3, ht2, ht1. by rewrite !pages_UnpinPage. }
  assert (is_Some (pages htw !! old_pid)) as Hso.
  { unfold htw. simpl. rewrite !lookup_insert_ne by done. by rewrite lookup_insert_eq. }
  assert (is_Some (pages htw !! np)) as Hsn.
  { unfold htw. simpl. rewrite lookup_insert_ne by done. by rewrite lookup_insert_eq. }
  assert (is_Some (pages htw !! dpid)) as Hsd.
  { unfold htw. simpl. by rewrite lookup_insert_eq. }
  split_and!.
  - unfold ht3. by rewrite directory_page_id_UnpinPage.
  - rewrite Hpages. unfold htw. simpl. by rewrite lookup_insert_eq.
  - rewrite Hpages. unfold htw. simpl. unfold bucket_of.
    rewrite !lookup_insert_ne by done. by rewrite lookup_insert_eq.
  - rewrite Hpages. unfold htw. simpl. unfold bucket_of.
    rewrite lookup_insert_ne by done. by rewrite lookup_insert_eq.
  - intros p b Hp Hb. rewrite Hpages. unfold htw. simpl.
    assert (p ≠ dpid) as Hpd by (by eapply bucket_not_dir).
    assert (p ≠ np) as Hpn by (by eapply Hfresh, bucket_of_is_Some).
    unfold bucket_of. rewrite !lookup_insert_ne by done. exact Hb.
  - unfold ht3. rewrite Hdp2.
    rewrite (UnpinPage_Some ht2) by (unfold ht2, ht1; by rewrite !pages_UnpinPage).
    unfold ht2. rewrite (UnpinPage_Some ht1) by (unfold ht1; by rewrite !pages_UnpinPage).
    unfold ht1. rewrite (UnpinPage_Some htw) by done. simpl.
    apply (stepped_unpinned ht _ [_; _; _]); [|done].
    apply (stepped_unpinned ht _ [_; _]); [|done].
    apply (stepped_unpinned ht _ [_]); [|done].
    unfold htw. apply stepped_write_page; [|simpl; held].
    apply stepped_write_page; [|simpl; held].
    apply stepped_write_page; [|simpl; held].
    apply (stepped_NewPage ht ht []). by apply stepped_refl.
Qed.

Lemma SplitInsert_grow_spec ht d old k v a ht' :
  Inv ht d →
  let index := KeyToDirectoryIndex k d in
  let old_pid := D.GetBucketPageId d index in
  bucket_of (pages ht) old_pid = Some old →
  (∀ j, (j < B.BUCKET_ARRAY_SIZE)%nat → B.IsReadable old j = true) →
  D.GetLocalDepth d index = D.GetGlobalDepth d →
  SplitInsert_grow ht d index old_pid old k v = Ret (a, ht') →
  ∃ d' f1 f2,
    Inv ht' d' ∧ directory_page_id_ ht' = directory_page_id_ ht ∧
    stepped ht ht' [CallNewPage (next_page_id ht); CallUnpinPage old_pid f1;
                    CallUnpinPage (next_page_id ht) f2;
                    CallUnpinPage (directory_page_id_ ht) true] ∧
    match a with
    | Return true => stored ht' d' k v
    | Return false => False
    | Recurse =>
        D.GetLocalDepth d' (KeyToDirectoryIndex k d') = D.GetLocalDepth d index + 1
    end.
Proof.
  intros [Hd Hok] index old_pid Hold Hall Hld Hrun.
  pose proof (ok_dir _ _ Hok) as Hinv.
  assert (0 ≤ D.GetGlobalDepth d) as Hg by apply Hinv.
  assert (live d index) as Hindex by (by apply KeyToDirectoryIndex_live).
  unfold SplitInsert_grow in Hrun.
  apply bind_Ret in Hrun as (d1 & Hincr & Hrun).
  destruct (grown_spec d index (next_page_id ht) d1 Hinv Hindex Hincr)
    as (Hmax & Hg1 & _ & Hkdi & Hgrown).
  apply bind_Ret in Hrun as (_ & _ & Hrun).
  change (NewPage ht) with (next_page_id ht, (NewPage ht).2) in Hrun.
  cbv beta iota zeta in Hrun.
  apply bind_Ret in Hrun as (new0 & [= <-] & Hrun).
  apply bind_Ret in Hrun as ([[old1 new1] is_free] & Hred & Hrun).
  cbv beta iota zeta in Hrun.
  set (new_index := Z.lor index (Z.shiftl 1 (D.GetGlobalDepth d))) in *.
  set (d3 := D.SetLocalDepth (D.SetLocalDepth (D.SetBucketPageId d1 _ _) _ _) _ _) in *.
  apply bind_Ret in Hrun as ([[old2 new2] ret] & Hins & Hrun).
  cbv beta iota zeta in Hrun.
  change (grown d d3 index new_index (next_page_id ht)) in Hgrown.
  set (g := D.GetGlobalDepth d) in *.
  assert (0 ≤ index < 2 ^ g) as Hir by (by apply live_iff).
  assert (index ≠ new_index) as Hni by (by apply set_ne_low).
  assert (placed old g index) as Hpo.
  { destruct (ok_buckets _ _ Hok index Hindex) as (b & Hb & Hpl).
    fold old_pid in Hb. rewrite Hold in Hb. injection Hb as <-. by rewrite <- Hld. }
  assert (∀ key, cong g (Hash key) index →
            KeyToDirectoryIndex key d1 = new_index ∨ cong (g + 1) (Hash key) index) as Hroute.
  { intros key Hc. rewrite Hkdi.
    destruct (grow_moves g index key Hg Hir Hc) as (_ & _ & Hne).
    destruct (decide (Z.land (Hash key) (Z.ones (g + 1)) = new_index)); [by left|].
    right. by apply Hne. }
  destruct (redistribute_placed
              (λ cur_key, KeyToDirectoryIndex cur_key d1 =? new_index)
              old g index (g + 1) index new_index old1 new1 is_free
              Hpo Hall) as [Hpo1 Hpn1]; [| |done|].
  { intros key Hc Hm%Z.eqb_eq. rewrite Hkdi in Hm.
    by apply (grow_moves g index key Hg Hir Hc). }
  { intros key Hc Hm%Z.eqb_neq. destruct (Hroute key Hc); done. }
  assert (KeyToDirectoryIndex k d3 = KeyToDirectoryIndex k d1) as Hk3
    by (by apply KeyToDirectoryIndex_depth).
  assert (cong g (Hash k) index) as Hck by (apply cong_sym; by apply KeyToDirectoryIndex_cong).
  destruct (grow_moves g index k Hg Hir Hck) as (Hkcases & Hknew & Hkold).
  rewrite <- Hkdi, <- Hk3 in Hkcases, Hknew, Hkold. fold new_index in Hkcases, Hknew, Hkold.
  assert (placed old2 (g + 1) index ∧ placed new2 (g + 1) new_index ∧
          if ret
          then (KeyToDirectoryIndex k d3 = index ∧ stored_once old2 k v)
               ∨ (KeyToDirectoryIndex k d3 = new_index ∧ stored_once new2 k v)
          else KeyToDirectoryIndex k d3 = index) as (Hpo2 & Hpn2 & Hret).
  { destruct (Z.eqb_spec (KeyToDirectoryIndex k d3) index) as [Hki|Hki]; simpl in Hins.
    - destruct is_free; simpl in Hins.
      + destruct (B.Insert old1 k v) as [test old1'] eqn:Hi.
        apply bind_Ret in Hins as (_ & ->%assert_Ret & [= <- <- <-]).
        split_and!; [|done|].
        * replace old1' with (B.Insert old1 k v).2 by (by rewrite Hi).
          apply placed_Insert; [done|]. apply Hkold. by rewrite Hki.
        * left. split; [done|]. eapply Insert_stored_once; [apply Hpo1|done].
      + destruct (Z.eqb_spec (KeyToDirectoryIndex k d3) new_index) as [Hkn|Hkn].
        * exfalso. by rewrite Hki in Hkn.
        * by injection Hins as <- <- <-.
    - destruct (Z.eqb_spec (KeyToDirectoryIndex k d3) new_index) as [Hkn|Hkn].
      + destruct (B.Insert new1 k v) as [test new1'] eqn:Hi.
        apply bind_Ret in Hins as (_ & ->%assert_Ret & [= <- <- <-]).
        split_and!; [done| |].
        * replace new1' with (B.Insert new1 k v).2 by (by rewrite Hi).
          apply placed_Insert; [done|]. by apply Hknew.
        * right. split; [done|]. eapply Insert_stored_once; [apply Hpn1|done].
      + exfalso. destruct Hkcases; done. }
  match type of Hrun with Ret (_, ?s) = _ => set (htF := s) in * end.
  injection Hrun as <- <-.
  pose proof (split_finish ht d old_pid old old2 new2 d3 is_free
                (is_free || (KeyToDirectoryIndex k d3 =? new_index))
                (conj Hd Hok) Hold) as Hfin.
  cbv zeta in Hfin. destruct Hfin as (Hdp & Hdir & Hbo & Hbn & Hkeep & Hstep).
  change (directory_page_id_ htF = directory_page_id_ ht) in Hdp.
  change (pages htF !! directory_page_id_ ht = Some (DirPage d3)) in Hdir.
  change (bucket_of (pages htF) old_pid = Some old2) in Hbo.
  change (bucket_of (pages htF) (next_page_id ht) = Some new2) in Hbn.
  change (∀ p b, p ≠ old_pid → bucket_of (pages ht) p = Some b →
                 bucket_of (pages htF) p = Some b) in Hkeep.
  match type of Hstep with stepped _ _ ?cs => change (stepped ht htF cs) in Hstep end.
  clearbody htF.
  assert (∀ i, live d i → D.GetBucketPageId d i ≠ next_page_id ht) as Hfresh.
  { intros i Hi Heq. destruct (ok_buckets _ _ Hok i Hi) as (b & Hb%bucket_of_is_Some & _).
    apply (pool_pages_fresh _ (ok_pool _ _ Hok)) in Hb. lia. }
  exists d3, is_free, (is_free || (KeyToDirectoryIndex k d3 =? new_index)).
  split_and!.
  - split; [by rewrite Hdp|]. split.
    + eexists. rewrite Hdp. exact Hdir.
    + rewrite Hdp. destruct Hgrown as (_ & -> & _). apply Hok.
    + by eapply grown_dir_inv.
    + eapply (buckets_ok_grown d d3 index (next_page_id ht) (pages ht)); try done.
      * apply Hok.
      * intros i b Hi Hne Hb. by apply Hkeep.
    + apply Hstep.
  - exact Hdp.
  - exact Hstep.
  - destruct ret.
    + destruct Hret as [[Hki Hst]|[Hki Hst]].
      * exists old2. split; [|done]. unfold KeyToPageId. rewrite Hki.
        assert (D.GetBucketPageId d3 index = old_pid) as ->; [|exact Hbo].
        destruct Hgrown as (_ & _ & Hgr).
        destruct (Hgr index index) as [-> _]; [done| |apply cong_refl|].
        { fold g. rewrite pow2_succ by lia. lia. }
        by rewrite decide_False.
      * exists new2. split; [|done]. unfold KeyToPageId. rewrite Hki.
        assert (D.GetBucketPageId d3 new_index = next_page_id ht) as ->; [|exact Hbn].
        destruct Hgrown as (_ & _ & Hgr).
        destruct (Hgr index new_index) as [-> _]; [done|by apply set_range|by apply cong_set|].
        by rewrite decide_True.
    + rewrite Hret. destruct Hgrown as (_ & _ & Hgr).
      destruct (Hgr index index) as [_ ->]; [done| |apply cong_refl|].
      { fold g. rewrite pow2_succ by lia. lia. }
      rewrite decide_True by done. unfold g in *. lia.
Qed.

Lemma SplitInsert_local_spec ht d old k v a ht' :
  Inv ht d →
  let index := KeyToDirectoryIndex k d in
  let old_pid := D.GetBucketPageId d index in
  bucket_of (pages ht) old_pid = Some old →
  (∀ j, (j < B.BUCKET_ARRAY_SIZE)%nat → B.IsReadable old j = true) →
  SplitInsert_local ht d index old_pid old k v = Ret (a, ht') →
  ∃ d' f1 f2,
    Inv ht' d' ∧ directory_page_id_ ht' = directory_page_id_ ht ∧
    stepped ht ht' [CallNewPage (next_page_id ht); CallUnpinPage old_pid f1;
                    CallUnpinPage (next_page_id ht) f2;
                    CallUnpinPage (directory_page_id_ ht) true] ∧
    match a with
    | Return true => stored ht' d' k v
    | Return false => False
    | Recurse =>
        D.GetLocalDepth d' (KeyToDirectoryIndex k d') = D.GetLocalDepth d index + 1
    end.
Proof.
  intros [Hd Hok] index old_pid Hold Hall Hrun.
  pose proof (ok_dir _ _ Hok) as Hinv.
  assert (0 ≤ D.GetGlobalDepth d) as Hg by apply Hinv.
  assert (live d index) as Hindex by (by apply KeyToDirectoryIndex_live).
  assert (∀ i, live d i → D.GetBucketPageId d i ≠ next_page_id ht) as Hfresh.
  { intros i Hi Heq. destruct (ok_buckets _ _ Hok i Hi) as (b & Hb%bucket_of_is_Some & _).
    apply (pool_pages_fresh _ (ok_pool _ _ Hok)) in Hb. lia. }
  unfold SplitInsert_local in Hrun.
  apply bind_Ret in Hrun as (_ & Hlt%assert_Ret & Hrun). apply Z.ltb_lt in Hlt.
  change (NewPage ht) with (next_page_id ht, (NewPage ht).2) in Hrun.
  cbv beta iota zeta in Hrun.
  apply bind_Ret in Hrun as (new0 & [= <-] & Hrun).
  apply bind_Ret in Hrun as (_ & _ & Hrun).
  set (L := D.GetLocalDepth d index) in *.
  set (new_index := Z.lxor (Z.shiftl 1 L) index) in *.
  set (d3 := D.IncrLocalDepth (D.IncrLocalDepth (D.SetBucketPageId d _ _) _) _) in *.
  destruct (split_in_place_spec d index (next_page_id ht) Hinv Hindex Hlt Hfresh)
    as (Hnl & Hnld & Hmask & d4 & Hfan & Hsplit).
  fold L new_index d3 in Hnl, Hnld, Hmask, Hfan, Hsplit. fold old_pid in Hfan, Hsplit.
  apply bind_Ret in Hrun as ([[old1 new1] is_free] & Hred & Hrun).
  cbv beta iota zeta in Hrun.
  apply bind_Ret in Hrun as (d4' & Hfan' & Hrun).
  rewrite Hfan in Hfan'. injection Hfan' as <-.
  apply bind_Ret in Hrun as ([old2 ret] & Hins & Hrun).
  cbv beta iota zeta in Hrun.
  assert (0 ≤ L) as HL by (apply (dir_local _ Hinv index Hindex)).
  assert (placed old L index) as Hpo.
  { destruct (ok_buckets _ _ Hok index Hindex) as (b & Hb & Hpl).
    fold old_pid in Hb. rewrite Hold in Hb. by injection Hb as <-. }
  rewrite Hmask in Hred.
  destruct (redistribute_placed
              (λ cur_key, Z.land (Z.ones (L + 1)) (Hash cur_key)
                          =? Z.land new_index (Z.ones (L + 1)))
              old L index (L + 1) index new_index old1 new1 is_free
              Hpo Hall) as [Hpo1 Hpn1]; [| |done|].
  { intros key Hc Hm%Z.eqb_eq. by apply (local_moves L index key HL Hc). }
  { intros key Hc Hm%Z.eqb_neq. by apply (local_moves L index key HL Hc). }
  assert (KeyToDirectoryIndex k d4 = index) as Hk4.
  { apply KeyToDirectoryIndex_depth. apply Hsplit. }
  assert (cong L (Hash k) index) as Hck.
  { apply cong_sym. eapply cong_mono; [|by apply KeyToDirectoryIndex_cong].
    apply (dir_local _ Hinv index Hindex). }
  assert (D.GetLocalDepth d4 index = L + 1 ∧ D.GetBucketPageId d4 index = old_pid)
    as [Hl4 Hp4].
  { destruct Hsplit as (_ & _ & Hs). specialize (Hs index Hindex).
    rewrite decide_True in Hs by done. destruct Hs as [-> ->].
    by rewrite decide_True. }
  assert (placed old2 (L + 1) index ∧ if ret then stored_once old2 k v else True)
    as [Hpo2 Hret].
  { destruct is_free.
    - destruct (B.Insert old1 k v) as [test old1'] eqn:Hi.
      apply bind_Ret in Hins as (_ & ->%assert_Ret & [= <- <-]). split.
      + replace old1' with (B.Insert old1 k v).2 by (by rewrite Hi).
        apply placed_Insert; [done|].
        destruct (local_moves L index k HL Hck) as [Hmv Hst].
        fold new_index in Hmv, Hst.
        apply cong_succ; [done|]. split; [done|].
        pose proof (KeyToDirectoryIndex_cong d k Hg) as Hcg. fold index in Hcg.
        symmetry. apply Hcg. lia.
      + eapply Insert_stored_once; [apply Hpo1|done].
    - by injection Hins as <- <-. }
  match type of Hrun with Ret (_, ?s) = _ => set (htF := s) in * end.
  injection Hrun as <- <-.
  pose proof (split_finish ht d old_pid old old2 new1 d4 is_free is_free
                (conj Hd Hok) Hold) as Hfin.
  cbv zeta in Hfin. destruct Hfin as (Hdp & Hdir & Hbo & Hbn & Hkeep & Hstep).
  change (directory_page_id_ htF = directory_page_id_ ht) in Hdp.
  change (pages htF !! directory_page_id_ ht = Some (DirPage d4)) in Hdir.
  change (bucket_of (pages htF) old_pid = Some old2) in Hbo.
  change (bucket_of (pages htF) (next_page_id ht) = Some new1) in Hbn.
  change (∀ p b, p ≠ old_pid → bucket_of (pages ht) p = Some b →
                 bucket_of (pages htF) p = Some b) in Hkeep.
  match type of Hstep with stepped _ _ ?cs => change (stepped ht htF cs) in Hstep end.
  clearbody htF.
  exists d4, is_free, is_free.
  split_and!.
  - split; [by rewrite Hdp|]. split.
    + eexists. rewrite Hdp. exact Hdir.
    + rewrite Hdp. destruct Hsplit as (_ & -> & _). apply Hok.
    + exact (split_in_place_dir_inv d d4 index (next_page_id ht) Hinv Hindex Hlt Hfresh Hsplit).
    + eapply (buckets_ok_split d d4 index (next_page_id ht) (pages ht)); try done.
      * apply Hok.
      * intros i b Hi Hne Hb. by apply Hkeep.
    + apply Hstep.
  - exact Hdp.
  - exact Hstep.
  - destruct ret.
    + exists old2. split; [|done]. unfold KeyToPageId. by rewrite Hk4, Hp4.
    + by rewrite Hk4.
Qed.

Lemma follows_refl ht : pool_ok ht → follows ht ht.
Proof.
  intros Hok. split; [done|]. exists []. split; [by apply stepped_refl|apply balanced_nil].
Qed.

Lemma follows_trans ht1 ht2 ht3 : follows ht1 ht2 → follows ht2 ht3 → follows ht1 ht3.
Proof.
  intros [Hd1 (cs1 & Hs1 & Hb1)] [Hd2 (cs2 & Hs2 & Hb2)]. split; [congruence|].
  exists (cs1 ++ cs2). split; [by eapply stepped_trans|by apply balanced_app].
Qed.

Lemma follows_pins_balanced ht ht' : follows ht ht' → pins_balanced ht ht'.
Proof. intros [_ (cs & Hs & Hb)]. by eapply stepped_balanced. Qed.

(** The state in which [SplitInsert], [Insert] and [Remove] look at the
    bucket: the directory page and the bucket page fetched. *)
Lemma Inv_fetched ht d p b :
  Inv ht d → bucket_of (pages ht) p = Some b →
  let ht2 := fetched (fetched ht (directory_page_id_ ht)) p in
  Inv ht2 d ∧ stepped ht ht2 [CallFetchPage (directory_page_id_ ht); CallFetchPage p].
Proof.
  intros Hinv Hb ht2.
  assert (stepped ht ht2 [CallFetchPage (directory_page_id_ ht); CallFetchPage p]) as Hs.
  { apply (stepped_fetched ht _ [_]); [|simpl; by eapply bucket_of_is_Some].
    apply (stepped_fetched ht _ []); [|destruct Hinv as [-> _]; done].
    apply stepped_refl, Hinv. }
  split; [|done]. eapply Inv_same_table; [done|done|apply Hs].
Qed.

(** A bucket page fetched with the directory page, rewritten in place, and
    both unpinned. *)
Lemma write_bucket_finish ht d k b' f1 f2 :
  Inv ht d →
  placed b' (D.GetLocalDepth d (KeyToDirectoryIndex k d)) (KeyToDirectoryIndex k d) →
  let ht2 := fetched (fetched ht (directory_page_id_ ht)) (KeyToPageId k d) in
  let htF := (UnpinPage (UnpinPage (write_page ht2 (KeyToPageId k d) (BucketPage b'))
                                   (directory_page_id_ ht) f1).2
                        (KeyToPageId k d) f2).2 in
  Inv htF d ∧ follows ht htF ∧
  bucket_of (pages htF) (KeyToPageId k d) = Some b' ∧
  (∀ p b, p ≠ KeyToPageId k d → bucket_of (pages ht) p = Some b →
          bucket_of (pages htF) p = Some b) ∧
  next_page_id htF = next_page_id ht.
Proof.
  intros Hinv Hpl ht2 htF.
  destruct (Inv_bucket ht d k Hinv) as (old & Hold & Hpo & Hne).
  destruct (Inv_fetched ht d _ old Hinv Hold) as [Hinv2 Hs2]. fold ht2 in Hinv2, Hs2.
  pose proof Hinv as [Hd Hok]. pose proof (ok_dir _ _ Hok) as Hdir.
  assert (live d (KeyToDirectoryIndex k d)) as Hlive.
  { apply KeyToDirectoryIndex_live. apply Hdir. }
  assert (pages htF = <[KeyToPageId k d := BucketPage b']> (pages ht)) as Hpages.
  { unfold htF. by rewrite !pages_UnpinPage. }
  assert (directory_page_id_ htF = directory_page_id_ ht) as Hdp.
  { unfold htF. by rewrite !directory_page_id_UnpinPage. }
  assert (stepped ht htF
            [CallFetchPage (directory_page_id_ ht); CallFetchPage (KeyToPageId k d);
             CallUnpinPage (directory_page_id_ ht) f1;
             CallUnpinPage (KeyToPageId k d) f2]) as Hs.
  { unfold htF.
    apply (stepped_UnpinPage ht _ [_; _; _]).
    2:{ rewrite pages_UnpinPage. simpl. by rewrite lookup_insert_eq. }
    apply (stepped_UnpinPage ht _ [_; _]).
    2:{ simpl. rewrite lookup_insert_ne by done. by rewrite Hd. }
    apply stepped_write_page; [done|]. simpl. by eapply bucket_of_is_Some. }
  split_and!.
  - split.
    + rewrite Hdp, Hpages. rewrite lookup_insert_ne by done. exact Hd.
    + split.
      * exists d. rewrite Hdp, Hpages. rewrite lookup_insert_ne by done. exact Hd.
      * rewrite Hdp. apply Hok.
      * done.
      * rewrite Hpages. apply (buckets_ok_write_bucket d (pages ht)); [done..|apply Hok|done].
      * apply Hs.
  - split; [done|]. eexists. split; [exact Hs|count_calls].
  - rewrite Hpages. apply bucket_of_insert.
  - intros p b Hp Hb. rewrite Hpages. by apply bucket_of_write.
  - unfold htF. by rewrite !next_page_id_UnpinPage.
Qed.

Lemma SplitInsert_body_spec ht d k v a ht' :
  Inv ht d → SplitInsert_body ht k v = Ret (a, ht') →
  ∃ d', Inv ht' d' ∧ follows ht ht' ∧
    match a with
    | Return true => stored ht' d' k v
    | Return false => same_table ht ht'
    | Recurse =>
        D.GetLocalDepth d' (KeyToDirectoryIndex k d')
        = D.GetLocalDepth d (KeyToDirectoryIndex k d) + 1
    end.
Proof.
  intros Hinv Hrun.
  destruct (Inv_bucket ht d k Hinv) as (old & Hold & Hpo & Hne).
  destruct (Inv_fetched ht d _ old Hinv Hold) as [Hinv2 Hs2].
  pose proof Hinv as [Hd Hok].
  unfold SplitInsert_body in Hrun.
  rewrite (FetchDirectoryPage_ok _ _ Hd), bind_Ret_l in Hrun. cbv beta iota zeta in Hrun.
  change (D.GetBucketPageId d (KeyToDirectoryIndex k d)) with (KeyToPageId k d) in Hrun.
  rewrite (FetchBucketPage_ok _ _ old) in Hrun by done.
  rewrite bind_Ret_l in Hrun. cbv beta iota zeta in Hrun.
  set (ht2 := fetched (fetched ht (directory_page_id_ ht)) (KeyToPageId k d)) in *.
  pose proof (SplitInsert_scan_spec old k v) as [Hdup Hnodup].
  destruct (SplitInsert_scan old k v _ _) as [is_duplicate free_pos].
  simpl in Hdup, Hnodup.
  assert (same_table ht ht2) as Hsame2 by done.
  assert (directory_page_id_ ht2 = directory_page_id_ ht) as Hdp2 by done.
  assert (is_Some (pages ht2 !! directory_page_id_ ht)) as Hsd.
  { change (pages ht2) with (pages ht). by rewrite Hd. }
  assert (is_Some (pages ht2 !! KeyToPageId k d)) as Hsb.
  { change (pages ht2) with (pages ht). by eapply bucket_of_is_Some. }
  destruct is_duplicate.
  - (* a duplicate: nothing is written *)
    injection Hrun as <- <-.
    assert (stepped ht (UnpinPage (UnpinPage ht2 (directory_page_id_ ht) false).2
                                  (KeyToPageId k d) false).2
              [CallFetchPage (directory_page_id_ ht); CallFetchPage (KeyToPageId k d);
               CallUnpinPage (directory_page_id_ ht) false;
               CallUnpinPage (KeyToPageId k d) false]) as Hs.
    { apply (stepped_UnpinPage ht _ [_; _; _]); [|by rewrite pages_UnpinPage].
      by apply (stepped_UnpinPage ht _ [_; _]). }
    assert (same_table ht (UnpinPage (UnpinPage ht2 (directory_page_id_ ht) false).2
                                     (KeyToPageId k d) false).2) as Hsame.
    { by do 2 apply same_table_UnpinPage. }
    exists d. split_and!; [|split|done].
    + eapply Inv_same_table; [done|done|apply Hs].
    + apply Hsame.
    + eexists. split; [exact Hs|count_calls].
  - destruct (Hnodup eq_refl) as (Hno & Hfull & Hfree). clear Hdup Hnodup.
    destruct (Nat.eqb_spec free_pos B.BUCKET_ARRAY_SIZE) as [Hfp|Hfp]; simpl in Hrun.
    + (* the bucket is full: split *)
      assert (∀ j, (j < B.BUCKET_ARRAY_SIZE)%nat → B.IsReadable old j = true) as Hall.
      { intros j Hj. by apply Hfull. }
      assert (∃ d' f1 f2,
                Inv ht' d' ∧ directory_page_id_ ht' = directory_page_id_ ht2 ∧
                stepped ht2 ht' [CallNewPage (next_page_id ht2);
                                 CallUnpinPage (KeyToPageId k d) f1;
                                 CallUnpinPage (next_page_id ht2) f2;
                                 CallUnpinPage (directory_page_id_ ht2) true] ∧
                match a with
                | Return true => stored ht' d' k v
                | Return false => False
                | Recurse =>
                    D.GetLocalDepth d' (KeyToDirectoryIndex k d')
                    = D.GetLocalDepth d (KeyToDirectoryIndex k d) + 1
                end) as (d' & f1 & f2 & Hinv' & Hdp' & Hs' & Ha).
      { destruct (Z.eqb_spec (D.GetLocalDepth d (KeyToDirectoryIndex k d))
                             (D.GetGlobalDepth d)) as [Hld|Hld].
        - by eapply (SplitInsert_grow_spec ht2 d old k v a ht').
        - by eapply (SplitInsert_local_spec ht2 d old k v a ht'). }
      exists d'. split_and!; [done|split; [congruence|]|].
      * eexists. split; [by eapply stepped_trans|]. rewrite Hdp2. count_calls.
      * by destruct a as [[|]|].
    + (* a free slot: insert there *)
      destruct (Hfree Hfp) as [Hlt Hslot].
      assert (B.IsReadable old free_pos = false) as Hnr.
      { destruct Hslot as [Ho|Hr]; [|done].
        destruct (B.IsReadable old free_pos) eqn:Hr; [|done].
        destruct Hpo as (_ & Hbk & _). by rewrite (Hbk _ Hlt Hr) in Ho. }
      pose proof (Insert_succeeds old k v free_pos Hlt Hnr Hno) as Hfst.
      destruct (B.Insert old k v) as [test old'] eqn:Hi. simpl in Hfst, Hrun. subst test.
      injection Hrun as <- <-.
      assert (placed old' (D.GetLocalDepth d (KeyToDirectoryIndex k d))
                     (KeyToDirectoryIndex k d)) as Hpo'.
      { replace old' with (B.Insert old k v).2 by (by rewrite Hi).
        apply placed_Insert; [done|].
        apply cong_sym. eapply cong_mono; [|apply KeyToDirectoryIndex_cong; apply Hok].
        apply (dir_local _ (ok_dir _ _ Hok)), KeyToDirectoryIndex_live, Hok. }
      destruct (write_bucket_finish ht d k old' false true Hinv Hpo')
        as (HinvF & HfolF & HbF & _ & _).
      exists d. split_and!; [done..|].
      exists old'. split; [done|]. eapply Insert_stored_once; [apply Hpo|done].
Qed.

Lemma SplitInsert_rec_spec fuel ht d k v r ht' :
  Inv ht d → SplitInsert_rec fuel ht k v = Ret (r, ht') →
  ∃ d', Inv ht' d' ∧ follows ht ht' ∧ (r = true → stored ht' d' k v).
Proof.
  revert ht d. induction fuel as [|fuel IH]; intros ht d Hinv; simpl; [done|].
  intros ([a ht1] & Hbody & Hrest)%bind_Ret.
  destruct (SplitInsert_body_spec ht d k v a ht1 Hinv Hbody) as (d1 & Hinv1 & Hfol1 & Ha).
  destruct a as [ret|].
  - injection Hrest as <- <-. exists d1. split_and!; [done..|]. by intros ->.
  - destruct (IH ht1 d1 Hinv1 Hrest) as (d' & Hinv' & Hfol' & Hr).
    exists d'. split_and!; [done| |done]. by eapply follows_trans.
Qed.

Lemma Insert_spec ht d k v r ht' :
  Inv ht d → Insert ht k v = Ret (r, ht') →
  ∃ d', Inv ht' d' ∧ follows ht ht' ∧ (r = true → stored ht' d' k v).
Proof.
  intros Hinv Hrun.
  destruct (Inv_bucket ht d k Hinv) as (b & Hb & Hpl & Hne).
  pose proof Hinv as [Hd Hok].
  unfold Insert in Hrun.
  rewrite (FetchDirectoryPage_ok _ _ Hd), bind_Ret_l in Hrun. cbv beta iota zeta in Hrun.
  rewrite (FetchBucketPage_ok _ _ b) in Hrun by done.
  rewrite bind_Ret_l in Hrun. cbv beta iota zeta in Hrun.
  rewrite (ok_page_id _ _ Hok) in Hrun.
  destruct (B.Insert b k v) as [flag b'] eqn:Hi.
  assert (placed b' (D.GetLocalDepth d (KeyToDirectoryIndex k d))
                 (KeyToDirectoryIndex k d)) as Hpl'.
  { replace b' with (B.Insert b k v).2 by (by rewrite Hi).
    apply placed_Insert; [done|].
    apply cong_sym. eapply cong_mono; [|apply KeyToDirectoryIndex_cong; apply Hok].
    apply (dir_local _ (ok_dir _ _ Hok)), KeyToDirectoryIndex_live, Hok. }
  destruct (write_bucket_finish ht d k b' false flag Hinv Hpl')
    as (HinvF & HfolF & HbF & _ & _).
  cbv zeta in HinvF, HfolF, HbF.
  destruct flag; simpl negb in Hrun; cbv iota in Hrun.
  - injection Hrun as <- <-. exists d. split_and!; [done..|]. intros _.
    exists b'. split; [done|]. eapply Insert_stored_once; [apply Hpl|done].
  - destruct (SplitInsert_rec_spec _ _ d k v r ht' HinvF Hrun) as (d' & Hinv' & Hfol' & Hr).
    exists d'. split_and!; [done| |done]. by eapply follows_trans.
Qed.

End SplitInsertFacts.

(** ** [Merge] and [Remove] *)
Section MergeFacts.
Context {T : HashTableTypes}.
Import ExtendibleHashTable.

Lemma pages_DeletePage_Some ht p q pg :
  pages (DeletePage ht p).2 !! q = Some pg → pages ht !! q = Some pg.
Proof.
  unfold DeletePage. destruct (pages ht !! p) eqn:Hp; [|done].
  case_bool_decide; [done|]. simpl. by intros [_ ?]%lookup_delete_Some.
Qed.

Lemma bucket_of_DeletePage ht p q b :
  bucket_of (pages (DeletePage ht p).2) q = Some b → bucket_of (pages ht) q = Some b.
Proof.
  unfold bucket_of. destruct (pages (DeletePage ht p).2 !! q) as [pg|] eqn:Hq; [|done].
  by rewrite (pages_DeletePage_Some _ _ _ _ Hq).
Qed.

Lemma bucket_of_DeletePage_ne ht p q :
  q ≠ p → bucket_of (pages (DeletePage ht p).2) q = bucket_of (pages ht) q.
Proof. intros Hne. unfold bucket_of. by rewrite pages_DeletePage. Qed.

(** One iteration of the loop of [Merge] that merges: the directory, the
    slot and the pool it goes on with. *)
Lemma Merge_loop_merges fuel ht d bucket_index is_dirty b :
  bucket_of (pages ht) (D.GetBucketPageId d bucket_index) = Some b →
  let bpid := D.GetBucketPageId d bucket_index in
  let merge_index := D.GetSplitImageIndex d bucket_index in
  let mpid := D.GetBucketPageId d merge_index in
  let d2 := merge_rewrite d bpid mpid in
  let ht2 := (UnpinPage (fetched ht bpid) bpid false).2 in
  let ht3 := (DeletePage ht2 bpid).2 in
  Merge_loop (S fuel) ht d bucket_index is_dirty =
  if (0 <? D.GetLocalDepth d bucket_index) && B.IsEmpty b
     && (D.GetLocalDepth d bucket_index =? D.GetLocalDepth d merge_index)
  then
    Merge_loop fuel ht3
      (if D.CanShrink d2 then D.DecrGlobalDepth d2 else d2)
      (if D.CanShrink d2
       then Z.land merge_index (D.GetGlobalDepthMask (D.DecrGlobalDepth d2))
       else merge_index) true
  else Ret (d, is_dirty, ht2).
Proof.
  intros Hb bpid merge_index mpid d2 ht2 ht3. simpl.
  rewrite (FetchBucketPage_ok _ _ b) by done. rewrite bind_Ret_l. cbv beta iota zeta.
  fold bpid merge_index mpid.
  destruct ((0 <? D.GetLocalDepth d bucket_index) && B.IsEmpty b
            && (D.GetLocalDepth d bucket_index =? D.GetLocalDepth d merge_index));
    [|done].
  fold d2. by destruct (D.CanShrink d2).
Qed.

Lemma Merge_iteration ht d bucket_index :
  table_ok ht d → live d bucket_index →
  let L := D.GetLocalDepth d bucket_index in
  let bpid := D.GetBucketPageId d bucket_index in
  let merge_index := D.GetSplitImageIndex d bucket_index in
  let mpid := D.GetBucketPageId d merge_index in
  let d2 := merge_rewrite d bpid mpid in
  let ht2 := (UnpinPage (fetched ht bpid) bpid false).2 in
  let ht3 := (DeletePage ht2 bpid).2 in
  let d3 := if D.CanShrink d2 then D.DecrGlobalDepth d2 else d2 in
  let next_index :=
    if D.CanShrink d2
    then Z.land merge_index (D.GetGlobalDepthMask (D.DecrGlobalDepth d2))
    else merge_index in
  (stepped ht ht2 [CallFetchPage bpid; CallUnpinPage bpid false] ∧ same_table ht ht2) ∧
  (0 < L → L = D.GetLocalDepth d merge_index →
   table_ok ht3 d3 ∧ live d3 next_index ∧ D.GetLocalDepth d3 next_index = L - 1 ∧
   directory_page_id_ ht3 = directory_page_id_ ht ∧
   stepped ht ht3 [CallFetchPage bpid; CallUnpinPage bpid false; CallDeletePage bpid] ∧
   ∀ i b, live d3 i → bucket_of (pages ht3) (D.GetBucketPageId d3 i) = Some b →
          ∃ i0, live d i0 ∧ bucket_of (pages ht) (D.GetBucketPageId d i0) = Some b).
Proof.
  intros Hok Hbi L bpid merge_index mpid d2 ht2 ht3 d3 next_index.
  pose proof (ok_dir _ _ Hok) as Hdir.
  destruct (ok_buckets _ _ Hok bucket_index Hbi) as (b & Hb & Hpl). fold bpid in Hb.
  assert (stepped ht ht2 [CallFetchPage bpid; CallUnpinPage bpid false]) as Hs2.
  { apply (stepped_UnpinPage ht _ [_]); [|simpl; by eapply bucket_of_is_Some].
    apply (stepped_fetched ht _ []); [|by eapply bucket_of_is_Some].
    apply stepped_refl, Hok. }
  assert (pages ht2 = pages ht) as Hpages2 by (unfold ht2; by rewrite pages_UnpinPage).
  assert (directory_page_id_ ht2 = directory_page_id_ ht) as Hdp2.
  { unfold ht2. by rewrite directory_page_id_UnpinPage. }
  split.
  { split; [done|]. split_and!; [done..|]. unfold ht2. by rewrite next_page_id_UnpinPage. }
  intros HL Hlm.
  destruct (merged_spec d bucket_index Hdir Hbi HL Hlm) as [Hmi Hmerged].
  fold merge_index bpid mpid d2 in Hmi, Hmerged.
  destruct (merged_dir_inv d d2 bucket_index Hdir Hbi HL Hlm Hmerged) as [Hdir2 Hclass].
  assert (∀ i, live d2 i ↔ live d i) as Hlive2.
  { intros i. unfold live, D.Size. fold (D.GetGlobalDepth d2) (D.GetGlobalDepth d).
    destruct Hmerged as (-> & _). done. }
  assert (stepped ht ht3 [CallFetchPage bpid; CallUnpinPage bpid false;
                          CallDeletePage bpid]) as Hs3.
  { by apply (stepped_DeletePage ht _ [_; _]). }
  assert (directory_page_id_ ht3 = directory_page_id_ ht) as Hdp3.
  { unfold ht3. destruct (fields_DeletePage ht2 bpid) as [-> _]. done. }
  assert (bpid ≠ directory_page_id_ ht) as Hbd.
  { destruct (ok_dir_page _ _ Hok) as [d0 Hd0]. by eapply bucket_not_dir. }
  assert (table_ok ht3 d2) as Hok3.
  { split.
    - destruct (ok_dir_page _ _ Hok) as [d0 Hd0]. exists d0.
      rewrite Hdp3. unfold ht3. rewrite pages_DeletePage by done. by rewrite Hpages2.
    - rewrite Hdp3. destruct Hmerged as (_ & -> & _). apply Hok.
    - done.
    - eapply (buckets_ok_merged d d2 bucket_index (pages ht)); try done; [apply Hok|].
      intros i b0 Hi Hne Hb0. unfold ht3.
      rewrite bucket_of_DeletePage_ne by done. by rewrite Hpages2.
    - apply Hs3. }
  assert (D.GetLocalDepth d2 merge_index = L - 1) as Hl2.
  { destruct Hmerged as (_ & _ & Hm). specialize (Hm merge_index Hmi).
    rewrite decide_True in Hm by (by right). destruct Hm as [-> _]. fold L. lia. }
  assert (∀ i b0, live d2 i → bucket_of (pages ht3) (D.GetBucketPageId d2 i) = Some b0 →
            ∃ i0, live d i0 ∧ bucket_of (pages ht) (D.GetBucketPageId d i0) = Some b0)
    as Hfrom.
  { intros i b0 Hi%Hlive2 Hb0. apply bucket_of_DeletePage in Hb0. rewrite Hpages2 in Hb0.
    destruct Hmerged as (_ & _ & Hm). specialize (Hm i Hi).
    destruct (decide (_ ∨ _)); destruct Hm as [_ Hp]; rewrite Hp in Hb0.
    - by exists merge_index.
    - by exists i. }
  unfold d3, next_index. destruct (D.CanShrink d2) eqn:Hcan.
  - assert (table_ok ht3 (D.DecrGlobalDepth d2)) as Hok4.
    { split; [apply Hok3|apply Hok3|by apply shrink_dir_inv| |apply Hok3].
      apply buckets_ok_shrink; [done..|apply Hok3]. }
    pose proof (ok_dir _ _ Hok4) as Hdir4.
    assert (0 ≤ D.GetGlobalDepth d2) as Hg2 by apply Hdir2.
    assert (0 ≤ D.GetGlobalDepth (D.DecrGlobalDepth d2)) as Hg4 by apply Hdir4.
    assert (∀ i, live (D.DecrGlobalDepth d2) i → live d2 i) as Hlive4.
    { intros i. rewrite (live_iff _ _ Hg4), (live_iff _ _ Hg2).
      change (D.GetGlobalDepth (D.DecrGlobalDepth d2)) with (D.GetGlobalDepth d2 - 1) in *.
      intros Hi. split; [lia|].
      assert (2 ^ (D.GetGlobalDepth d2 - 1) ≤ 2 ^ D.GetGlobalDepth d2); [|lia].
      apply Z.pow_le_mono_r; lia. }
    set (g4 := D.GetGlobalDepth (D.DecrGlobalDepth d2)) in *.
    set (ni := Z.land merge_index (D.GetGlobalDepthMask (D.DecrGlobalDepth d2))).
    assert (ni = Z.land merge_index (Z.ones g4)) as Hni.
    { unfold ni, D.GetGlobalDepthMask. fold (D.GetGlobalDepth (D.DecrGlobalDepth d2)).
      fold g4. by rewrite mask_ones. }
    assert (live (D.DecrGlobalDepth d2) ni) as Hlni.
    { apply live_iff; [done|]. fold g4. rewrite Hni. by apply land_ones_range. }
    split_and!; [done|done| |done|done|].
    + change (D.GetLocalDepth (D.DecrGlobalDepth d2) ni) with (D.GetLocalDepth d2 ni).
      rewrite <- Hl2. symmetry. apply (dir_depth _ Hdir2); [by apply Hlive2|by apply Hlive4|].
      apply (dir_alias _ Hdir2); [by apply Hlive2|by apply Hlive4|].
      apply cong_sym. rewrite Hni. eapply cong_mono; [|by apply cong_land_ones].
      rewrite CanShrink_true in Hcan. apply Hlive2 in Hmi. specialize (Hcan _ Hmi).
      change g4 with (D.GetGlobalDepth d2 - 1). lia.
    + intros i b0 Hi%Hlive4 Hb0. by apply (Hfrom i).
  - split_and!; [done|by apply Hlive2|done..].
Qed.

(** The loop of [Merge] keeps the invariant of the table, for the directory
    it carries, and whatever holds of every bucket of the directory. *)
Lemma Merge_loop_spec (P : B.t → Prop) fuel ht d bucket_index is_dirty d' dirty' ht' :
  table_ok ht d → live d bucket_index →
  (∀ i b, live d i → bucket_of (pages ht) (D.GetBucketPageId d i) = Some b → P b) →
  Merge_loop fuel ht d bucket_index is_dirty = Ret (d', dirty', ht') →
  table_ok ht' d' ∧ follows ht ht' ∧
  (∀ i b, live d' i → bucket_of (pages ht') (D.GetBucketPageId d' i) = Some b → P b).
Proof.
  revert ht d bucket_index is_dirty.
  induction fuel as [|fuel IH]; intros ht d bucket_index is_dirty Hok Hbi HP; [done|].
  destruct (ok_buckets _ _ Hok bucket_index Hbi) as (b & Hb & Hpl).
  rewrite (Merge_loop_merges fuel ht d bucket_index is_dirty b Hb). cbv zeta.
  destruct (Merge_iteration ht d bucket_index Hok Hbi) as [[Hs2 Hsame2] Hnext].
  cbv zeta in Hs2, Hsame2, Hnext.
  destruct ((0 <? D.GetLocalDepth d bucket_index) && B.IsEmpty b
            && (D.GetLocalDepth d bucket_index
                =? D.GetLocalDepth d (D.GetSplitImageIndex d bucket_index))) eqn:Hshrink.
  - apply andb_true_iff in Hshrink as [[HL%Z.ltb_lt _]%andb_true_iff Hlm%Z.eqb_eq].
    destruct (Hnext HL Hlm) as (Hok3 & Hlive3 & _ & Hdp3 & Hs3 & Hfrom).
    intros Hrest.
    destruct (IH _ _ _ true Hok3 Hlive3) as (Hok' & Hfol' & HP'); [|exact Hrest|].
    { intros i b0 Hi Hb0. destruct (Hfrom i b0 Hi Hb0) as (i0 & Hi0 & Hb00).
      by apply (HP i0). }
    split_and!; [done| |done].
    eapply follows_trans; [|done]. split; [done|]. eexists. split; [done|count_calls].
  - intros [= <- <- <-].
    destruct Hsame2 as (Hdp2 & Hpages2 & _).
    split_and!.
    + split; [| |apply Hok| |apply Hs2].
      * rewrite Hdp2, Hpages2. apply Hok.
      * rewrite Hdp2. apply Hok.
      * rewrite Hpages2. apply Hok.
    + split; [done|]. eexists. split; [done|count_calls].
    + intros i b0 Hi Hb0. rewrite Hpages2 in Hb0. by apply (HP i).
Qed.

(** The loop of [Merge] stops: every further iteration looks at a slot whose
    local depth is one less. *)
Lemma Merge_fuel fuel ht d bucket_index is_dirty :
  table_ok ht d → live d bucket_index →
  D.GetLocalDepth d bucket_index < Z.of_nat fuel →
  ∃ r, Merge_loop fuel ht d bucket_index is_dirty = Ret r.
Proof.
  revert ht d bucket_index is_dirty.
  induction fuel as [|fuel IH]; intros ht d bucket_index is_dirty Hok Hbi Hlt.
  { pose proof (dir_local _ (ok_dir _ _ Hok) _ Hbi). lia. }
  destruct (ok_buckets _ _ Hok bucket_index Hbi) as (b & Hb & Hpl).
  rewrite (Merge_loop_merges fuel ht d bucket_index is_dirty b Hb). cbv zeta.
  destruct (Merge_iteration ht d bucket_index Hok Hbi) as [_ Hnext].
  cbv zeta in Hnext.
  destruct ((0 <? D.GetLocalDepth d bucket_index) && B.IsEmpty b
            && (D.GetLocalDepth d bucket_index
                =? D.GetLocalDepth d (D.GetSplitImageIndex d bucket_index))) eqn:Hshrink;
    [|by eexists].
  apply andb_true_iff in Hshrink as [[HL%Z.ltb_lt _]%andb_true_iff Hlm%Z.eqb_eq].
  destruct (Hnext HL Hlm) as (Hok3 & Hlive3 & Hl3 & _).
  apply IH; [done..|]. lia.
Qed.

Lemma Merge_spec (P : B.t → Prop) ht d k v ht' :
  Inv ht d →
  (∀ i b, live d i → bucket_of (pages ht) (D.GetBucketPageId d i) = Some b → P b) →
  Merge ht k v = Ret ht' →
  ∃ d', Inv ht' d' ∧ follows ht ht' ∧
        (∀ i b, live d' i → bucket_of (pages ht') (D.GetBucketPageId d' i) = Some b → P b).
Proof.
  intros [Hd Hok] HP Hrun. unfold Merge in Hrun.
  rewrite (FetchDirectoryPage_ok _ _ Hd), bind_Ret_l in Hrun. cbv beta iota zeta in Hrun.
  set (ht1 := fetched ht (directory_page_id_ ht)) in *.
  assert (stepped ht ht1 [CallFetchPage (directory_page_id_ ht)]) as Hs1.
  { apply (stepped_fetched ht _ []); [|by rewrite Hd]. apply stepped_refl, Hok. }
  assert (table_ok ht1 d) as Hok1.
  { split; [apply Hok..|apply Hs1]. }
  apply bind_Ret in Hrun as ([[d' dirty] ht2] & Hloop & Hrun).
  cbv beta iota zeta in Hrun. injection Hrun as <-.
  destruct (Merge_loop_spec P Merge_bound ht1 d (KeyToDirectoryIndex k d) false
              d' dirty ht2 Hok1) as (Hok2 & [Hdp2 (cs & Hs2 & Hb2)] & HP2);
    [apply KeyToDirectoryIndex_live, Hok|done|exact Hloop|].
  change (directory_page_id_ ht1) with (directory_page_id_ ht) in Hdp2.
  destruct (ok_dir_page _ _ Hok2) as [d0 Hd0].
  rewrite (ok_page_id _ _ Hok2).
  set (htw := write_page ht2 (directory_page_id_ ht2) (DirPage d')).
  assert (stepped ht1 htw cs) as Hsw.
  { apply stepped_write_page; [done|]. by rewrite Hd0. }
  assert (stepped ht1 (UnpinPage htw (directory_page_id_ ht2) dirty).2
            (cs ++ [CallUnpinPage (directory_page_id_ ht2) dirty])) as HsF.
  { apply stepped_UnpinPage; [done|]. simpl. by rewrite lookup_insert_eq. }
  exists d'. split_and!.
  - unfold Inv. rewrite directory_page_id_UnpinPage, pages_UnpinPage. simpl.
    split; [by rewrite lookup_insert_eq|]. split.
    + exists d'. rewrite directory_page_id_UnpinPage, pages_UnpinPage. simpl.
      by rewrite lookup_insert_eq.
    + rewrite directory_page_id_UnpinPage. apply Hok2.
    + apply Hok2.
    + rewrite pages_UnpinPage. simpl. eapply buckets_ok_write_dir; [done|apply Hok2].
    + apply HsF.
  - split.
    + rewrite directory_page_id_UnpinPage. simpl. done.
    + exists ([CallFetchPage (directory_page_id_ ht)]
              ++ cs ++ [CallUnpinPage (directory_page_id_ ht2) dirty]).
      split; [by eapply stepped_trans|]. rewrite Hdp2. by apply balanced_bracket.
  - intros i b Hi Hb. rewrite pages_UnpinPage in Hb. simpl in Hb.
    apply (HP2 i b Hi). rewrite bucket_of_insert_ne in Hb; [done|].
    intros Heq. unfold bucket_of in Hb. rewrite <- Heq, lookup_insert_eq in Hb. done.
Qed.

Lemma placed_Remove b L i k v : placed b L i → placed (B.Remove b k v).2 L i.
Proof.
  intros (Hwf & Hbk & Hpl).
  destruct (Remove_spec b k v Hwf) as (Hwf' & Hocc & Harr & Hrd & _).
  split_and!; [done|..].
  - intros j Hj Hr. rewrite Hrd in Hr by done. apply andb_true_iff in Hr as [Hr _].
    unfold B.IsOccupied. rewrite Hocc. by apply Hbk.
  - intros j Hj Hr. rewrite Hrd in Hr by done. apply andb_true_iff in Hr as [Hr _].
    unfold B.KeyAt. rewrite Harr. by apply Hpl.
Qed.

Lemma without_Remove b k v : B.wf b → without (B.Remove b k v).2 k v.
Proof.
  intros Hwf j Hj.
  destruct (Remove_spec b k v Hwf) as (_ & _ & Harr & Hrd & _).
  unfold B.entry_match at 1. rewrite Hrd by done.
  unfold B.KeyAt, B.ValueAt. rewrite Harr.
  fold (B.KeyAt b j) (B.ValueAt b j).
  unfold B.entry_match. by destruct (B.IsReadable b j), (_ =? 0), (bool_decide _).
Qed.

Lemma Remove_table_spec (P : B.t → Prop) ht d k v r ht' :
  Inv ht d →
  (∀ i b, live d i → D.GetBucketPageId d i ≠ KeyToPageId k d →
          bucket_of (pages ht) (D.GetBucketPageId d i) = Some b → P b) →
  (∀ b, bucket_of (pages ht) (KeyToPageId k d) = Some b → P (B.Remove b k v).2) →
  Remove ht k v = Ret (r, ht') →
  ∃ d', Inv ht' d' ∧ follows ht ht' ∧
        (∀ i b, live d' i → bucket_of (pages ht') (D.GetBucketPageId d' i) = Some b → P b).
Proof.
  intros Hinv Hothers Hthis Hrun.
  destruct (Inv_bucket ht d k Hinv) as (b & Hb & Hpl & Hne).
  pose proof Hinv as [Hd Hok].
  unfold Remove in Hrun.
  rewrite (FetchDirectoryPage_ok _ _ Hd), bind_Ret_l in Hrun. cbv beta iota zeta in Hrun.
  rewrite (FetchBucketPage_ok _ _ b) in Hrun by done.
  rewrite bind_Ret_l in Hrun. cbv beta iota zeta in Hrun.
  rewrite (ok_page_id _ _ Hok) in Hrun.
  pose proof (Hthis b Hb) as HPb.
  destruct (B.Remove b k v) as [flag b'] eqn:Hr. simpl in HPb.
  assert (placed b' (D.GetLocalDepth d (KeyToDirectoryIndex k d))
                 (KeyToDirectoryIndex k d)) as Hpl'.
  { replace b' with (B.Remove b k v).2 by (by rewrite Hr). by apply placed_Remove. }
  destruct (write_bucket_finish ht d k b' false flag Hinv Hpl')
    as (HinvF & HfolF & HbF & HkeepF & _).
  cbv zeta in HinvF, HfolF, HbF, HkeepF.
  set (htF := (UnpinPage (UnpinPage (write_page _ _ _) _ _).2 _ _).2) in *.
  assert (∀ i b0, live d i →
            bucket_of (pages htF) (D.GetBucketPageId d i) = Some b0 → P b0) as HPF.
  { intros i b0 Hi Hb0.
    destruct (decide (D.GetBucketPageId d i = KeyToPageId k d)) as [Heq|Hneq].
    - rewrite Heq, HbF in Hb0. by injection Hb0 as <-.
    - destruct (ok_buckets _ _ Hok i Hi) as (b1 & Hb1 & _).
      rewrite (HkeepF _ _ Hneq Hb1) in Hb0. injection Hb0 as <-.
      by apply (Hothers i). }
  destruct flag; cbv iota in Hrun.
  - apply bind_Ret in Hrun as (ht1 & Hmerge & [= <- <-]).
    destruct (Merge_spec P htF d k v ht1 HinvF HPF Hmerge) as (d' & Hinv' & Hfol' & HP').
    exists d'. split_and!; [done| |done]. by eapply follows_trans.
  - injection Hrun as <- <-. by exists d.
Qed.

End MergeFacts.

(** ** The invariant over sequences of operations *)
Section Reachable.
Context {T : HashTableTypes}.
Import ExtendibleHashTable.

Lemma new_spec first_page_id ht :
  new first_page_id = Ret ht →
  (∃ d, Inv ht d ∧ D.GetGlobalDepth d = 0) ∧ ∀ p, pin_of ht p = 0.
Proof.
  unfold new. simpl.
  set (d := D.SetLocalDepth (D.SetBucketPageId (D.SetPageId D.zero first_page_id) 0
                               (first_page_id + 1)) 0 0).
  set (htw := write_page _ first_page_id (DirPage d)).
  assert (first_page_id ≠ first_page_id + 1) as Hne by lia.
  rewrite (UnpinPage_Some htw).
  2:{ simpl. rewrite lookup_insert_ne by done. by rewrite lookup_insert_eq. }
  rewrite UnpinPage_Some.
  2:{ simpl. by rewrite lookup_insert_eq. }
  intros [= <-]. simpl.
  assert (∀ i, live d i ↔ i = 0) as Hlive.
  { intros i. unfold live, D.Size. simpl. rewrite Z.shiftl_0_r. lia. }
  split.
  - exists d. split; [|done]. split; [simpl; by rewrite lookup_insert_eq|]. split; simpl.
    + exists d. by rewrite lookup_insert_eq.
    + done.
    + split.
      * done.
      * intros i ->%Hlive. done.
      * intros i j ->%Hlive ->%Hlive. split; [intros _; apply cong_refl|done].
      * intros i j ->%Hlive ->%Hlive. done.
    + intros i ->%Hlive. exists B.zero. split; [|apply placed_zero].
      unfold bucket_of. change (D.GetBucketPageId d 0) with (first_page_id + 1).
      rewrite lookup_insert_ne by done. by rewrite lookup_insert_eq.
    + split; simpl.
      * intros p [pg Hp]. apply lookup_insert_Some in Hp as [[<- _]|[_ Hp]]; [lia|].
        apply lookup_insert_Some in Hp as [[<- _]|[_ Hp]]; [lia|].
        apply lookup_insert_Some in Hp as [[<- _]|[_ Hp]]; [lia|done].
      * intros p [x Hp]. apply lookup_insert_Some in Hp as [[<- _]|[_ Hp]].
        { by rewrite lookup_insert_eq. }
        apply lookup_insert_Some in Hp as [[<- _]|[_ Hp]].
        { rewrite lookup_insert_ne by done. by rewrite lookup_insert_eq. }
        apply lookup_insert_Some in Hp as [[<- _]|[_ Hp]].
        { rewrite lookup_insert_ne by done. by rewrite lookup_insert_eq. }
        apply lookup_insert_Some in Hp as [[<- _]|[_ Hp]]; [|done].
        by rewrite lookup_insert_eq.
  - intros p. unfold pin_of, unpinned, htw. simpl. unfold pin_of. simpl.
    assert (first_page_id + 1 ≠ first_page_id) as Hne' by lia.
    destruct (decide (p = first_page_id)) as [->|Hp1].
    { rewrite lookup_insert_eq. simpl. rewrite lookup_insert_ne by done.
      rewrite lookup_insert_ne by done. by rewrite lookup_insert_eq. }
    rewrite lookup_insert_ne by done.
    destruct (decide (p = first_page_id + 1)) as [->|Hp2].
    { rewrite lookup_insert_eq. simpl. by rewrite lookup_insert_eq. }
    by rewrite !lookup_insert_ne by done.
Qed.

Lemma GetValue_Inv ht d k result r ht' :
  Inv ht d → GetValue ht k result = Ret (r, ht') →
  Inv ht' d ∧ follows ht ht' ∧ same_table ht ht'.
Proof.
  intros Hinv Hrun.
  destruct (GetValue_spec ht d k result Hinv) as (b & ht1 & _ & Heq & Hsame & cs & Hs & Hb).
  rewrite Heq in Hrun. injection Hrun as _ <-.
  split_and!; [|split; [apply Hsame|by exists cs]|done].
  eapply Inv_same_table; [done..|apply Hs].
Qed.

(** [GetGlobalDepth] and [VerifyIntegrity]: the directory page is fetched,
    read and unpinned. *)
Lemma read_directory ht d :
  Inv ht d →
  let ht1 := fetched ht (directory_page_id_ ht) in
  UnpinPage ht1 (directory_page_id_ ht1) false
    = (true, unpinned ht1 (directory_page_id_ ht) false) ∧
  Inv (unpinned ht1 (directory_page_id_ ht) false) d ∧
  follows ht (unpinned ht1 (directory_page_id_ ht) false) ∧
  same_table ht (unpinned ht1 (directory_page_id_ ht) false).
Proof.
  intros Hinv ht1. pose proof Hinv as [Hd Hok].
  assert (stepped ht (unpinned ht1 (directory_page_id_ ht) false)
            [CallFetchPage (directory_page_id_ ht);
             CallUnpinPage (directory_page_id_ ht) false]) as Hs.
  { apply (stepped_unpinned ht _ [_]); [|simpl; by rewrite Hd].
    apply (stepped_fetched ht _ []); [|by rewrite Hd]. apply stepped_refl, Hok. }
  split_and!.
  - apply UnpinPage_Some. simpl. by rewrite Hd.
  - eapply Inv_same_table; [done|done|apply Hs].
  - split; [done|]. eexists. split; [exact Hs|count_calls].
  - done.
Qed.

Lemma GetGlobalDepth_spec ht d :
  Inv ht d →
  ∃ ht', GetGlobalDepth ht = Ret (D.GetGlobalDepth d, ht') ∧
         Inv ht' d ∧ follows ht ht' ∧ same_table ht ht'.
Proof.
  intros Hinv. destruct (read_directory ht d Hinv) as (Hun & Hinv' & Hfol & Hsame).
  cbv zeta in Hun. eexists. split; [|done].
  unfold GetGlobalDepth. destruct Hinv as [Hd _].
  rewrite (FetchDirectoryPage_ok _ _ Hd), bind_Ret_l. cbv beta iota zeta.
  by rewrite Hun.
Qed.

Lemma VerifyIntegrity_spec ht d :
  Inv ht d →
  ∃ ht', VerifyIntegrity ht = Ret ht' ∧ Inv ht' d ∧ follows ht ht' ∧ same_table ht ht'.
Proof.
  intros Hinv. destruct (read_directory ht d Hinv) as (Hun & Hinv' & Hfol & Hsame).
  cbv zeta in Hun. eexists. split; [|done].
  unfold VerifyIntegrity. destruct Hinv as [Hd _].
  rewrite (FetchDirectoryPage_ok _ _ Hd), bind_Ret_l. cbv beta iota zeta.
  unfold D.VerifyIntegrity. rewrite bind_Ret_l. by rewrite Hun.
Qed.

Lemma Remove_Inv ht d k v r ht' :
  Inv ht d → Remove ht k v = Ret (r, ht') → ∃ d', Inv ht' d' ∧ follows ht ht'.
Proof.
  intros Hinv Hrun.
  destruct (Remove_table_spec (λ _, True) ht d k v r ht' Hinv) as (d' & Hinv' & Hfol & _);
    [done..|]. by exists d'.
Qed.

(** Every state in a sequence of operations has the invariant, with no page
    left pinned. *)
Lemma reachable_Inv ht :
  reachable ht → (∃ d, Inv ht d) ∧ ∀ p, pin_of ht p = 0.
Proof.
  assert (∀ ht ht', follows ht ht' → (∀ p, pin_of ht p = 0) → ∀ p, pin_of ht' p = 0)
    as Hpins.
  { intros h h' (cs & _ & _ & Hp)%follows_pins_balanced H0 p. by rewrite Hp. }
  induction 1 as [fp ht Hnew|ht k res r ht' _ [[d Hinv] H0] Hrun
                  |ht k v r ht' _ [[d Hinv] H0] Hrun|ht k v r ht' _ [[d Hinv] H0] Hrun
                  |ht g ht' _ [[d Hinv] H0] Hrun|ht ht' _ [[d Hinv] H0] Hrun].
  - destruct (new_spec fp ht Hnew) as [(d & Hinv & _) H0]. split; [by exists d|done].
  - destruct (GetValue_Inv ht d k res r ht' Hinv Hrun) as (Hinv' & Hfol & _).
    split; [by exists d|by eapply Hpins].
  - destruct (Insert_spec ht d k v r ht' Hinv Hrun) as (d' & Hinv' & Hfol & _).
    split; [by exists d'|by eapply Hpins].
  - destruct (Remove_Inv ht d k v r ht' Hinv Hrun) as (d' & Hinv' & Hfol).
    split; [by exists d'|by eapply Hpins].
  - destruct (GetGlobalDepth_spec ht d Hinv) as (ht1 & Heq & Hinv' & Hfol & _).
    rewrite Heq in Hrun. injection Hrun as _ <-.
    split; [by exists d|by eapply Hpins].
  - destruct (VerifyIntegrity_spec ht d Hinv) as (ht1 & Heq & Hinv' & Hfol & _).
    rewrite Heq in Hrun. injection Hrun as <-.
    split; [by exists d|by eapply Hpins].
Qed.

End Reachable.

(** ** The bounds on the recursion of [SplitInsert] and the loop of [Merge] *)
Section Termination.
Context {T : HashTableTypes}.
Import ExtendibleHashTable.

Lemma bind_fuel {A B} (m : outcome A) (k : A → outcome B) :
  m ≠ OutOfFuel → (∀ x, m = Ret x → k x ≠ OutOfFuel) → m ≫= k ≠ OutOfFuel.
Proof. destruct m as [a| |]; simpl; [|done..]. intros _ H. by apply H. Qed.

Lemma assert_fuel c : assert c ≠ OutOfFuel.
Proof. by destruct c. Qed.

Lemma redistribute_fuel moves old new l is_free :
  redistribute moves old new l is_free ≠ OutOfFuel.
Proof.
  revert old new is_free. induction l as [|i l IH]; intros old new is_free; simpl; [done|].
  apply bind_fuel; [apply assert_fuel|]. intros _ _. destruct (moves _); apply IH.
Qed.

Lemma fan_out_fuel d l index new_index local_depth mask old_pid new_pid :
  fan_out d l index new_index local_depth mask old_pid new_pid ≠ OutOfFuel.
Proof.
  revert d. induction l as [|i l IH]; intros d; simpl; [done|].
  destruct (_ =? old_pid); [|apply IH].
  apply bind_fuel; [apply assert_fuel|]. intros _ _. apply IH.
Qed.

Lemma FetchDirectoryPage_fuel ht : FetchDirectoryPage ht ≠ OutOfFuel.
Proof.
  unfold FetchDirectoryPage, FetchPage. destruct (pages ht !! _) as [[| |]|]; done.
Qed.

Lemma FetchBucketPage_fuel ht p : FetchBucketPage ht p ≠ OutOfFuel.
Proof.
  unfold FetchBucketPage, FetchPage. destruct (pages ht !! _) as [[| |]|]; done.
Qed.

Lemma SplitInsert_grow_fuel ht d index old_pid old k v :
  SplitInsert_grow ht d index old_pid old k v ≠ OutOfFuel.
Proof.
  unfold SplitInsert_grow.
  apply bind_fuel; [unfold D.IncrGlobalDepth; apply bind_fuel; [apply assert_fuel|done]|].
  intros d1 _. apply bind_fuel; [apply assert_fuel|]. intros _ _.
  change (NewPage ht) with (next_page_id ht, (NewPage ht).2). cbv beta iota zeta.
  apply bind_fuel; [done|]. intros new0 _.
  apply bind_fuel; [apply redistribute_fuel|]. intros [[old1 new1] is_free] _.
  cbv beta iota zeta. apply bind_fuel; [|by intros [[? ?] ?] _].
  destruct (_ && is_free).
  - destruct (B.Insert old1 k v). apply bind_fuel; [apply assert_fuel|done].
  - destruct (_ =? _); [|done].
    destruct (B.Insert new1 k v). apply bind_fuel; [apply assert_fuel|done].
Qed.

Lemma SplitInsert_local_fuel ht d index old_pid old k v :
  SplitInsert_local ht d index old_pid old k v ≠ OutOfFuel.
Proof.
  unfold SplitInsert_local.
  apply bind_fuel; [apply assert_fuel|]. intros _ _.
  change (NewPage ht) with (next_page_id ht, (NewPage ht).2). cbv beta iota zeta.
  apply bind_fuel; [done|]. intros new0 _.
  apply bind_fuel; [apply assert_fuel|]. intros _ _.
  apply bind_fuel; [apply redistribute_fuel|]. intros [[old1 new1] is_free] _.
  cbv beta iota zeta. apply bind_fuel; [apply fan_out_fuel|]. intros d4 _.
  apply bind_fuel; [|by intros [? ?] _].
  destruct is_free; [|done].
  destruct (B.Insert old1 k v). apply bind_fuel; [apply assert_fuel|done].
Qed.

Lemma SplitInsert_body_fuel ht k v : SplitInsert_body ht k v ≠ OutOfFuel.
Proof.
  unfold SplitInsert_body.
  apply bind_fuel; [apply FetchDirectoryPage_fuel|]. intros [d ht1] _.
  cbv beta iota zeta. apply bind_fuel; [apply FetchBucketPage_fuel|]. intros [old ht2] _.
  cbv beta iota zeta. destruct (SplitInsert_scan _ _ _ _ _) as [[|] free_pos]; [done|].
  destruct (negb _); [done|].
  destruct (_ =? _); [apply SplitInsert_grow_fuel|apply SplitInsert_local_fuel].
Qed.

(** [SplitInsert] does not use up its fuel: an activation that ends in the
    recursive call has raised the local depth of the key's slot, which the
    global depth and [MAX_DEPTH] bound. *)
Lemma SplitInsert_fuel fuel ht d k v :
  Inv ht d →
  D.MAX_DEPTH - D.GetLocalDepth d (KeyToDirectoryIndex k d) < Z.of_nat fuel →
  SplitInsert_rec fuel ht k v ≠ OutOfFuel.
Proof.
  revert ht d. induction fuel as [|fuel IH]; intros ht d Hinv Hlt.
  { destruct Hinv as [_ Hok]. pose proof (ok_dir _ _ Hok) as Hdir.
    pose proof (dir_global _ Hdir).
    pose proof (dir_local _ Hdir (KeyToDirectoryIndex k d)
                  (KeyToDirectoryIndex_live d k (proj1 (dir_global _ Hdir)))). lia. }
  simpl. apply bind_fuel; [apply SplitInsert_body_fuel|]. intros [a ht1] Hbody.
  destruct a as [ret|]; [done|].
  destruct (SplitInsert_body_spec ht d k v Recurse ht1 Hinv Hbody) as (d1 & Hinv1 & _ & Hl).
  apply (IH ht1 d1 Hinv1). lia.
Qed.

Lemma Insert_fuel ht d k v : Inv ht d → Insert ht k v ≠ OutOfFuel.
Proof.
  intros Hinv. destruct (Insert ht k v) as [[r ht']| |] eqn:Hrun; [done..|]. exfalso.
  destruct (Inv_bucket ht d k Hinv) as (b & Hb & Hpl & Hne).
  pose proof Hinv as [Hd Hok].
  unfold Insert in Hrun.
  rewrite (FetchDirectoryPage_ok _ _ Hd), bind_Ret_l in Hrun. cbv beta iota zeta in Hrun.
  rewrite (FetchBucketPage_ok _ _ b) in Hrun by done.
  rewrite bind_Ret_l in Hrun. cbv beta iota zeta in Hrun.
  rewrite (ok_page_id _ _ Hok) in Hrun.
  destruct (B.Insert b k v) as [flag b'] eqn:Hi.
  assert (placed b' (D.GetLocalDepth d (KeyToDirectoryIndex k d))
                 (KeyToDirectoryIndex k d)) as Hpl'.
  { replace b' with (B.Insert b k v).2 by (by rewrite Hi).
    apply placed_Insert; [done|].
    apply cong_sym. eapply cong_mono; [|apply KeyToDirectoryIndex_cong; apply Hok].
    apply (dir_local _ (ok_dir _ _ Hok)), KeyToDirectoryIndex_live, Hok. }
  destruct (write_bucket_finish ht d k b' false flag Hinv Hpl') as (HinvF & _).
  cbv zeta in HinvF.
  destruct flag; simpl negb in Hrun; cbv iota in Hrun; [done|].
  revert Hrun. apply (SplitInsert_fuel _ _ d); [done|].
  pose proof (dir_local _ (ok_dir _ _ Hok) (KeyToDirectoryIndex k d)
                (KeyToDirectoryIndex_live d k (proj1 (dir_global _ (ok_dir _ _ Hok))))).
  unfold SplitInsert_depth, D.MAX_DEPTH in *. lia.
Qed.

Lemma Merge_total ht d k v : Inv ht d → ∃ ht', Merge ht k v = Ret ht'.
Proof.
  intros [Hd Hok]. pose proof (ok_dir _ _ Hok) as Hdir. unfold Merge.
  rewrite (FetchDirectoryPage_ok _ _ Hd), bind_Ret_l. cbv beta iota zeta.
  set (ht1 := fetched ht (directory_page_id_ ht)).
  assert (table_ok ht1 d) as Hok1.
  { split; [apply Hok..|]. apply pool_ok_fetched; [apply Hok|by rewrite Hd]. }
  assert (live d (KeyToDirectoryIndex k d)) as Hlive.
  { apply KeyToDirectoryIndex_live, Hdir. }
  destruct (Merge_fuel Merge_bound ht1 d (KeyToDirectoryIndex k d) false Hok1 Hlive)
    as [[[d' dirty] ht2] Hloop].
  { pose proof (dir_local _ Hdir _ Hlive). pose proof (dir_global _ Hdir).
    unfold Merge_bound, D.MAX_DEPTH in *. lia. }
  rewrite Hloop, bind_Ret_l. cbv beta iota zeta. by eexists.
Qed.

(** [Remove] returns, whatever the key and the value. *)
Lemma Remove_total ht d k v : Inv ht d → ∃ r ht', Remove ht k v = Ret (r, ht').
Proof.
  intros Hinv.
  destruct (Inv_bucket ht d k Hinv) as (b & Hb & Hpl & Hne).
  pose proof Hinv as [Hd Hok].
  unfold Remove.
  rewrite (FetchDirectoryPage_ok _ _ Hd), bind_Ret_l. cbv beta iota zeta.
  rewrite (FetchBucketPage_ok _ _ b) by done.
  rewrite bind_Ret_l. cbv beta iota zeta.
  rewrite (ok_page_id _ _ Hok).
  destruct (B.Remove b k v) as [flag b'] eqn:Hr.
  assert (placed b' (D.GetLocalDepth d (KeyToDirectoryIndex k d))
                 (KeyToDirectoryIndex k d)) as Hpl'.
  { replace b' with (B.Remove b k v).2 by (by rewrite Hr). by apply placed_Remove. }
  destruct (write_bucket_finish ht d k b' false flag Hinv Hpl') as (HinvF & _).
  cbv zeta in HinvF.
  destruct flag; cbv iota; [|by eexists _, _].
  destruct (Merge_total _ d k v HinvF) as [ht' ->]. rewrite bind_Ret_l. by eexists _, _.
Qed.

End Termination.

(** ** A table after a split and two removals *)
Section SplitTable.
Import ExtendibleHashTable.

Lemma split_table_returns : is_Ret (Scenario.after Scenario.split_ops) = true.
Proof. vm_compute. reflexivity. Qed.

Lemma split_table_reachable :
  ∃ ht, Scenario.after Scenario.split_ops = Ret ht ∧ reachable ht.
Proof.
  destruct (is_Ret_true _ split_table_returns) as [ht Hht].
  exists ht. split; [exact Hht|]. exact (after_reachable _ _ Hht).
Qed.

Lemma Key64RID_laws : HashTableLaws Key64RID.
Proof.
  split; simpl.
  - intros k. unfold IntegerComparator. by rewrite Z.ltb_irrefl.
  - intros k1 k2. unfold IntegerComparator.
    destruct (Z.ltb_spec k1 k2); [done|]. destruct (Z.ltb_spec k2 k1); [done|].
    intros _. f_equal. lia.
Qed.

End SplitTable.

(** ** The directory invariants *)
Section TableTheorems.
Context {T : HashTableTypes}.
Import ExtendibleHashTable.

Lemma Inv_directory ht d : Inv ht d → directory ht = d.
Proof. intros [Hd _]. unfold directory. by rewrite Hd. Qed.

(** C5: in every state reached by a sequence of operations on a new index,
    so after every completed [Insert] and [Remove] with the splits, directory
    doublings, merges and shrinks they made, the directory page satisfies
    D-1, D-2 and D-3; [CanShrink], the guard under which [Merge] lowers the
    global depth, holds exactly when every local depth is below the global
    depth (D-4); and a key is routed by the [global_depth] low bits of its
    hash (D-5). *)
Theorem directory_invariants_hold ht :
  reachable ht →
  let d := directory ht in
  D1 d ∧ D2 d ∧ D3 d ∧
  (D.CanShrink d = true ↔ ∀ i, live d i → D.GetLocalDepth d i < D.GetGlobalDepth d) ∧
  ∀ k, KeyToDirectoryIndex k d = Z.land (Hash k) (Z.shiftl 1 (D.GetGlobalDepth d) - 1)
       ∧ KeyToDirectoryIndex k d = Hash k mod 2 ^ D.GetGlobalDepth d.
Proof.
  intros [[d Hinv] _]%reachable_Inv. rewrite (Inv_directory _ _ Hinv). simpl.
  destruct Hinv as [_ Hok]. pose proof (ok_dir _ _ Hok) as Hdir.
  destruct (dir_inv_D123 d Hdir) as (H1 & H2 & H3).
  split_and!; [done..| |].
  - apply CanShrink_true.
  - intros k. split; [done|].
    rewrite KeyToDirectoryIndex_ones by apply Hdir.
    apply Z.land_ones, Hdir.
Qed.

End TableTheorems.

(** ** Insert, look up, remove *)
Section InsertLookupRemove.
Context {T : HashTableTypes} {L : HashTableLaws T}.
Import ExtendibleHashTable.

Lemma entry_match_key b k v j :
  B.entry_match b k v j = B.key_match b k j && bool_decide (B.ValueAt b j = v).
Proof. done. Qed.




(** A live entry that matches [(k, v)] lies in the bucket [k] is routed to. *)
Lemma match_routed ht d k v i b j :
  Inv ht d → live d i → bucket_of (pages ht) (D.GetBucketPageId d i) = Some b →
  (j < B.BUCKET_ARRAY_SIZE)%nat → B.entry_match b k v j = true →
  D.GetBucketPageId d i = KeyToPageId k d.
Proof.
  intros [_ Hok] Hi Hb Hj Hm. pose proof (ok_dir _ _ Hok) as Hdir.
  destruct (ok_buckets _ _ Hok i Hi) as (b' & Hb' & _ & _ & Hpl).
  rewrite Hb in Hb'. injection Hb' as <-.
  unfold B.entry_match in Hm.
  apply andb_true_iff in Hm as [[Hr Hc%Z.eqb_eq]%andb_true_iff _].
  specialize (Hpl j Hj Hr). unfold Hash in Hpl.
  rewrite (comparator_hash _ _ Hc) in Hpl. fold (Hash k) in Hpl.
  apply (dir_alias _ Hdir); [done|by apply KeyToDirectoryIndex_live, Hdir|].
  apply cong_sym. eapply cong_trans; [|exact Hpl].
  eapply cong_mono; [|apply KeyToDirectoryIndex_cong, Hdir].
  apply (dir_local _ Hdir i Hi).
Qed.

(** [SplitInsert] on a table that holds [(k, v)] already. *)
Lemma SplitInsert_dup ht d k v b j :
  Inv ht d → bucket_of (pages ht) (KeyToPageId k d) = Some b →
  (j < B.BUCKET_ARRAY_SIZE)%nat → B.entry_match b k v j = true →
  ∃ ht', SplitInsert ht k v = Ret (false, ht') ∧ same_table ht ht'.
Proof.
  intros [Hd Hok] Hb Hj Hm.
  unfold SplitInsert. change SplitInsert_depth with (S 10). simpl SplitInsert_rec.
  unfold SplitInsert_body.
  rewrite (FetchDirectoryPage_ok _ _ Hd), bind_Ret_l. cbv beta iota zeta.
  change (D.GetBucketPageId d (KeyToDirectoryIndex k d)) with (KeyToPageId k d).
  rewrite (FetchBucketPage_ok _ _ b) by done.
  rewrite bind_Ret_l. cbv beta iota zeta.
  pose proof (SplitInsert_scan_spec b k v) as [_ Hnodup].
  destruct (SplitInsert_scan b k v _ _) as [is_duplicate free_pos]. simpl in Hnodup.
  destruct is_duplicate.
  - rewrite bind_Ret_l. cbv beta iota zeta. eexists. split; [done|].
    by do 2 apply same_table_UnpinPage.
  - destruct (Hnodup eq_refl) as [Hno _]. by rewrite (Hno j Hj) in Hm.
Qed.

(** [Insert] of an entry the table holds is refused, and changes no page. *)
Lemma Insert_dup ht d k v b j :
  Inv ht d → bucket_of (pages ht) (KeyToPageId k d) = Some b →
  (j < B.BUCKET_ARRAY_SIZE)%nat → B.entry_match b k v j = true →
  ∃ ht', Insert ht k v = Ret (false, ht') ∧ same_table ht ht'.
Proof.
  intros Hinv Hb Hj Hm. pose proof Hinv as [Hd Hok].
  destruct (Inv_bucket ht d k Hinv) as (b0 & Hb0 & Hpl & Hne).
  rewrite Hb in Hb0. injection Hb0 as <-.
  assert (pages ht !! KeyToPageId k d = Some (BucketPage b)) as Hpage.
  { unfold bucket_of in Hb. destruct (pages ht !! KeyToPageId k d) as [[| |b1]|]; try done.
    - injection Hb as <-. unfold B.entry_match in Hm.
      by rewrite IsReadable_zero in Hm.
    - by injection Hb as ->. }
  assert (B.Insert b k v = (false, b)) as Hi.
  { destruct (B.Insert b k v) as [[|] b'] eqn:Hi.
    - apply Insert_true in Hi as (_ & _ & _ & Hno & _). by rewrite (Hno j Hj) in Hm.
    - by apply Insert_false in Hi as [-> _]. }
  destruct (write_bucket_finish ht d k b false false Hinv Hpl)
    as (HinvF & _ & HbF & _ & HnF).
  cbv zeta in HinvF, HbF, HnF.
  unfold Insert.
  rewrite (FetchDirectoryPage_ok _ _ Hd), bind_Ret_l. cbv beta iota zeta.
  rewrite (FetchBucketPage_ok _ _ b) by done.
  rewrite bind_Ret_l. cbv beta iota zeta.
  rewrite (ok_page_id _ _ Hok), Hi. cbv beta iota zeta. simpl negb. cbv iota.
  set (htF := (UnpinPage (UnpinPage (write_page _ _ _) _ _).2 _ _).2) in *.
  assert (same_table ht htF) as Hsame.
  { split_and!; [|unfold htF; rewrite !pages_UnpinPage; simpl; by rewrite insert_id|done].
    unfold htF. by rewrite !directory_page_id_UnpinPage. }
  destruct (SplitInsert_dup htF d k v b j HinvF HbF Hj Hm) as (ht' & Hrun & Hsame').
  exists ht'. split; [done|].
  destruct Hsame as (H1 & H2 & H3), Hsame' as (H1' & H2' & H3').
  split_and!; congruence.
Qed.

(** [SplitInsert] on a table whose bucket for [k] does not hold [(k, v)] and
    has a slot that is not live: the entry goes into that bucket, by the
    second early return. *)
Lemma SplitInsert_direct ht d k v b :
  Inv ht d → bucket_of (pages ht) (KeyToPageId k d) = Some b →
  without b k v →
  (∃ j, (j < B.BUCKET_ARRAY_SIZE)%nat ∧ B.IsReadable b j = false) →
  ∃ ht', SplitInsert ht k v = Ret (true, ht').
Proof.
  intros [Hd Hok] Hb Hno (j & Hj & Hfree).
  unfold SplitInsert. change SplitInsert_depth with (S 10). simpl SplitInsert_rec.
  unfold SplitInsert_body.
  rewrite (FetchDirectoryPage_ok _ _ Hd), bind_Ret_l. cbv beta iota zeta.
  change (D.GetBucketPageId d (KeyToDirectoryIndex k d)) with (KeyToPageId k d).
  rewrite (FetchBucketPage_ok _ _ b) by done.
  rewrite bind_Ret_l. cbv beta iota zeta.
  pose proof (SplitInsert_scan_spec b k v) as [Hdup Hnodup].
  destruct (SplitInsert_scan b k v _ _) as [is_duplicate free_pos]. simpl in Hdup, Hnodup.
  destruct is_duplicate.
  - destruct (Hdup eq_refl) as (j' & Hj' & Hm). by rewrite (Hno j' Hj') in Hm.
  - destruct (Hnodup eq_refl) as (_ & Hfull & _).
    destruct (Nat.eqb_spec free_pos B.BUCKET_ARRAY_SIZE) as [Hfp|Hfp]; simpl.
    + destruct (Hfull Hfp j Hj) as [_ Hr]. congruence.
    + by eexists.
Qed.

End InsertLookupRemove.

(** ** The pin discipline *)
Section PinDiscipline.
Context {T : HashTableTypes}.
Import ExtendibleHashTable.

(** C4: from every state that satisfies the invariant of the table [Inv]
    (every state reached by a sequence of operations on a new index does,
    lemma [reachable_Inv]; so does the state in which [Insert] calls
    [SplitInsert] and [Remove] calls [Merge], and every operation keeps the
    invariant, so the callee is covered whatever operations completed in
    between), every
    operation that completes leaves the calls on the buffer pool balanced:
    each [FetchPage] or [NewPage] has exactly one [UnpinPage] of the same
    page, and every pin count is back at its value before the operation.
    This holds of [GetValue], [Insert], [Remove], [GetGlobalDepth] and
    [VerifyIntegrity], and of [SplitInsert] and [Merge] called on their own;
    [Merge] always completes.  The two early returns of [SplitInsert] are
    taken from such states: with the pair in the bucket the key is routed to,
    [SplitInsert] returns false by its duplicate-found path, and with the
    pair not in that bucket and a slot of it not live, [SplitInsert] returns
    true by its direct-insert path, balanced in both cases. *)
Theorem operations_balance_pins ht d :
  Inv ht d →
  (∀ k result r ht', GetValue ht k result = Ret (r, ht') → pins_balanced ht ht') ∧
  (∀ k v r ht', Insert ht k v = Ret (r, ht') → pins_balanced ht ht') ∧
  (∀ k v r ht', SplitInsert ht k v = Ret (r, ht') → pins_balanced ht ht') ∧
  (∀ k v r ht', Remove ht k v = Ret (r, ht') → pins_balanced ht ht') ∧
  (∀ k v, ∃ ht', Merge ht k v = Ret ht' ∧ pins_balanced ht ht') ∧
  (∀ g ht', GetGlobalDepth ht = Ret (g, ht') → pins_balanced ht ht') ∧
  (∀ ht', VerifyIntegrity ht = Ret ht' → pins_balanced ht ht') ∧
  (∀ k v b, bucket_of (pages ht) (KeyToPageId k d) = Some b →
     (∃ j, (j < B.BUCKET_ARRAY_SIZE)%nat ∧ B.entry_match b k v j = true) →
     ∃ ht', SplitInsert ht k v = Ret (false, ht') ∧ pins_balanced ht ht') ∧
  (∀ k v b, bucket_of (pages ht) (KeyToPageId k d) = Some b →
     without b k v →
     (∃ j, (j < B.BUCKET_ARRAY_SIZE)%nat ∧ B.IsReadable b j = false) →
     ∃ ht', SplitInsert ht k v = Ret (true, ht') ∧ pins_balanced ht ht').
Proof.
  intros Hinv.
  assert (∀ k v r ht', SplitInsert ht k v = Ret (r, ht') → pins_balanced ht ht') as Hsplit.
  { intros k v r ht' Hrun. apply follows_pins_balanced.
    by destruct (SplitInsert_rec_spec _ ht d k v r ht' Hinv Hrun) as (? & _ & ? & _). }
  split_and!.
  - intros k result r ht' Hrun. apply follows_pins_balanced.
    by destruct (GetValue_Inv ht d k result r ht' Hinv Hrun) as (_ & ? & _).
  - intros k v r ht' Hrun. apply follows_pins_balanced.
    by destruct (Insert_spec ht d k v r ht' Hinv Hrun) as (? & _ & ? & _).
  - done.
  - intros k v r ht' Hrun. apply follows_pins_balanced.
    by destruct (Remove_Inv ht d k v r ht' Hinv Hrun) as (? & _ & ?).
  - intros k v. destruct (Merge_total ht d k v Hinv) as [ht' Hrun].
    exists ht'. split; [done|]. apply follows_pins_balanced.
    by destruct (Merge_spec (λ _, True) ht d k v ht' Hinv) as (? & _ & ? & _).
  - intros g ht' Hrun. apply follows_pins_balanced.
    destruct (GetGlobalDepth_spec ht d Hinv) as (ht1 & Heq & _ & Hfol & _).
    rewrite Heq in Hrun. by injection Hrun as _ <-.
  - intros ht' Hrun. apply follows_pins_balanced.
    destruct (VerifyIntegrity_spec ht d Hinv) as (ht1 & Heq & _ & Hfol & _).
    rewrite Heq in Hrun. by injection Hrun as <-.
  - intros k v b Hb (j & Hj & Hm).
    destruct (SplitInsert_dup ht d k v b j Hinv Hb Hj Hm) as (ht' & Hrun & _).
    exists ht'. split; [done|]. by eapply Hsplit.
  - intros k v b Hb Hno Hfree.
    destruct (SplitInsert_direct ht d k v b Hinv Hb Hno Hfree) as (ht' & Hrun).
    exists ht'. split; [done|]. by eapply Hsplit.
Qed.

End PinDiscipline.

(** ** The theorems on the table after a split and two removals *)
Section TableWitnesses.
Import ExtendibleHashTable.
#[local] Existing Instance Key64RID.

Lemma directory_invariants_hold_witness :
  ∃ ht : t,
    Scenario.after Scenario.split_ops = Ret ht ∧
    let d := directory ht in
    D1 d ∧ D2 d ∧ D3 d ∧
    (D.CanShrink d = true ↔ ∀ i, live d i → D.GetLocalDepth d i < D.GetGlobalDepth d) ∧
    ∀ k, KeyToDirectoryIndex k d = Z.land (Hash k) (Z.shiftl 1 (D.GetGlobalDepth d) - 1)
         ∧ KeyToDirectoryIndex k d = Hash k mod 2 ^ D.GetGlobalDepth d.
Proof.
  destruct split_table_reachable as (ht & Hht & Hreach).
  exists ht. split; [exact Hht|]. exact (directory_invariants_hold ht Hreach).
Defined.

(** On that table the bucket of key 200 has room and does not hold the key:
    [SplitInsert] called on its own returns true, by its direct-insert
    path. *)
Lemma split_table_SplitInsert_200 :
  match Scenario.after Scenario.split_ops with
  | Ret ht =>
      match SplitInsert ht 200 (Scenario.rid 200) with
      | Ret (r, _) => r
      | _ => false
      end
  | _ => false
  end = true.
Proof. vm_compute. reflexivity. Qed.

Lemma operations_balance_pins_witness :
  ∃ (ht : t) (d : D.t) (ht1 : t),
    Scenario.after Scenario.split_ops = Ret ht ∧ Inv ht d ∧
    SplitInsert ht 200 (Scenario.rid 200) = Ret (true, ht1) ∧
    pins_balanced ht ht1 ∧
    (∀ k result r ht', GetValue ht k result = Ret (r, ht') → pins_balanced ht ht') ∧
    (∀ k v r ht', Insert ht k v = Ret (r, ht') → pins_balanced ht ht') ∧
    (∀ k v r ht', SplitInsert ht k v = Ret (r, ht') → pins_balanced ht ht') ∧
    (∀ k v r ht', Remove ht k v = Ret (r, ht') → pins_balanced ht ht') ∧
    (∀ k v, ∃ ht', Merge ht k v = Ret ht' ∧ pins_balanced ht ht') ∧
    (∀ g ht', GetGlobalDepth ht = Ret (g, ht') → pins_balanced ht ht') ∧
    (∀ ht', VerifyIntegrity ht = Ret ht' → pins_balanced ht ht') ∧
    (∀ k v b, bucket_of (pages ht) (KeyToPageId k d) = Some b →
       (∃ j, (j < B.BUCKET_ARRAY_SIZE)%nat ∧ B.entry_match b k v j = true) →
       ∃ ht', SplitInsert ht k v = Ret (false, ht') ∧ pins_balanced ht ht') ∧
    (∀ k v b, bucket_of (pages ht) (KeyToPageId k d) = Some b →
       without b k v →
       (∃ j, (j < B.BUCKET_ARRAY_SIZE)%nat ∧ B.IsReadable b j = false) →
       ∃ ht', SplitInsert ht k v = Ret (true, ht') ∧ pins_balanced ht ht').
Proof.
  destruct split_table_reachable as (ht & Hht & Hreach).
  destruct (reachable_Inv ht Hreach) as [[d Hinv] _].
  pose proof split_table_SplitInsert_200 as Hrun. rewrite Hht in Hrun.
  destruct (SplitInsert ht 200 (Scenario.rid 200)) as [[r ht1]| |] eqn:Hsi;
    [|discriminate Hrun..].
  subst r.
  exists ht, d, ht1. split; [exact Hht|]. split; [exact Hinv|].
  split; [exact Hsi|].
  pose proof (operations_balance_pins ht d Hinv) as Hall.
  split; [|exact Hall].
  destruct Hall as (_ & _ & Hsplit & _).
  exact (Hsplit 200 (Scenario.rid 200) true ht1 Hsi).
Defined.

End TableWitnesses.

(** * Part III: further properties of the bucket page *)
Section BucketContracts.
Context {T : HashTableTypes}.
Import HashTableBucketPage.

(** The slot the loop of [Insert] settles on is the first one that is not
    readable. *)
Lemma Insert_loop_first b k v l r :
  (∀ q, q ∈ l → q ≠ BUCKET_ARRAY_SIZE) →
  Insert_loop b k v l BUCKET_ARRAY_SIZE = Some r → r ≠ BUCKET_ARRAY_SIZE →
  ∃ l1 l2, l = l1 ++ r :: l2 ∧ ∀ q, q ∈ l1 → IsReadable b q = true.
Proof.
  induction l as [|i l IH]; simpl; [by intros _ [= <-]|].
  rewrite Nat.eqb_refl. intros Hl.
  destruct (entry_match b k v i); [done|].
  destruct (IsReadable b i) eqn:Hr; simpl.
  - intros Hloop Hne. destruct IH as (l1 & l2 & -> & Hall); [|done..|].
    { intros q Hq. apply Hl. by right. }
    exists (i :: l1), l2. split; [done|]. by intros q [->|Hq]%elem_of_cons; [|apply Hall].
  - intros Hloop Hne. apply Insert_loop_Some in Hloop.
    rewrite decide_False in Hloop by (apply Hl; by left).
    subst r. exists [], l. split; [done|]. by intros q ?%elem_of_nil.
Qed.

(** [Insert]: the pair goes to the first slot that is not readable, unless a
    live slot holds an equal pair already or every slot is live; the other
    slots, tombstones included, stay as they are; a refused insertion changes
    nothing. *)
Theorem bucket_Insert_contract (b : t) (k : KeyType) (v : ValueType) :
  wf b →
  let r := Insert b k v in
  (r.1 = true ↔
     (∀ j, (j < BUCKET_ARRAY_SIZE)%nat → entry_match b k v j = false) ∧
     ∃ p, (p < BUCKET_ARRAY_SIZE)%nat ∧ IsReadable b p = false) ∧
  (r.1 = false → r.2 = b) ∧
  (r.1 = true →
     ∃ p, (p < BUCKET_ARRAY_SIZE)%nat ∧ IsReadable b p = false ∧
          (∀ q, (q < p)%nat → IsReadable b q = true) ∧
          IsReadable r.2 p = true ∧ IsOccupied r.2 p = true ∧
          KeyAt r.2 p = k ∧ ValueAt r.2 p = v ∧
          ∀ j, j ≠ p →
               IsReadable r.2 j = IsReadable b j ∧ IsOccupied r.2 j = IsOccupied b j ∧
               KeyAt r.2 j = KeyAt b j ∧ ValueAt r.2 j = ValueAt b j).
Proof.
  intros Hwf r. split_and!.
  - split.
    + intros Ht. destruct (Insert b k v) as [flag b'] eqn:Hi. simpl in Ht. subst flag.
      apply Insert_true in Hi as (p & Hp & Hr & Hno & _). split; [done|by exists p].
    + intros (Hno & p & Hp & Hr). by eapply Insert_succeeds.
  - intros Hf. destruct (Insert b k v) as [flag b'] eqn:Hi. simpl in Hf. subst flag.
    by apply Insert_false in Hi as [-> _].
  - intros Ht. unfold r in *. clear r. unfold Insert in *.
    destruct (Insert_loop b k v (seq 0 BUCKET_ARRAY_SIZE) BUCKET_ARRAY_SIZE)
      as [p|] eqn:Hloop; [|done].
    destruct (Nat.eqb_spec p BUCKET_ARRAY_SIZE) as [Hp|Hp]; [done|]. simpl.
    fold (put b p k v).
    destruct (Insert_loop_first b k v (seq 0 BUCKET_ARRAY_SIZE) p)
      as (l1 & l2 & Hl & Hall); [intros q Hq%elem_of_seq; lia|done|done|].
    assert (p ∈ seq 0 BUCKET_ARRAY_SIZE) as Hin.
    { rewrite Hl. apply elem_of_app. right. by left. }
    apply elem_of_seq in Hin.
    assert (l1 = seq 0 p) as ->.
    { assert (length l1 = p) as Hlen.
      { assert (seq 0 BUCKET_ARRAY_SIZE !! length l1 = Some p) as Hlk.
        { rewrite Hl. by rewrite list_lookup_middle. }
        apply lookup_seq in Hlk. lia. }
      apply (f_equal (take p)) in Hl. rewrite take_seq in Hl.
      rewrite Nat.min_l in Hl by lia. rewrite Hl.
      rewrite take_app_length' by done. done. }
    pose proof (Insert_loop_Some _ _ _ _ _ _ Hloop) as Hfree.
    rewrite decide_True in Hfree by done.
    destruct Hfree as [[? _]|[_ Hfree]]; [done|].
    exists p. split_and!; [lia|done| | | | | |].
    + intros q Hq. apply Hall, elem_of_seq. lia.
    + rewrite IsReadable_put by (done || lia). by rewrite decide_True.
    + rewrite IsOccupied_put by (done || lia). by rewrite decide_True.
    + rewrite KeyAt_put by (done || lia). by rewrite decide_True.
    + rewrite ValueAt_put by (done || lia). by rewrite decide_True.
    + intros j Hj.
      rewrite IsReadable_put, IsOccupied_put, KeyAt_put, ValueAt_put by (done || lia).
      by rewrite !decide_False by done.
Qed.

(** [GetValue]: true exactly when a live slot holds the key, and the values
    of the live slots that hold it are appended in slot order. *)
Theorem bucket_GetValue_contract (b : t) (k : KeyType) (result : list ValueType) :
  let r := GetValue b k result in
  (r.1 = true ↔
     ∃ j, (j < BUCKET_ARRAY_SIZE)%nat ∧ IsReadable b j = true ∧
          comparator_ (KeyAt b j) k = 0) ∧
  r.2 = result ++ (ValueAt b <$> filter (λ j, key_match b k j = true)
                                        (seq 0 BUCKET_ARRAY_SIZE)) ∧
  (r.1 = false → r.2 = result).
Proof.
  intros r. unfold r, GetValue. rewrite GetValue_loop_spec. simpl.
  assert (existsb (key_match b k) (seq 0 BUCKET_ARRAY_SIZE) = true ↔
          ∃ j, (j < BUCKET_ARRAY_SIZE)%nat ∧ IsReadable b j = true ∧
               comparator_ (KeyAt b j) k = 0) as Hex.
  { rewrite existsb_exists. unfold key_match. split.
    - intros (j & Hj%in_seq & [Hr Hc%Z.eqb_eq]%andb_true_iff). exists j. split; [lia|done].
    - intros (j & Hj & Hr & Hc). exists j. split; [apply in_seq; lia|].
      rewrite Hr. by apply Z.eqb_eq. }
  split_and!; [done|done|].
  intros Hf. rewrite <- (app_nil_r result) at 2. f_equal.
  destruct (filter _ _) as [|j l] eqn:Hfil; [done|]. exfalso.
  assert (j ∈ filter (λ j, key_match b k j = true) (seq 0 BUCKET_ARRAY_SIZE)) as Hj.
  { rewrite Hfil. by left. }
  apply list_elem_of_filter in Hj as [Hm Hj]. apply elem_of_seq in Hj.
  assert (existsb (key_match b k) (seq 0 BUCKET_ARRAY_SIZE) = true) as Ht.
  { apply existsb_exists. exists j. split; [apply in_seq; lia|done]. }
  by rewrite Ht in Hf.
Qed.

(** [Remove]: true exactly when a live slot holds the pair; the readable bit
    of every such slot is cleared and nothing else changes: the occupied bits
    stay set, which leaves a tombstone, and the stored pairs stay in the
    array. *)
Theorem bucket_Remove_contract (b : t) (k : KeyType) (v : ValueType) :
  wf b →
  let r := Remove b k v in
  (r.1 = true ↔ ∃ j, (j < BUCKET_ARRAY_SIZE)%nat ∧ entry_match b k v j = true) ∧
  (∀ j, (j < BUCKET_ARRAY_SIZE)%nat →
        IsReadable r.2 j = IsReadable b j && negb (entry_match b k v j)) ∧
  (∀ j, IsOccupied r.2 j = IsOccupied b j ∧ KeyAt r.2 j = KeyAt b j ∧
        ValueAt r.2 j = ValueAt b j) ∧
  (∀ j, (j < BUCKET_ARRAY_SIZE)%nat → entry_match r.2 k v j = false) ∧
  (r.1 = false → r.2 = b).
Proof.
  intros Hwf r.
  destruct (Remove_loop_spec b k v (seq 0 BUCKET_ARRAY_SIZE) false Hwf)
    as (Hfst & _ & Hocc & Harr & Hrd); [apply NoDup_seq|intros i Hi%elem_of_seq; lia|].
  fold (Remove b k v) in Hfst, Hocc, Harr, Hrd. fold r in Hfst, Hocc, Harr, Hrd.
  simpl in Hfst.
  assert (∀ j, (j < BUCKET_ARRAY_SIZE)%nat →
            IsReadable r.2 j = IsReadable b j && negb (entry_match b k v j)) as Hrd'.
  { intros j Hj. rewrite Hrd. by rewrite bool_decide_eq_true_2 by (apply elem_of_seq; lia). }
  split_and!.
  - rewrite Hfst, existsb_exists. split.
    + intros (j & Hj%in_seq & Hm). exists j. split; [lia|done].
    + intros (j & Hj & Hm). exists j. split; [apply in_seq; lia|done].
  - done.
  - intros j. unfold IsOccupied, KeyAt, ValueAt. by rewrite Hocc, Harr.
  - intros j Hj. unfold entry_match at 1. rewrite Hrd' by done.
    unfold KeyAt, ValueAt. rewrite Harr. fold (KeyAt b j) (ValueAt b j).
    unfold entry_match. by destruct (IsReadable b j), (_ =? 0), (bool_decide _).
  - intros Hf. by apply Remove_loop_false.
Qed.

Lemma NumReadable_loop_count b l ans :
  NumReadable_loop b l ans
  = ans + Z.of_nat (length (filter (λ j, IsReadable b j = true) l)).
Proof.
  revert ans. induction l as [|i l IH]; intros ans; simpl; [lia|].
  rewrite IH, filter_cons. destruct (IsReadable b i); simpl; lia.
Qed.

Lemma BUCKET_ARRAY_SIZE_bound : Z.of_nat BUCKET_ARRAY_SIZE ≤ 16384.
Proof.
  unfold BUCKET_ARRAY_SIZE. rewrite Nat2Z.inj_div, !Nat2Z.inj_add, !Nat2Z.inj_mul.
  change (Z.of_nat BufferPoolManagerInstance.PAGE_SIZE) with 4096.
  change (Z.of_nat 4) with 4. change (Z.of_nat 1) with 1.
  apply Z.div_le_upper_bound; lia.
Qed.

(** [NumReadable] is the number of live slots, [IsEmpty] says that there is
    none, and [NumReadable] never exceeds [BUCKET_ARRAY_SIZE]. *)
Theorem bucket_NumReadable_counts (b : t) :
  NumReadable b
  = Z.of_nat (length (filter (λ j, IsReadable b j = true) (seq 0 BUCKET_ARRAY_SIZE))) ∧
  0 ≤ NumReadable b ≤ Z.of_nat BUCKET_ARRAY_SIZE ∧
  (IsEmpty b = true ↔ NumReadable b = 0) ∧
  (IsEmpty b = true ↔ ∀ j, (j < BUCKET_ARRAY_SIZE)%nat → IsReadable b j = false).
Proof.
  assert (length (filter (λ j, IsReadable b j = true) (seq 0 BUCKET_ARRAY_SIZE))
          ≤ BUCKET_ARRAY_SIZE)%nat as Hle.
  { etrans; [apply length_filter|]. by rewrite length_seq. }
  pose proof BUCKET_ARRAY_SIZE_bound as Hb.
  assert (NumReadable b
          = Z.of_nat (length (filter (λ j, IsReadable b j = true)
                                     (seq 0 BUCKET_ARRAY_SIZE)))) as Hnum.
  { unfold NumReadable. rewrite NumReadable_loop_count, Z.add_0_l.
    apply to_uint32_small. change (2 ^ 32) with 4294967296. lia. }
  split; [done|]. split; [lia|]. split; [|apply IsEmpty_true].
  rewrite IsEmpty_true, Hnum. split.
  - intros Hall.
    destruct (filter _ _) as [|j l] eqn:Hfil; [done|]. exfalso.
    assert (j ∈ filter (λ j, IsReadable b j = true) (seq 0 BUCKET_ARRAY_SIZE)) as Hin.
    { rewrite Hfil. by left. }
    apply list_elem_of_filter in Hin as [Hr Hin%elem_of_seq].
    rewrite Hall in Hr by lia. done.
  - intros Hz j Hj. destruct (IsReadable b j) eqn:Hr; [|done]. exfalso.
    assert (j ∈ filter (λ j, IsReadable b j = true) (seq 0 BUCKET_ARRAY_SIZE)) as Hin.
    { apply list_elem_of_filter. split; [done|]. apply elem_of_seq. lia. }
    destruct (filter _ _); [by apply elem_of_nil in Hin|simpl in Hz; lia].
Qed.

Lemma count_same (f g : nat → bool) (l : list nat) :
  (∀ j, j ∈ l → g j = f j) →
  length (filter (λ j, g j = true) l) = length (filter (λ j, f j = true) l).
Proof.
  induction l as [|i l IH]; intros H; [done|]. rewrite !filter_cons.
  rewrite (H i) by (by left). destruct (f i); simpl.
  - f_equal. apply IH. intros j Hj. apply H. by right.
  - apply IH. intros j Hj. apply H. by right.
Qed.

Lemma count_set_one (f g : nat → bool) (l : list nat) (p : nat) :
  NoDup l → p ∈ l → f p = false →
  (∀ j, g j = if decide (p = j) then true else f j) →
  length (filter (λ j, g j = true) l) = S (length (filter (λ j, f j = true) l)).
Proof.
  intros Hnd Hp Hfp Hg. induction l as [|i l IH]; [by apply elem_of_nil in Hp|].
  apply NoDup_cons in Hnd as [Hi Hnd]. rewrite !filter_cons.
  destruct (decide (p = i)) as [->|Hne].
  - rewrite (decide_True (P := g i = true)) by (rewrite Hg; by rewrite decide_True).
    rewrite (decide_False (P := f i = true)) by (by rewrite Hfp).
    simpl. f_equal. apply count_same. intros j Hj.
    rewrite Hg. rewrite decide_False; [done|]. by intros ->.
  - apply elem_of_cons in Hp as [?|Hp]; [done|].
    assert (g i = f i) as Hgi by (rewrite Hg; by rewrite decide_False).
    rewrite Hgi. destruct (f i); simpl.
    + f_equal. by apply IH.
    + by apply IH.
Qed.

(** A successful [Insert] makes one more slot live. *)
Theorem bucket_Insert_adds_one (b : t) (k : KeyType) (v : ValueType) :
  wf b → (Insert b k v).1 = true →
  NumReadable (Insert b k v).2 = NumReadable b + 1.
Proof.
  intros Hwf Ht. destruct (Insert b k v) as [flag b'] eqn:Hi. simpl in *. subst flag.
  apply Insert_true in Hi as (p & Hp & Hr & _ & ->).
  destruct (bucket_NumReadable_counts b) as [-> _].
  destruct (bucket_NumReadable_counts (put b p k v)) as [-> _].
  rewrite (count_set_one (IsReadable b) (IsReadable (put b p k v)) _ p); [lia|..].
  - apply NoDup_seq.
  - apply elem_of_seq. lia.
  - done.
  - intros j. by apply IsReadable_put.
Qed.

(** The bitmap operations address one slot each: [SetReadable], [SetOccupied]
    and [RemoveAt] change the bit of their slot in its bitmap and nothing
    else, whatever the other seven bits of the byte hold: the bits of the
    other slots, the other bitmap, and the key and the value of every slot
    are as before. *)
Theorem bucket_bitmaps_slotwise (b : t) (i j : nat) :
  wf b → (i < BUCKET_ARRAY_SIZE)%nat →
  (IsReadable (SetReadable b i) j = if decide (i = j) then true else IsReadable b j) ∧
  IsOccupied (SetReadable b i) j = IsOccupied b j ∧
  KeyAt (SetReadable b i) j = KeyAt b j ∧ ValueAt (SetReadable b i) j = ValueAt b j ∧
  (IsOccupied (SetOccupied b i) j = if decide (i = j) then true else IsOccupied b j) ∧
  IsReadable (SetOccupied b i) j = IsReadable b j ∧
  KeyAt (SetOccupied b i) j = KeyAt b j ∧ ValueAt (SetOccupied b i) j = ValueAt b j ∧
  (IsReadable (RemoveAt b i) j = if decide (i = j) then false else IsReadable b j) ∧
  IsOccupied (RemoveAt b i) j = IsOccupied b j ∧
  KeyAt (RemoveAt b i) j = KeyAt b j ∧ ValueAt (RemoveAt b i) j = ValueAt b j.
Proof.
  intros Hwf Hi.
  assert (i / 8 < length (readable_ b))%nat as Hr.
  { rewrite (wf_readable _ Hwf). by apply byte_index_lt. }
  assert (i / 8 < length (occupied_ b))%nat as Ho.
  { rewrite (wf_occupied _ Hwf). by apply byte_index_lt. }
  split_and!; try done.
  - by apply IsReadable_SetReadable.
  - by apply IsOccupied_SetOccupied.
  - by apply IsReadable_RemoveAt.
Qed.

End BucketContracts.

(** ** The bucket page theorems on pages of the instantiation *)
Section BucketWitnesses.
Import HashTableBucketPage.
#[local] Existing Instance Key64RID.

Lemma zero_Insert_returns_true : (Insert zero 7 (7, 0)).1 = true.
Proof. vm_compute. reflexivity. Qed.

Lemma bucket_Insert_contract_witness :
  let r := Insert zero 7 (7, 0) in
  (r.1 = true ↔
     (∀ j, (j < BUCKET_ARRAY_SIZE)%nat → entry_match zero 7 (7, 0) j = false) ∧
     ∃ p, (p < BUCKET_ARRAY_SIZE)%nat ∧ IsReadable zero p = false) ∧
  (r.1 = false → r.2 = zero) ∧
  (r.1 = true →
     ∃ p, (p < BUCKET_ARRAY_SIZE)%nat ∧ IsReadable zero p = false ∧
          (∀ q, (q < p)%nat → IsReadable zero q = true) ∧
          IsReadable r.2 p = true ∧ IsOccupied r.2 p = true ∧
          KeyAt r.2 p = 7 ∧ ValueAt r.2 p = (7, 0) ∧
          ∀ j, j ≠ p →
               IsReadable r.2 j = IsReadable zero j ∧ IsOccupied r.2 j = IsOccupied zero j ∧
               KeyAt r.2 j = KeyAt zero j ∧ ValueAt r.2 j = ValueAt zero j).
Proof. exact (bucket_Insert_contract zero 7 (7, 0) wf_zero). Defined.

Lemma bucket_Remove_contract_witness :
  let b := Scenario.full_odd_bucket in
  let r := Remove b 7 (7, 0) in
  (r.1 = true ↔ ∃ j, (j < BUCKET_ARRAY_SIZE)%nat ∧ entry_match b 7 (7, 0) j = true) ∧
  (∀ j, (j < BUCKET_ARRAY_SIZE)%nat →
        IsReadable r.2 j = IsReadable b j && negb (entry_match b 7 (7, 0) j)) ∧
  (∀ j, IsOccupied r.2 j = IsOccupied b j ∧ KeyAt r.2 j = KeyAt b j ∧
        ValueAt r.2 j = ValueAt b j) ∧
  (∀ j, (j < BUCKET_ARRAY_SIZE)%nat → entry_match r.2 7 (7, 0) j = false) ∧
  (r.1 = false → r.2 = b).
Proof.
  exact (bucket_Remove_contract Scenario.full_odd_bucket 7 (7, 0) (wf_fill zero _ wf_zero)).
Defined.

Lemma bucket_Insert_adds_one_witness :
  NumReadable (Insert zero 7 (7, 0)).2 = NumReadable zero + 1.
Proof.
  exact (bucket_Insert_adds_one zero 7 (7, 0) wf_zero zero_Insert_returns_true).
Defined.

Lemma SIZE_positive : (3 < BUCKET_ARRAY_SIZE)%nat.
Proof. vm_compute. lia. Qed.

Lemma bucket_bitmaps_slotwise_witness :
  let b := Scenario.full_odd_bucket in
  (IsReadable (SetReadable b 3) 5 = if decide (3%nat = 5%nat) then true else IsReadable b 5) ∧
  IsOccupied (SetReadable b 3) 5 = IsOccupied b 5 ∧
  KeyAt (SetReadable b 3) 5 = KeyAt b 5 ∧ ValueAt (SetReadable b 3) 5 = ValueAt b 5 ∧
  (IsOccupied (SetOccupied b 3) 5 = if decide (3%nat = 5%nat) then true else IsOccupied b 5) ∧
  IsReadable (SetOccupied b 3) 5 = IsReadable b 5 ∧
  KeyAt (SetOccupied b 3) 5 = KeyAt b 5 ∧ ValueAt (SetOccupied b 3) 5 = ValueAt b 5 ∧
  (IsReadable (RemoveAt b 3) 5 = if decide (3%nat = 5%nat) then false else IsReadable b 5) ∧
  IsOccupied (RemoveAt b 3) 5 = IsOccupied b 5 ∧
  KeyAt (RemoveAt b 3) 5 = KeyAt b 5 ∧ ValueAt (RemoveAt b 3) 5 = ValueAt b 5.
Proof.
  exact (bucket_bitmaps_slotwise Scenario.full_odd_bucket 3 5
           (wf_fill zero _ wf_zero) SIZE_positive).
Defined.

End BucketWitnesses.

(** * Further properties of the replacer *)
Section LRUReplacerSize.
Import LRUReplacer.

Lemma table_size r :
  NoDup (frames_ r) → (∀ f, f ∈ frames_table_ r ↔ f ∈ frames_ r) →
  size (frames_table_ r) = length (frames_ r).
Proof.
  intros Hnd Htab.
  assert (frames_table_ r = list_to_set (frames_ r)) as ->.
  { apply set_eq. intros f. rewrite Htab. by rewrite elem_of_list_to_set. }
  by apply size_list_to_set.
Qed.

(** [Size] is the number of frames the replacer tracks, each of them once:
    it grows by one with [Unpin] of an untracked frame, shrinks by one with
    [Pin] of a tracked frame and with a successful [Victim], and is zero
    exactly when [Victim] fails. *)
Theorem lru_Size_counts (ops : list op) :
  let r := run ops in
  NoDup (frames_ r) ∧
  Size r = size (frames_table_ r) ∧
  (∀ f, f ∉ frames_ r → Size (Unpin f r) = S (Size r)) ∧
  (∀ f, f ∈ frames_ r → Size (Unpin f r) = Size r) ∧
  (∀ f, f ∈ frames_ r → S (Size (Pin f r)) = Size r) ∧
  (∀ f, f ∉ frames_ r → Size (Pin f r) = Size r) ∧
  (∀ f, (Victim r).1 = Some f → S (Size (Victim r).2) = Size r) ∧
  (Size r = 0%nat ↔ (Victim r).1 = None).
Proof.
  intros r. pose proof (sim_run ops) as Hsim. fold r in Hsim.
  pose proof (sim_nodup _ _ Hsim) as Hnd. pose proof (sim_table _ _ Hsim) as Htab.
  split_and!.
  - done.
  - unfold Size. symmetry. by apply table_size.
  - intros f Hf. unfold Unpin, Size. rewrite decide_False by (by rewrite Htab).
    simpl. rewrite length_app. simpl. lia.
  - intros f Hf. unfold Unpin. by rewrite decide_True by (by rewrite Htab).
  - intros f Hf. unfold Pin, Size. rewrite decide_True by (by rewrite Htab). simpl.
    rewrite erase_node_filter by done.
    clear Htab Hsim. induction (frames_ r) as [|x l IH]; [by apply elem_of_nil in Hf|].
    apply NoDup_cons in Hnd as [Hx Hnd]. rewrite filter_cons.
    destruct (decide (x ≠ f)) as [Hne|Heq].
    + simpl. f_equal. apply IH; [done|]. apply elem_of_cons in Hf as [?|?]; [by subst|done].
    + simpl. f_equal. apply dec_stable in Heq. subst x.
      rewrite filter_all_id; [done|]. apply Forall_forall. by intros y Hy ->.
  - intros f Hf. unfold Pin. by rewrite decide_False by (by rewrite Htab).
  - intros f. unfold Victim, Size. destruct (frames_ r); simpl; [done|]. by intros _.
  - unfold Victim, Size. destruct (frames_ r); simpl; split; done.
Qed.

Lemma victims_drain l tab :
  NoDup l → (∀ f, f ∈ tab ↔ f ∈ l) →
  victims (length l) (mk l tab) = (l, empty).
Proof.
  revert tab. induction l as [|f l IH]; intros tab Hnd Htab; simpl.
  - unfold empty. do 2 f_equal. apply set_eq. intros f. rewrite Htab. set_solver.
  - apply NoDup_cons in Hnd as [Hf Hnd].
    rewrite IH; [done..|]. intros g. rewrite elem_of_difference, Htab. set_solver.
Qed.

(** Calling [Victim] until it fails returns the tracked frames in the order
    of the list, oldest [Unpin] first, and leaves the replacer empty. *)
Theorem lru_victims_in_order (ops : list op) :
  let r := run ops in
  victims (Size r) r = (frames_ r, empty) ∧
  ∀ n, (Size r ≤ n)%nat → victims n r = (frames_ r, empty).
Proof.
  intros r. pose proof (sim_run ops) as Hsim. fold r in Hsim.
  pose proof (sim_nodup _ _ Hsim) as Hnd. pose proof (sim_table _ _ Hsim) as Htab.
  clear Hsim. clearbody r. destruct r as [l tab]. simpl in *. unfold Size. simpl.
  split; [by apply victims_drain|].
  intros n Hn. replace n with (length l + (n - length l))%nat by lia.
  generalize (n - length l)%nat as m. clear Hn n. intros m.
  revert tab Htab. induction l as [|f l IH]; intros tab Htab; simpl.
  - assert (tab = ∅) as ->.
    { apply set_eq. intros f. rewrite Htab. set_solver. }
    by destruct m.
  - apply NoDup_cons in Hnd as [Hf Hnd].
    rewrite IH; [done..|]. intros g. rewrite elem_of_difference, Htab. set_solver.
Qed.

End LRUReplacerSize.

(** * Further properties of the buffer pool *)
Section BufferPoolInvariant.
Import BufferPoolManagerInstance.

Lemma pool_ok_mapped_not_free b pid f :
  pool_ok b → page_table_ b !! pid = Some f → f ∉ free_list_ b.
Proof.
  intros Hok Hm Hf.
  destruct (ok_mapped b Hok pid f Hm) as (Hinv & _ & p & Hp & Hid).
  destruct (ok_free b Hok f Hf) as (p' & Hp' & Hid' & _).
  congruence.
Qed.

Lemma pool_ok_candidate_not_free b f :
  pool_ok b → f ∈ LRUReplacer.frames_ (replacer_ b) → f ∉ free_list_ b.
Proof.
  intros Hok Hf. destruct (ok_candidate b Hok f Hf) as (p & _ & Hm & _).
  by eapply pool_ok_mapped_not_free.
Qed.

Lemma pool_ok_mapped_inj b pid1 pid2 f :
  pool_ok b → page_table_ b !! pid1 = Some f → page_table_ b !! pid2 = Some f → pid1 = pid2.
Proof.
  intros Hok H1 H2.
  destruct (ok_mapped b Hok _ _ H1) as (_ & _ & p1 & Hp1 & <-).
  destruct (ok_mapped b Hok _ _ H2) as (_ & _ & p2 & Hp2 & <-).
  congruence.
Qed.

Lemma pool_ok_in_range b f p :
  pool_ok b → page_at (pages_ b) f = Ret p → 0 ≤ f < Z.of_nat (pool_size_ b).
Proof.
  intros Hok [Hf Hp]%page_at_Ret. apply lookup_lt_Some in Hp.
  rewrite (ok_length b Hok) in Hp. lia.
Qed.

(** A frame taken from the free list or from the replacer receives the page
    [pid]. *)
Lemma pool_ok_install b f p free replacer next disk data pid :
  pool_ok b →
  page_at (pages_ b) f = Ret p →
  (free_list_ b = f :: free ∧ replacer = replacer_ b) ∨
  (free_list_ b = [] ∧ free = [] ∧ LRUReplacer.Victim (replacer_ b) = (Some f, replacer)) →
  page_table_ b !! pid = None → pid ≠ INVALID_PAGE_ID → pid < next →
  next_page_id_ b ≤ next → next mod num_instances_ b = instance_index_ b →
  pool_ok (mk (pool_size_ b) (num_instances_ b) (instance_index_ b) next
              (set_page (pages_ b) f (mkPage data pid 1 false)) replacer free
              (<[pid := f]> (delete (page_id_ p) (page_table_ b))) disk).
Proof.
  intros Hok Hp Hpick Hnone Hvalid Hlt Hnext Hres.
  pose proof (proj1 (page_at_Ret _ _ _) Hp) as [Hf0 _].
  assert (∀ g, g ∈ free → g ∈ free_list_ b ∧ g ≠ f) as Hfree_sub.
  { intros g Hg. destruct Hpick as [[Hfl _]|(_ & -> & _)]; [|by apply elem_of_nil in Hg].
    pose proof (ok_free_nodup b Hok) as Hnd. rewrite Hfl in Hnd |- *.
    apply NoDup_cons in Hnd as [Hnin _]. split; [by right|]. by intros ->. }
  assert (∀ g, g ∈ free_list_ b → g ≠ f → g ∈ free) as Hfree_sup.
  { intros g Hg Hne. destruct Hpick as [[Hfl _]|(Hfl & _ & _)]; rewrite Hfl in Hg.
    - by apply elem_of_cons in Hg as [?|?].
    - by apply elem_of_nil in Hg. }
  assert (∀ g, g ∈ LRUReplacer.frames_ replacer →
               g ∈ LRUReplacer.frames_ (replacer_ b) ∧ g ≠ f) as Hrep_sub.
  { intros g Hg. destruct Hpick as [[Hfl ->]|(_ & _ & Hv)].
    - split; [done|]. intros ->.
      apply (pool_ok_candidate_not_free b f Hok Hg). rewrite Hfl. by left.
    - unfold LRUReplacer.Victim in Hv.
      pose proof (ok_replacer_nodup b Hok) as Hnd.
      destruct (LRUReplacer.frames_ (replacer_ b)) as [|f' rest] eqn:Hfr; [done|].
      injection Hv as -> <-. simpl in Hg.
      apply NoDup_cons in Hnd as [Hnin _]. split; [by right|]. by intros ->. }
  assert (f ∈ free_list_ b ∧ page_id_ p = INVALID_PAGE_ID ∨
          page_table_ b !! page_id_ p = Some f) as Hold.
  { destruct Hpick as [[Hfl _]|(_ & _ & Hv)].
    - left. assert (f ∈ free_list_ b) as Hin by (rewrite Hfl; by left).
      split; [done|]. destruct (ok_free b Hok f Hin) as (p' & Hp' & Hid & _). congruence.
    - right. unfold LRUReplacer.Victim in Hv.
      destruct (LRUReplacer.frames_ (replacer_ b)) as [|f' rest] eqn:Hfr; [done|].
      injection Hv as -> <-.
      destruct (ok_candidate b Hok f) as (p' & Hp' & Hm & _); [rewrite Hfr; by left|].
      congruence. }
  assert (∀ q g, page_table_ b !! q = Some g → g ≠ f → q ≠ page_id_ p) as Hother.
  { intros q g Hq Hne ->. destruct Hold as [[_ Hinv]|Hm]; [|congruence].
    destruct (ok_mapped b Hok _ _ Hq) as (? & _). done. }
  assert (∀ q g, page_table_ b !! q = Some g → q ≠ page_id_ p → g ≠ f) as Hframe.
  { intros q g Hq Hne ->. destruct (ok_mapped b Hok _ _ Hq) as (_ & _ & p' & Hp' & Hid).
    congruence. }
  split; simpl.
  - apply Hok.
  - pose proof (ok_next b Hok). lia.
  - done.
  - unfold set_page. rewrite length_insert. apply Hok.
  - destruct Hpick as [[_ ->]|(_ & _ & Hv)]; [apply Hok|].
    unfold LRUReplacer.Victim in Hv. pose proof (ok_replacer_nodup b Hok) as Hnd.
    destruct (LRUReplacer.frames_ (replacer_ b)) as [|f' rest] eqn:Hfr; [done|].
    injection Hv as -> <-. simpl. by apply NoDup_cons in Hnd as [_ ?].
  - destruct Hpick as [[_ ->]|(_ & _ & Hv)]; [apply Hok|].
    unfold LRUReplacer.Victim in Hv. pose proof (ok_replacer_nodup b Hok) as Hnd.
    pose proof (ok_replacer_table b Hok) as Htab.
    destruct (LRUReplacer.frames_ (replacer_ b)) as [|f' rest] eqn:Hfr; [done|].
    injection Hv as -> <-. simpl. apply NoDup_cons in Hnd as [Hnin _].
    intros g. rewrite elem_of_difference, Htab, elem_of_cons, elem_of_singleton.
    split; [naive_solver|]. intros Hg. split; [by right|]. by intros ->.
  - destruct Hpick as [[Hfl _]|(_ & -> & _)]; [|constructor].
    pose proof (ok_free_nodup b Hok) as Hnd. rewrite Hfl in Hnd.
    by apply NoDup_cons in Hnd as [_ ?].
  - intros g [Hg Hne]%Hfree_sub. destruct (ok_free b Hok g Hg) as (q & Hq & Hrest).
    exists q. split; [|done].
    pose proof (proj1 (page_at_Ret _ _ _) Hq) as [Hg0 _].
    by rewrite page_at_set_page_ne.
  - intros q g Hq. destruct (decide (q = pid)) as [->|Hne].
    + rewrite lookup_insert_eq in Hq. injection Hq as <-.
      split_and!; [done..|]. eexists. split; [by eapply page_at_set_page|done].
    + rewrite lookup_insert_ne in Hq by done.
      apply lookup_delete_Some in Hq as [Hne' Hq].
      destruct (ok_mapped b Hok _ _ Hq) as (Hv & Hl & p' & Hp' & Hid).
      split_and!; [done|lia|]. exists p'. split; [|done].
      pose proof (proj1 (page_at_Ret _ _ _) Hp') as [Hg0 _].
      rewrite page_at_set_page_ne; [done..|]. intros <-. by eapply Hframe.
  - intros g [Hg Hne]%Hrep_sub.
    destruct (ok_candidate b Hok g Hg) as (q & Hq & Hm & Hpin).
    exists q. pose proof (proj1 (page_at_Ret _ _ _) Hq) as [Hg0 _].
    split_and!; [by rewrite page_at_set_page_ne| |done].
    rewrite lookup_insert_ne by congruence.
    rewrite lookup_delete_ne; [done|]. intros Heq. by eapply Hother.
  - intros g q Hq. destruct (decide (g = f)) as [->|Hne].
    + right. rewrite (page_at_set_page _ _ _ _ Hp) in Hq. injection Hq as <-. simpl.
      by rewrite lookup_insert_eq.
    + pose proof (proj1 (page_at_Ret _ _ _) Hq) as [Hg0 _].
      rewrite page_at_set_page_ne in Hq by done.
      destruct (ok_accounted b Hok g q Hq) as [Hin|Hm]; [left; by apply Hfree_sup|].
      right. rewrite lookup_insert_ne by congruence.
      rewrite lookup_delete_ne; [done|]. intros Heq. by eapply Hother.
Qed.

Lemma Pin_frames f r g :
  NoDup (LRUReplacer.frames_ r) →
  (∀ g, g ∈ LRUReplacer.frames_table_ r ↔ g ∈ LRUReplacer.frames_ r) →
  g ∈ LRUReplacer.frames_ (LRUReplacer.Pin f r) ↔ g ∈ LRUReplacer.frames_ r ∧ g ≠ f.
Proof.
  intros Hnd Htab. unfold LRUReplacer.Pin.
  destruct (decide (f ∈ LRUReplacer.frames_table_ r)) as [Hin|Hnin]; simpl.
  - rewrite erase_node_filter by done. by rewrite list_elem_of_filter, (comm and).
  - rewrite Htab in Hnin. split; [|by intros [? _]]. intros Hg. split; [done|]. by intros ->.
Qed.

Lemma Pin_ok f r :
  NoDup (LRUReplacer.frames_ r) →
  (∀ g, g ∈ LRUReplacer.frames_table_ r ↔ g ∈ LRUReplacer.frames_ r) →
  NoDup (LRUReplacer.frames_ (LRUReplacer.Pin f r)) ∧
  (∀ g, g ∈ LRUReplacer.frames_table_ (LRUReplacer.Pin f r) ↔
        g ∈ LRUReplacer.frames_ (LRUReplacer.Pin f r)).
Proof.
  intros Hnd Htab. unfold LRUReplacer.Pin.
  destruct (decide (f ∈ LRUReplacer.frames_table_ r)) as [Hin|Hnin]; simpl; [|done].
  rewrite erase_node_filter by done. split; [by apply NoDup_filter|].
  intros g. rewrite elem_of_difference, list_elem_of_filter, Htab, elem_of_singleton. tauto.
Qed.

Lemma Unpin_frames f r g :
  (∀ g, g ∈ LRUReplacer.frames_table_ r ↔ g ∈ LRUReplacer.frames_ r) →
  g ∈ LRUReplacer.frames_ (LRUReplacer.Unpin f r) ↔ g ∈ LRUReplacer.frames_ r ∨ g = f.
Proof.
  intros Htab. unfold LRUReplacer.Unpin.
  destruct (decide (f ∈ LRUReplacer.frames_table_ r)) as [Hin|Hnin]; simpl.
  - rewrite Htab in Hin. split; [by left|]. by intros [?| ->].
  - by rewrite elem_of_app, list_elem_of_singleton.
Qed.

Lemma Unpin_ok f r :
  NoDup (LRUReplacer.frames_ r) →
  (∀ g, g ∈ LRUReplacer.frames_table_ r ↔ g ∈ LRUReplacer.frames_ r) →
  NoDup (LRUReplacer.frames_ (LRUReplacer.Unpin f r)) ∧
  (∀ g, g ∈ LRUReplacer.frames_table_ (LRUReplacer.Unpin f r) ↔
        g ∈ LRUReplacer.frames_ (LRUReplacer.Unpin f r)).
Proof.
  intros Hnd Htab. unfold LRUReplacer.Unpin.
  destruct (decide (f ∈ LRUReplacer.frames_table_ r)) as [Hin|Hnin]; simpl; [done|].
  rewrite Htab in Hnin. split.
  - apply NoDup_app. split_and!; [done| |apply NoDup_singleton].
    intros g Hg ->%list_elem_of_singleton. done.
  - intros g. rewrite elem_of_union, elem_of_singleton, elem_of_app, list_elem_of_singleton, Htab.
    tauto.
Qed.

(** The page in a frame is updated in place, under the same id. *)
Lemma pool_ok_update b f p p' replacer pid :
  pool_ok b → page_table_ b !! pid = Some f → page_at (pages_ b) f = Ret p →
  page_id_ p' = page_id_ p →
  NoDup (LRUReplacer.frames_ replacer) →
  (∀ g, g ∈ LRUReplacer.frames_table_ replacer ↔ g ∈ LRUReplacer.frames_ replacer) →
  (∀ g, g ∈ LRUReplacer.frames_ replacer → g ≠ f → g ∈ LRUReplacer.frames_ (replacer_ b)) →
  (f ∈ LRUReplacer.frames_ replacer → pin_count_ p' ≤ 0) →
  pool_ok (mk (pool_size_ b) (num_instances_ b) (instance_index_ b) (next_page_id_ b)
              (set_page (pages_ b) f p') replacer (free_list_ b) (page_table_ b) (disk_ b)).
Proof.
  intros Hok Hm Hp Hid Hnd Htab Hsub Hpin.
  pose proof (proj1 (page_at_Ret _ _ _) Hp) as [Hf0 _].
  pose proof (pool_ok_mapped_not_free b pid f Hok Hm) as Hnfree.
  destruct (ok_mapped b Hok _ _ Hm) as (_ & _ & p0 & Hp0 & Hpid).
  assert (p0 = p) as -> by congruence.
  split; simpl; try apply Hok; try done.
  - unfold set_page. rewrite length_insert. apply Hok.
  - intros g Hg. destruct (ok_free b Hok g Hg) as (q & Hq & Hrest).
    exists q. split; [|done].
    pose proof (proj1 (page_at_Ret _ _ _) Hq) as [Hg0 _].
    rewrite page_at_set_page_ne; [done..|]. by intros ->.
  - intros q g Hq. destruct (ok_mapped b Hok _ _ Hq) as (Hv & Hl & p1 & Hp1 & Hid1).
    split_and!; [done..|]. destruct (decide (g = f)) as [->|Hne].
    + exists p'. split; [by eapply page_at_set_page|]. congruence.
    + exists p1. pose proof (proj1 (page_at_Ret _ _ _) Hp1) as [Hg0 _].
      by rewrite page_at_set_page_ne.
  - intros g Hg. destruct (decide (g = f)) as [->|Hne].
    + exists p'. split_and!; [by eapply page_at_set_page|congruence|by apply Hpin].
    + destruct (ok_candidate b Hok g (Hsub g Hg Hne)) as (q & Hq & Hrest).
      exists q. pose proof (proj1 (page_at_Ret _ _ _) Hq) as [Hg0 _].
      by rewrite page_at_set_page_ne.
  - intros g q Hq. destruct (decide (g = f)) as [->|Hne].
    + right. rewrite (page_at_set_page _ _ _ _ Hp) in Hq. injection Hq as <-. congruence.
    + pose proof (proj1 (page_at_Ret _ _ _) Hq) as [Hg0 _].
      rewrite page_at_set_page_ne in Hq by done. by apply (ok_accounted b Hok).
Qed.

(** Only the disk changes. *)
Lemma pool_ok_disk b disk :
  pool_ok b →
  pool_ok (mk (pool_size_ b) (num_instances_ b) (instance_index_ b) (next_page_id_ b)
              (pages_ b) (replacer_ b) (free_list_ b) (page_table_ b) disk).
Proof. intros Hok. split; simpl; apply Hok. Qed.

(** The frame of an unpinned resident page goes back to the free list. *)
Lemma pool_ok_delete b f p pid disk :
  pool_ok b → page_table_ b !! pid = Some f → page_at (pages_ b) f = Ret p →
  pin_count_ p = 0 →
  pool_ok (mk (pool_size_ b) (num_instances_ b) (instance_index_ b) (next_page_id_ b)
              (set_page (pages_ b) f (mkPage zero_data INVALID_PAGE_ID (pin_count_ p) false))
              (LRUReplacer.Pin f (replacer_ b)) (free_list_ b ++ [f])
              (delete pid (page_table_ b)) disk).
Proof.
  intros Hok Hm Hp Hpin.
  pose proof (proj1 (page_at_Ret _ _ _) Hp) as [Hf0 _].
  pose proof (pool_ok_mapped_not_free b pid f Hok Hm) as Hnfree.
  destruct (Pin_ok f (replacer_ b)) as [Hnd Htab]; [apply Hok..|].
  split; simpl; try apply Hok; try done.
  - unfold set_page. rewrite length_insert. apply Hok.
  - apply NoDup_app. split_and!; [apply Hok| |apply NoDup_singleton].
    intros g Hg ->%list_elem_of_singleton. done.
  - intros g [Hg| ->%list_elem_of_singleton]%elem_of_app.
    + destruct (ok_free b Hok g Hg) as (q & Hq & Hrest).
      exists q. split; [|done].
      pose proof (proj1 (page_at_Ret _ _ _) Hq) as [Hg0 _].
      rewrite page_at_set_page_ne; [done..|]. by intros ->.
    + eexists. split; [by eapply page_at_set_page|]. by simpl.
  - intros q g [Hne Hq]%lookup_delete_Some.
    destruct (ok_mapped b Hok _ _ Hq) as (Hv & Hl & p1 & Hp1 & Hid1).
    split_and!; [done..|]. exists p1. split; [|done].
    pose proof (proj1 (page_at_Ret _ _ _) Hp1) as [Hg0 _].
    rewrite page_at_set_page_ne; [done..|]. intros <-.
    apply Hne. by eapply pool_ok_mapped_inj.
  - intros g [Hg Hne]%Pin_frames; [|apply Hok..].
    destruct (ok_candidate b Hok g Hg) as (q & Hq & Hmq & Hpq).
    exists q. pose proof (proj1 (page_at_Ret _ _ _) Hq) as [Hg0 _].
    split_and!; [by rewrite page_at_set_page_ne| |done].
    rewrite lookup_delete_ne; [done|]. intros Heq. congruence.
  - intros g q Hq. destruct (decide (g = f)) as [->|Hne].
    + left. apply elem_of_app. right. by apply list_elem_of_singleton.
    + pose proof (proj1 (page_at_Ret _ _ _) Hq) as [Hg0 _].
      rewrite page_at_set_page_ne in Hq by done.
      destruct (ok_accounted b Hok g q Hq) as [Hin|Hmq].
      * left. apply elem_of_app. by left.
      * right. rewrite lookup_delete_ne; [done|]. intros Heq. congruence.
Qed.

(** The frame [NewPgImp] and [FetchPgImp] pick: a frame of the pool whose
    page is not pinned, free or holding a resident page. *)
Lemma pick_frame_spec b :
  pool_ok b → ¬ (free_list_ b = [] ∧ LRUReplacer.frames_ (replacer_ b) = []) →
  ∃ f free replacer p,
    pick_frame b = (f, free, replacer) ∧ page_at (pages_ b) f = Ret p ∧
    ((free_list_ b = f :: free ∧ replacer = replacer_ b) ∨
     (free_list_ b = [] ∧ free = [] ∧
      LRUReplacer.Victim (replacer_ b) = (Some f, replacer))) ∧
    pin_count_ p ≤ 0 ∧
    (f ∈ free_list_ b ∧ page_id_ p = INVALID_PAGE_ID ∧ is_dirty_ p = false ∨
     page_table_ b !! page_id_ p = Some f).
Proof.
  intros Hok Hsome. unfold pick_frame.
  destruct (free_list_ b) as [|f rest] eqn:Hfl.
  - unfold LRUReplacer.Victim.
    destruct (LRUReplacer.frames_ (replacer_ b)) as [|f rest] eqn:Hfr; [by destruct Hsome|].
    destruct (ok_candidate b Hok f) as (p & Hp & Hm & Hpin); [rewrite Hfr; by left|].
    exists f, [], (LRUReplacer.mk rest (LRUReplacer.frames_table_ (replacer_ b) ∖ {[f]})), p.
    split_and!; [done..| |done|by right]. right. done.
  - destruct (ok_free b Hok f) as (p & Hp & Hid & Hpin & Hdirty); [rewrite Hfl; by left|].
    exists f, rest, (replacer_ b), p.
    split_and!; [done..|by left|lia|]. left. split_and!; [by left|done..].
Qed.

Lemma NewPgImp_pool_ok b :
  pool_ok b → next_page_id_ b + num_instances_ b < 2 ^ 31 →
  ∃ r b', NewPgImp b = Ret (r, b') ∧ pool_ok b'.
Proof.
  intros Hok Hroom. unfold NewPgImp. change (2 ^ 31) with 2147483648 in Hroom.
  destruct (bool_decide _ && bool_decide _) eqn:Hnull; [by eauto|].
  apply not_true_iff_false in Hnull. rewrite NewPgImp_null_iff in Hnull.
  destruct (pick_frame_spec b Hok Hnull) as (f & free & replacer & p & -> & Hp & Hpick & _).
  rewrite Hp. simpl.
  pose proof (ok_instances b Hok) as Hinst. pose proof (ok_next b Hok) as Hnext.
  unfold AllocatePage, ValidatePageId. simpl.
  rewrite decide_False by lia.
  unfold assert. rewrite bool_decide_eq_true_2.
  2: { unfold to_uint32. change (2 ^ 32) with 4294967296.
       rewrite (Z.mod_small (next_page_id_ b)) by lia. apply Hok. }
  simpl. eexists _, _. split; [reflexivity|].
  rewrite to_int32_small by (change (2 ^ 31) with 2147483648; lia).
  change (to_int32 (0 + 1)) with 1.
  apply pool_ok_install; [done..| |unfold INVALID_PAGE_ID; lia|lia|lia|].
  - destruct (page_table_ b !! next_page_id_ b) as [g|] eqn:Hg; [|done].
    destruct (ok_mapped b Hok _ _ Hg) as (_ & ? & _). lia.
  - replace (next_page_id_ b + num_instances_ b)
      with (next_page_id_ b + 1 * num_instances_ b) by lia.
    rewrite Z.mod_add by lia. apply Hok.
Qed.

Lemma FetchPgImp_pool_ok b pid :
  pool_ok b → pid ≠ INVALID_PAGE_ID → pid < next_page_id_ b →
  ∃ r b', FetchPgImp b pid = Ret (r, b') ∧ pool_ok b'.
Proof.
  intros Hok Hvalid Hlt. unfold FetchPgImp.
  destruct (page_table_ b !! pid) as [f|] eqn:Hm.
  - destruct (ok_mapped b Hok _ _ Hm) as (_ & _ & p & Hp & Hid).
    rewrite Hp. simpl. eexists _, _. split; [reflexivity|].
    destruct (Pin_ok f (replacer_ b)) as [Hnd Htab]; [apply Hok..|].
    eapply pool_ok_update; [done..| |].
    + intros g Hg _. apply Pin_frames in Hg as [? _]; [done|apply Hok..].
    + intros Hf. apply Pin_frames in Hf as [_ ?]; [done|apply Hok..].
  - destruct (bool_decide _ && bool_decide _) eqn:Hnull; [by eauto|].
    apply not_true_iff_false in Hnull. rewrite NewPgImp_null_iff in Hnull.
    destruct (pick_frame_spec b Hok Hnull) as (f & free & replacer & p & -> & Hp & Hpick & _).
    rewrite Hp. simpl. eexists _, _. split; [reflexivity|].
    change (to_int32 (0 + 1)) with 1.
    apply pool_ok_install; [done..|lia|apply Hok].
Qed.

Lemma UnpinPgImp_pool_ok b pid is_dirty :
  pool_ok b → (∀ n, pin_count_of b pid = Some n → - 2 ^ 31 < n) →
  ∃ r b', UnpinPgImp b pid is_dirty = Ret (r, b') ∧ pool_ok b'.
Proof.
  intros Hok Hlow. unfold UnpinPgImp. unfold pin_count_of in Hlow.
  destruct (page_table_ b !! pid) as [f|] eqn:Hm; [|by eauto].
  destruct (ok_mapped b Hok _ _ Hm) as (_ & _ & p & Hp & Hid).
  rewrite Hp in Hlow |- *. simpl. specialize (Hlow _ eq_refl).
  change (2 ^ 31) with 2147483648 in Hlow.
  eexists _, _. split; [reflexivity|].
  pose proof (ok_replacer_nodup b Hok) as Hnd. pose proof (ok_replacer_table b Hok) as Htab.
  case_bool_decide as Hz.
  - destruct (Unpin_ok f (replacer_ b) Hnd Htab) as [Hnd' Htab'].
    eapply pool_ok_update; [done..| |].
    + intros g Hg Hne. apply Unpin_frames in Hg as [?|?]; done.
    + intros _. simpl. lia.
  - eapply pool_ok_update; [done..| |].
    + by intros g Hg _.
    + intros Hf. simpl. destruct (ok_candidate b Hok f Hf) as (p' & Hp' & _ & Hpin).
      assert (p' = p) as -> by congruence.
      rewrite to_int32_small by (change (2 ^ 31) with 2147483648; lia). lia.
Qed.

Lemma DeletePgImp_pool_ok b pid :
  pool_ok b → ∃ r b', DeletePgImp b pid = Ret (r, b') ∧ pool_ok b'.
Proof.
  intros Hok. unfold DeletePgImp.
  destruct (page_table_ b !! pid) as [f|] eqn:Hm; [|by eauto].
  destruct (ok_mapped b Hok _ _ Hm) as (_ & _ & p & Hp & Hid).
  rewrite Hp. simpl. case_bool_decide as Hpin; [by eauto|].
  eexists _, _. split; [reflexivity|]. apply pool_ok_delete; [done..|]. lia.
Qed.

Lemma FlushPgImp_pool_ok b pid :
  pool_ok b → ∃ r b', FlushPgImp b pid = Ret (r, b') ∧ pool_ok b'.
Proof.
  intros Hok. unfold FlushPgImp.
  destruct (page_table_ b !! pid) as [f|] eqn:Hm; [|by eauto].
  destruct (ok_mapped b Hok _ _ Hm) as (_ & _ & p & Hp & Hid).
  rewrite Hp. simpl. eexists _, _. split; [reflexivity|]. by apply pool_ok_disk.
Qed.

Lemma FlushAllPgsImp_loop_returns order pages disk :
  (∀ e, e ∈ order → ∃ p, page_at pages e.2 = Ret p) →
  ∃ disk', FlushAllPgsImp_loop order pages disk = Ret disk'.
Proof.
  revert disk. induction order as [|e order IH]; intros disk Hall; simpl; [by eauto|].
  destruct (Hall e) as [p Hp]; [by left|]. rewrite Hp. simpl.
  apply IH. intros e' He'. apply Hall. by right.
Qed.

Lemma FlushAllPgsImp_pool_ok b order :
  pool_ok b → (∀ e, e ∈ order → page_table_ b !! e.1 = Some e.2) →
  ∃ b', FlushAllPgsImp order b = Ret b' ∧ pool_ok b'.
Proof.
  intros Hok Horder. unfold FlushAllPgsImp.
  destruct (FlushAllPgsImp_loop_returns order (pages_ b) (disk_ b)) as [disk' ->].
  { intros e He. destruct (ok_mapped b Hok _ _ (Horder e He)) as (_ & _ & p & Hp & _). eauto. }
  simpl. eexists. split; [reflexivity|]. by apply pool_ok_disk.
Qed.

Lemma step_pool_ok b o :
  pool_ok b → allowed b o → ∃ b', step b o = Ret b' ∧ pool_ok b'.
Proof.
  intros Hok Hpre. destruct o as [|pid|pid d|pid|pid|]; simpl in *.
  - destruct (NewPgImp_pool_ok b Hok Hpre) as (r & b' & -> & Hok'). simpl. eauto.
  - destruct Hpre as (Hv & Hlt & _).
    destruct (FetchPgImp_pool_ok b pid Hok Hv Hlt) as (r & b' & -> & Hok'). simpl. eauto.
  - destruct (UnpinPgImp_pool_ok b pid d Hok Hpre) as (r & b' & -> & Hok'). simpl. eauto.
  - destruct (DeletePgImp_pool_ok b pid Hok) as (r & b' & -> & Hok'). simpl. eauto.
  - destruct (FlushPgImp_pool_ok b pid Hok) as (r & b' & -> & Hok'). simpl. eauto.
  - apply FlushAllPgsImp_pool_ok; [done|].
    intros [q g] He. by apply elem_of_map_to_list in He.
Qed.

Lemma run_pool_ok b ops :
  pool_ok b → allowed_run b ops → ∃ b', run b ops = Ret b' ∧ pool_ok b'.
Proof.
  revert b. induction ops as [|o ops IH]; intros b Hok Hrun; simpl in *; [by eauto|].
  destruct Hrun as [Hpre Hrest].
  destruct (step_pool_ok b o Hok Hpre) as (b' & Hstep & Hok').
  rewrite Hstep in Hrest |- *. simpl. by apply IH.
Qed.

Lemma new_Ret pool_size ninst idx b :
  new pool_size ninst idx = Ret b ↔
  0 < ninst ∧ idx < ninst ∧
  b = mk pool_size ninst idx idx (replicate pool_size fresh_page) LRUReplacer.empty
         (Z.of_nat <$> seq 0 pool_size) ∅ ∅.
Proof.
  unfold new, assert.
  repeat case_bool_decide; simpl; (split; [|intros (? & ? & ->)]);
    try done; try lia.
  by intros [= <-].
Qed.

Lemma new_pool_ok pool_size ninst idx b :
  new pool_size ninst idx = Ret b → 0 ≤ idx → pool_ok b.
Proof.
  intros (Hinst & Hidx & ->)%new_Ret Hidx0.
  assert (∀ f, f ∈ Z.of_nat <$> seq 0 pool_size → 0 ≤ f < Z.of_nat pool_size) as Hfree.
  { intros f (i & -> & Hi)%list_elem_of_fmap. apply elem_of_seq in Hi. lia. }
  assert (∀ f p, page_at (replicate pool_size fresh_page) f = Ret p →
                 0 ≤ f < Z.of_nat pool_size ∧ p = fresh_page) as Hpage.
  { intros f p [Hf Hp]%page_at_Ret. apply lookup_replicate in Hp as [-> Hlt].
    split; [lia|done]. }
  split; simpl.
  - done.
  - done.
  - by apply Z.mod_small.
  - by rewrite length_replicate.
  - constructor.
  - intros f. set_solver.
  - apply NoDup_fmap; [intros ???; lia|apply NoDup_seq].
  - intros f Hf%Hfree. exists fresh_page. split; [|done].
    apply page_at_Ret. split; [lia|]. apply lookup_replicate. split; [done|lia].
  - intros pid f Hm. by rewrite lookup_empty in Hm.
  - by intros f Hf%elem_of_nil.
  - intros f p [Hf ->]%Hpage. left. apply list_elem_of_fmap. exists (Z.to_nat f).
    split; [lia|]. apply elem_of_seq. lia.
Qed.

(** The two ways [NewPgImp] ends on a pool whose books are in order. *)
Lemma NewPgImp_cases b r b' :
  pool_ok b → NewPgImp b = Ret (r, b') →
  (free_list_ b = [] ∧ LRUReplacer.frames_ (replacer_ b) = [] ∧ r = None ∧ b' = b) ∨
  ∃ f free replacer victim,
    pick_frame b = (f, free, replacer) ∧ page_at (pages_ b) f = Ret victim ∧
    pin_count_ victim ≤ 0 ∧
    (f ∈ free_list_ b ∧ page_id_ victim = INVALID_PAGE_ID ∧ is_dirty_ victim = false ∨
     page_table_ b !! page_id_ victim = Some f) ∧
    r = Some (next_page_id_ b, f) ∧
    b' = mk (pool_size_ b) (num_instances_ b) (instance_index_ b)
            (to_int32 (next_page_id_ b + num_instances_ b))
            (set_page (pages_ b) f (mkPage zero_data (next_page_id_ b) 1 false))
            replacer free
            (<[next_page_id_ b := f]> (delete (page_id_ victim) (page_table_ b)))
            (if is_dirty_ victim
             then WritePage (disk_ b) (page_id_ victim) (data_ victim)
             else disk_ b).
Proof.
  intros Hok. unfold NewPgImp.
  destruct (bool_decide _ && bool_decide _) eqn:Hnull.
  { apply NewPgImp_null_iff in Hnull as [? ?]. intros [= <- <-]. by left. }
  apply not_true_iff_false in Hnull. rewrite NewPgImp_null_iff in Hnull.
  destruct (pick_frame_spec b Hok Hnull)
    as (f & free & replacer & p & Hpf & Hp & Hpick & Hpin & Hwhere).
  rewrite Hpf, Hp. simpl. intros Hret. right. exists f, free, replacer, p.
  split_and!; [done..| |].
  - match type of Hret with
    | AllocatePage ?s ≫= _ = _ => destruct (AllocatePage s) as [[pid b1]| |] eqn:Ha
    end; [|done..].
    apply AllocatePage_Ret in Ha as (_ & _ & -> & ->). simpl in Hret. by injection Hret as <- _.
  - match type of Hret with
    | AllocatePage ?s ≫= _ = _ => destruct (AllocatePage s) as [[pid b1]| |] eqn:Ha
    end; [|done..].
    apply AllocatePage_Ret in Ha as (_ & _ & -> & ->). simpl in Hret. by injection Hret as _ <-.
Qed.

(** The three ways [FetchPgImp] ends on a pool whose books are in order: the
    page is resident and pinned once more; it is not and no frame can be
    had; or it is read from disk into a frame whose page is not pinned. *)
Lemma FetchPgImp_cases b pid :
  pool_ok b →
  match page_table_ b !! pid with
  | Some f =>
      ∃ p, page_at (pages_ b) f = Ret p ∧ page_id_ p = pid ∧
        FetchPgImp b pid =
          Ret (Some f,
               mk (pool_size_ b) (num_instances_ b) (instance_index_ b) (next_page_id_ b)
                  (set_page (pages_ b) f
                     (mkPage (data_ p) pid (to_int32 (pin_count_ p + 1)) (is_dirty_ p)))
                  (LRUReplacer.Pin f (replacer_ b))
                  (free_list_ b) (page_table_ b) (disk_ b))
  | None =>
      (free_list_ b = [] ∧ LRUReplacer.frames_ (replacer_ b) = [] ∧
       FetchPgImp b pid = Ret (None, b)) ∨
      ∃ f free replacer victim,
        pick_frame b = (f, free, replacer) ∧ page_at (pages_ b) f = Ret victim ∧
        pin_count_ victim ≤ 0 ∧
        (f ∈ free_list_ b ∧ page_id_ victim = INVALID_PAGE_ID ∧ is_dirty_ victim = false ∨
         page_table_ b !! page_id_ victim = Some f) ∧
        FetchPgImp b pid =
          Ret (Some f,
               mk (pool_size_ b) (num_instances_ b) (instance_index_ b) (next_page_id_ b)
                  (set_page (pages_ b) f (mkPage (ReadPage (disk_ b) pid) pid 1 false))
                  replacer free
                  (<[pid := f]> (delete (page_id_ victim) (page_table_ b)))
                  (if is_dirty_ victim
                   then WritePage (disk_ b) (page_id_ victim) (data_ victim)
                   else disk_ b))
  end.
Proof.
  intros Hok. unfold FetchPgImp.
  destruct (page_table_ b !! pid) as [f|] eqn:Hm.
  - destruct (ok_mapped b Hok _ _ Hm) as (_ & _ & p & Hp & Hid).
    exists p. rewrite Hp. simpl. by rewrite Hid.
  - destruct (bool_decide _ && bool_decide _) eqn:Hnull.
    { apply NewPgImp_null_iff in Hnull as [? ?]. by left. }
    apply not_true_iff_false in Hnull. rewrite NewPgImp_null_iff in Hnull.
    destruct (pick_frame_spec b Hok Hnull)
      as (f & free & replacer & p & Hpf & Hp & Hpick & Hpin & Hwhere).
    right. exists f, free, replacer, p. rewrite Hpf, Hp. simpl.
    split_and!; [done..|]. change (to_int32 (0 + 1)) with 1. do 4 f_equal.
    destruct (is_dirty_ p) eqn:Hdirty; [|done].
    destruct Hwhere as [(_ & _ & ?)|Hv]; [congruence|].
    unfold ReadPage, WritePage. rewrite lookup_insert_ne; [done|]. congruence.
Qed.

(** A frame that is picked is never the frame of a pinned page. *)
Lemma picked_other b pid f p g q :
  pool_ok b → page_table_ b !! pid = Some f → page_at (pages_ b) f = Ret p →
  0 < pin_count_ p →
  page_at (pages_ b) g = Ret q → pin_count_ q ≤ 0 →
  (g ∈ free_list_ b ∧ page_id_ q = INVALID_PAGE_ID ∧ is_dirty_ q = false ∨
   page_table_ b !! page_id_ q = Some g) →
  g ≠ f ∧ page_id_ q ≠ pid.
Proof.
  intros Hok Hm Hp Hpin Hq Hqpin Hwhere.
  assert (g ≠ f) as Hne by (intros ->; assert (q = p) by congruence; subst; lia).
  split; [done|]. intros Heq.
  destruct (ok_mapped b Hok _ _ Hm) as (Hv & _).
  destruct Hwhere as [(_ & ? & _)|Hg]; congruence.
Qed.

Lemma installed_elsewhere b pid f p g q n x :
  pool_ok b → page_table_ b !! pid = Some f → page_at (pages_ b) f = Ret p →
  g ≠ f → page_id_ q ≠ pid → n ≠ pid → page_at (pages_ b) g = Ret q →
  (<[n := g]> (delete (page_id_ q) (page_table_ b))) !! pid = Some f ∧
  page_at (set_page (pages_ b) g x) f = Ret p.
Proof.
  intros Hok Hm Hp Hne Hid Hn Hq.
  rewrite lookup_insert_ne, lookup_delete_ne by done. split; [done|].
  pose proof (proj1 (page_at_Ret _ _ _) Hp) as [Hf0 _].
  pose proof (proj1 (page_at_Ret _ _ _) Hq) as [Hg0 _].
  by rewrite page_at_set_page_ne.
Qed.

Lemma FlushAllPgsImp_Ret order b b' :
  FlushAllPgsImp order b = Ret b' →
  pages_ b' = pages_ b ∧ page_table_ b' = page_table_ b ∧
  replacer_ b' = replacer_ b ∧ free_list_ b' = free_list_ b ∧
  next_page_id_ b' = next_page_id_ b.
Proof.
  unfold FlushAllPgsImp.
  destruct (FlushAllPgsImp_loop order (pages_ b) (disk_ b)); simpl; [|done..].
  by intros [= <-].
Qed.

Lemma in_range_seq f n : 0 ≤ f < Z.of_nat n ↔ f ∈ Z.of_nat <$> seq 0 n.
Proof.
  rewrite list_elem_of_fmap. split.
  - intros Hf. exists (Z.to_nat f). split; [lia|]. apply elem_of_seq. lia.
  - intros (i & -> & Hi). apply elem_of_seq in Hi. lia.
Qed.

Lemma mapped_frames_nodup b : pool_ok b → NoDup ((map_to_list (page_table_ b)).*2).
Proof.
  intros Hok. apply NoDup_fmap_2_strong; [|apply NoDup_map_to_list].
  intros [q1 g1] [q2 g2] H1%elem_of_map_to_list H2%elem_of_map_to_list Heq.
  simpl in Heq. subst. f_equal. by eapply pool_ok_mapped_inj.
Qed.

Lemma mapped_frames_elem b f :
  f ∈ (map_to_list (page_table_ b)).*2 ↔ ∃ pid, page_table_ b !! pid = Some f.
Proof.
  rewrite list_elem_of_fmap. split.
  - intros ([q g] & -> & He). apply elem_of_map_to_list in He. by exists q.
  - intros [q Hq]. exists (q, f). split; [done|]. by apply elem_of_map_to_list.
Qed.

(** The frames of the pool are the free frames and the frames of the
    resident pages, each once. *)
Lemma frames_split b :
  pool_ok b →
  free_list_ b ++ (map_to_list (page_table_ b)).*2 ≡ₚ Z.of_nat <$> seq 0 (pool_size_ b).
Proof.
  intros Hok. apply NoDup_Permutation.
  - apply NoDup_app. split_and!; [apply Hok| |by apply mapped_frames_nodup].
    intros f Hf [q Hq]%mapped_frames_elem. by eapply pool_ok_mapped_not_free.
  - apply NoDup_fmap; [intros ???; lia|apply NoDup_seq].
  - intros f. rewrite elem_of_app, <- in_range_seq, mapped_frames_elem. split.
    + intros [Hf|[q Hq]].
      * destruct (ok_free b Hok f Hf) as (p & Hp & _). by eapply pool_ok_in_range.
      * destruct (ok_mapped b Hok _ _ Hq) as (_ & _ & p & Hp & _). by eapply pool_ok_in_range.
    + intros Hf. destruct (page_at_in_range (pages_ b) f) as [p Hp].
      { by rewrite (ok_length b Hok). }
      destruct (ok_accounted b Hok f p Hp) as [?|Hm]; [by left|right; eauto].
Qed.

Lemma start_new : new 2 1 0 = Ret PoolScenario.start.
Proof. reflexivity. Qed.

Lemma after_pool_ok ops :
  allowed_run PoolScenario.start ops →
  run PoolScenario.start ops = Ret (PoolScenario.after ops) ∧
  pool_ok (PoolScenario.after ops).
Proof.
  intros Hrun. unfold PoolScenario.after.
  destruct (run_pool_ok PoolScenario.start ops) as (b & -> & Hok); [|done..].
  by apply (new_pool_ok 2 1 0).
Qed.

Lemma allowedb_true b o : allowedb b o = true → allowed b o.
Proof.
  destruct o as [|pid|pid d|pid|pid|]; simpl; try done.
  - by intros ?%bool_decide_eq_true.
  - intros [[Hv%bool_decide_eq_true Hl%bool_decide_eq_true]%andb_true_iff Hpin]%andb_true_iff.
    split_and!; [done..|]. intros n Hn. rewrite Hn in Hpin.
    by apply bool_decide_eq_true in Hpin.
  - intros Hpin n Hn. rewrite Hn in Hpin. by apply bool_decide_eq_true in Hpin.
Qed.

Lemma allowed_runb_true b ops : allowed_runb b ops = true → allowed_run b ops.
Proof.
  revert b. induction ops as [|o ops IH]; intros b; simpl; [done|].
  intros [Ho Hrest]%andb_true_iff. split; [by apply allowedb_true|].
  destruct (step b o); [by apply IH|done..].
Qed.

Lemma busy_allowed : allowed_run PoolScenario.start PoolScenario.busy_ops.
Proof. apply allowed_runb_true. vm_compute. reflexivity. Qed.

Lemma busy_pool_ok : pool_ok PoolScenario.busy.
Proof. apply after_pool_ok, busy_allowed. Qed.

End BufferPoolInvariant.

Section BufferPoolTheorems.
Import BufferPoolManagerInstance.

Lemma scenario_allowed : allowed_run PoolScenario.start PoolScenario.ops.
Proof. apply allowed_runb_true. vm_compute. reflexivity. Qed.

(** From its construction on, and whatever the calls, as long as each of them
    is allowed where it is made: every call returns (no frame index leaves
    the frame array, the assertion of the allocator holds) and the books of
    the pool are in order after it. *)
Theorem pool_books_stay_in_order
    (pool_size : nat) (num_instances instance_index : Z) (ops : list op) (b0 : t) :
  new pool_size num_instances instance_index = Ret b0 →
  0 ≤ instance_index →
  allowed_run b0 ops →
  ∃ b, run b0 ops = Ret b ∧ pool_ok b.
Proof.
  intros Hnew Hidx Hrun. apply run_pool_ok; [|done]. by eapply new_pool_ok.
Qed.

Lemma pool_books_stay_in_order_witness :
  ∃ b, run PoolScenario.start PoolScenario.ops = Ret b ∧ pool_ok b.
Proof.
  apply (pool_books_stay_in_order 2 1 0 PoolScenario.ops PoolScenario.start).
  - reflexivity.
  - lia.
  - exact scenario_allowed.
Defined.

(** On a pool whose books are in order, the free frames and the resident
    pages together fill the pool: their numbers add up to the pool size, two
    resident pages never share a frame, no free frame holds a resident page,
    and the replacer's candidates are frames of resident pages, so that
    [Size] is at most the number of resident pages. *)
Theorem pool_frames_are_accounted (b : t) :
  pool_ok b →
  (size (page_table_ b) + length (free_list_ b))%nat = pool_size_ b ∧
  (∀ pid1 pid2 f,
     page_table_ b !! pid1 = Some f → page_table_ b !! pid2 = Some f → pid1 = pid2) ∧
  (∀ pid f, page_table_ b !! pid = Some f →
     0 ≤ f < Z.of_nat (pool_size_ b) ∧ f ∉ free_list_ b) ∧
  (∀ f, f ∈ LRUReplacer.frames_ (replacer_ b) → ∃ pid, page_table_ b !! pid = Some f) ∧
  (LRUReplacer.Size (replacer_ b) ≤ size (page_table_ b))%nat.
Proof.
  intros Hok. split_and!.
  - pose proof (frames_split b Hok) as Hperm. apply Permutation_length in Hperm.
    rewrite length_app, !length_fmap, length_seq, length_map_to_list in Hperm. lia.
  - intros pid1 pid2 f. by apply pool_ok_mapped_inj.
  - intros pid f Hm. split; [|by eapply pool_ok_mapped_not_free].
    destruct (ok_mapped b Hok _ _ Hm) as (_ & _ & p & Hp & _). by eapply pool_ok_in_range.
  - intros f Hf. destruct (ok_candidate b Hok f Hf) as (p & _ & Hm & _). eauto.
  - unfold LRUReplacer.Size.
    rewrite <- (length_map_to_list (page_table_ b)), <- (length_fmap snd).
    apply submseteq_length, NoDup_submseteq; [apply Hok|].
    intros f Hf. apply mapped_frames_elem.
    destruct (ok_candidate b Hok f Hf) as (p & _ & Hm & _). eauto.
Qed.

Lemma pool_frames_are_accounted_witness :
  (size (page_table_ PoolScenario.busy) + length (free_list_ PoolScenario.busy))%nat
    = pool_size_ PoolScenario.busy.
Proof.
  exact (proj1 (pool_frames_are_accounted PoolScenario.busy busy_pool_ok)).
Defined.

(** A pinned page stays where it is: on a pool whose books are in order, a
    call other than [FetchPgImp] and [UnpinPgImp] of the page itself leaves
    a resident page with a positive pin count in its frame, with its bytes,
    its pin count and its dirty flag. *)
Theorem pinned_page_stays_resident (b : t) (pid f : Z) (p : Page) (o : op) (b' : t) :
  pool_ok b →
  page_table_ b !! pid = Some f → page_at (pages_ b) f = Ret p → 0 < pin_count_ p →
  o ≠ OFetchPg pid → (∀ d, o ≠ OUnpinPg pid d) →
  step b o = Ret b' →
  page_table_ b' !! pid = Some f ∧ page_at (pages_ b') f = Ret p.
Proof.
  intros Hok Hm Hp Hpin Hnf Hnu Hstep.
  pose proof (proj1 (page_at_Ret _ _ _) Hp) as [Hf0 _].
  destruct (ok_mapped b Hok _ _ Hm) as (Hvalid & Hlt & _).
  destruct o as [|q|q d|q|q|]; simpl in Hstep.
  - destruct (NewPgImp b) as [[r b1]| |] eqn:E; simpl in Hstep; [|done..].
    injection Hstep as <-.
    destruct (NewPgImp_cases b r b1 Hok E)
      as [(_ & _ & _ & ->)|(g & free & rep & v & _ & Hv & Hvpin & Hwhere & _ & ->)]; [done|].
    simpl. destruct (picked_other b pid f p g v) as [Hne Hid]; [done..|].
    eapply installed_elsewhere; [done..|lia|done].
  - assert (q ≠ pid) as Hq by congruence.
    pose proof (FetchPgImp_cases b q Hok) as Hcases.
    destruct (page_table_ b !! q) as [g|] eqn:Hmq.
    + destruct Hcases as (v & Hv & Hid & E). rewrite E in Hstep. simpl in Hstep.
      injection Hstep as <-. simpl. split; [done|].
      pose proof (proj1 (page_at_Ret _ _ _) Hv) as [Hg0 _].
      rewrite page_at_set_page_ne; [done..|]. intros ->.
      apply Hq. by eapply pool_ok_mapped_inj.
    + destruct Hcases as [(_ & _ & E)|(g & free & rep & v & _ & Hv & Hvpin & Hwhere & E)];
        rewrite E in Hstep; simpl in Hstep; injection Hstep as <-; [done|].
      simpl. destruct (picked_other b pid f p g v) as [Hne Hid]; [done..|].
      by eapply installed_elsewhere.
  - assert (q ≠ pid) as Hq by (intros ->; by eapply Hnu).
    unfold UnpinPgImp in Hstep.
    destruct (page_table_ b !! q) as [g|] eqn:Hmq; simpl in Hstep; [|by injection Hstep as <-].
    destruct (ok_mapped b Hok _ _ Hmq) as (_ & _ & v & Hv & Hid).
    rewrite Hv in Hstep. simpl in Hstep. injection Hstep as <-. simpl. split; [done|].
    pose proof (proj1 (page_at_Ret _ _ _) Hv) as [Hg0 _].
    rewrite page_at_set_page_ne; [done..|]. intros ->.
    apply Hq. by eapply pool_ok_mapped_inj.
  - unfold DeletePgImp in Hstep.
    destruct (page_table_ b !! q) as [g|] eqn:Hmq; simpl in Hstep; [|by injection Hstep as <-].
    destruct (ok_mapped b Hok _ _ Hmq) as (_ & _ & v & Hv & Hid).
    rewrite Hv in Hstep. simpl in Hstep.
    case_bool_decide as Hz; simpl in Hstep; injection Hstep as <-; [done|]. simpl.
    assert (g ≠ f) as Hne by (intros ->; assert (v = p) by congruence; subst; lia).
    assert (q ≠ pid) as Hq by (intros ->; congruence).
    rewrite lookup_delete_ne by done. split; [done|].
    pose proof (proj1 (page_at_Ret _ _ _) Hv) as [Hg0 _].
    by rewrite page_at_set_page_ne.
  - unfold FlushPgImp in Hstep.
    destruct (page_table_ b !! q) as [g|] eqn:Hmq; simpl in Hstep; [|by injection Hstep as <-].
    destruct (ok_mapped b Hok _ _ Hmq) as (_ & _ & v & Hv & Hid).
    rewrite Hv in Hstep. simpl in Hstep. by injection Hstep as <-.
  - apply FlushAllPgsImp_Ret in Hstep as (-> & -> & _). done.
Qed.

Lemma pinned_page_stays_resident_witness :
  page_table_ PoolScenario.evicting !! 1 = Some 1 ∧
  page_at (pages_ PoolScenario.evicting) 1 = Ret PoolScenario.page1.
Proof.
  apply (pinned_page_stays_resident PoolScenario.busy 1 1 PoolScenario.page1 ONewPg).
  - exact busy_pool_ok.
  - vm_compute. reflexivity.
  - vm_compute. reflexivity.
  - reflexivity.
  - discriminate.
  - discriminate.
  - vm_compute. reflexivity.
Defined.

(** [FetchPgImp] on a pool whose books are in order always returns.  A
    resident page is pinned once more where it is and taken from the
    replacer, without any disk access.  A page that is not resident cannot
    be had when the free list and the replacer are both empty, and the pool
    stays as it was.  Otherwise it goes into the first free frame or, when
    there is none, the replacer's victim, a frame whose page is not pinned:
    that page is written to disk if it is dirty and unmapped, and the frame
    holds the bytes the disk had for the fetched page, pinned once and
    clean. *)
Theorem FetchPgImp_contract (b : t) (pid : Z) :
  pool_ok b →
  match page_table_ b !! pid with
  | Some f =>
      ∃ p, page_at (pages_ b) f = Ret p ∧ page_id_ p = pid ∧
        FetchPgImp b pid =
          Ret (Some f,
               mk (pool_size_ b) (num_instances_ b) (instance_index_ b) (next_page_id_ b)
                  (set_page (pages_ b) f
                     (mkPage (data_ p) pid (to_int32 (pin_count_ p + 1)) (is_dirty_ p)))
                  (LRUReplacer.Pin f (replacer_ b))
                  (free_list_ b) (page_table_ b) (disk_ b))
  | None =>
      (free_list_ b = [] ∧ LRUReplacer.frames_ (replacer_ b) = [] ∧
       FetchPgImp b pid = Ret (None, b)) ∨
      ∃ f free replacer victim,
        pick_frame b = (f, free, replacer) ∧
        (head (free_list_ b) = Some f ∨
         free_list_ b = [] ∧ head (LRUReplacer.frames_ (replacer_ b)) = Some f) ∧
        page_at (pages_ b) f = Ret victim ∧
        pin_count_ victim ≤ 0 ∧
        FetchPgImp b pid =
          Ret (Some f,
               mk (pool_size_ b) (num_instances_ b) (instance_index_ b) (next_page_id_ b)
                  (set_page (pages_ b) f (mkPage (ReadPage (disk_ b) pid) pid 1 false))
                  replacer free
                  (<[pid := f]> (delete (page_id_ victim) (page_table_ b)))
                  (if is_dirty_ victim
                   then WritePage (disk_ b) (page_id_ victim) (data_ victim)
                   else disk_ b))
  end.
Proof.
  intros Hok. pose proof (FetchPgImp_cases b pid Hok) as Hcases.
  destruct (page_table_ b !! pid) as [f|]; [exact Hcases|].
  destruct Hcases as [Hnull|(f & free & replacer & v & Hpf & Hv & Hpin & _ & E)];
    [left; exact Hnull|].
  right. exists f, free, replacer, v. split_and!; [done| |done..].
  unfold pick_frame in Hpf. destruct (free_list_ b) as [|f0 rest].
  - right. split; [done|]. unfold LRUReplacer.Victim in Hpf.
    destruct (LRUReplacer.frames_ (replacer_ b)) as [|f1 rest1].
    + injection Hpf as <- _ _. apply page_at_Ret in Hv as [? _]. lia.
    + by injection Hpf as <- _ _.
  - left. by injection Hpf as <- _ _.
Qed.

Lemma FetchPgImp_contract_witness :
  ∃ p, page_at (pages_ PoolScenario.busy) 1 = Ret p ∧ page_id_ p = 1 ∧
    FetchPgImp PoolScenario.busy 1 =
      Ret (Some 1,
           mk (pool_size_ PoolScenario.busy) (num_instances_ PoolScenario.busy)
              (instance_index_ PoolScenario.busy) (next_page_id_ PoolScenario.busy)
              (set_page (pages_ PoolScenario.busy) 1
                 (mkPage (data_ p) 1 (to_int32 (pin_count_ p + 1)) (is_dirty_ p)))
              (LRUReplacer.Pin 1 (replacer_ PoolScenario.busy))
              (free_list_ PoolScenario.busy) (page_table_ PoolScenario.busy)
              (disk_ PoolScenario.busy)).
Proof.
  exact (FetchPgImp_contract PoolScenario.busy 1 busy_pool_ok).
Defined.

(** [FlushPgImp] on a pool whose books are in order returns false for a page
    that is not resident and changes nothing.  For a resident page it
    returns true; the page's bytes are stored on disk under its id when it
    is dirty and the disk is left alone when it is not.  The frames are not
    touched: a dirty page stays dirty, and flushing it again does the
    same. *)
Theorem FlushPgImp_contract (b : t) (pid : Z) :
  pool_ok b →
  match page_table_ b !! pid with
  | None => FlushPgImp b pid = Ret (false, b)
  | Some f =>
      ∃ p b',
        page_at (pages_ b) f = Ret p ∧
        FlushPgImp b pid = Ret (true, b') ∧
        disk_ b' = (if is_dirty_ p then <[pid := data_ p]> (disk_ b) else disk_ b) ∧
        (is_dirty_ p = true → ReadPage (disk_ b') pid = data_ p) ∧
        pages_ b' = pages_ b ∧ page_table_ b' = page_table_ b ∧
        replacer_ b' = replacer_ b ∧ free_list_ b' = free_list_ b ∧
        FlushPgImp b' pid = Ret (true, b')
  end.
Proof.
  intros Hok.
  destruct (page_table_ b !! pid) as [f|] eqn:Hm; [|unfold FlushPgImp; by rewrite Hm].
  destruct (ok_mapped b Hok _ _ Hm) as (_ & _ & p & Hp & Hid).
  exists p. eexists. unfold FlushPgImp at 1. rewrite Hm, Hp. simpl.
  split_and!; [done|reflexivity|..]; simpl; try done.
  - by rewrite Hid.
  - intros ->. unfold ReadPage, WritePage. by rewrite Hid, lookup_insert_eq.
  - unfold FlushPgImp. simpl. rewrite Hm, Hp. simpl. do 3 f_equal.
    destruct (is_dirty_ p); [|done]. unfold WritePage. by rewrite insert_insert_eq.
Qed.

Lemma FlushPgImp_contract_witness :
  ∃ p b',
    page_at (pages_ PoolScenario.busy) 0 = Ret p ∧
    FlushPgImp PoolScenario.busy 0 = Ret (true, b') ∧
    disk_ b' = (if is_dirty_ p
                then <[0 := data_ p]> (disk_ PoolScenario.busy)
                else disk_ PoolScenario.busy) ∧
    (is_dirty_ p = true → ReadPage (disk_ b') 0 = data_ p) ∧
    pages_ b' = pages_ PoolScenario.busy ∧ page_table_ b' = page_table_ PoolScenario.busy ∧
    replacer_ b' = replacer_ PoolScenario.busy ∧ free_list_ b' = free_list_ PoolScenario.busy ∧
    FlushPgImp b' 0 = Ret (true, b').
Proof.
  exact (FlushPgImp_contract PoolScenario.busy 0 busy_pool_ok).
Defined.

Lemma FlushAllPgsImp_loop_spec b order disk :
  pool_ok b → NoDup order.*1 →
  (∀ e, e ∈ order → page_table_ b !! e.1 = Some e.2) →
  ∃ disk', FlushAllPgsImp_loop order (pages_ b) disk = Ret disk' ∧
           ∀ pid, disk' !! pid = flushed b order.*1 disk pid.
Proof.
  intros Hok. revert disk.
  induction order as [|[q g] order IH]; intros disk Hnd Hall.
  - exists disk. split; [done|]. intros pid. unfold flushed. simpl.
    destruct (page_table_ b !! pid) as [f|]; [|done]. by destruct (page_at (pages_ b) f).
  - rewrite fmap_cons in Hnd |- *. cbn [fst FlushAllPgsImp_loop snd] in *.
    apply NoDup_cons in Hnd as [Hq Hnd].
    assert (page_table_ b !! q = Some g) as Hm by (apply (Hall (q, g)); by left).
    destruct (ok_mapped b Hok _ _ Hm) as (_ & _ & v & Hv & Hid).
    rewrite Hv. simpl.
    destruct (IH (if is_dirty_ v then WritePage disk (page_id_ v) (data_ v) else disk))
      as (disk' & -> & Hdisk'); [done|by intros e He; apply Hall; right|].
    exists disk'. split; [done|]. intros pid. rewrite Hdisk'. unfold flushed.
    destruct (decide (pid = q)) as [->|Hne].
    + rewrite Hm, Hv. rewrite (bool_decide_eq_false_2 (q ∈ order.*1)) by done.
      rewrite bool_decide_eq_true_2 by (by left). simpl.
      destruct (is_dirty_ v); [|done]. unfold WritePage. by rewrite Hid, lookup_insert_eq.
    + assert ((if is_dirty_ v then WritePage disk (page_id_ v) (data_ v) else disk) !! pid
              = disk !! pid) as ->.
      { destruct (is_dirty_ v); [|done]. unfold WritePage. rewrite lookup_insert_ne; congruence. }
      destruct (page_table_ b !! pid) as [f|]; [|done].
      destruct (page_at (pages_ b) f) as [p| |]; [|done..].
      assert (bool_decide (pid ∈ q :: order.*1) = bool_decide (pid ∈ order.*1)) as ->; [|done].
      apply bool_decide_ext. rewrite elem_of_cons. naive_solver.
Qed.

(** [FlushAllPgsImp] on a pool whose books are in order returns, in whatever
    order the page table is iterated, and the outcome does not depend on
    that order: the disk then holds the bytes of every dirty resident page
    under its id and is otherwise as it was.  Nothing else changes; the
    pages stay dirty. *)
Theorem FlushAllPgsImp_writes_dirty_pages (b : t) (order : list (Z * Z)) :
  pool_ok b →
  order ≡ₚ map_to_list (page_table_ b) →
  ∃ b',
    FlushAllPgsImp order b = Ret b' ∧
    FlushAllPgsImp (map_to_list (page_table_ b)) b = Ret b' ∧
    pages_ b' = pages_ b ∧ page_table_ b' = page_table_ b ∧
    replacer_ b' = replacer_ b ∧ free_list_ b' = free_list_ b ∧
    ∀ pid,
      disk_ b' !! pid =
        match page_table_ b !! pid with
        | Some f =>
            match page_at (pages_ b) f with
            | Ret p => if is_dirty_ p then Some (data_ p) else disk_ b !! pid
            | _ => disk_ b !! pid
            end
        | None => disk_ b !! pid
        end.
Proof.
  intros Hok Hperm.
  assert (∀ order', order' ≡ₚ map_to_list (page_table_ b) →
            ∃ disk', FlushAllPgsImp_loop order' (pages_ b) (disk_ b) = Ret disk' ∧
              ∀ pid, disk' !! pid =
                match page_table_ b !! pid with
                | Some f =>
                    match page_at (pages_ b) f with
                    | Ret p => if is_dirty_ p then Some (data_ p) else disk_ b !! pid
                    | _ => disk_ b !! pid
                    end
                | None => disk_ b !! pid
                end) as Hany.
  { intros order' Hperm'.
    destruct (FlushAllPgsImp_loop_spec b order' (disk_ b) Hok) as (disk' & Hloop & Hdisk').
    - rewrite Hperm'. apply NoDup_fst_map_to_list.
    - intros [q g] He. rewrite Hperm' in He. by apply elem_of_map_to_list in He.
    - exists disk'. split; [done|]. intros pid. rewrite Hdisk'. unfold flushed.
      destruct (page_table_ b !! pid) as [f|] eqn:Hm; [|done].
      destruct (page_at (pages_ b) f) as [p| |]; [|done..].
      rewrite bool_decide_eq_true_2; [done|].
      apply list_elem_of_fmap. exists (pid, f). split; [done|].
      rewrite Hperm'. by apply elem_of_map_to_list. }
  destruct (Hany order Hperm) as (disk1 & Hloop1 & Hdisk1).
  destruct (Hany (map_to_list (page_table_ b))) as (disk2 & Hloop2 & Hdisk2); [done|].
  assert (disk2 = disk1) as ->.
  { apply map_eq. intros pid. by rewrite Hdisk1, Hdisk2. }
  unfold FlushAllPgsImp. rewrite Hloop1, Hloop2. simpl.
  eexists. split_and!; [reflexivity|reflexivity|done..].
Qed.

Lemma FlushAllPgsImp_writes_dirty_pages_witness :
  ∃ b',
    FlushAllPgsImp [(1, 1); (0, 0)] PoolScenario.busy = Ret b' ∧
    FlushAllPgsImp (map_to_list (page_table_ PoolScenario.busy)) PoolScenario.busy = Ret b' ∧
    disk_ b' !! 0 = Some (data_ PoolScenario.page0) ∧ disk_ b' !! 1 = None.
Proof.
  destruct (FlushAllPgsImp_writes_dirty_pages PoolScenario.busy [(1, 1); (0, 0)])
    as (b' & H1 & H2 & _ & _ & _ & _ & Hdisk).
  - exact busy_pool_ok.
  - apply NoDup_Permutation.
    + apply NoDup_cons. split; [|apply NoDup_singleton].
      by intros [=]%list_elem_of_singleton.
    + apply NoDup_map_to_list.
    + intros [q g]. rewrite elem_of_map_to_list.
      rewrite !elem_of_cons, elem_of_nil. split.
      * intros [[= -> ->]|[[= -> ->]|[]]]; vm_compute; reflexivity.
      * intros Hq. destruct (decide (q = 0)) as [->|H0]; [|destruct (decide (q = 1)) as [->|H1]].
        -- right. left. f_equal. vm_compute in Hq. congruence.
        -- left. f_equal. vm_compute in Hq. congruence.
        -- exfalso. revert Hq.
           change (page_table_ PoolScenario.busy) with (<[1 := 1]> (<[0 := 0]> (∅ : gmap Z Z))).
           rewrite !lookup_insert_ne by done. by rewrite lookup_empty.
  - exists b'. split_and!; [exact H1|exact H2|..].
    + rewrite Hdisk. vm_compute. reflexivity.
    + rewrite Hdisk. vm_compute. reflexivity.
Defined.

Lemma evicted_written b pid f p g v n free replacer next x :
  pool_ok b → page_table_ b !! pid = Some f → page_at (pages_ b) f = Ret p →
  page_at (pages_ b) g = Ret v → pin_count_ v ≤ 0 →
  (g ∈ free_list_ b ∧ page_id_ v = INVALID_PAGE_ID ∧ is_dirty_ v = false ∨
   page_table_ b !! page_id_ v = Some g) →
  (<[n := g]> (delete (page_id_ v) (page_table_ b))) !! pid = None →
  let b' := mk (pool_size_ b) (num_instances_ b) (instance_index_ b) next
               (set_page (pages_ b) g x) replacer free
               (<[n := g]> (delete (page_id_ v) (page_table_ b)))
               (if is_dirty_ v
                then WritePage (disk_ b) (page_id_ v) (data_ v)
                else disk_ b) in
  pin_count_ p ≤ 0 ∧
  disk_ b' = (if is_dirty_ p then <[pid := data_ p]> (disk_ b) else disk_ b) ∧
  (is_dirty_ p = true → ReadPage (disk_ b') pid = data_ p).
Proof.
  intros Hok Hm Hp Hv Hvpin Hwhere Hgone. simpl.
  destruct (ok_mapped b Hok _ _ Hm) as (Hvalid & _ & p0 & Hp0 & Hid).
  assert (p0 = p) as -> by congruence.
  apply lookup_insert_None in Hgone as [Hgone Hn].
  apply lookup_delete_None in Hgone as [Heq|Hnone]; [|congruence].
  destruct Hwhere as [(_ & ? & _)|Hg]; [congruence|].
  assert (g = f) as -> by congruence. assert (v = p) as -> by congruence.
  split_and!; [done|by rewrite Hid|].
  intros ->. unfold ReadPage, WritePage. by rewrite Hid, lookup_insert_eq.
Qed.

(** A resident page leaves the pool only through [NewPgImp] or [FetchPgImp]
    of another page taking its frame, or through [DeletePgImp] of the page,
    and only when it is not pinned; if it was dirty its bytes are on disk
    under its id when it has left, and if it was clean the disk has not
    been written. *)
Theorem page_leaves_written_back (b : t) (pid f : Z) (p : Page) (o : op) (b' : t) :
  pool_ok b →
  page_table_ b !! pid = Some f → page_at (pages_ b) f = Ret p →
  step b o = Ret b' →
  page_table_ b' !! pid = None →
  pin_count_ p ≤ 0 ∧
  (o = ONewPg ∨ (∃ q, o = OFetchPg q ∧ q ≠ pid) ∨ o = ODeletePg pid) ∧
  disk_ b' = (if is_dirty_ p then <[pid := data_ p]> (disk_ b) else disk_ b) ∧
  (is_dirty_ p = true → ReadPage (disk_ b') pid = data_ p).
Proof.
  intros Hok Hm Hp Hstep Hgone.
  destruct (ok_mapped b Hok _ _ Hm) as (Hvalid & Hlt & p0 & Hp0 & Hid).
  assert (p0 = p) as -> by congruence.
  destruct o as [|q|q d|q|q|]; simpl in Hstep.
  - destruct (NewPgImp b) as [[r b1]| |] eqn:E; simpl in Hstep; [|done..].
    injection Hstep as <-.
    destruct (NewPgImp_cases b r b1 Hok E)
      as [(_ & _ & _ & ->)|(g & free & rep & v & _ & Hv & Hvpin & Hwhere & _ & ->)];
      [congruence|].
    simpl in Hgone.
    destruct (evicted_written b pid f p g v (next_page_id_ b) free rep
                (to_int32 (next_page_id_ b + num_instances_ b))
                (mkPage zero_data (next_page_id_ b) 1 false))
      as (? & ? & ?); [done..|].
    split_and!; [done|by left|done..].
  - pose proof (FetchPgImp_cases b q Hok) as Hcases.
    destruct (page_table_ b !! q) as [g|] eqn:Hmq.
    + destruct Hcases as (v & Hv & _ & E). rewrite E in Hstep. simpl in Hstep.
      injection Hstep as <-. simpl in Hgone. congruence.
    + assert (q ≠ pid) as Hq by congruence.
      destruct Hcases as [(_ & _ & E)|(g & free & rep & v & _ & Hv & Hvpin & Hwhere & E)];
        rewrite E in Hstep; simpl in Hstep; injection Hstep as <-; [congruence|].
      simpl in Hgone.
      destruct (evicted_written b pid f p g v q free rep (next_page_id_ b)
                  (mkPage (ReadPage (disk_ b) q) q 1 false))
        as (? & ? & ?); [done..|].
      split_and!; [done|right; left; eauto|done..].
  - unfold UnpinPgImp in Hstep.
    destruct (page_table_ b !! q) as [g|] eqn:Hmq; simpl in Hstep;
      [|injection Hstep as <-; congruence].
    destruct (ok_mapped b Hok _ _ Hmq) as (_ & _ & v & Hv & _).
    rewrite Hv in Hstep. simpl in Hstep. injection Hstep as <-. simpl in Hgone. congruence.
  - unfold DeletePgImp in Hstep.
    destruct (page_table_ b !! q) as [g|] eqn:Hmq; simpl in Hstep;
      [|injection Hstep as <-; congruence].
    destruct (ok_mapped b Hok _ _ Hmq) as (_ & _ & v & Hv & _).
    rewrite Hv in Hstep. simpl in Hstep.
    case_bool_decide as Hz; simpl in Hstep; injection Hstep as <-; [congruence|].
    simpl in Hgone. apply lookup_delete_None in Hgone as [->|?]; [|congruence].
    assert (g = f) as -> by congruence. assert (v = p) as -> by congruence.
    simpl. split_and!; [lia|by right; right|by rewrite Hid|].
    intros ->. unfold ReadPage, WritePage. by rewrite Hid, lookup_insert_eq.
  - unfold FlushPgImp in Hstep.
    destruct (page_table_ b !! q) as [g|] eqn:Hmq; simpl in Hstep;
      [|injection Hstep as <-; congruence].
    destruct (ok_mapped b Hok _ _ Hmq) as (_ & _ & v & Hv & _).
    rewrite Hv in Hstep. simpl in Hstep. injection Hstep as <-. simpl in Hgone. congruence.
  - apply FlushAllPgsImp_Ret in Hstep as (_ & Htab & _). congruence.
Qed.

Lemma page_leaves_written_back_witness :
  disk_ PoolScenario.evicting = <[0 := zero_data]> (disk_ PoolScenario.busy) ∧
  ReadPage (disk_ PoolScenario.evicting) 0 = zero_data.
Proof.
  destruct (page_leaves_written_back PoolScenario.busy 0 0 PoolScenario.page0 ONewPg
              PoolScenario.evicting) as (_ & _ & Hdisk & Hread).
  - exact busy_pool_ok.
  - vm_compute. reflexivity.
  - vm_compute. reflexivity.
  - vm_compute. reflexivity.
  - vm_compute. reflexivity.
  - split; [exact Hdisk|]. exact (Hread eq_refl).
Defined.

End BufferPoolTheorems.

(** * Further properties of the index *)
Section IndexContracts.
Context {T : HashTableTypes} {L : HashTableLaws T}.
Import ExtendibleHashTable.

Lemma bucket_for_Inv ht d k :
  Inv ht d → bucket_of (pages ht) (KeyToPageId k d) = Some (bucket_for ht k).
Proof.
  intros Hinv. destruct (Inv_bucket ht d k Hinv) as (b & Hb & _).
  unfold bucket_for. by rewrite (Inv_directory ht d Hinv), Hb.
Qed.

Lemma bucket_at_Inv ht d i :
  Inv ht d → live d i →
  bucket_of (pages ht) (D.GetBucketPageId d i) = Some (bucket_at ht i) ∧
  placed (bucket_at ht i) (D.GetLocalDepth d i) i.
Proof.
  intros Hinv Hi. destruct Hinv as [Hd Hok].
  destruct (ok_buckets _ _ Hok i Hi) as (b & Hb & Hpl).
  unfold bucket_at, directory. by rewrite Hd, Hb.
Qed.

(** The state an operation leaves when it has written the bucket of [k] and
    nothing else. *)
Lemma bucket_for_written ht d k b' htF :
  Inv ht d → Inv htF d →
  bucket_of (pages htF) (KeyToPageId k d) = Some b' →
  (∀ p b, p ≠ KeyToPageId k d → bucket_of (pages ht) p = Some b →
          bucket_of (pages htF) p = Some b) →
  directory htF = directory ht ∧
  bucket_for htF k = b' ∧
  ∀ key, KeyToPageId key d ≠ KeyToPageId k d → bucket_for htF key = bucket_for ht key.
Proof.
  intros Hinv HinvF HbF Hkeep.
  rewrite (Inv_directory ht d Hinv), (Inv_directory htF d HinvF).
  split_and!; [done| |].
  - pose proof (bucket_for_Inv htF d k HinvF) as Hb. congruence.
  - intros key Hne. pose proof (bucket_for_Inv htF d key HinvF) as Hb1.
    pose proof (bucket_for_Inv ht d key Hinv) as Hb0.
    rewrite (Hkeep _ _ Hne Hb0) in Hb1. congruence.
Qed.

Lemma Remove_fst_iff (b : B.t) k v :
  B.wf b →
  (B.Remove b k v).1 = true ↔
  ∃ j, (j < B.BUCKET_ARRAY_SIZE)%nat ∧ B.entry_match b k v j = true.
Proof.
  intros Hwf.
  destruct (Remove_loop_spec b k v (seq 0 B.BUCKET_ARRAY_SIZE) false Hwf)
    as (Hfst & _); [apply NoDup_seq|intros i Hi%elem_of_seq; lia|].
  unfold B.Remove. rewrite Hfst. simpl. rewrite existsb_exists. split.
  - intros (j & Hj%in_seq & Hm). exists j. split; [lia|done].
  - intros (j & Hj & Hm). exists j. split; [apply in_seq; lia|done].
Qed.

(** On every table reached from a new index, [GetValue], [Remove],
    [GetGlobalDepth] and [VerifyIntegrity] return: no page is missing, the
    loop of [Merge] ends within its bound and the assertions on [UnpinPage]
    hold; [GetGlobalDepth] returns the global depth of the directory page.
    [Insert] returns or aborts, it never recurses without end.  The table
    each call leaves can be used in the same way. *)
Theorem index_calls_return (ht : t) :
  reachable ht →
  (∀ k result, ∃ r vs ht', GetValue ht k result = Ret (r, vs, ht') ∧ reachable ht') ∧
  (∀ k v, ∃ r ht', Remove ht k v = Ret (r, ht') ∧ reachable ht') ∧
  (∃ ht', GetGlobalDepth ht = Ret (D.GetGlobalDepth (directory ht), ht') ∧ reachable ht') ∧
  (∃ ht', VerifyIntegrity ht = Ret ht' ∧ reachable ht') ∧
  (∀ k v, Insert ht k v = Fault ∨ ∃ r ht', Insert ht k v = Ret (r, ht') ∧ reachable ht').
Proof.
  intros Hreach. destruct (reachable_Inv ht Hreach) as [[d Hinv] _].
  split_and!.
  - intros k result.
    destruct (GetValue_spec ht d k result Hinv) as (b & ht' & _ & Heq & _).
    eexists _, _, ht'. split; [exact Heq|]. eapply reach_GetValue; [done|exact Heq].
  - intros k v. destruct (Remove_total ht d k v Hinv) as (r & ht' & Heq).
    exists r, ht'. split; [done|]. by eapply reach_Remove.
  - destruct (GetGlobalDepth_spec ht d Hinv) as (ht' & Heq & _).
    exists ht'. rewrite (Inv_directory ht d Hinv). split; [done|].
    by eapply reach_GetGlobalDepth.
  - destruct (VerifyIntegrity_spec ht d Hinv) as (ht' & Heq & _).
    exists ht'. split; [done|]. by eapply reach_VerifyIntegrity.
  - intros k v. pose proof (Insert_fuel ht d k v Hinv) as Hfuel.
    destruct (Insert ht k v) as [[r ht']| |] eqn:E; [right|by left|done].
    exists r, ht'. split; [done|]. by eapply reach_Insert.
Qed.

(** [GetValue] of the index reads one bucket page, the one the directory
    routes the key to, and returns what [GetValue] of that page returns: the
    values of its live slots that hold the key, in slot order, after what
    [result] held.  It leaves every page as it was. *)
Theorem index_GetValue_reads_routed_bucket (ht : t) :
  reachable ht →
  ∀ key result, ∃ ht',
    GetValue ht key result =
      Ret ((B.GetValue (bucket_for ht key) key result).1,
           (B.GetValue (bucket_for ht key) key result).2, ht') ∧
    same_table ht ht' ∧
    (B.GetValue (bucket_for ht key) key result).2 =
      result ++ (B.ValueAt (bucket_for ht key) <$>
                 filter (λ j, B.key_match (bucket_for ht key) key j = true)
                        (seq 0 B.BUCKET_ARRAY_SIZE)).
Proof.
  intros Hreach key result. destruct (reachable_Inv ht Hreach) as [[d Hinv] _].
  destruct (GetValue_spec ht d key result Hinv) as (b & ht' & Hb & Heq & Hsame & _).
  rewrite (bucket_for_Inv ht d key Hinv) in Hb. injection Hb as <-.
  exists ht'. split_and!; [done..|].
  unfold B.GetValue. by rewrite GetValue_loop_spec.
Qed.

(** [Remove] of the index returns true exactly when the bucket the key is
    routed to holds the pair in a live slot.  When it returns false the
    directory and every bucket are as they were. *)
Theorem index_Remove_reports_match (ht : t) :
  reachable ht →
  ∀ k v r ht', Remove ht k v = Ret (r, ht') →
    (r = true ↔
       ∃ j, (j < B.BUCKET_ARRAY_SIZE)%nat ∧ B.entry_match (bucket_for ht k) k v j = true) ∧
    (r = false →
       directory ht' = directory ht ∧ ∀ key, bucket_for ht' key = bucket_for ht key).
Proof.
  intros Hreach k v r ht' Hrun. destruct (reachable_Inv ht Hreach) as [[d Hinv] _].
  destruct (Inv_bucket ht d k Hinv) as (b & Hb & Hpl & Hne).
  pose proof (bucket_for_Inv ht d k Hinv) as Hbf.
  assert (bucket_for ht k = b) as Hbk by congruence. rewrite Hbk.
  pose proof Hinv as [Hd Hok].
  unfold Remove in Hrun.
  rewrite (FetchDirectoryPage_ok _ _ Hd), bind_Ret_l in Hrun. cbv beta iota zeta in Hrun.
  rewrite (FetchBucketPage_ok _ _ b) in Hrun by done.
  rewrite bind_Ret_l in Hrun. cbv beta iota zeta in Hrun.
  rewrite (ok_page_id _ _ Hok) in Hrun.
  pose proof (Remove_fst_iff b k v (proj1 Hpl)) as Hiff.
  pose proof (Remove_loop_false b k v (seq 0 B.BUCKET_ARRAY_SIZE) false) as Hfalse.
  fold (B.Remove b k v) in Hfalse.
  destruct (B.Remove b k v) as [flag b'] eqn:Hr. simpl in Hiff, Hfalse.
  assert (placed b' (D.GetLocalDepth d (KeyToDirectoryIndex k d))
                 (KeyToDirectoryIndex k d)) as Hpl'.
  { replace b' with (B.Remove b k v).2 by (by rewrite Hr). by apply placed_Remove. }
  destruct (write_bucket_finish ht d k b' false flag Hinv Hpl')
    as (HinvF & HfolF & HbF & HkeepF & _).
  cbv zeta in HinvF, HfolF, HbF, HkeepF.
  set (htF := (UnpinPage (UnpinPage (write_page _ _ _) _ _).2 _ _).2) in *.
  destruct flag; cbv iota in Hrun.
  - apply bind_Ret in Hrun as (ht1 & Hmerge & [= <- <-]). split; [done|]. by intros [=].
  - injection Hrun as <- <-. split; [done|]. intros _.
    destruct (bucket_for_written ht d k b' htF Hinv HinvF HbF HkeepF) as (Hdir & Hk & Hrest).
    split; [done|]. intros key.
    destruct (decide (KeyToPageId key d = KeyToPageId k d)) as [Heq|Hneq]; [|by apply Hrest].
    pose proof (bucket_for_Inv htF d key HinvF) as H1.
    pose proof (bucket_for_Inv ht d key Hinv) as H0.
    rewrite Heq in H1, H0. rewrite Hfalse in HbF by done. congruence.
Qed.

(** [Insert] of the index into a bucket with room: when [Insert] of the
    bucket page the key is routed to accepts the pair, the index returns
    true without a split; the directory is as it was, the bucket of the key
    is the page after its own [Insert], and the buckets of the keys routed
    elsewhere are as they were. *)
Theorem index_Insert_with_room (ht : t) :
  reachable ht →
  ∀ k v, (B.Insert (bucket_for ht k) k v).1 = true →
    ∃ ht', Insert ht k v = Ret (true, ht') ∧
      directory ht' = directory ht ∧
      bucket_for ht' k = (B.Insert (bucket_for ht k) k v).2 ∧
      ∀ key, KeyToPageId key (directory ht) ≠ KeyToPageId k (directory ht) →
             bucket_for ht' key = bucket_for ht key.
Proof.
  intros Hreach k v Hroom. destruct (reachable_Inv ht Hreach) as [[d Hinv] _].
  destruct (Inv_bucket ht d k Hinv) as (b & Hb & Hpl & Hne).
  pose proof (bucket_for_Inv ht d k Hinv) as Hbf.
  assert (bucket_for ht k = b) as Hbk by congruence. rewrite Hbk in Hroom |- *.
  rewrite (Inv_directory ht d Hinv).
  pose proof Hinv as [Hd Hok].
  unfold Insert.
  rewrite (FetchDirectoryPage_ok _ _ Hd), bind_Ret_l. cbv beta iota zeta.
  rewrite (FetchBucketPage_ok _ _ b) by done.
  rewrite bind_Ret_l. cbv beta iota zeta.
  rewrite (ok_page_id _ _ Hok).
  destruct (B.Insert b k v) as [flag b'] eqn:Hi. simpl in Hroom. subst flag.
  assert (placed b' (D.GetLocalDepth d (KeyToDirectoryIndex k d))
                 (KeyToDirectoryIndex k d)) as Hpl'.
  { replace b' with (B.Insert b k v).2 by (by rewrite Hi).
    apply placed_Insert; [done|].
    apply cong_sym. eapply cong_mono; [|apply KeyToDirectoryIndex_cong; apply Hok].
    apply (dir_local _ (ok_dir _ _ Hok)), KeyToDirectoryIndex_live, Hok. }
  destruct (write_bucket_finish ht d k b' false true Hinv Hpl')
    as (HinvF & HfolF & HbF & HkeepF & _).
  cbv zeta in HinvF, HfolF, HbF, HkeepF.
  set (htF := (UnpinPage (UnpinPage (write_page _ _ _) _ _).2 _ _).2) in *.
  simpl negb. cbv iota. exists htF. split; [done|].
  destruct (bucket_for_written ht d k b' htF Hinv HinvF HbF HkeepF) as (Hdir & Hk & Hrest).
  split_and!; [exact (Inv_directory htF d HinvF)|exact Hk|exact Hrest].
Qed.

(** Every entry is where lookups go: on a table reached from a new index, a
    live entry of the bucket of any directory slot sits in the bucket its
    own key is routed to, and [GetValue] of that key returns true with the
    entry's value among the values found. *)
Theorem index_entries_are_found (ht : t) :
  reachable ht →
  ∀ i j, live (directory ht) i → (j < B.BUCKET_ARRAY_SIZE)%nat →
    B.IsReadable (bucket_at ht i) j = true →
    let key := B.KeyAt (bucket_at ht i) j in
    bucket_for ht key = bucket_at ht i ∧
    ∀ result, ∃ vs ht',
      GetValue ht key result = Ret (true, result ++ vs, ht') ∧
      B.ValueAt (bucket_at ht i) j ∈ vs.
Proof.
  intros Hreach i j Hi Hj Hr key. destruct (reachable_Inv ht Hreach) as [[d Hinv] _].
  rewrite (Inv_directory ht d Hinv) in Hi.
  destruct (bucket_at_Inv ht d i Hinv Hi) as [Hb _].
  set (b := bucket_at ht i) in *.
  assert (B.key_match b key j = true) as Hkm.
  { unfold B.key_match, key. rewrite Hr, comparator_refl. done. }
  assert (B.entry_match b key (B.ValueAt b j) j = true) as Hm.
  { rewrite entry_match_key, Hkm. simpl. by apply bool_decide_eq_true. }
  pose proof (match_routed ht d key (B.ValueAt b j) i b j Hinv Hi Hb Hj Hm) as Hroute.
  assert (bucket_for ht key = b) as Hbk.
  { pose proof (bucket_for_Inv ht d key Hinv) as H1. rewrite <- Hroute in H1. congruence. }
  split; [done|]. intros result.
  destruct (GetValue_spec ht d key result Hinv) as (b0 & ht' & Hb0 & Heq & _).
  rewrite <- Hroute in Hb0. assert (b0 = b) as -> by congruence.
  unfold B.GetValue in Heq. rewrite GetValue_loop_spec in Heq. simpl in Heq.
  eexists _, ht'. split.
  - rewrite Heq. do 3 f_equal. apply existsb_exists. exists j.
    split; [apply in_seq; lia|done].
  - apply list_elem_of_fmap. exists j. split; [done|].
    apply list_elem_of_filter. split; [done|]. apply elem_of_seq. lia.
Qed.

Lemma zero_GetValue (k : KeyType) (result : list ValueType) :
  B.GetValue B.zero k result = (false, result).
Proof.
  unfold B.GetValue. rewrite GetValue_loop_spec. simpl.
  assert (∀ l, (∀ j, j ∈ l → (j < B.BUCKET_ARRAY_SIZE)%nat) →
               existsb (B.key_match B.zero k) l = false ∧
               filter (λ j, B.key_match B.zero k j = true) l = []) as Hnone.
  { induction l as [|j l IH]; intros Hl; [done|].
    assert (B.key_match B.zero k j = false) as Hj.
    { unfold B.key_match. rewrite IsReadable_zero; [done|]. apply Hl. by left. }
    destruct IH as [IH1 IH2]; [intros j' Hj'; apply Hl; by right|].
    simpl. rewrite Hj, IH1. split; [done|].
    rewrite filter_cons_False; [done|]. by rewrite Hj. }
  destruct (Hnone (seq 0 B.BUCKET_ARRAY_SIZE)) as [-> ->].
  - intros j Hj%elem_of_seq. lia.
  - by rewrite app_nil_r.
Qed.

(** The constructor always returns.  The index it builds has its directory
    in the first page the pool hands out, global depth 0, one bucket page
    without entries that every key is routed to, and no page pinned;
    [GetValue] finds nothing in it. *)
Theorem index_new_is_empty (first_page_id : Z) :
  ∃ ht, new first_page_id = Ret ht ∧ reachable ht ∧
    directory_page_id_ ht = first_page_id ∧
    D.GetGlobalDepth (directory ht) = 0 ∧
    (∀ key, KeyToPageId key (directory ht) = first_page_id + 1 ∧
            bucket_for ht key = B.zero) ∧
    (∀ p, pin_of ht p = 0) ∧
    ∀ key result, ∃ ht', GetValue ht key result = Ret (false, result, ht').
Proof.
  assert (∃ ht, new first_page_id = Ret ht) as [ht Hnew].
  { unfold new. simpl. eauto. }
  exists ht. split; [done|].
  assert (reachable ht) as Hreach by (by eapply reach_new).
  destruct (new_spec first_page_id ht Hnew) as [(d & Hinv & Hdepth) Hpins].
  pose proof (Inv_directory ht d Hinv) as Hdir.
  assert (directory_page_id_ ht = first_page_id ∧
          pages ht !! (first_page_id + 1) = Some RawZero ∧
          D.GetBucketPageId d 0 = first_page_id + 1) as (Hid & Hbucket & Hslot).
  { revert Hnew Hdir. unfold new. simpl.
    set (d0 := D.SetLocalDepth (D.SetBucketPageId (D.SetPageId D.zero first_page_id) 0
                                  (first_page_id + 1)) 0 0).
    set (htw := write_page _ first_page_id (DirPage d0)).
    assert (first_page_id ≠ first_page_id + 1) as Hne by lia.
    rewrite (UnpinPage_Some htw).
    2:{ simpl. rewrite lookup_insert_ne by done. by rewrite lookup_insert_eq. }
    rewrite UnpinPage_Some.
    2:{ simpl. by rewrite lookup_insert_eq. }
    intros [= <-]. unfold directory. simpl. rewrite lookup_insert_eq. intros <-.
    split_and!; [done| |done].
    rewrite lookup_insert_ne by done. by rewrite lookup_insert_eq. }
  assert (∀ key, KeyToPageId key d = first_page_id + 1) as Hroute.
  { intros key. unfold KeyToPageId, KeyToDirectoryIndex, D.GetGlobalDepthMask.
    unfold D.GetGlobalDepth in Hdepth. rewrite Hdepth.
    change (Z.shiftl 1 0 - 1) with 0. by rewrite Z.land_0_r. }
  assert (∀ key, bucket_for ht key = B.zero) as Hzero.
  { intros key. unfold bucket_for, bucket_of. by rewrite Hdir, Hroute, Hbucket. }
  rewrite Hdir. split_and!; [done..| |done|].
  - intros key. split; [apply Hroute|apply Hzero].
  - intros key result.
    destruct (GetValue_spec ht d key result Hinv) as (b & ht' & Hb & Heq & _).
    rewrite (bucket_for_Inv ht d key Hinv), Hzero in Hb. injection Hb as <-.
    rewrite zero_GetValue in Heq. by exists ht'.
Qed.

End IndexContracts.

Section IndexWitnesses.
Import ExtendibleHashTable.
#[local] Existing Instance Key64RID.

Lemma index_calls_return_witness :
  ∃ ht : t,
    Scenario.after Scenario.split_ops = Ret ht ∧
    (∀ k result, ∃ r vs ht', GetValue ht k result = Ret (r, vs, ht') ∧ reachable ht') ∧
    (∀ k v, ∃ r ht', Remove ht k v = Ret (r, ht') ∧ reachable ht') ∧
    (∃ ht', GetGlobalDepth ht = Ret (D.GetGlobalDepth (directory ht), ht') ∧ reachable ht') ∧
    (∃ ht', VerifyIntegrity ht = Ret ht' ∧ reachable ht') ∧
    (∀ k v, Insert ht k v = Fault ∨ ∃ r ht', Insert ht k v = Ret (r, ht') ∧ reachable ht').
Proof.
  destruct split_table_reachable as (ht & Hht & Hreach).
  exists ht. split; [exact Hht|]. exact (index_calls_return ht Hreach).
Defined.

Lemma index_GetValue_reads_routed_bucket_witness :
  ∃ ht : t,
    Scenario.after Scenario.split_ops = Ret ht ∧
    ∀ key result, ∃ ht',
      GetValue ht key result =
        Ret ((B.GetValue (bucket_for ht key) key result).1,
             (B.GetValue (bucket_for ht key) key result).2, ht') ∧
      same_table ht ht' ∧
      (B.GetValue (bucket_for ht key) key result).2 =
        result ++ (B.ValueAt (bucket_for ht key) <$>
                   filter (λ j, B.key_match (bucket_for ht key) key j = true)
                          (seq 0 B.BUCKET_ARRAY_SIZE)).
Proof.
  destruct split_table_reachable as (ht & Hht & Hreach).
  exists ht. split; [exact Hht|]. exact (index_GetValue_reads_routed_bucket ht Hreach).
Defined.

Lemma index_Remove_reports_match_witness :
  ∃ ht : t,
    Scenario.after Scenario.split_ops = Ret ht ∧
    ∀ k v r ht', Remove ht k v = Ret (r, ht') →
      (r = true ↔
         ∃ j, (j < B.BUCKET_ARRAY_SIZE)%nat ∧ B.entry_match (bucket_for ht k) k v j = true) ∧
      (r = false →
         directory ht' = directory ht ∧ ∀ key, bucket_for ht' key = bucket_for ht key).
Proof.
  destruct split_table_reachable as (ht & Hht & Hreach).
  exists ht. split; [exact Hht|]. exact (index_Remove_reports_match ht Hreach).
Defined.

Lemma index_Insert_with_room_witness :
  ∃ ht : t,
    Scenario.after Scenario.split_ops = Ret ht ∧
    ∀ k v, (B.Insert (bucket_for ht k) k v).1 = true →
      ∃ ht', Insert ht k v = Ret (true, ht') ∧
        directory ht' = directory ht ∧
        bucket_for ht' k = (B.Insert (bucket_for ht k) k v).2 ∧
        ∀ key, KeyToPageId key (directory ht) ≠ KeyToPageId k (directory ht) →
               bucket_for ht' key = bucket_for ht key.
Proof.
  destruct split_table_reachable as (ht & Hht & Hreach).
  exists ht. split; [exact Hht|]. exact (index_Insert_with_room ht Hreach).
Defined.

Lemma index_entries_are_found_witness :
  ∃ ht : t,
    Scenario.after Scenario.split_ops = Ret ht ∧
    ∀ i j, live (directory ht) i → (j < B.BUCKET_ARRAY_SIZE)%nat →
      B.IsReadable (bucket_at ht i) j = true →
      let key := B.KeyAt (bucket_at ht i) j in
      bucket_for ht key = bucket_at ht i ∧
      ∀ result, ∃ vs ht',
        GetValue ht key result = Ret (true, result ++ vs, ht') ∧
        B.ValueAt (bucket_at ht i) j ∈ vs.
Proof.
  destruct split_table_reachable as (ht & Hht & Hreach).
  exists ht. split; [exact Hht|].
  exact (index_entries_are_found (L := Key64RID_laws) ht Hreach).
Defined.

End IndexWitnesses.

(** * No entry is lost *)
Section NothingLost.
Context {T : HashTableTypes} {L : HashTableLaws T}.
Import ExtendibleHashTable.

(** The comparator tells keys apart: keys that compare equal are the same
    key. *)
Hypothesis comparator_eq : ∀ a b : KeyType, comparator_ a b = 0 → a = b.

Lemma entry_match_holds (b : B.t) k v j :
  (j < B.BUCKET_ARRAY_SIZE)%nat → B.entry_match b k v j = true → B.holds b k v.
Proof.
  intros Hj Hm. unfold B.entry_match in Hm.
  apply andb_true_iff in Hm as [[Hr Hk%Z.eqb_eq]%andb_true_iff Hv%bool_decide_eq_true].
  exists j. split_and!; [done..|by apply comparator_eq|done].
Qed.

Lemma holds_put (b : B.t) p k v key value :
  B.wf b → (p < B.BUCKET_ARRAY_SIZE)%nat → B.IsReadable b p = false →
  B.holds b key value → B.holds (B.put b p k v) key value.
Proof.
  intros Hwf Hp Hfree (j & Hj & Hr & Hk & Hv).
  assert (p ≠ j) as Hne by (intros ->; congruence).
  exists j. rewrite IsReadable_put, KeyAt_put, ValueAt_put by done.
  by rewrite !decide_False by done.
Qed.

Lemma holds_put_new (b : B.t) p k v :
  B.wf b → (p < B.BUCKET_ARRAY_SIZE)%nat → B.holds (B.put b p k v) k v.
Proof.
  intros Hwf Hp. exists p. rewrite IsReadable_put, KeyAt_put, ValueAt_put by done.
  by rewrite !decide_True by done.
Qed.

(** [Insert] of the bucket page keeps what the page holds. *)
Lemma holds_Insert (b : B.t) k v key value :
  B.wf b → B.holds b key value → B.holds (B.Insert b k v).2 key value.
Proof.
  intros Hwf Hh. destruct (B.Insert b k v) as [[] b'] eqn:Hi; simpl.
  - apply Insert_true in Hi as (p & Hp & Hr & _ & ->). by apply holds_put.
  - by apply Insert_false in Hi as [-> _].
Qed.

(** [Remove] of the bucket page keeps every pair but the one removed. *)
Lemma holds_Remove (b : B.t) k v key value :
  B.wf b → B.holds b key value → ¬ (key = k ∧ value = v) →
  B.holds (B.Remove b k v).2 key value.
Proof.
  intros Hwf (j & Hj & Hr & Hk & Hv) Hne.
  destruct (Remove_spec b k v Hwf) as (_ & _ & Harr & Hrd & _).
  exists j. split_and!; [done| | |].
  - rewrite Hrd by done. rewrite Hr. simpl. apply negb_true_iff.
    apply not_true_iff_false. intros Hm.
    destruct (entry_match_holds b k v j Hj Hm) as (j' & _).
    unfold B.entry_match in Hm.
    apply andb_true_iff in Hm as [[_ Hk'%Z.eqb_eq]%andb_true_iff Hv'%bool_decide_eq_true].
    apply comparator_eq in Hk'. apply Hne. split; congruence.
  - unfold B.KeyAt. by rewrite Harr.
  - unfold B.ValueAt. by rewrite Harr.
Qed.

(** A successful [Insert] takes the first slot that is not readable. *)
Lemma Insert_true_first (b : B.t) k v b' :
  B.Insert b k v = (true, b') →
  ∃ p, (p < B.BUCKET_ARRAY_SIZE)%nat ∧ B.IsReadable b p = false ∧
       (∀ q, (q < p)%nat → B.IsReadable b q = true) ∧ b' = B.put b p k v.
Proof.
  unfold B.Insert.
  destruct (B.Insert_loop b k v (seq 0 B.BUCKET_ARRAY_SIZE) B.BUCKET_ARRAY_SIZE)
    as [p|] eqn:Hloop; [|done].
  destruct (Nat.eqb_spec p B.BUCKET_ARRAY_SIZE) as [Hp|Hp]; [done|].
  intros [= <-]. fold (B.put b p k v).
  destruct (Insert_loop_first b k v (seq 0 B.BUCKET_ARRAY_SIZE) p)
    as (l1 & l2 & Hl & Hall); [intros q Hq%elem_of_seq; lia|done|done|].
  assert (p ∈ seq 0 B.BUCKET_ARRAY_SIZE) as Hin.
  { rewrite Hl. apply elem_of_app. right. by left. }
  apply elem_of_seq in Hin.
  assert (l1 = seq 0 p) as ->.
  { assert (length l1 = p) as Hlen.
    { assert (seq 0 B.BUCKET_ARRAY_SIZE !! length l1 = Some p) as Hlk.
      { rewrite Hl. by rewrite list_lookup_middle. }
      apply lookup_seq in Hlk. lia. }
    apply (f_equal (take p)) in Hl. rewrite take_seq in Hl.
    rewrite Nat.min_l in Hl by lia. rewrite Hl.
    rewrite take_app_length' by done. done. }
  pose proof (Insert_loop_Some _ _ _ _ _ _ Hloop) as Hfree.
  rewrite decide_True in Hfree by done.
  destruct Hfree as [[? _]|[_ Hfree]]; [done|].
  exists p. split_and!; [lia|done| |done].
  intros q Hq. apply Hall, elem_of_seq. lia.
Qed.

(** The redistribution loop loses nothing: the new page keeps what it held
    and receives every entry that moves.  The new page has its slots from
    [m] on free when the loop is at slot [m], so that it always has room. *)
Lemma redistribute_keeps moves (n m : nat) :
  ∀ (old new : B.t) is_free old' new' is_free',
  B.wf old → B.wf new → (m + n = B.BUCKET_ARRAY_SIZE)%nat →
  (∀ j, (m ≤ j < B.BUCKET_ARRAY_SIZE)%nat → B.IsReadable new j = false) →
  redistribute moves old new (seq m n) is_free = Ret (old', new', is_free') →
  (∀ key value, B.holds new key value → B.holds new' key value) ∧
  (∀ i, (m ≤ i < B.BUCKET_ARRAY_SIZE)%nat → moves (B.KeyAt old i) = true →
        B.holds new' (B.KeyAt old i) (B.ValueAt old i)).
Proof.
  revert m. induction n as [|n IH]; intros m old new is_free old' new' is_free'
    Hwo Hwn Hmn Hfree Hrun; simpl in Hrun.
  - injection Hrun as <- <- <-. split; [done|]. intros i Hi. lia.
  - apply bind_Ret in Hrun as (_ & _ & Hrun).
    destruct (moves (B.KeyAt old m)) eqn:Hmv.
    + set (key := B.KeyAt old m) in *. set (value := B.ValueAt old m) in *.
      assert (B.wf (B.Insert new key value).2) as Hwn1 by (by apply Insert_snd).
      assert (B.holds (B.Insert new key value).2 key value ∧
              ∀ j, (S m ≤ j < B.BUCKET_ARRAY_SIZE)%nat →
                   B.IsReadable (B.Insert new key value).2 j = false) as [Hin Hfree1].
      { destruct (B.Insert new key value) as [[] new1] eqn:Hi; simpl.
        - apply Insert_true_first in Hi as (p & Hp & Hr & Hfirst & ->).
          assert (p ≤ m)%nat as Hpm.
          { destruct (decide (p ≤ m)%nat) as [|Hgt]; [done|].
            pose proof (Hfree m ltac:(lia)) as Hm0.
            rewrite Hfirst in Hm0 by lia. discriminate Hm0. }
          split; [by apply holds_put_new|].
          intros j Hj. rewrite IsReadable_put by done.
          rewrite decide_False by lia. apply Hfree. lia.
        - apply Insert_false in Hi as [-> [(j & Hj & Hm)|Hfull]].
          + split; [by eapply entry_match_holds|]. intros j' Hj'. apply Hfree. lia.
          + pose proof (Hfree m ltac:(lia)) as Hm0.
            rewrite Hfull in Hm0 by lia. discriminate Hm0. }
      destruct (IH (S m) (B.RemoveAt old m) (B.Insert new key value).2 true
                   old' new' is_free') as [Hkeep Hmoved];
        [by apply wf_RemoveAt|done|lia|done|done|].
      split.
      * intros k0 v0 Hh. apply Hkeep. by apply holds_Insert.
      * intros i Hi Hmi. destruct (decide (i = m)) as [->|Hne].
        -- by apply Hkeep.
        -- apply (Hmoved i); [lia|done].
    + destruct (IH (S m) old new is_free old' new' is_free') as [Hkeep Hmoved];
        [done|done|lia| |done|].
      { intros j Hj. apply Hfree. lia. }
      split; [done|]. intros i Hi Hmi.
      destruct (decide (i = m)) as [->|Hne]; [congruence|]. apply Hmoved; [lia|done].
Qed.

(** Redistribution from a page with every slot live into an empty page:
    every entry of the old page is on one of the two pages afterwards. *)
Lemma redistribute_splits moves (old old' new' : B.t) is_free key value :
  B.wf old →
  (∀ j, (j < B.BUCKET_ARRAY_SIZE)%nat → B.IsReadable old j = true) →
  redistribute moves old B.zero (seq 0 B.BUCKET_ARRAY_SIZE) false = Ret (old', new', is_free) →
  B.holds old key value → B.holds old' key value ∨ B.holds new' key value.
Proof.
  intros Hwf Hall Hrun (j & Hj & Hr & Hk & Hv).
  destruct (redistribute_spec moves old B.zero (seq 0 B.BUCKET_ARRAY_SIZE) false)
    as (old1 & new1 & Heq & _ & _ & _ & Harr & Hrd & _);
    [done|apply wf_zero|apply NoDup_seq|intros i Hi%elem_of_seq; lia
    |intros i Hi%elem_of_seq; apply Hall; lia|].
  rewrite Heq in Hrun. injection Hrun as <- <- _.
  destruct (moves key) eqn:Hmv.
  - right.
    destruct (redistribute_keeps moves B.BUCKET_ARRAY_SIZE 0 old B.zero false old1 new1
                (false || existsb (λ i, moves (B.KeyAt old i)) (seq 0 B.BUCKET_ARRAY_SIZE)))
      as [_ Hmoved]; [done|apply wf_zero|lia| |done|].
    { intros i Hi. apply IsReadable_zero. lia. }
    rewrite <- Hk, <- Hv. apply Hmoved; [lia|]. by rewrite Hk.
  - left. exists j. split_and!; [done| | |].
    + rewrite Hrd, Hr, Hk, Hmv. by rewrite andb_false_r.
    + unfold B.KeyAt. by rewrite Harr.
    + unfold B.ValueAt. by rewrite Harr.
Qed.

Lemma stores_Inv ht d key value :
  Inv ht d → stores ht key value ↔ stored_in d (pages ht) key value.
Proof. intros Hinv. unfold stores. by rewrite (Inv_directory ht d Hinv). Qed.

(** One bucket page is written; it keeps the pair if it held it. *)
Lemma stored_in_write d pgs pgs' p b b' key value :
  bucket_of pgs p = Some b → bucket_of pgs' p = Some b' →
  (∀ q b0, q ≠ p → bucket_of pgs q = Some b0 → bucket_of pgs' q = Some b0) →
  (B.holds b key value → B.holds b' key value) →
  stored_in d pgs key value → stored_in d pgs' key value.
Proof.
  intros Hb Hb' Hkeep Hh (i & b0 & Hi & Hb0 & Hh0).
  destruct (decide (D.GetBucketPageId d i = p)) as [Heq|Hne].
  - rewrite Heq in Hb0. assert (b0 = b) as -> by congruence.
    exists i, b'. rewrite Heq. split_and!; [done..|by apply Hh].
  - exists i, b0. split_and!; [done|by apply Hkeep|done].
Qed.

Lemma SplitInsert_grow_keeps ht d old k v a ht' key value :
  Inv ht d →
  let index := KeyToDirectoryIndex k d in
  let old_pid := D.GetBucketPageId d index in
  bucket_of (pages ht) old_pid = Some old →
  (∀ j, (j < B.BUCKET_ARRAY_SIZE)%nat → B.IsReadable old j = true) →
  D.GetLocalDepth d index = D.GetGlobalDepth d →
  SplitInsert_grow ht d index old_pid old k v = Ret (a, ht') →
  stored_in d (pages ht) key value → stores ht' key value.
Proof.
  intros [Hd Hok] index old_pid Hold Hall Hld Hrun Hst.
  pose proof (ok_dir _ _ Hok) as Hinv.
  assert (0 ≤ D.GetGlobalDepth d) as Hg by apply Hinv.
  assert (live d index) as Hindex by (by apply KeyToDirectoryIndex_live).
  unfold SplitInsert_grow in Hrun.
  apply bind_Ret in Hrun as (d1 & Hincr & Hrun).
  destruct (grown_spec d index (next_page_id ht) d1 Hinv Hindex Hincr)
    as (Hmax & Hg1 & _ & Hkdi & Hgrown).
  apply bind_Ret in Hrun as (_ & _ & Hrun).
  change (NewPage ht) with (next_page_id ht, (NewPage ht).2) in Hrun.
  cbv beta iota zeta in Hrun.
  apply bind_Ret in Hrun as (new0 & [= <-] & Hrun).
  apply bind_Ret in Hrun as ([[old1 new1] is_free] & Hred & Hrun).
  cbv beta iota zeta in Hrun.
  set (new_index := Z.lor index (Z.shiftl 1 (D.GetGlobalDepth d))) in *.
  set (d3 := D.SetLocalDepth (D.SetLocalDepth (D.SetBucketPageId d1 _ _) _ _) _ _) in *.
  apply bind_Ret in Hrun as ([[old2 new2] ret] & Hins & Hrun).
  cbv beta iota zeta in Hrun.
  change (grown d d3 index new_index (next_page_id ht)) in Hgrown.
  set (g := D.GetGlobalDepth d) in *.
  assert (0 ≤ index < 2 ^ g) as Hir by (by apply live_iff).
  assert (B.wf old) as Hwo.
  { destruct (ok_buckets _ _ Hok index Hindex) as (b & Hb & Hpl).
    fold old_pid in Hb. rewrite Hold in Hb. injection Hb as <-. apply Hpl. }
  destruct (redistribute_spec (λ cur_key, KeyToDirectoryIndex cur_key d1 =? new_index)
              old B.zero (seq 0 B.BUCKET_ARRAY_SIZE) false)
    as (old1' & new1' & Heq & Hwo1 & Hwn1 & _);
    [done|apply wf_zero|apply NoDup_seq|intros i Hi%elem_of_seq; lia
    |intros i Hi%elem_of_seq; apply Hall; lia|].
  rewrite Hred in Heq. injection Heq as <- <- _.
  assert ((B.holds old1 key value → B.holds old2 key value) ∧
          (B.holds new1 key value → B.holds new2 key value)) as [Hko Hkn].
  { destruct ((KeyToDirectoryIndex k d3 =? index) && is_free).
    - destruct (B.Insert old1 k v) as [test old1'] eqn:Hi.
      apply bind_Ret in Hins as (_ & _ & [= <- <- <-]).
      split; [|done]. intros Hh.
      replace old1' with (B.Insert old1 k v).2 by (by rewrite Hi). by apply holds_Insert.
    - destruct (KeyToDirectoryIndex k d3 =? new_index).
      + destruct (B.Insert new1 k v) as [test new1'] eqn:Hi.
        apply bind_Ret in Hins as (_ & _ & [= <- <- <-]).
        split; [done|]. intros Hh.
        replace new1' with (B.Insert new1 k v).2 by (by rewrite Hi). by apply holds_Insert.
      + by injection Hins as <- <- <-. }
  match type of Hrun with Ret (_, ?s) = _ => set (htF := s) in * end.
  injection Hrun as _ <-.
  pose proof (split_finish ht d old_pid old old2 new2 d3 is_free
                (is_free || (KeyToDirectoryIndex k d3 =? new_index))
                (conj Hd Hok) Hold) as Hfin.
  cbv zeta in Hfin. destruct Hfin as (Hdp & Hdir & Hbo & Hbn & Hkeep & _).
  change (directory_page_id_ htF = directory_page_id_ ht) in Hdp.
  change (pages htF !! directory_page_id_ ht = Some (DirPage d3)) in Hdir.
  change (bucket_of (pages htF) old_pid = Some old2) in Hbo.
  change (bucket_of (pages htF) (next_page_id ht) = Some new2) in Hbn.
  change (∀ p b, p ≠ old_pid → bucket_of (pages ht) p = Some b →
                 bucket_of (pages htF) p = Some b) in Hkeep.
  clearbody htF.
  unfold stores, directory. rewrite Hdp, Hdir.
  destruct Hgrown as (Hg3 & _ & Hgr). fold g in Hg3, Hgr.
  assert (0 ≤ D.GetGlobalDepth d3) as Hg3' by lia.
  assert (2 ^ g ≤ 2 ^ (g + 1)) as Hpow by (rewrite pow2_succ by lia; lia).
  assert (∀ i, live d i → live d3 i ∧ D.GetBucketPageId d3 i = D.GetBucketPageId d i)
    as Hslot.
  { intros i Hi. apply (live_iff _ _ Hg) in Hi. fold g in Hi. split.
    - apply live_iff; [done|]. rewrite Hg3. lia.
    - destruct (Hgr i i) as [-> _]; [done|lia|apply cong_refl|].
      rewrite decide_False; [done|]. by apply set_ne_low. }
  assert (live d3 new_index ∧ D.GetBucketPageId d3 new_index = next_page_id ht)
    as [Hlnew Hpnew].
  { split.
    - apply live_iff; [done|]. rewrite Hg3. by apply set_range.
    - destruct (Hgr index new_index) as [-> _]; [done|by apply set_range|by apply cong_set|].
      by rewrite decide_True. }
  destruct Hst as (i & b & Hi & Hb & Hh).
  destruct (Hslot i Hi) as [Hli Hpi].
  destruct (decide (D.GetBucketPageId d i = old_pid)) as [Heq|Hne].
  - rewrite Heq, Hold in Hb. injection Hb as <-.
    destruct (redistribute_splits _ old old1 new1 is_free key value Hwo Hall Hred Hh)
      as [Ho|Hn].
    + exists index, old2. destruct (Hslot index Hindex) as [Hl1 Hp1].
      split_and!; [done| |by apply Hko]. rewrite Hp1. exact Hbo.
    + exists new_index, new2. split_and!; [done| |by apply Hkn]. by rewrite Hpnew.
  - exists i, b. split_and!; [done| |done]. rewrite Hpi. by apply Hkeep.
Qed.

Lemma SplitInsert_local_keeps ht d old k v a ht' key value :
  Inv ht d →
  let index := KeyToDirectoryIndex k d in
  let old_pid := D.GetBucketPageId d index in
  bucket_of (pages ht) old_pid = Some old →
  (∀ j, (j < B.BUCKET_ARRAY_SIZE)%nat → B.IsReadable old j = true) →
  SplitInsert_local ht d index old_pid old k v = Ret (a, ht') →
  stored_in d (pages ht) key value → stores ht' key value.
Proof.
  intros [Hd Hok] index old_pid Hold Hall Hrun Hst.
  pose proof (ok_dir _ _ Hok) as Hinv.
  assert (0 ≤ D.GetGlobalDepth d) as Hg by apply Hinv.
  assert (live d index) as Hindex by (by apply KeyToDirectoryIndex_live).
  assert (∀ i, live d i → D.GetBucketPageId d i ≠ next_page_id ht) as Hfresh.
  { intros i Hi Heq. destruct (ok_buckets _ _ Hok i Hi) as (b & Hb%bucket_of_is_Some & _).
    apply (pool_pages_fresh _ (ok_pool _ _ Hok)) in Hb. lia. }
  unfold SplitInsert_local in Hrun.
  apply bind_Ret in Hrun as (_ & Hlt%assert_Ret & Hrun). apply Z.ltb_lt in Hlt.
  change (NewPage ht) with (next_page_id ht, (NewPage ht).2) in Hrun.
  cbv beta iota zeta in Hrun.
  apply bind_Ret in Hrun as (new0 & [= <-] & Hrun).
  apply bind_Ret in Hrun as (_ & _ & Hrun).
  set (L0 := D.GetLocalDepth d index) in *.
  set (new_index := Z.lxor (Z.shiftl 1 L0) index) in *.
  set (d3 := D.IncrLocalDepth (D.IncrLocalDepth (D.SetBucketPageId d _ _) _) _) in *.
  destruct (split_in_place_spec d index (next_page_id ht) Hinv Hindex Hlt Hfresh)
    as (Hnl & Hnld & Hmask & d4 & Hfan & Hsplit).
  fold L0 new_index d3 in Hnl, Hnld, Hmask, Hfan, Hsplit. fold old_pid in Hfan, Hsplit.
  apply bind_Ret in Hrun as ([[old1 new1] is_free] & Hred & Hrun).
  cbv beta iota zeta in Hrun.
  apply bind_Ret in Hrun as (d4' & Hfan' & Hrun).
  rewrite Hfan in Hfan'. injection Hfan' as <-.
  apply bind_Ret in Hrun as ([old2 ret] & Hins & Hrun).
  cbv beta iota zeta in Hrun.
  assert (0 ≤ L0) as HL by (apply (dir_local _ Hinv index Hindex)).
  assert (B.wf old) as Hwo.
  { destruct (ok_buckets _ _ Hok index Hindex) as (b & Hb & Hpl).
    fold old_pid in Hb. rewrite Hold in Hb. injection Hb as <-. apply Hpl. }
  destruct (redistribute_spec
              (λ cur_key, Z.land (D.GetLocalDepthMask d3 index) (Hash cur_key)
                          =? Z.land new_index (D.GetLocalDepthMask d3 index))
              old B.zero (seq 0 B.BUCKET_ARRAY_SIZE) false)
    as (old1' & new1' & Heq & Hwo1 & Hwn1 & _);
    [done|apply wf_zero|apply NoDup_seq|intros i Hi%elem_of_seq; lia
    |intros i Hi%elem_of_seq; apply Hall; lia|].
  rewrite Hred in Heq. injection Heq as <- <- _.
  assert (B.holds old1 key value → B.holds old2 key value) as Hko.
  { destruct is_free.
    - destruct (B.Insert old1 k v) as [test old1'] eqn:Hi.
      apply bind_Ret in Hins as (_ & _ & [= <- <-]). intros Hh.
      replace old1' with (B.Insert old1 k v).2 by (by rewrite Hi). by apply holds_Insert.
    - by injection Hins as <- <-. }
  match type of Hrun with Ret (_, ?s) = _ => set (htF := s) in * end.
  injection Hrun as _ <-.
  pose proof (split_finish ht d old_pid old old2 new1 d4 is_free is_free
                (conj Hd Hok) Hold) as Hfin.
  cbv zeta in Hfin. destruct Hfin as (Hdp & Hdir & Hbo & Hbn & Hkeep & _).
  change (directory_page_id_ htF = directory_page_id_ ht) in Hdp.
  change (pages htF !! directory_page_id_ ht = Some (DirPage d4)) in Hdir.
  change (bucket_of (pages htF) old_pid = Some old2) in Hbo.
  change (bucket_of (pages htF) (next_page_id ht) = Some new1) in Hbn.
  change (∀ p b, p ≠ old_pid → bucket_of (pages ht) p = Some b →
                 bucket_of (pages htF) p = Some b) in Hkeep.
  clearbody htF.
  unfold stores, directory. rewrite Hdp, Hdir.
  destruct Hsplit as (Hg4 & _ & Hs).
  assert (∀ i, live d4 i ↔ live d i) as Hlive4.
  { intros i. unfold live, D.Size. fold (D.GetGlobalDepth d4) (D.GetGlobalDepth d).
    by rewrite Hg4. }
  assert (D.GetBucketPageId d4 index = old_pid) as Hp4.
  { specialize (Hs index Hindex). rewrite decide_True in Hs by done.
    destruct Hs as [_ ->]. by rewrite decide_True. }
  assert (D.GetBucketPageId d4 new_index = next_page_id ht) as Hpn4.
  { assert (D.GetBucketPageId d new_index = old_pid) as Hsame.
    { symmetry. apply (dir_alias _ Hinv); [done..|]. fold L0.
      apply cong_sym. unfold new_index. rewrite Z.lxor_comm. by apply cong_flip. }
    specialize (Hs new_index Hnl). rewrite decide_True in Hs by done.
    destruct Hs as [_ ->]. rewrite decide_False; [done|].
    fold L0. unfold new_index. rewrite Z.lxor_comm, flip_bit by done.
    by destruct (Z.testbit index L0). }
  destruct Hst as (i & b & Hi & Hb & Hh).
  destruct (decide (D.GetBucketPageId d i = old_pid)) as [Heq|Hne].
  - rewrite Heq, Hold in Hb. injection Hb as <-.
    destruct (redistribute_splits _ old old1 new1 is_free key value Hwo Hall Hred Hh)
      as [Ho|Hn].
    + exists index, old2. split_and!; [by apply Hlive4| |by apply Hko]. by rewrite Hp4.
    + exists new_index, new1. split_and!; [by apply Hlive4| |done]. by rewrite Hpn4.
  - exists i, b. split_and!; [by apply Hlive4| |done].
    specialize (Hs i Hi). rewrite decide_False in Hs by done.
    destruct Hs as [_ ->]. by apply Hkeep.
Qed.

Lemma SplitInsert_body_keeps ht d k v a ht' key value :
  Inv ht d → SplitInsert_body ht k v = Ret (a, ht') →
  stored_in d (pages ht) key value → stores ht' key value.
Proof.
  intros Hinv Hrun Hst.
  destruct (SplitInsert_body_spec ht d k v a ht' Hinv Hrun) as (d' & Hinv' & _ & Ha).
  destruct (Inv_bucket ht d k Hinv) as (old & Hold & Hpo & Hne).
  destruct (Inv_fetched ht d _ old Hinv Hold) as [Hinv2 Hs2].
  pose proof Hinv as [Hd Hok].
  unfold SplitInsert_body in Hrun.
  rewrite (FetchDirectoryPage_ok _ _ Hd), bind_Ret_l in Hrun. cbv beta iota zeta in Hrun.
  change (D.GetBucketPageId d (KeyToDirectoryIndex k d)) with (KeyToPageId k d) in Hrun.
  rewrite (FetchBucketPage_ok _ _ old) in Hrun by done.
  rewrite bind_Ret_l in Hrun. cbv beta iota zeta in Hrun.
  set (ht2 := fetched (fetched ht (directory_page_id_ ht)) (KeyToPageId k d)) in *.
  pose proof (SplitInsert_scan_spec old k v) as [Hdup Hnodup].
  destruct (SplitInsert_scan old k v _ _) as [is_duplicate free_pos].
  simpl in Hdup, Hnodup.
  destruct is_duplicate.
  - injection Hrun as <- <-. destruct Ha as (Hdp & Hpg & _).
    assert (d' = d) as ->.
    { destruct Hinv' as [Hd' _]. rewrite Hdp, Hpg, Hd in Hd'. by injection Hd'. }
    apply (stores_Inv _ d); [done|]. by rewrite Hpg.
  - destruct (Hnodup eq_refl) as (Hno & Hfull & Hfree). clear Hdup Hnodup.
    destruct (Nat.eqb_spec free_pos B.BUCKET_ARRAY_SIZE) as [Hfp|Hfp]; simpl in Hrun.
    + assert (∀ j, (j < B.BUCKET_ARRAY_SIZE)%nat → B.IsReadable old j = true) as Hall.
      { intros j Hj. by apply Hfull. }
      destruct (Z.eqb_spec (D.GetLocalDepth d (KeyToDirectoryIndex k d))
                           (D.GetGlobalDepth d)) as [Hld|Hld].
      * by eapply (SplitInsert_grow_keeps ht2 d old k v a ht').
      * by eapply (SplitInsert_local_keeps ht2 d old k v a ht').
    + destruct (B.Insert old k v) as [test old'] eqn:Hi. simpl in Hrun.
      injection Hrun as _ <-.
      assert (placed old' (D.GetLocalDepth d (KeyToDirectoryIndex k d))
                     (KeyToDirectoryIndex k d)) as Hpo'.
      { replace old' with (B.Insert old k v).2 by (by rewrite Hi).
        apply placed_Insert; [done|].
        apply cong_sym. eapply cong_mono; [|apply KeyToDirectoryIndex_cong; apply Hok].
        apply (dir_local _ (ok_dir _ _ Hok)), KeyToDirectoryIndex_live, Hok. }
      destruct (write_bucket_finish ht d k old' false true Hinv Hpo')
        as (HinvF & _ & HbF & HkeepF & _).
      cbv zeta in HinvF, HbF, HkeepF.
      apply (stores_Inv _ d); [done|].
      eapply stored_in_write; [exact Hold|exact HbF|exact HkeepF| |done].
      intros Hh. replace old' with (B.Insert old k v).2 by (by rewrite Hi).
      apply holds_Insert; [apply Hpo|done].
Qed.

Lemma SplitInsert_rec_keeps fuel ht d k v r ht' key value :
  Inv ht d → SplitInsert_rec fuel ht k v = Ret (r, ht') →
  stored_in d (pages ht) key value → stores ht' key value.
Proof.
  revert ht d. induction fuel as [|fuel IH]; intros ht d Hinv; simpl; [done|].
  intros ([a ht1] & Hbody & Hrest)%bind_Ret Hst.
  destruct (SplitInsert_body_spec ht d k v a ht1 Hinv Hbody) as (d1 & Hinv1 & _).
  pose proof (SplitInsert_body_keeps ht d k v a ht1 key value Hinv Hbody Hst) as Hst1.
  destruct a as [ret|].
  - by injection Hrest as <- <-.
  - apply (IH ht1 d1 Hinv1 Hrest). by apply (stores_Inv ht1 d1).
Qed.

Lemma Insert_keeps ht d k v r ht' key value :
  Inv ht d → Insert ht k v = Ret (r, ht') →
  stored_in d (pages ht) key value → stores ht' key value.
Proof.
  intros Hinv Hrun Hst.
  destruct (Inv_bucket ht d k Hinv) as (b & Hb & Hpl & Hne).
  pose proof Hinv as [Hd Hok].
  unfold Insert in Hrun.
  rewrite (FetchDirectoryPage_ok _ _ Hd), bind_Ret_l in Hrun. cbv beta iota zeta in Hrun.
  rewrite (FetchBucketPage_ok _ _ b) in Hrun by done.
  rewrite bind_Ret_l in Hrun. cbv beta iota zeta in Hrun.
  rewrite (ok_page_id _ _ Hok) in Hrun.
  destruct (B.Insert b k v) as [flag b'] eqn:Hi.
  assert (placed b' (D.GetLocalDepth d (KeyToDirectoryIndex k d))
                 (KeyToDirectoryIndex k d)) as Hpl'.
  { replace b' with (B.Insert b k v).2 by (by rewrite Hi).
    apply placed_Insert; [done|].
    apply cong_sym. eapply cong_mono; [|apply KeyToDirectoryIndex_cong; apply Hok].
    apply (dir_local _ (ok_dir _ _ Hok)), KeyToDirectoryIndex_live, Hok. }
  destruct (write_bucket_finish ht d k b' false flag Hinv Hpl')
    as (HinvF & _ & HbF & HkeepF & _).
  cbv zeta in HinvF, HbF, HkeepF.
  set (htF := (UnpinPage (UnpinPage (write_page _ _ _) _ _).2 _ _).2) in *.
  assert (stored_in d (pages htF) key value) as HstF.
  { eapply stored_in_write; [exact Hb|exact HbF|exact HkeepF| |done].
    intros Hh. replace b' with (B.Insert b k v).2 by (by rewrite Hi).
    apply holds_Insert; [apply Hpl|done]. }
  destruct flag; simpl negb in Hrun; cbv iota in Hrun.
  - injection Hrun as _ <-. by apply (stores_Inv htF d).
  - by eapply (SplitInsert_rec_keeps _ htF d).
Qed.

(** One merge: the page that goes is empty, every other page stays under a
    live slot. *)
Lemma Merge_iteration_keeps ht d bucket_index b key value :
  table_ok ht d → live d bucket_index →
  let bpid := D.GetBucketPageId d bucket_index in
  let merge_index := D.GetSplitImageIndex d bucket_index in
  let mpid := D.GetBucketPageId d merge_index in
  let d2 := merge_rewrite d bpid mpid in
  let ht2 := (UnpinPage (fetched ht bpid) bpid false).2 in
  let ht3 := (DeletePage ht2 bpid).2 in
  let d3 := if D.CanShrink d2 then D.DecrGlobalDepth d2 else d2 in
  bucket_of (pages ht) bpid = Some b → B.IsEmpty b = true →
  0 < D.GetLocalDepth d bucket_index →
  D.GetLocalDepth d bucket_index = D.GetLocalDepth d merge_index →
  stored_in d (pages ht) key value → stored_in d3 (pages ht3) key value.
Proof.
  intros Hok Hbi bpid merge_index mpid d2 ht2 ht3 d3 Hb Hempty HL Hlm
    (i & b0 & Hi & Hb0 & Hh).
  pose proof (ok_dir _ _ Hok) as Hdir.
  assert (pages ht2 = pages ht) as Hpages2 by (unfold ht2; by rewrite pages_UnpinPage).
  destruct (merged_spec d bucket_index Hdir Hbi HL Hlm) as [Hmi Hmerged].
  fold merge_index bpid mpid d2 in Hmi, Hmerged.
  destruct (merged_dir_inv d d2 bucket_index Hdir Hbi HL Hlm Hmerged) as [Hdir2 _].
  assert (∀ i, live d2 i ↔ live d i) as Hlive2.
  { intros j. unfold live, D.Size. fold (D.GetGlobalDepth d2) (D.GetGlobalDepth d).
    destruct Hmerged as (-> & _). done. }
  assert (D.GetBucketPageId d i ≠ bpid) as Hne.
  { intros Heq. rewrite Heq, Hb in Hb0. injection Hb0 as <-.
    destruct Hh as (j & Hj & Hr & _).
    rewrite (proj1 (IsEmpty_true b) Hempty j Hj) in Hr. done. }
  assert (D.GetBucketPageId d2 i = D.GetBucketPageId d i) as Hp2.
  { destruct Hmerged as (_ & _ & Hm). specialize (Hm i Hi).
    destruct (decide (_ ∨ _)) as [[?|Hm']|?]; destruct Hm as [_ ->]; done. }
  assert (bucket_of (pages ht3) (D.GetBucketPageId d2 i) = Some b0) as Hb3.
  { unfold ht3. rewrite Hp2, bucket_of_DeletePage_ne by done. by rewrite Hpages2. }
  unfold d3. destruct (D.CanShrink d2) eqn:Hcan; [|exists i, b0; by rewrite Hlive2].
  assert (0 ≤ D.GetGlobalDepth d2) as Hg2 by apply Hdir2.
  pose proof (shrink_dir_inv d2 Hdir2 Hcan) as Hdir4.
  assert (0 ≤ D.GetGlobalDepth (D.DecrGlobalDepth d2)) as Hg4 by apply Hdir4.
  set (g4 := D.GetGlobalDepth (D.DecrGlobalDepth d2)) in *.
  assert (g4 = D.GetGlobalDepth d2 - 1) as Hg4eq by done.
  set (i' := Z.land i (Z.ones g4)).
  assert (live (D.DecrGlobalDepth d2) i') as Hli'.
  { apply live_iff; [done|]. fold g4. by apply land_ones_range. }
  assert (live d2 i') as Hli2.
  { apply live_iff; [done|]. apply (live_iff _ _ Hg4) in Hli'. fold g4 in Hli'.
    split; [lia|]. assert (2 ^ g4 ≤ 2 ^ D.GetGlobalDepth d2); [|lia].
    apply Z.pow_le_mono_r; lia. }
  exists i', b0. split_and!; [done| |done].
  change (D.GetBucketPageId (D.DecrGlobalDepth d2) i') with (D.GetBucketPageId d2 i').
  assert (D.GetBucketPageId d2 i = D.GetBucketPageId d2 i') as <-; [|done].
  apply (dir_alias _ Hdir2); [by apply Hlive2|done|].
  apply cong_sym. eapply cong_mono; [|by apply cong_land_ones].
  rewrite CanShrink_true in Hcan. apply Hlive2 in Hi. specialize (Hcan _ Hi).
  pose proof (dir_local _ Hdir2 i Hi). lia.
Qed.

Lemma Merge_loop_keeps fuel ht d bucket_index is_dirty d' dirty' ht' key value :
  table_ok ht d → live d bucket_index →
  Merge_loop fuel ht d bucket_index is_dirty = Ret (d', dirty', ht') →
  stored_in d (pages ht) key value → stored_in d' (pages ht') key value.
Proof.
  revert ht d bucket_index is_dirty.
  induction fuel as [|fuel IH]; intros ht d bucket_index is_dirty Hok Hbi; [done|].
  destruct (ok_buckets _ _ Hok bucket_index Hbi) as (b & Hb & Hpl).
  rewrite (Merge_loop_merges fuel ht d bucket_index is_dirty b Hb). cbv zeta.
  destruct (Merge_iteration ht d bucket_index Hok Hbi) as [[Hs2 Hsame2] Hnext].
  cbv zeta in Hs2, Hsame2, Hnext.
  destruct ((0 <? D.GetLocalDepth d bucket_index) && B.IsEmpty b
            && (D.GetLocalDepth d bucket_index
                =? D.GetLocalDepth d (D.GetSplitImageIndex d bucket_index))) eqn:Hshrink.
  - apply andb_true_iff in Hshrink as [[HL%Z.ltb_lt Hempty]%andb_true_iff Hlm%Z.eqb_eq].
    destruct (Hnext HL Hlm) as (Hok3 & Hlive3 & _).
    intros Hrest Hst.
    apply (IH _ _ _ true Hok3 Hlive3 Hrest).
    by apply (Merge_iteration_keeps ht d bucket_index b).
  - intros [= <- <- <-]. destruct Hsame2 as (_ & -> & _). done.
Qed.

Lemma Merge_keeps ht d k v ht' key value :
  Inv ht d → Merge ht k v = Ret ht' →
  stored_in d (pages ht) key value → stores ht' key value.
Proof.
  intros [Hd Hok] Hrun Hst. unfold Merge in Hrun.
  rewrite (FetchDirectoryPage_ok _ _ Hd), bind_Ret_l in Hrun. cbv beta iota zeta in Hrun.
  set (ht1 := fetched ht (directory_page_id_ ht)) in *.
  assert (stepped ht ht1 [CallFetchPage (directory_page_id_ ht)]) as Hs1.
  { apply (stepped_fetched ht _ []); [|by rewrite Hd]. apply stepped_refl, Hok. }
  assert (table_ok ht1 d) as Hok1.
  { split; [apply Hok..|apply Hs1]. }
  apply bind_Ret in Hrun as ([[d' dirty] ht2] & Hloop & Hrun).
  cbv beta iota zeta in Hrun. injection Hrun as <-.
  assert (live d (KeyToDirectoryIndex k d)) as Hlive
    by (apply KeyToDirectoryIndex_live, Hok).
  destruct (Merge_loop_spec (λ _, True) Merge_bound ht1 d (KeyToDirectoryIndex k d) false
              d' dirty ht2 Hok1 Hlive) as (Hok2 & _ & _); [done|exact Hloop|].
  pose proof (Merge_loop_keeps _ ht1 d _ _ d' dirty ht2 key value Hok1 Hlive Hloop Hst)
    as (i & b & Hi & Hb & Hh).
  destruct (ok_dir_page _ _ Hok2) as [d0 Hd0].
  unfold stores, directory.
  rewrite directory_page_id_UnpinPage, pages_UnpinPage. simpl.
  rewrite lookup_insert_eq.
  exists i, b. split_and!; [done| |done].
  rewrite bucket_of_insert_ne; [done|].
  intros Heq. unfold bucket_of in Hb. rewrite <- Heq, Hd0 in Hb. done.
Qed.

Lemma Remove_keeps ht d k v r ht' key value :
  Inv ht d → Remove ht k v = Ret (r, ht') →
  ¬ (key = k ∧ value = v) →
  stored_in d (pages ht) key value → stores ht' key value.
Proof.
  intros Hinv Hrun Hne Hst.
  destruct (Inv_bucket ht d k Hinv) as (b & Hb & Hpl & Hnd).
  pose proof Hinv as [Hd Hok].
  unfold Remove in Hrun.
  rewrite (FetchDirectoryPage_ok _ _ Hd), bind_Ret_l in Hrun. cbv beta iota zeta in Hrun.
  rewrite (FetchBucketPage_ok _ _ b) in Hrun by done.
  rewrite bind_Ret_l in Hrun. cbv beta iota zeta in Hrun.
  rewrite (ok_page_id _ _ Hok) in Hrun.
  destruct (B.Remove b k v) as [flag b'] eqn:Hr.
  assert (placed b' (D.GetLocalDepth d (KeyToDirectoryIndex k d))
                 (KeyToDirectoryIndex k d)) as Hpl'.
  { replace b' with (B.Remove b k v).2 by (by rewrite Hr). by apply placed_Remove. }
  destruct (write_bucket_finish ht d k b' false flag Hinv Hpl')
    as (HinvF & _ & HbF & HkeepF & _).
  cbv zeta in HinvF, HbF, HkeepF.
  set (htF := (UnpinPage (UnpinPage (write_page _ _ _) _ _).2 _ _).2) in *.
  assert (stored_in d (pages htF) key value) as HstF.
  { eapply stored_in_write; [exact Hb|exact HbF|exact HkeepF| |done].
    intros Hh. replace b' with (B.Remove b k v).2 by (by rewrite Hr).
    apply holds_Remove; [apply Hpl|done..]. }
  destruct flag; cbv iota in Hrun.
  - apply bind_Ret in Hrun as (ht1 & Hmerge & [= _ <-]).
    by eapply (Merge_keeps htF d).
  - injection Hrun as _ <-. by apply (stores_Inv htF d).
Qed.

(** *** Nothing appears either *)

Lemma holds_Insert_from (b : B.t) k v key value :
  B.wf b → B.holds (B.Insert b k v).2 key value →
  B.holds b key value ∨ (key = k ∧ value = v).
Proof.
  intros Hwf (j & Hj & Hr & Hk & Hv).
  destruct (Insert_snd b k v Hwf) as (_ & _ & Hfrom).
  destruct (Hfrom j Hj Hr) as [(Hr0 & Hk0 & Hv0)|Hnew].
  - left. exists j. split_and!; [done..|congruence|congruence].
  - right. rewrite Hk, Hv in Hnew. by injection Hnew.
Qed.

Lemma holds_Remove_from (b : B.t) k v key value :
  B.wf b → B.holds (B.Remove b k v).2 key value → B.holds b key value.
Proof.
  intros Hwf (j & Hj & Hr & Hk & Hv).
  destruct (Remove_spec b k v Hwf) as (_ & _ & Harr & Hrd & _).
  rewrite Hrd in Hr by done. apply andb_true_iff in Hr as [Hr _].
  exists j. unfold B.KeyAt, B.ValueAt in *. rewrite Harr in Hk, Hv. done.
Qed.

Lemma redistribute_from moves (old old' new' : B.t) is_free key value :
  B.wf old →
  (∀ j, (j < B.BUCKET_ARRAY_SIZE)%nat → B.IsReadable old j = true) →
  redistribute moves old B.zero (seq 0 B.BUCKET_ARRAY_SIZE) false = Ret (old', new', is_free) →
  B.holds old' key value ∨ B.holds new' key value → B.holds old key value.
Proof.
  intros Hwf Hall Hrun Hh.
  destruct (redistribute_spec moves old B.zero (seq 0 B.BUCKET_ARRAY_SIZE) false)
    as (old1 & new1 & Heq & _ & _ & _ & Harr & Hrd & _ & Hfrom);
    [done|apply wf_zero|apply NoDup_seq|intros i Hi%elem_of_seq; lia
    |intros i Hi%elem_of_seq; apply Hall; lia|].
  rewrite Heq in Hrun. injection Hrun as <- <- _.
  destruct Hh as [(j & Hj & Hr & Hk & Hv)|(j & Hj & Hr & Hk & Hv)].
  - exists j. rewrite Hrd in Hr. apply andb_true_iff in Hr as [Hr _].
    unfold B.KeyAt, B.ValueAt in *. rewrite Harr in Hk, Hv. done.
  - destruct (Hfrom j Hj Hr) as [(Hr0 & _)|(i & Hi%elem_of_seq & _ & He)].
    + rewrite IsReadable_zero in Hr0 by done. done.
    + rewrite Hk, Hv in He. injection He as -> ->.
      exists i. split_and!; [lia|apply Hall; lia|done..].
Qed.

Lemma stored_in_write_from d pgs pgs' p b b' key value (Q : Prop) :
  buckets_ok d pgs →
  bucket_of pgs p = Some b → bucket_of pgs' p = Some b' →
  (∀ q b0, q ≠ p → bucket_of pgs q = Some b0 → bucket_of pgs' q = Some b0) →
  (B.holds b' key value → B.holds b key value ∨ Q) →
  stored_in d pgs' key value → stored_in d pgs key value ∨ Q.
Proof.
  intros Hbk Hb Hb' Hkeep Hh (i & b0 & Hi & Hb0 & Hh0).
  destruct (decide (D.GetBucketPageId d i = p)) as [Heq|Hne].
  - rewrite Heq in Hb0. assert (b0 = b') as -> by congruence.
    destruct (Hh Hh0) as [Hold|HQ]; [left|by right].
    exists i, b. by rewrite Heq.
  - left. destruct (Hbk i Hi) as (b1 & Hb1 & _).
    pose proof (Hkeep _ _ Hne Hb1) as Hb1'. assert (b0 = b1) as -> by congruence.
    by exists i, b1.
Qed.

Lemma SplitInsert_grow_from ht d old k v a ht' key value :
  Inv ht d →
  let index := KeyToDirectoryIndex k d in
  let old_pid := D.GetBucketPageId d index in
  bucket_of (pages ht) old_pid = Some old →
  (∀ j, (j < B.BUCKET_ARRAY_SIZE)%nat → B.IsReadable old j = true) →
  D.GetLocalDepth d index = D.GetGlobalDepth d →
  SplitInsert_grow ht d index old_pid old k v = Ret (a, ht') →
  stores ht' key value →
  stored_in d (pages ht) key value ∨ (a = Return true ∧ key = k ∧ value = v).
Proof.
  intros [Hd Hok] index old_pid Hold Hall Hld Hrun Hst.
  pose proof (ok_dir _ _ Hok) as Hinv.
  assert (0 ≤ D.GetGlobalDepth d) as Hg by apply Hinv.
  assert (live d index) as Hindex by (by apply KeyToDirectoryIndex_live).
  unfold SplitInsert_grow in Hrun.
  apply bind_Ret in Hrun as (d1 & Hincr & Hrun).
  destruct (grown_spec d index (next_page_id ht) d1 Hinv Hindex Hincr)
    as (Hmax & Hg1 & _ & Hkdi & Hgrown).
  apply bind_Ret in Hrun as (_ & _ & Hrun).
  change (NewPage ht) with (next_page_id ht, (NewPage ht).2) in Hrun.
  cbv beta iota zeta in Hrun.
  apply bind_Ret in Hrun as (new0 & [= <-] & Hrun).
  apply bind_Ret in Hrun as ([[old1 new1] is_free] & Hred & Hrun).
  cbv beta iota zeta in Hrun.
  set (new_index := Z.lor index (Z.shiftl 1 (D.GetGlobalDepth d))) in *.
  set (d3 := D.SetLocalDepth (D.SetLocalDepth (D.SetBucketPageId d1 _ _) _ _) _ _) in *.
  apply bind_Ret in Hrun as ([[old2 new2] ret] & Hins & Hrun).
  cbv beta iota zeta in Hrun.
  change (grown d d3 index new_index (next_page_id ht)) in Hgrown.
  set (g := D.GetGlobalDepth d) in *.
  assert (0 ≤ index < 2 ^ g) as Hir by (by apply live_iff).
  assert (B.wf old) as Hwo.
  { destruct (ok_buckets _ _ Hok index Hindex) as (b & Hb & Hpl).
    fold old_pid in Hb. rewrite Hold in Hb. injection Hb as <-. apply Hpl. }
  destruct (redistribute_spec (λ cur_key, KeyToDirectoryIndex cur_key d1 =? new_index)
              old B.zero (seq 0 B.BUCKET_ARRAY_SIZE) false)
    as (old1' & new1' & Heq & Hwo1 & Hwn1 & _);
    [done|apply wf_zero|apply NoDup_seq|intros i Hi%elem_of_seq; lia
    |intros i Hi%elem_of_seq; apply Hall; lia|].
  rewrite Hred in Heq. injection Heq as <- <- _.
  assert (B.holds old2 key value ∨ B.holds new2 key value →
          B.holds old key value ∨ (ret = true ∧ key = k ∧ value = v)) as Hfrom.
  { pose proof (redistribute_from _ old old1 new1 is_free key value Hwo Hall Hred) as Hback.
    destruct ((KeyToDirectoryIndex k d3 =? index) && is_free).
    - destruct (B.Insert old1 k v) as [test old1'] eqn:Hi.
      apply bind_Ret in Hins as (_ & _ & [= <- <- <-]).
      intros [Hh|Hh]; [|left; apply Hback; by right].
      replace old1' with (B.Insert old1 k v).2 in Hh by (by rewrite Hi).
      destruct (holds_Insert_from old1 k v key value Hwo1 Hh) as [Hh'|Hkv];
        [left; apply Hback; by left|by right].
    - destruct (KeyToDirectoryIndex k d3 =? new_index).
      + destruct (B.Insert new1 k v) as [test new1'] eqn:Hi.
        apply bind_Ret in Hins as (_ & _ & [= <- <- <-]).
        intros [Hh|Hh]; [left; apply Hback; by left|].
        replace new1' with (B.Insert new1 k v).2 in Hh by (by rewrite Hi).
        destruct (holds_Insert_from new1 k v key value Hwn1 Hh) as [Hh'|Hkv];
          [left; apply Hback; by right|by right].
      + injection Hins as <- <- <-. intros Hh. left. by apply Hback. }
  match type of Hrun with Ret (_, ?s) = _ => set (htF := s) in * end.
  injection Hrun as <- <-.
  pose proof (split_finish ht d old_pid old old2 new2 d3 is_free
                (is_free || (KeyToDirectoryIndex k d3 =? new_index))
                (conj Hd Hok) Hold) as Hfin.
  cbv zeta in Hfin. destruct Hfin as (Hdp & Hdir & Hbo & Hbn & Hkeep & _).
  change (directory_page_id_ htF = directory_page_id_ ht) in Hdp.
  change (pages htF !! directory_page_id_ ht = Some (DirPage d3)) in Hdir.
  change (bucket_of (pages htF) old_pid = Some old2) in Hbo.
  change (bucket_of (pages htF) (next_page_id ht) = Some new2) in Hbn.
  change (∀ p b, p ≠ old_pid → bucket_of (pages ht) p = Some b →
                 bucket_of (pages htF) p = Some b) in Hkeep.
  clearbody htF.
  unfold stores, directory in Hst. rewrite Hdp, Hdir in Hst.
  destruct Hgrown as (Hg3 & _ & Hgr). fold g in Hg3, Hgr.
  assert (0 ≤ D.GetGlobalDepth d3) as Hg3' by lia.
  assert (B.holds old key value ∨ (ret = true ∧ key = k ∧ value = v) →
          stored_in d (pages ht) key value
          ∨ ((if ret then Return true else Recurse) = Return true ∧ key = k ∧ value = v))
    as Hfinish.
  { intros [Hh|(-> & Hkv)]; [left|by right]. by exists index, old. }
  destruct Hst as (j & b & Hj & Hb & Hh).
  apply (live_iff _ _ Hg3') in Hj. rewrite Hg3 in Hj.
  set (i := Z.land j (Z.ones g)).
  assert (0 ≤ i < 2 ^ g) as Hi by (by apply land_ones_range).
  assert (live d i) as Hli by (by apply live_iff).
  destruct (Hgr i j) as [Hpj _]; [done|done|apply cong_sym; by apply cong_land_ones|].
  destruct (decide (j = new_index)) as [->|Hjn].
  - rewrite Hpj, Hbn in Hb. injection Hb as <-. apply Hfinish, Hfrom. by right.
  - rewrite Hpj in Hb.
    destruct (decide (D.GetBucketPageId d i = old_pid)) as [Heq|Hne].
    + rewrite Heq, Hbo in Hb. injection Hb as <-. apply Hfinish, Hfrom. by left.
    + left. destruct (ok_buckets _ _ Hok i Hli) as (b1 & Hb1 & _).
      pose proof (Hkeep _ _ Hne Hb1) as Hb1'. assert (b = b1) as -> by congruence.
      by exists i, b1.
Qed.

Lemma SplitInsert_local_from ht d old k v a ht' key value :
  Inv ht d →
  let index := KeyToDirectoryIndex k d in
  let old_pid := D.GetBucketPageId d index in
  bucket_of (pages ht) old_pid = Some old →
  (∀ j, (j < B.BUCKET_ARRAY_SIZE)%nat → B.IsReadable old j = true) →
  SplitInsert_local ht d index old_pid old k v = Ret (a, ht') →
  stores ht' key value →
  stored_in d (pages ht) key value ∨ (a = Return true ∧ key = k ∧ value = v).
Proof.
  intros [Hd Hok] index old_pid Hold Hall Hrun Hst.
  pose proof (ok_dir _ _ Hok) as Hinv.
  assert (0 ≤ D.GetGlobalDepth d) as Hg by apply Hinv.
  assert (live d index) as Hindex by (by apply KeyToDirectoryIndex_live).
  assert (∀ i, live d i → D.GetBucketPageId d i ≠ next_page_id ht) as Hfresh.
  { intros i Hi Heq. destruct (ok_buckets _ _ Hok i Hi) as (b & Hb%bucket_of_is_Some & _).
    apply (pool_pages_fresh _ (ok_pool _ _ Hok)) in Hb. lia. }
  unfold SplitInsert_local in Hrun.
  apply bind_Ret in Hrun as (_ & Hlt%assert_Ret & Hrun). apply Z.ltb_lt in Hlt.
  change (NewPage ht) with (next_page_id ht, (NewPage ht).2) in Hrun.
  cbv beta iota zeta in Hrun.
  apply bind_Ret in Hrun as (new0 & [= <-] & Hrun).
  apply bind_Ret in Hrun as (_ & _ & Hrun).
  set (L0 := D.GetLocalDepth d index) in *.
  set (new_index := Z.lxor (Z.shiftl 1 L0) index) in *.
  set (d3 := D.IncrLocalDepth (D.IncrLocalDepth (D.SetBucketPageId d _ _) _) _) in *.
  destruct (split_in_place_spec d index (next_page_id ht) Hinv Hindex Hlt Hfresh)
    as (Hnl & Hnld & Hmask & d4 & Hfan & Hsplit).
  fold L0 new_index d3 in Hnl, Hnld, Hmask, Hfan, Hsplit. fold old_pid in Hfan, Hsplit.
  apply bind_Ret in Hrun as ([[old1 new1] is_free] & Hred & Hrun).
  cbv beta iota zeta in Hrun.
  apply bind_Ret in Hrun as (d4' & Hfan' & Hrun).
  rewrite Hfan in Hfan'. injection Hfan' as <-.
  apply bind_Ret in Hrun as ([old2 ret] & Hins & Hrun).
  cbv beta iota zeta in Hrun.
  assert (B.wf old) as Hwo.
  { destruct (ok_buckets _ _ Hok index Hindex) as (b & Hb & Hpl).
    fold old_pid in Hb. rewrite Hold in Hb. injection Hb as <-. apply Hpl. }
  destruct (redistribute_spec
              (λ cur_key, Z.land (D.GetLocalDepthMask d3 index) (Hash cur_key)
                          =? Z.land new_index (D.GetLocalDepthMask d3 index))
              old B.zero (seq 0 B.BUCKET_ARRAY_SIZE) false)
    as (old1' & new1' & Heq & Hwo1 & Hwn1 & _);
    [done|apply wf_zero|apply NoDup_seq|intros i Hi%elem_of_seq; lia
    |intros i Hi%elem_of_seq; apply Hall; lia|].
  rewrite Hred in Heq. injection Heq as <- <- _.
  assert (B.holds old2 key value ∨ B.holds new1 key value →
          B.holds old key value ∨ (ret = true ∧ key = k ∧ value = v)) as Hfrom.
  { pose proof (redistribute_from _ old old1 new1 is_free key value Hwo Hall Hred) as Hback.
    destruct is_free.
    - destruct (B.Insert old1 k v) as [test old1'] eqn:Hi.
      apply bind_Ret in Hins as (_ & _ & [= <- <-]).
      intros [Hh|Hh]; [|left; apply Hback; by right].
      replace old1' with (B.Insert old1 k v).2 in Hh by (by rewrite Hi).
      destruct (holds_Insert_from old1 k v key value Hwo1 Hh) as [Hh'|Hkv];
        [left; apply Hback; by left|by right].
    - injection Hins as <- <-. intros Hh. left. by apply Hback. }
  match type of Hrun with Ret (_, ?s) = _ => set (htF := s) in * end.
  injection Hrun as <- <-.
  pose proof (split_finish ht d old_pid old old2 new1 d4 is_free is_free
                (conj Hd Hok) Hold) as Hfin.
  cbv zeta in Hfin. destruct Hfin as (Hdp & Hdir & Hbo & Hbn & Hkeep & _).
  change (directory_page_id_ htF = directory_page_id_ ht) in Hdp.
  change (pages htF !! directory_page_id_ ht = Some (DirPage d4)) in Hdir.
  change (bucket_of (pages htF) old_pid = Some old2) in Hbo.
  change (bucket_of (pages htF) (next_page_id ht) = Some new1) in Hbn.
  change (∀ p b, p ≠ old_pid → bucket_of (pages ht) p = Some b →
                 bucket_of (pages htF) p = Some b) in Hkeep.
  clearbody htF.
  unfold stores, directory in Hst. rewrite Hdp, Hdir in Hst.
  destruct Hsplit as (Hg4 & _ & Hs).
  assert (∀ i, live d4 i ↔ live d i) as Hlive4.
  { intros i. unfold live, D.Size. fold (D.GetGlobalDepth d4) (D.GetGlobalDepth d).
    by rewrite Hg4. }
  assert (B.holds old key value ∨ (ret = true ∧ key = k ∧ value = v) →
          stored_in d (pages ht) key value
          ∨ ((if ret then Return true else Recurse) = Return true ∧ key = k ∧ value = v))
    as Hfinish.
  { intros [Hh|(-> & Hkv)]; [left|by right]. by exists index, old. }
  destruct Hst as (i & b & Hi%Hlive4 & Hb & Hh).
  specialize (Hs i Hi).
  destruct (decide (D.GetBucketPageId d i = old_pid)) as [Heq|Hne].
  - destruct Hs as [_ Hp]. rewrite Hp in Hb.
    destruct (decide (_ = _)).
    + rewrite Hbo in Hb. injection Hb as <-. apply Hfinish, Hfrom. by left.
    + rewrite Hbn in Hb. injection Hb as <-. apply Hfinish, Hfrom. by right.
  - destruct Hs as [_ Hp]. rewrite Hp in Hb. left.
    destruct (ok_buckets _ _ Hok i Hi) as (b1 & Hb1 & _).
    pose proof (Hkeep _ _ Hne Hb1) as Hb1'. assert (b = b1) as -> by congruence.
    by exists i, b1.
Qed.

Lemma SplitInsert_body_from ht d k v a ht' key value :
  Inv ht d → SplitInsert_body ht k v = Ret (a, ht') →
  (stores ht' key value →
   stored_in d (pages ht) key value ∨ (a = Return true ∧ key = k ∧ value = v)) ∧
  (a = Return false →
   ∃ key', comparator_ key' k = 0 ∧ stored_in d (pages ht) key' v).
Proof.
  intros Hinv Hrun.
  destruct (SplitInsert_body_spec ht d k v a ht' Hinv Hrun) as (d' & Hinv' & _ & Ha).
  destruct (Inv_bucket ht d k Hinv) as (old & Hold & Hpo & Hne).
  destruct (Inv_fetched ht d _ old Hinv Hold) as [Hinv2 Hs2].
  pose proof Hinv as [Hd Hok].
  assert (live d (KeyToDirectoryIndex k d)) as Hlive
    by (apply KeyToDirectoryIndex_live, Hok).
  unfold SplitInsert_body in Hrun.
  rewrite (FetchDirectoryPage_ok _ _ Hd), bind_Ret_l in Hrun. cbv beta iota zeta in Hrun.
  change (D.GetBucketPageId d (KeyToDirectoryIndex k d)) with (KeyToPageId k d) in Hrun.
  rewrite (FetchBucketPage_ok _ _ old) in Hrun by done.
  rewrite bind_Ret_l in Hrun. cbv beta iota zeta in Hrun.
  set (ht2 := fetched (fetched ht (directory_page_id_ ht)) (KeyToPageId k d)) in *.
  pose proof (SplitInsert_scan_spec old k v) as [Hdup Hnodup].
  destruct (SplitInsert_scan old k v _ _) as [is_duplicate free_pos].
  simpl in Hdup, Hnodup.
  destruct is_duplicate.
  - injection Hrun as <- <-. destruct Ha as (Hdp & Hpg & _).
    assert (d' = d) as ->.
    { destruct Hinv' as [Hd' _]. rewrite Hdp, Hpg, Hd in Hd'. by injection Hd'. }
    split.
    + intros Hst%(stores_Inv _ d); [|done]. left. by rewrite Hpg in Hst.
    + intros _. destruct (Hdup eq_refl) as (j & Hj & Hm).
      unfold B.entry_match in Hm.
      apply andb_true_iff in Hm as [[Hr Hc%Z.eqb_eq]%andb_true_iff Hv%bool_decide_eq_true].
      exists (B.KeyAt old j). split; [done|].
      exists (KeyToDirectoryIndex k d), old. split_and!; [done..|].
      by exists j.
  - destruct (Hnodup eq_refl) as (Hno & Hfull & Hfree). clear Hdup Hnodup.
    destruct (Nat.eqb_spec free_pos B.BUCKET_ARRAY_SIZE) as [Hfp|Hfp]; simpl in Hrun.
    + assert (∀ j, (j < B.BUCKET_ARRAY_SIZE)%nat → B.IsReadable old j = true) as Hall.
      { intros j Hj. by apply Hfull. }
      split.
      * destruct (Z.eqb_spec (D.GetLocalDepth d (KeyToDirectoryIndex k d))
                             (D.GetGlobalDepth d)) as [Hld|Hld].
        -- by eapply (SplitInsert_grow_from ht2 d old k v a ht').
        -- by eapply (SplitInsert_local_from ht2 d old k v a ht').
      * intros ->.
        destruct (Z.eqb_spec (D.GetLocalDepth d (KeyToDirectoryIndex k d))
                             (D.GetGlobalDepth d)) as [Hld|Hld].
        -- by destruct (SplitInsert_grow_spec ht2 d old k v _ ht' Hinv2 Hold Hall Hld Hrun)
             as (? & ? & ? & _ & _ & _ & ?).
        -- by destruct (SplitInsert_local_spec ht2 d old k v _ ht' Hinv2 Hold Hall Hrun)
             as (? & ? & ? & _ & _ & _ & ?).
    + destruct (B.Insert old k v) as [test old'] eqn:Hi. simpl in Hrun.
      injection Hrun as <- <-.
      assert (placed old' (D.GetLocalDepth d (KeyToDirectoryIndex k d))
                     (KeyToDirectoryIndex k d)) as Hpo'.
      { replace old' with (B.Insert old k v).2 by (by rewrite Hi).
        apply placed_Insert; [done|].
        apply cong_sym. eapply cong_mono; [|apply KeyToDirectoryIndex_cong; apply Hok].
        apply (dir_local _ (ok_dir _ _ Hok)), KeyToDirectoryIndex_live, Hok. }
      destruct (write_bucket_finish ht d k old' false true Hinv Hpo')
        as (HinvF & _ & HbF & HkeepF & _).
      cbv zeta in HinvF, HbF, HkeepF.
      split; [|done]. intros Hst%(stores_Inv _ d); [|done].
      destruct (stored_in_write_from d (pages ht) _ (KeyToPageId k d) old old' key value
                  (key = k ∧ value = v) (ok_buckets _ _ Hok) Hold HbF HkeepF)
        as [?|?]; [|done|by left|by right].
      intros Hh. replace old' with (B.Insert old k v).2 in Hh by (by rewrite Hi).
      apply holds_Insert_from; [apply Hpo|done].
Qed.

Lemma SplitInsert_rec_from fuel ht d k v r ht' key value :
  Inv ht d → SplitInsert_rec fuel ht k v = Ret (r, ht') →
  (stores ht' key value →
   stored_in d (pages ht) key value ∨ (r = true ∧ key = k ∧ value = v)) ∧
  (r = false →
   ∃ key', comparator_ key' k = 0 ∧ stored_in d (pages ht) key' v).
Proof.
  revert ht d. induction fuel as [|fuel IH]; intros ht d Hinv; simpl; [done|].
  intros ([a ht1] & Hbody & Hrest)%bind_Ret.
  destruct (SplitInsert_body_spec ht d k v a ht1 Hinv Hbody) as (d1 & Hinv1 & _).
  destruct (SplitInsert_body_from ht d k v a ht1 key value Hinv Hbody) as [Hfrom Hfalse].
  destruct a as [ret|].
  - injection Hrest as <- <-. split.
    + intros Hst. destruct (Hfrom Hst) as [?|([= ->] & ?)]; [by left|by right].
    + intros ->. by apply Hfalse.
  - destruct (IH ht1 d1 Hinv1 Hrest) as [Hfrom1 Hfalse1]. split.
    + intros Hst. destruct (Hfrom1 Hst) as [Hst1|?]; [|by right].
      apply (stores_Inv ht1 d1) in Hst1; [|done].
      destruct (Hfrom Hst1) as [?|([=] & _)]. by left.
    + intros Hr. destruct (Hfalse1 Hr) as (key' & Hc & Hst1).
      apply (stores_Inv ht1 d1) in Hst1; [|done].
      destruct (SplitInsert_body_from ht d k v Recurse ht1 key' v Hinv Hbody)
        as [Hfromk _].
      destruct (Hfromk Hst1) as [?|([=] & _)]. by exists key'.
Qed.

Lemma Insert_from ht d k v r ht' key value :
  Inv ht d → Insert ht k v = Ret (r, ht') →
  (stores ht' key value →
   stored_in d (pages ht) key value ∨ (r = true ∧ key = k ∧ value = v)) ∧
  (r = false →
   ∃ key', comparator_ key' k = 0 ∧ stored_in d (pages ht) key' v).
Proof.
  intros Hinv Hrun.
  destruct (Inv_bucket ht d k Hinv) as (b & Hb & Hpl & Hne).
  pose proof Hinv as [Hd Hok].
  unfold Insert in Hrun.
  rewrite (FetchDirectoryPage_ok _ _ Hd), bind_Ret_l in Hrun. cbv beta iota zeta in Hrun.
  rewrite (FetchBucketPage_ok _ _ b) in Hrun by done.
  rewrite bind_Ret_l in Hrun. cbv beta iota zeta in Hrun.
  rewrite (ok_page_id _ _ Hok) in Hrun.
  destruct (B.Insert b k v) as [flag b'] eqn:Hi.
  assert (placed b' (D.GetLocalDepth d (KeyToDirectoryIndex k d))
                 (KeyToDirectoryIndex k d)) as Hpl'.
  { replace b' with (B.Insert b k v).2 by (by rewrite Hi).
    apply placed_Insert; [done|].
    apply cong_sym. eapply cong_mono; [|apply KeyToDirectoryIndex_cong; apply Hok].
    apply (dir_local _ (ok_dir _ _ Hok)), KeyToDirectoryIndex_live, Hok. }
  destruct (write_bucket_finish ht d k b' false flag Hinv Hpl')
    as (HinvF & _ & HbF & HkeepF & _).
  cbv zeta in HinvF, HbF, HkeepF.
  set (htF := (UnpinPage (UnpinPage (write_page _ _ _) _ _).2 _ _).2) in *.
  assert (∀ key value,
            stored_in d (pages htF) key value →
            stored_in d (pages ht) key value ∨ (flag = true ∧ key = k ∧ value = v))
    as Hback.
  { intros key0 value0.
    apply (stored_in_write_from d (pages ht) _ (KeyToPageId k d) b b' key0 value0 _
             (ok_buckets _ _ Hok) Hb HbF HkeepF).
    intros Hh. destruct flag.
    - replace b' with (B.Insert b k v).2 in Hh by (by rewrite Hi).
      destruct (holds_Insert_from b k v key0 value0 (proj1 Hpl) Hh); [by left|by right].
    - apply Insert_false in Hi as [-> _]. by left. }
  destruct flag; simpl negb in Hrun; cbv iota in Hrun.
  - injection Hrun as <- <-. split; [|done].
    intros Hst%(stores_Inv htF d); [|done]. by apply Hback.
  - destruct (SplitInsert_rec_from _ htF d k v r ht' key value HinvF Hrun) as [Hfrom Hfalse].
    split.
    + intros Hst. destruct (Hfrom Hst) as [HstF|?]; [|by right].
      destruct (Hback _ _ HstF) as [?|([=] & _)]. by left.
    + intros Hr. destruct (Hfalse Hr) as (key' & Hc & HstF).
      destruct (Hback _ _ HstF) as [?|([=] & _)]. by exists key'.
Qed.

Lemma Remove_from ht d k v r ht' key value :
  Inv ht d → Remove ht k v = Ret (r, ht') →
  stores ht' key value → stored_in d (pages ht) key value.
Proof.
  intros Hinv Hrun Hst.
  destruct (Remove_table_spec
              (λ b, ∀ key value, B.holds b key value → stored_in d (pages ht) key value)
              ht d k v r ht' Hinv) as (d1 & Hinv1 & _ & HP); [| |done|].
  - intros i b Hi _ Hb key0 value0 Hh. by exists i, b.
  - intros b Hb key0 value0 Hh.
    destruct (Inv_bucket ht d k Hinv) as (b0 & Hb0 & Hpl & _).
    rewrite Hb in Hb0. injection Hb0 as <-.
    exists (KeyToDirectoryIndex k d), b. split_and!; [|done|].
    + apply KeyToDirectoryIndex_live. destruct Hinv as [_ Hok]. apply Hok.
    + by eapply holds_Remove_from; [apply Hpl|].
  - pose proof (proj1 (stores_Inv ht' d1 key value Hinv1) Hst) as (i & b & Hi & Hb & Hh).
    by apply (HP i b).
Qed.

Lemma Remove_flag ht d k v r ht' b :
  Inv ht d → Remove ht k v = Ret (r, ht') →
  bucket_of (pages ht) (KeyToPageId k d) = Some b → r = (B.Remove b k v).1.
Proof.
  intros [Hd Hok] Hrun Hb. unfold Remove in Hrun.
  rewrite (FetchDirectoryPage_ok _ _ Hd), bind_Ret_l in Hrun. cbv beta iota zeta in Hrun.
  rewrite (FetchBucketPage_ok _ _ b) in Hrun by done.
  rewrite bind_Ret_l in Hrun. cbv beta iota zeta in Hrun.
  destruct (B.Remove b k v) as [flag b'] eqn:Hr. simpl.
  destruct flag; cbv iota in Hrun.
  - by apply bind_Ret in Hrun as (ht1 & _ & [= <- _]).
  - by injection Hrun as <- _.
Qed.

(** A pair the index stores under a key that compares equal to [k] is in
    the bucket [k] is routed to, where it matches [(k, v)]. *)
Lemma matched_routed ht d k key' v :
  Inv ht d → comparator_ key' k = 0 → stored_in d (pages ht) key' v →
  ∃ b j, bucket_of (pages ht) (KeyToPageId k d) = Some b ∧
         (j < B.BUCKET_ARRAY_SIZE)%nat ∧ B.entry_match b k v j = true.
Proof.
  intros Hinv Hc (i & b & Hi & Hb & (j & Hj & Hr & Hk & Hv)).
  assert (B.entry_match b k v j = true) as Hm.
  { unfold B.entry_match. rewrite Hr, Hk, Hv, Hc.
    by rewrite bool_decide_eq_true_2. }
  exists b, j. split_and!; [|done..].
  by rewrite <- (match_routed ht d k v i b j Hinv Hi Hb Hj Hm).
Qed.

(** A pair the index stores is in the bucket its key is routed to. *)
Lemma stored_in_routed ht d k v :
  Inv ht d → stored_in d (pages ht) k v →
  ∃ b j, bucket_of (pages ht) (KeyToPageId k d) = Some b ∧
         (j < B.BUCKET_ARRAY_SIZE)%nat ∧ B.entry_match b k v j = true.
Proof. intros Hinv. apply matched_routed; [done|]. apply comparator_refl. Qed.

(** [Insert] adds its pair and nothing else.  A returning [Insert] returns
    false exactly when the index stores the pair already; whatever it does
    on the way (a split in place, a doubling of the directory, several of
    them), the pairs the index stores afterwards are the pairs it stored
    before and the inserted pair. *)
Theorem index_Insert_adds_the_pair (ht : t) :
  reachable ht →
  ∀ k v r ht', Insert ht k v = Ret (r, ht') →
    (r = false ↔ stores ht k v) ∧
    ∀ key value,
      stores ht' key value ↔ stores ht key value ∨ (key = k ∧ value = v).
Proof.
  intros Hreach k v r ht' Hrun. destruct (reachable_Inv ht Hreach) as [[d Hinv] _].
  assert (r = false ↔ stores ht k v) as Hfalse.
  { rewrite (stores_Inv ht d k v Hinv). split.
    - intros Hr.
      destruct (proj2 (Insert_from ht d k v r ht' k v Hinv Hrun) Hr) as (key' & Hc & Hst).
      by rewrite <- (comparator_eq _ _ Hc).
    - intros (b & j & Hb & Hj & Hm)%stored_in_routed; [|done].
      destruct (Insert_dup ht d k v b j Hinv Hb Hj Hm) as (ht2 & Heq & _).
      rewrite Heq in Hrun. by injection Hrun as <- _. }
  split; [done|]. intros key value. split.
  - intros Hst. rewrite (stores_Inv ht d key value Hinv).
    destruct (Insert_from ht d k v r ht' key value Hinv Hrun) as [Hfrom _].
    destruct (Hfrom Hst) as [?|(_ & ?)]; [by left|by right].
  - intros [Hst|[-> ->]].
    + apply (Insert_keeps ht d k v r ht'); [done..|]. by apply (stores_Inv ht d).
    + destruct r.
      * destruct (Insert_spec ht d k v true ht' Hinv Hrun) as (d' & Hinv' & _ & Hst).
        destruct (Hst eq_refl) as (b & Hb & (p & Hp & Hr & Hk & Hv & _)).
        apply (stores_Inv ht' d'); [done|].
        exists (KeyToDirectoryIndex k d'), b. split_and!; [|done|by exists p].
        apply KeyToDirectoryIndex_live. destruct Hinv' as [_ Hok']. apply Hok'.
      * apply (Insert_keeps ht d k v false ht'); [done..|].
        apply (stores_Inv ht d); [done|]. by apply Hfalse.
Qed.

(** [Remove] removes its pair and nothing else.  A returning [Remove]
    returns true exactly when the index stores the pair; with the merges and
    the shrinking of the directory it makes, the pairs the index stores
    afterwards are the pairs it stored before, without the removed pair. *)
Theorem index_Remove_removes_the_pair (ht : t) :
  reachable ht →
  ∀ k v r ht', Remove ht k v = Ret (r, ht') →
    (r = true ↔ stores ht k v) ∧
    ∀ key value,
      stores ht' key value ↔ stores ht key value ∧ ¬ (key = k ∧ value = v).
Proof.
  intros Hreach k v r ht' Hrun. destruct (reachable_Inv ht Hreach) as [[d Hinv] _].
  assert (¬ stores ht' k v) as Hgone.
  { destruct (Remove_table_spec (λ b, without b k v) ht d k v r ht' Hinv)
      as (d1 & Hinv1 & _ & Hno); [| |done|].
    { intros i b Hi Hne Hb j Hj. destruct (B.entry_match b k v j) eqn:Hm; [|done].
      exfalso. apply Hne. by eapply match_routed. }
    { intros b Hb. destruct (Inv_bucket ht d k Hinv) as (b0 & Hb0 & Hpl & _).
      rewrite Hb in Hb0. injection Hb0 as <-. apply without_Remove, Hpl. }
    intros (i & b & Hi & Hb & (j & Hj & Hr & Hk & Hv))%(stores_Inv ht' d1); [|done].
    pose proof (Hno i b Hi Hb j Hj) as Hm. unfold B.entry_match in Hm.
    rewrite Hr, Hk, Hv, comparator_refl in Hm.
    by rewrite bool_decide_eq_true_2 in Hm. }
  split.
  - destruct (Inv_bucket ht d k Hinv) as (b & Hb & Hpl & _).
    rewrite (Remove_flag ht d k v r ht' b Hinv Hrun Hb).
    rewrite (Remove_fst_iff b k v (proj1 Hpl)), (stores_Inv ht d k v Hinv). split.
    + intros (j & Hj & Hm). exists (KeyToDirectoryIndex k d), b. split_and!; [|done|].
      * apply KeyToDirectoryIndex_live. destruct Hinv as [_ Hok]. apply Hok.
      * by eapply entry_match_holds.
    + intros (b0 & j & Hb0 & Hj & Hm)%stored_in_routed; [|done].
      assert (b0 = b) as -> by congruence. by exists j.
  - intros key value. split.
    + intros Hst. split.
      * apply (stores_Inv ht d); [done|]. by apply (Remove_from ht d k v r ht').
      * intros [-> ->]. by apply Hgone.
    + intros [Hst Hne]. apply (Remove_keeps ht d k v r ht'); [done..|].
      by apply (stores_Inv ht d).
Qed.

(** [GetValue] returns what the index stores under the key: the values
    appended to [result] are exactly the values of the pairs stored with
    that key, and the flag says whether there is one. *)
Theorem index_GetValue_returns_the_stored (ht : t) :
  reachable ht →
  ∀ key result, ∃ flag vs ht',
    GetValue ht key result = Ret (flag, result ++ vs, ht') ∧
    (∀ value, value ∈ vs ↔ stores ht key value) ∧
    (flag = true ↔ ∃ value, stores ht key value).
Proof.
  intros Hreach key result. destruct (reachable_Inv ht Hreach) as [[d Hinv] _].
  destruct (GetValue_spec ht d key result Hinv) as (b & ht' & Hb & Heq & _).
  unfold B.GetValue in Heq. rewrite GetValue_loop_spec in Heq. simpl in Heq.
  assert (live d (KeyToDirectoryIndex key d)) as Hlive.
  { apply KeyToDirectoryIndex_live. destruct Hinv as [_ Hok]. apply Hok. }
  assert (∀ j, (j < B.BUCKET_ARRAY_SIZE)%nat → B.key_match b key j = true →
               stores ht key (B.ValueAt b j)) as Hfound.
  { intros j Hj Hm. apply (stores_Inv ht d); [done|].
    exists (KeyToDirectoryIndex key d), b. split_and!; [done..|].
    apply (entry_match_holds b key (B.ValueAt b j) j Hj).
    rewrite entry_match_key, Hm. simpl. by apply bool_decide_eq_true. }
  assert (∀ value, stores ht key value →
            ∃ j, (j < B.BUCKET_ARRAY_SIZE)%nat ∧ B.key_match b key j = true ∧
                 B.ValueAt b j = value) as Hstored.
  { intros value Hst%(stores_Inv ht d); [|done].
    destruct (stored_in_routed ht d key value Hinv Hst) as (b0 & j & Hb0 & Hj & Hm).
    assert (b0 = b) as -> by congruence.
    rewrite entry_match_key in Hm.
    apply andb_true_iff in Hm as [Hm Hv%bool_decide_eq_true]. by exists j. }
  eexists _, _, ht'. split; [exact Heq|]. split.
  - intros value. rewrite list_elem_of_fmap. split.
    + intros (j & -> & [Hm Hj%elem_of_seq]%list_elem_of_filter). apply Hfound; [lia|done].
    + intros (j & Hj & Hm & Hv)%Hstored. exists j. split; [done|].
      apply list_elem_of_filter. split; [done|]. apply elem_of_seq. lia.
  - rewrite existsb_exists. split.
    + intros (j & Hj%in_seq & Hm). exists (B.ValueAt b j). apply Hfound; [lia|done].
    + intros (value & (j & Hj & Hm & _)%Hstored). exists j. split; [apply in_seq; lia|done].
Qed.

End NothingLost.

Section NothingLostWitnesses.
Import ExtendibleHashTable.
#[local] Existing Instance Key64RID.

Lemma Key64RID_comparator_eq (a b : Z) : IntegerComparator a b = 0 → a = b.
Proof.
  unfold IntegerComparator.
  destruct (Z.ltb_spec a b); [done|]. destruct (Z.ltb_spec b a); [done|]. lia.
Qed.

Lemma index_Insert_adds_the_pair_witness :
  ∃ ht : t,
    Scenario.after Scenario.split_ops = Ret ht ∧
    ∀ k v r ht', Insert ht k v = Ret (r, ht') →
      (r = false ↔ stores ht k v) ∧
      ∀ key value,
        stores ht' key value ↔ stores ht key value ∨ (key = k ∧ value = v).
Proof.
  destruct split_table_reachable as (ht & Hht & Hreach).
  exists ht. split; [exact Hht|].
  exact (index_Insert_adds_the_pair (L := Key64RID_laws) Key64RID_comparator_eq ht Hreach).
Defined.

Lemma index_Remove_removes_the_pair_witness :
  ∃ ht : t,
    Scenario.after Scenario.split_ops = Ret ht ∧
    ∀ k v r ht', Remove ht k v = Ret (r, ht') →
      (r = true ↔ stores ht k v) ∧
      ∀ key value,
        stores ht' key value ↔ stores ht key value ∧ ¬ (key = k ∧ value = v).
Proof.
  destruct split_table_reachable as (ht & Hht & Hreach).
  exists ht. split; [exact Hht|].
  exact (index_Remove_removes_the_pair (L := Key64RID_laws) Key64RID_comparator_eq ht Hreach).
Defined.

Lemma index_GetValue_returns_the_stored_witness :
  ∃ ht : t,
    Scenario.after Scenario.split_ops = Ret ht ∧
    ∀ key result, ∃ flag vs ht',
      GetValue ht key result = Ret (flag, result ++ vs, ht') ∧
      (∀ value, value ∈ vs ↔ stores ht key value) ∧
      (flag = true ↔ ∃ value, stores ht key value).
Proof.
  destruct split_table_reachable as (ht & Hht & Hreach).
  exists ht. split; [exact Hht|].
  exact (index_GetValue_returns_the_stored (L := Key64RID_laws) Key64RID_comparator_eq
           ht Hreach).
Defined.

End NothingLostWitnesses.

(** * Insert, look up, remove *)
Section IndexRoundTrip.
Context {T : HashTableTypes} {L : HashTableLaws T}.
Import ExtendibleHashTable.



Lemma filter_one_elem {A} (P : A → Prop) `{∀ x, Decision (P x)} (l : list A) :
  length (filter P l) = 1%nat → ∃ x, x ∈ l ∧ P x.
Proof.
  destruct (filter P l) as [|x rest] eqn:Hf; [done|]. intros _.
  assert (x ∈ filter P l) as Hx by (rewrite Hf; by left).
  apply list_elem_of_filter in Hx as [HP Hx]. by exists x.
Qed.


End IndexRoundTrip.

Section IndexRoundTripWitness.
Import ExtendibleHashTable.
#[local] Existing Instance Key64RID.



End IndexRoundTripWitness.
